(** * asn1ate: the semantic model of ASN.1 modules (sema.py)

    A shallow embedding of [asn1ate/sema.py].  Sema nodes are Python
    objects: they live in a store, they are mutated in place by
    [auto_tag] and by the [user_types] cache, and [children] finds the
    sub-nodes of a node by reflection over its attributes.  The embedding
    keeps all of that: a node is a class name with its attribute
    dictionary, the store is a list of nodes addressed by position, and
    every function of the source that reads or writes nodes takes the
    store and gives it back. *)

From Stdlib Require Import ZArith Lia DecimalString DecimalZ DecimalPos DecimalNat.
From stdpp Require Import base option list strings relations sorting.

Set Warnings "-register-all".
Open Scope string_scope.
Open Scope list_scope.

(** ** Python values, objects and the store *)

Abbreviation loc := nat (only parsing).

(** What the parser delivers: annotated tokens [{ty, elements}], primitive
    leaves and plain sequences of those. *)
Inductive token :=
| PNone
| PStr (s : string)
| PSeq (items : list token)
| PTok (ty : string) (elements : list token).

(** The classes of sema.py, abstract bases included. *)
Inductive Class :=
| SemaNode | Module | Exports | Imports | GlobalModuleReference
| Assignment | TypeAssignment | ValueAssignment
| ConstructedType | ChoiceType | SequenceType | SetType
| CollectionType | SequenceOfType | SetOfType
| TaggedType | SimpleType | ReferencedType | DefinedType | SelectionType
| ReferencedValue | SingleValueConstraint | ValueRangeConstraint
| SizeConstraint | ComponentType | NamedType | ValueListType
| BitStringType | NamedValue | ExtensionMarker | NameForm | NumberForm
| NameAndNumberForm | ObjectIdentifierValue | BinaryStringValue
| HexStringValue.

#[global] Instance Class_eq_dec : EqDecision Class.
Proof. solve_decision. Defined.

(** The direct base class, as the [class X(Base)] headers give it. *)
Definition base_class (c : Class) : option Class :=
  match c with
  | SemaNode => None
  | TypeAssignment | ValueAssignment => Some Assignment
  | ChoiceType | SequenceType | SetType => Some ConstructedType
  | SequenceOfType | SetOfType => Some CollectionType
  | DefinedType | SelectionType => Some ReferencedType
  | _ => Some SemaNode
  end.

(** [issubclass]: the hierarchy is two levels deep below [SemaNode]. *)
Definition issubclass (c b : Class) : bool :=
  bool_decide (c = b)
  || match base_class c with
     | Some c1 =>
         bool_decide (c1 = b)
         || match base_class c1 with
            | Some c2 => bool_decide (c2 = b)
            | None => false
            end
     | None => false
     end.

(** Values an attribute can hold.  [VRef] is a reference to a sema node in
    the store; [VTok] is a parser object kept as it came. *)
Inductive val :=
| VNone
| VBool (b : bool)
| VInt (z : Z)
| VStr (s : string)
| VRef (l : loc)
| VList (vs : list val)
| VDict (kvs : list (val * val))
| VTok (t : token).

(** An object: its class and [vars(self)], in insertion order. *)
Record obj := Obj { cls : Class; attrs : list (string * val) }.

Abbreviation heap := (list obj).

(** The exceptions the model raises.  [CyclicReferences] is the
    [Exception] of [topological_sort], whose message is made of the graph
    that is left; it carries that graph. *)
Inductive exn :=
| Exception (msg : string)
| AttributeError (name : string)
| KeyError (key : val)
| IndexError
| TypeError
| ValueError
| RecursionError
| CyclicReferences (graph : list (string * list string)).

Inductive res (A : Type) :=
| Ok (a : A)
| Raise (e : exn).
Arguments Ok {A} a.
Arguments Raise {A} e.

Definition res_bind {A B} (m : res A) (k : A -> res B) : res B :=
  match m with
  | Ok a => k a
  | Raise e => Raise e
  end.

Declare Scope res_scope.
Delimit Scope res_scope with res.
Notation "x <~ m ;; k" := (res_bind m (fun x => k))
  (at level 100, m at next level, right associativity) : res_scope.
Open Scope res_scope.

(** [==] on the values the model compares.  References compare by identity:
    no class of sema.py defines [__eq__].  Parser objects and dictionaries
    are never equal to anything here (the source never compares them). *)
Fixpoint py_eq (a b : val) : bool :=
  match a, b with
  | VNone, VNone => true
  | VBool x, VBool y => bool_decide (x = y)
  | VInt x, VInt y => bool_decide (x = y)
  | VBool x, VInt y | VInt y, VBool x => bool_decide (Z.b2z x = y)
  | VStr x, VStr y => bool_decide (x = y)
  | VRef x, VRef y => bool_decide (x = y)
  | VList xs, VList ys =>
      (fix go (xs ys : list val) : bool :=
         match xs, ys with
         | [], [] => true
         | x :: xs', y :: ys' => py_eq x y && go xs' ys'
         | _, _ => false
         end) xs ys
  | _, _ => false
  end.

(** *** Attribute dictionaries *)

Fixpoint assoc {V} (k : string) (d : list (string * V)) : option V :=
  match d with
  | [] => None
  | (k', v) :: d' => if bool_decide (k' = k) then Some v else assoc k d'
  end.

(** [d[k] = v] on an insertion-ordered dictionary: an existing key keeps
    its place, a new one goes last. *)
Fixpoint assoc_set {V} (k : string) (v : V) (d : list (string * V))
  : list (string * V) :=
  match d with
  | [] => [(k, v)]
  | (k', v') :: d' =>
      if bool_decide (k' = k) then (k, v) :: d' else (k', v') :: assoc_set k v d'
  end.

Definition vars (h : heap) (l : loc) : list (string * val) :=
  match h !! l with
  | Some o => attrs o
  | None => []
  end.

(** [hasattr(v, name)] for a value: only sema nodes carry the attributes
    the source asks for. *)
Definition hasattr (h : heap) (v : val) (name : string) : bool :=
  match v with
  | VRef l => bool_decide (is_Some (assoc name (vars h l)))
  | _ => false
  end.

Definition getattr (h : heap) (v : val) (name : string) : res val :=
  match v with
  | VRef l =>
      match assoc name (vars h l) with
      | Some x => Ok x
      | None => Raise (AttributeError name)
      end
  | _ => Raise (AttributeError name)
  end.

(** [obj.name = v]: in place, on the object at [l]. *)
Definition setattr (h : heap) (l : loc) (name : string) (v : val) : heap :=
  match h !! l with
  | Some o => <[l := Obj (cls o) (assoc_set name v (attrs o))]> h
  | None => h
  end.

(** A new object goes to the end of the store; its reference is the old
    length. *)
Definition alloc (h : heap) (o : obj) : loc * heap := (length h, h ++ [o]).

Definition isinstance (h : heap) (v : val) (c : Class) : bool :=
  match v with
  | VRef l =>
      match h !! l with
      | Some o => issubclass (cls o) c
      | None => false
      end
  | _ => false
  end.

(** ** SemaNode.children and SemaNode.descendants *)

Definition node_refs (v : val) : list loc :=
  match v with
  | VRef l => [l]
  | _ => []
  end.

Definition list_node_refs (v : val) : list loc :=
  match v with
  | VList vs => flat_map node_refs vs
  | _ => []
  end.

(** The SemaNode members, then the SemaNodes inside list members, one level
    deep. *)
Definition children_of (o : obj) : list loc :=
  let members := map snd (attrs o) in
  flat_map node_refs members ++ flat_map list_node_refs members.

Definition children (h : heap) (l : loc) : list loc :=
  match h !! l with
  | Some o => children_of o
  | None => []
  end.

(** [descendants] recurses as deep as the model is; on a store with a
    reference cycle Python never returns, and no fuel is enough. *)
Fixpoint descendants (fuel : nat) (h : heap) (l : loc) : option (list loc) :=
  match fuel with
  | O => None
  | S n =>
      foldr (fun child acc =>
               match descendants n h child, acc with
               | Some ds, Some rest => Some (child :: ds ++ rest)
               | _, _ => None
               end)
            (Some []) (children h l)
  end.

(** ** TagImplicitness *)

Module TagImplicitness.
Definition IMPLICIT : Z := 0.
Definition EXPLICIT : Z := 1.
Definition AUTOMATIC : Z := 2.
End TagImplicitness.

(** ** TaggedType.__init__, called with a four-tuple

    [class_name, class_number, implicitness, type_decl = elements]; the
    [implicitness] attribute is set only for 'IMPLICIT', 'EXPLICIT' and
    None. *)
Definition TaggedType_init4 (class_name class_number implicitness type_decl : val)
  : obj :=
  let a := [("class_name", class_name); ("class_number", class_number);
            ("type_decl", type_decl)] in
  Obj TaggedType
    (if py_eq implicitness (VStr "IMPLICIT")
     then a ++ [("implicitness", VInt TagImplicitness.IMPLICIT)]
     else if py_eq implicitness (VStr "EXPLICIT")
     then a ++ [("implicitness", VInt TagImplicitness.EXPLICIT)]
     else match implicitness with
          | VNone => a ++ [("implicitness", VNone)]
          | _ => a
          end).

(** [str(n)] for a natural number. *)
Definition str_of_nat (n : nat) : string :=
  NilZero.string_of_uint (Nat.to_uint n).

(** ** ConstructedType.auto_tag *)

Definition is_ref (v : val) : bool :=
  match v with
  | VRef _ => true
  | _ => false
  end.

(** [[c.type_decl for c in self.components if hasattr(c, 'type_decl')]] *)
Definition component_types (h : heap) (components : list val) : list val :=
  omap (fun c => match c with
                 | VRef l => assoc "type_decl" (vars h l)
                 | _ => None
                 end) components.

(** [[c for c in self.children() if hasattr(c, 'type_decl')]] *)
Definition typed_children (h : heap) (self : loc) : list loc :=
  filter (fun c => hasattr h (VRef c) "type_decl" = true) (children h self).

(** The same over a list of components: the sema nodes among them that have
    a [type_decl]. *)
Definition typed_refs (h : heap) (components : list val) : list loc :=
  filter (fun c => hasattr h (VRef c) "type_decl" = true)
         (flat_map node_refs components).

(** One turn of the loop: wrap [child.type_decl] in a fresh TaggedType. *)
Definition wrap_child (h : heap) (tag_number : nat) (child : loc) : heap :=
  match assoc "type_decl" (vars h child) with
  | Some element =>
      let '(t, h1) :=
        alloc h (TaggedType_init4 VNone (VStr (str_of_nat tag_number)) VNone element) in
      setattr h1 child "type_decl" (VRef t)
  | None => h
  end.

Fixpoint wrap_children (h : heap) (tag_number : nat) (cs : list loc) : heap :=
  match cs with
  | [] => h
  | c :: cs' => wrap_children (wrap_child h tag_number c) (S tag_number) cs'
  end.

Definition already_tagged (h : heap) (components : list val) : bool :=
  existsb (fun c => isinstance h c TaggedType) (component_types h components).

Definition auto_tag (h : heap) (self : loc) : res heap :=
  components <~ getattr h (VRef self) "components";;
  match components with
  | VList cs =>
      if already_tagged h cs then Ok h
      else Ok (wrap_children h 0 (typed_children h self))
  | _ => Raise TypeError
  end.

(** The TaggedType that [auto_tag] puts around [element]. *)
Definition auto_tagged (tag_number : nat) (element : val) : obj :=
  Obj TaggedType [("class_name", VNone);
                  ("class_number", VStr (str_of_nat tag_number));
                  ("type_decl", element); ("implicitness", VNone)].

(** The object at [c] has a [type_decl] attribute. *)
Definition typed (h : heap) (c : loc) : Prop :=
  is_Some (assoc "type_decl" (vars h c)).

(** ConstructedType.__init__: [type_name, component_tokens = elements]; the
    components are the sema nodes the factory made of the tokens. *)
Definition ConstructedType_init (c : Class) (type_name : val) (components : list val)
  : obj :=
  Obj c [("type_name", type_name); ("components", VList components)].


(** ** The construction monad

    Building the model allocates objects and draws names from the
    process-wide counter of unnamed members. *)

Record state := State { st_heap : heap; unnamed_counter : nat }.

Definition M (A : Type) : Type := state -> res (A * state).

Definition ret {A} (a : A) : M A := fun st => Ok (a, st).

Definition bind {A B} (m : M A) (k : A -> M B) : M B :=
  fun st => match m st with
            | Ok (a, st') => k a st'
            | Raise e => Raise e
            end.

Definition raise {A} (e : exn) : M A := fun _ => Raise e.

Definition lift {A} (r : res A) : M A :=
  fun st => match r with
            | Ok a => Ok (a, st)
            | Raise e => Raise e
            end.

Declare Scope M_scope.
Delimit Scope M_scope with M.
Notation "x <- m ;; k" := (bind m (fun x => k))
  (at level 100, m at next level, right associativity) : M_scope.
Notation "m ;;; k" := (bind m (fun _ => k))
  (at level 100, right associativity) : M_scope.

(** An object enters the store when its constructor returns; no constructor
    of sema.py hands [self] to anyone before that. *)
Definition new (c : Class) (a : list (string * val)) : M val :=
  fun st =>
    let '(l, h) := alloc (st_heap st) (Obj c a) in
    Ok (VRef l, State h (unnamed_counter st)).

Definition attr (v : val) (name : string) : M val :=
  fun st => lift (getattr (st_heap st) v name) st.

(** [_get_next_unnamed] *)
Definition _get_next_unnamed : M string :=
  fun st =>
    let n := S (unnamed_counter st) in
    Ok ("unnamed" +:+ str_of_nat n, State (st_heap st) n).

(** [seq[i]] *)
Definition index {A} (l : list A) (i : nat) : res A :=
  match l !! i with
  | Some x => Ok x
  | None => Raise IndexError
  end.

Definition tok_ty (t : token) : res string :=
  match t with
  | PTok ty _ => Ok ty
  | _ => Raise (AttributeError "ty")
  end.

Definition tok_elements (t : token) : res (list token) :=
  match t with
  | PTok _ es => Ok es
  | _ => Raise (AttributeError "elements")
  end.

(** A parser leaf stored in an attribute. *)
Definition val_of_token (t : token) : val :=
  match t with
  | PNone => VNone
  | PStr s => VStr s
  | _ => VTok t
  end.

(** The object at [self] is a SEQUENCE, SET or CHOICE as its constructor
    leaves it: the type name is the first element of the token as it is. *)
Definition is_constructed_type (h : heap) (self : loc) (components : list val) : Prop :=
  exists c type_name,
    issubclass c ConstructedType = true /\
    h !! self = Some (ConstructedType_init c (val_of_token type_name) components).

(** [_assert_annotated_token]; the message keeps the constant part of the
    format string. *)
Definition _assert_annotated_token (t : token) : res unit :=
  match t with
  | PTok _ _ => Ok tt
  | _ => Raise (Exception "Object is not an annotated token")
  end.

(** *** Dictionaries keyed by values

    Insertion-ordered; keys are compared with [==], which for sema nodes is
    object identity. *)

Fixpoint dict_get (k : val) (d : list (val * val)) : option val :=
  match d with
  | [] => None
  | (k', v) :: d' => if py_eq k' k then Some v else dict_get k d'
  end.

Fixpoint dict_set (k v : val) (d : list (val * val)) : list (val * val) :=
  match d with
  | [] => [(k, v)]
  | (k', v') :: d' =>
      if py_eq k' k then (k', v) :: d' else (k', v') :: dict_set k v d'
  end.

(** [d.setdefault(k, []).extend(items)] *)
Definition dict_setdefault_extend (k : val) (items : list val)
  (d : list (val * val)) : list (val * val) :=
  match dict_get k d with
  | Some (VList old) => dict_set k (VList (old ++ items)) d
  | Some _ => d
  | None => dict_set k (VList items) d
  end.

Fixpoint chars (s : string) : list string :=
  match s with
  | EmptyString => []
  | String a s' => String a EmptyString :: chars s'
  end.

(** Iterating over a parser result: a sequence gives its items, a string
    its characters. *)
Definition iter_tokens (t : token) : res (list token) :=
  match t with
  | PSeq items => Ok items
  | PStr s => Ok (map PStr (chars s))
  | _ => Raise TypeError
  end.

(** [a, b, c = t] *)
Definition unpack3 (t : token) : res (token * token * token) :=
  items <~ iter_tokens t;;
  match items with
  | [a; b; c] => Ok (a, b, c)
  | _ => Raise ValueError
  end.

(** The truth value of a parser result. *)
Definition truthy (t : token) : bool :=
  match t with
  | PNone | PStr "" | PSeq [] => false
  | _ => true
  end.

(** [int(v)] and [str(z)], for decimal numerals. *)
Definition int_of_val (v : val) : res Z :=
  match v with
  | VInt z => Ok z
  | VBool b => Ok (Z.b2z b)
  | VStr s =>
      match NilZero.int_of_string s with
      | Some d => Ok (Z.of_int d)
      | None => Raise ValueError
      end
  | _ => Raise TypeError
  end.

Definition str_of_Z (z : Z) : string := NilZero.string_of_int (Z.to_int z).

(** The numbering loop of ValueListType.__init__: a NamedValue without a
    value gets 0 if it is the first, else one more than the element before
    it. *)
Fixpoint number_named_values (h : heap) (previous : option val)
  (named_values : list val) : res heap :=
  match named_values with
  | [] => Ok h
  | n :: rest =>
      h' <~ (if isinstance h n NamedValue then
               value <~ getattr h n "value";;
               match value, n with
               | VNone, VRef l =>
                   match previous with
                   | None => Ok (setattr h l "value" (VStr (str_of_nat 0)))
                   | Some p =>
                       pv <~ getattr h p "value";;
                       z <~ int_of_val pv;;
                       Ok (setattr h l "value" (VStr (str_of_Z (z + 1))))
                   end
               | _, _ => Ok h
               end
             else Ok h);;
      number_named_values h' (Some n) rest
  end.

Section Constructors.

(** [_create_sema_node], the factory every constructor calls back into. *)
Variable create : token -> M val.

Definition _maybe_create_sema_node (t : token) : M val :=
  match t with
  | PTok _ _ => create t
  | _ => ret (val_of_token t)
  end.

(** [[_create_sema_node(token) for token in tokens]] *)
Fixpoint create_each (tokens : list token) : M (list val) :=
  match tokens with
  | [] => ret []
  | t :: rest =>
      (node <- create t;;
       nodes <- create_each rest;;
       ret (node :: nodes))%M
  end.

(** GlobalModuleReference.__init__ *)
Definition GlobalModuleReference_init (module oid : token) : M val :=
  (es <- lift (tok_elements module);;
   name <- lift (index es 0);;
   oid' <- _maybe_create_sema_node oid;;
   new GlobalModuleReference [("module", val_of_token name); ("oid", oid')])%M.

(** Imports.__init__: for each clause, a fresh GlobalModuleReference is
    the key under which the symbols are filed. *)
Fixpoint Imports_clauses (elements : list token) (imports : list (val * val))
  : M (list (val * val)) :=
  match elements with
  | [] => ret imports
  | clause :: rest =>
      (parts <- lift (unpack3 clause);;
       module <- GlobalModuleReference_init (snd (fst parts)) (snd parts);;
       symbols <- lift (iter_tokens (fst (fst parts)));;
       Imports_clauses rest
         (dict_setdefault_extend module (map val_of_token symbols) imports))%M
  end.

Definition Imports_init (elements : list token) : M val :=
  (imports <- Imports_clauses elements [];;
   new Imports [("imports", VDict imports)])%M.

(** Exports.__init__ *)
Definition Exports_init (elements : list token) : M val :=
  new Exports [("symbols", VList (map val_of_token elements))].

(** Module.__init__ *)
Definition Module_tag_default (tag_default : token) : res Z :=
  match tag_default with
  | PStr s =>
      if bool_decide (s = "IMPLICIT TAGS") then Ok TagImplicitness.IMPLICIT
      else if bool_decide (s = "EXPLICIT TAGS") then Ok TagImplicitness.EXPLICIT
      else if bool_decide (s = "AUTOMATIC TAGS") then Ok TagImplicitness.AUTOMATIC
      else Raise (Exception ("Unexpected tag default: " +:+ s))
  | PNone => Ok TagImplicitness.EXPLICIT
  | _ => Raise (Exception "Unexpected tag default: ")
  end.

Definition Module_init (elements : list token) : M val :=
  match elements with
  | [module_reference; definitive_identifier; tag_default; extension_default;
     module_body] =>
      (es <- lift (tok_elements module_reference);;
       name <- lift (index es 0);;
       tag_default' <- lift (Module_tag_default tag_default);;
       body <- lift (tok_elements module_body);;
       match body with
       | [exports; imports; assignments] =>
           exports' <- _maybe_create_sema_node exports;;
           imports' <- _maybe_create_sema_node imports;;
           tokens <- lift (tok_elements assignments);;
           assignments' <- create_each tokens;;
           new Module [("_user_types", VDict []); ("name", val_of_token name);
                       ("tag_default", VInt tag_default');
                       ("exports", exports'); ("imports", imports');
                       ("assignments", VList assignments')]
       | _ => raise ValueError
       end)%M
  | _ => raise ValueError
  end.

(** TypeAssignment.__init__ *)
Definition TypeAssignment_init (elements : list token) : M val :=
  match elements with
  | [type_name; _; type_decl] =>
      (type_decl' <- create type_decl;;
       new TypeAssignment [("type_name", val_of_token type_name);
                           ("type_decl", type_decl')])%M
  | _ => raise (Exception "Malformed type assignment")
  end.

(** ValueAssignment.__init__ *)
Definition ValueAssignment_init (elements : list token) : M val :=
  match elements with
  | [value_name; type_name; _; value] =>
      (type_decl <- create type_name;;
       value' <- _maybe_create_sema_node value;;
       new ValueAssignment [("value_name", val_of_token value_name);
                            ("type_decl", type_decl); ("value", value')])%M
  | _ => raise ValueError
  end.

(** ConstructedType.__init__, for ChoiceType, SequenceType and SetType. *)
Definition ConstructedType_new (c : Class) (elements : list token) : M val :=
  match elements with
  | [type_name; component_tokens] =>
      (tokens <- lift (iter_tokens component_tokens);;
       components <- create_each tokens;;
       fun st =>
         let '(l, h) := alloc (st_heap st)
                          (ConstructedType_init c (val_of_token type_name) components) in
         Ok (VRef l, State h (unnamed_counter st)))%M
  | _ => raise ValueError
  end.

(** CollectionType.__init__, for SequenceOfType and SetOfType. *)
Definition CollectionType_init (c : Class) (kind : string) (elements : list token)
  : M val :=
  (e0 <- lift (index elements 0);;
   size_constraint <- _maybe_create_sema_node e0;;
   e1 <- lift (index elements 1);;
   type_decl <- create e1;;
   new c [("kind", VStr kind); ("type_name", VStr (kind +:+ " OF"));
          ("size_constraint", size_constraint); ("type_decl", type_decl)])%M.

(** The loop of TaggedType.__init__ over the elements of the tag. *)
Fixpoint TaggedType_tag (tag_elements : list token) (class_name class_number : val)
  : res (val * val) :=
  match tag_elements with
  | [] => Ok (class_name, class_number)
  | tag_element :: rest =>
      ty <~ tok_ty tag_element;;
      es <~ tok_elements tag_element;;
      if bool_decide (ty = "TagClassNumber") then
        e <~ index es 0;;
        TaggedType_tag rest class_name (val_of_token e)
      else if bool_decide (ty = "TagClass") then
        e <~ index es 0;;
        TaggedType_tag rest (val_of_token e) class_number
      else Raise (Exception "Unknown tag element")
  end.

(** TaggedType.__init__ *)
Definition TaggedType_init (elements : list token) : M val :=
  match elements with
  | [tag_token; implicitness; type_token] =>
      (es <- lift (tok_elements tag_token);;
       tag <- lift (TaggedType_tag es VNone VNone);;
       type_decl <- create type_token;;
       fun st =>
         let '(l, h) := alloc (st_heap st)
                          (TaggedType_init4 (fst tag) (snd tag)
                             (val_of_token implicitness) type_decl) in
         Ok (VRef l, State h (unnamed_counter st)))%M
  | [class_name; class_number; implicitness; type_decl] =>
      fun st =>
        let '(l, h) := alloc (st_heap st)
                         (TaggedType_init4 (val_of_token class_name)
                            (val_of_token class_number)
                            (val_of_token implicitness) (val_of_token type_decl)) in
        Ok (VRef l, State h (unnamed_counter st))
  | _ => raise (Exception "Incorrect number of elements passed to TaggedType")
  end.

(** SimpleType.__init__ *)
Definition SimpleType_init (elements : list token) : M val :=
  (type_name <- lift (index elements 0);;
   match elements with
   | _ :: e1 :: _ =>
       _ <- lift (_assert_annotated_token e1);;
       constraint <- create e1;;
       new SimpleType [("constraint", constraint);
                       ("type_name", val_of_token type_name)]
   | _ => new SimpleType [("constraint", VNone);
                          ("type_name", val_of_token type_name)]
   end)%M.

(** DefinedType.__init__ *)
Definition DefinedType_init (elements : list token) : M val :=
  match elements with
  | [module_ref; type_ref; size_constraint] =>
      (module_name <-
         (if truthy module_ref then
            es <- lift (tok_elements module_ref);;
            name <- lift (index es 0);;
            ret (val_of_token name)
          else ret VNone);;
       constraint <-
         (if truthy size_constraint then create size_constraint else ret VNone);;
       new DefinedType [("constraint", constraint); ("module_name", module_name);
                        ("type_name", val_of_token type_ref)])%M
  | _ => raise ValueError
  end.

(** SelectionType.__init__ *)
Definition SelectionType_init (elements : list token) : M val :=
  (e0 <- lift (index elements 0);;
   es <- lift (tok_elements e0);;
   identifier <- lift (index es 0);;
   e1 <- lift (index elements 1);;
   type_decl <- create e1;;
   new SelectionType [("identifier", val_of_token identifier);
                      ("type_decl", type_decl)])%M.

(** ReferencedValue.__init__ *)
Definition ReferencedValue_init (elements : list token) : M val :=
  match elements with
  | e0 :: e1 :: _ =>
      (ty <- lift (tok_ty e0);;
       if bool_decide (ty = "ModuleReference") then
         es <- lift (tok_elements e0);;
         module_reference <- lift (index es 0);;
         new ReferencedValue [("module_reference", val_of_token module_reference);
                              ("name", val_of_token e1)]
       else new ReferencedValue [("module_reference", VNone);
                                 ("name", val_of_token e0)])%M
  | _ =>
      (e0 <- lift (index elements 0);;
       new ReferencedValue [("module_reference", VNone);
                            ("name", val_of_token e0)])%M
  end.

(** SingleValueConstraint.__init__ *)
Definition SingleValueConstraint_init (elements : list token) : M val :=
  (e0 <- lift (index elements 0);;
   value <- _maybe_create_sema_node e0;;
   new SingleValueConstraint [("value", value)])%M.

(** ValueRangeConstraint.__init__ *)
Definition ValueRangeConstraint_init (elements : list token) : M val :=
  (e0 <- lift (index elements 0);;
   min_value <- _maybe_create_sema_node e0;;
   e1 <- lift (index elements 1);;
   max_value <- _maybe_create_sema_node e1;;
   new ValueRangeConstraint [("min_value", min_value);
                             ("max_value", max_value)])%M.

(** SizeConstraint.__init__ *)
Definition SizeConstraint_init (elements : list token) : M val :=
  (e0 <- lift (index elements 0);;
   nested <- create e0;;
   fun st =>
     if isinstance (st_heap st) nested ValueRangeConstraint
        || isinstance (st_heap st) nested SingleValueConstraint
     then new SizeConstraint [("nested", nested)] st
     else Raise (Exception "Unexpected size constraint type"))%M.

(** NamedType.__init__ *)
Definition NamedType_init (elements : list token) : M val :=
  (first_token <- lift (index elements 0);;
   ty <- lift (tok_ty first_token);;
   if bool_decide (ty = "Type") then
     identifier <- _get_next_unnamed;;
     type_decl <- create first_token;;
     new NamedType [("identifier", VStr identifier); ("type_decl", type_decl)]
   else if bool_decide (ty = "Identifier") then
     es <- lift (tok_elements first_token);;
     identifier <- lift (index es 0);;
     type_token <- lift (index elements 1);;
     type_decl <- create type_token;;
     new NamedType [("identifier", val_of_token identifier);
                    ("type_decl", type_decl)]
   else raise (Exception ("Unexpected token " +:+ ty)))%M.

(** [crack_named_type] of ComponentType.__init__: the identifier and the
    type_decl of a NamedType built from the token. *)
Definition crack_named_type (token : list token) : M (val * val) :=
  (named_type <- NamedType_init token;;
   identifier <- attr named_type "identifier";;
   type_decl <- attr named_type "type_decl";;
   ret (identifier, type_decl))%M.

(** ComponentType.__init__.  The five attributes are set to their defaults
    first, in this order, and overwritten by the branch taken. *)
Definition ComponentType_attrs (identifier type_decl default_value : val)
  (optional : bool) (components_of_type : val) : list (string * val) :=
  [("identifier", identifier); ("type_decl", type_decl);
   ("default_value", default_value); ("optional", VBool optional);
   ("components_of_type", components_of_type)].

Definition ComponentType_init (elements : list token) : M val :=
  (first_token <- lift (index elements 0);;
   ty <- lift (tok_ty first_token);;
   if bool_decide (ty = "NamedType") then
     es <- lift (tok_elements first_token);;
     named <- crack_named_type es;;
     new ComponentType (ComponentType_attrs (fst named) (snd named) VNone false VNone)
   else if bool_decide (ty = "ComponentTypeOptional") then
     es <- lift (tok_elements first_token);;
     e0 <- lift (index es 0);;
     es0 <- lift (tok_elements e0);;
     named <- crack_named_type es0;;
     new ComponentType (ComponentType_attrs (fst named) (snd named) VNone true VNone)
   else if bool_decide (ty = "ComponentTypeDefault") then
     es <- lift (tok_elements first_token);;
     e0 <- lift (index es 0);;
     es0 <- lift (tok_elements e0);;
     named <- crack_named_type es0;;
     e1 <- lift (index es 1);;
     default_value <- _maybe_create_sema_node e1;;
     new ComponentType
       (ComponentType_attrs (fst named) (snd named) default_value false VNone)
   else if bool_decide (ty = "ComponentTypeComponentsOf") then
     es <- lift (tok_elements first_token);;
     e0 <- lift (index es 0);;
     components_of_type <- create e0;;
     new ComponentType
       (ComponentType_attrs VNone VNone VNone false components_of_type)
   else raise (Exception "Unknown component type"))%M.

(** ValueListType.__init__ *)
Definition ValueListType_init (elements : list token) : M val :=
  (type_name <- lift (index elements 0);;
   e1 <- lift (index elements 1);;
   tokens <- lift (iter_tokens e1);;
   named_values <- create_each tokens;;
   _ <- (fun st =>
           match number_named_values (st_heap st) None named_values with
           | Ok h => Ok (tt, State h (unnamed_counter st))
           | Raise e => Raise e
           end);;
   constraint <-
     match elements with
     | _ :: _ :: e2 :: _ => _maybe_create_sema_node e2
     | _ => ret VNone
     end;;
   new ValueListType [("constraint", constraint);
                      ("type_name", val_of_token type_name);
                      ("named_values", VList named_values)])%M.

(** BitStringType.__init__ *)
Definition BitStringType_init (elements : list token) : M val :=
  (type_name <- lift (index elements 0);;
   e1 <- lift (index elements 1);;
   tokens <- lift (iter_tokens e1);;
   named_bits <- create_each tokens;;
   e2 <- lift (index elements 2);;
   constraint <- _maybe_create_sema_node e2;;
   new BitStringType [("type_name", val_of_token type_name);
                      ("named_bits", VList named_bits);
                      ("constraint", constraint)])%M.

(** NamedValue.__init__ *)
Definition NamedValue_init (elements : list token) : M val :=
  match elements with
  | [identifier_token] =>
      new NamedValue [("identifier", val_of_token identifier_token);
                      ("value", VNone)]
  | [identifier_token; value_token] =>
      (es <- lift (tok_elements identifier_token);;
       identifier <- lift (index es 0);;
       vs <- lift (tok_elements value_token);;
       value <- lift (index vs 0);;
       new NamedValue [("identifier", val_of_token identifier);
                       ("value", val_of_token value)])%M
  | _ => raise ValueError
  end.

(** NameForm, NumberForm, BinaryStringValue and HexStringValue keep
    [elements[0]] under one attribute. *)
Definition leaf_init (c : Class) (name : string) (elements : list token) : M val :=
  (e0 <- lift (index elements 0);;
   new c [(name, val_of_token e0)])%M.

(** NameAndNumberForm.__init__ *)
Definition NameAndNumberForm_init (elements : list token) : M val :=
  (e0 <- lift (index elements 0);;
   name <- create e0;;
   e1 <- lift (index elements 1);;
   number <- create e1;;
   new NameAndNumberForm [("name", name); ("number", number)])%M.

(** ObjectIdentifierValue.__init__ *)
Definition ObjectIdentifierValue_init (elements : list token) : M val :=
  (components <- create_each elements;;
   new ObjectIdentifierValue [("components", VList components)])%M.

(** The dispatch of [_create_sema_node] on [token.ty]. *)
Definition dispatch (ty : string) (elements : list token) : M val :=
  if bool_decide (ty = "ModuleDefinition") then Module_init elements
  else if bool_decide (ty = "Exports") then Exports_init elements
  else if bool_decide (ty = "Imports") then Imports_init elements
  else if bool_decide (ty = "TypeAssignment") then TypeAssignment_init elements
  else if bool_decide (ty = "ValueAssignment") then ValueAssignment_init elements
  else if bool_decide (ty = "ComponentType") then ComponentType_init elements
  else if bool_decide (ty = "NamedType") then NamedType_init elements
  else if bool_decide (ty = "ValueListType") then ValueListType_init elements
  else if bool_decide (ty = "BitStringType") then BitStringType_init elements
  else if bool_decide (ty = "NamedValue") then NamedValue_init elements
  else if bool_decide (ty = "Type") then
    (e0 <- lift (index elements 0);; create e0)%M
  else if bool_decide (ty = "SimpleType") then SimpleType_init elements
  else if bool_decide (ty = "DefinedType") then DefinedType_init elements
  else if bool_decide (ty = "SelectionType") then SelectionType_init elements
  else if bool_decide (ty = "ReferencedValue") then ReferencedValue_init elements
  else if bool_decide (ty = "TaggedType") then TaggedType_init elements
  else if bool_decide (ty = "SequenceType") then ConstructedType_new SequenceType elements
  else if bool_decide (ty = "ChoiceType") then ConstructedType_new ChoiceType elements
  else if bool_decide (ty = "SetType") then ConstructedType_new SetType elements
  else if bool_decide (ty = "SequenceOfType") then
    CollectionType_init SequenceOfType "SEQUENCE" elements
  else if bool_decide (ty = "SetOfType") then
    CollectionType_init SetOfType "SET" elements
  else if bool_decide (ty = "ExtensionMarker") then new ExtensionMarker []
  else if bool_decide (ty = "SingleValueConstraint") then
    SingleValueConstraint_init elements
  else if bool_decide (ty = "SizeConstraint") then SizeConstraint_init elements
  else if bool_decide (ty = "ValueRangeConstraint") then
    ValueRangeConstraint_init elements
  else if bool_decide (ty = "ObjectIdentifierValue") then
    ObjectIdentifierValue_init elements
  else if bool_decide (ty = "NameForm") then leaf_init NameForm "name" elements
  else if bool_decide (ty = "NumberForm") then leaf_init NumberForm "value" elements
  else if bool_decide (ty = "NameAndNumberForm") then NameAndNumberForm_init elements
  else if bool_decide (ty = "BinaryStringValue") then
    leaf_init BinaryStringValue "value" elements
  else if bool_decide (ty = "HexStringValue") then
    leaf_init HexStringValue "value" elements
  else raise (Exception ("Unknown token type: " +:+ ty)).

End Constructors.

(** [_create_sema_node]: the constructors call it back on the tokens inside
    theirs; [fuel] is the depth of token nesting it may go to. *)
Fixpoint _create_sema_node (fuel : nat) (token : token) : M val :=
  match fuel with
  | O => raise RecursionError
  | S n =>
      match token with
      | PTok ty elements => dispatch (_create_sema_node n) ty elements
      | _ => raise (Exception "Object is not an annotated token")
      end
  end.

(** ** Module *)

(** Module.user_types: the cache [_user_types] is filled on the first call
    that finds it empty, and written back to the module. *)
Fixpoint index_type_assignments (h : heap) (assignments : list val)
  (user_types : list (val * val)) : res (list (val * val)) :=
  match assignments with
  | [] => Ok user_types
  | a :: rest =>
      if isinstance h a TypeAssignment then
        type_decl <~ getattr h a "type_decl";;
        type_name <~ getattr h a "type_name";;
        index_type_assignments h rest (dict_set type_name type_decl user_types)
      else index_type_assignments h rest user_types
  end.

Definition user_types (h : heap) (self : loc) : res (list (val * val) * heap) :=
  cache <~ getattr h (VRef self) "_user_types";;
  match cache with
  | VDict [] =>
      assignments <~ getattr h (VRef self) "assignments";;
      match assignments with
      | VList l =>
          d <~ index_type_assignments h l [];;
          Ok (d, setattr h self "_user_types" (VDict d))
      | _ => Raise TypeError
      end
  | VDict d => Ok (d, h)
  | _ => Raise TypeError
  end.

(** Module.get_type_decl: [user_types[type_name]] *)
Definition get_type_decl (h : heap) (self : loc) (type_name : val)
  : res (val * heap) :=
  r <~ user_types h self;;
  match dict_get type_name (fst r) with
  | Some d => Ok (d, snd r)
  | None => Raise (KeyError type_name)
  end.

(** The [type_name] of a node: an attribute, except on TaggedType and
    SelectionType, where it is a property that asks the inner type_decl. *)
Fixpoint type_name_of (fuel : nat) (h : heap) (v : val) : res val :=
  match fuel with
  | O => Raise RecursionError
  | S n =>
      if isinstance h v TaggedType || isinstance h v SelectionType then
        inner <~ getattr h v "type_decl";;
        type_name_of n h inner
      else getattr h v "type_name"
  end.

Definition type_name (h : heap) (v : val) : res val :=
  type_name_of (S (length h)) h v.

(** The loop of Module.resolve_selection_type. *)
Fixpoint find_component (h : heap) (components : list val)
  (selection_type_decl : val) : res val :=
  match components with
  | [] => Ok VNone
  | named_type :: rest =>
      i <~ getattr h named_type "identifier";;
      j <~ getattr h selection_type_decl "identifier";;
      if py_eq i j then getattr h named_type "type_decl"
      else find_component h rest selection_type_decl
  end.

(** Module.resolve_selection_type *)
Definition resolve_selection_type (h : heap) (self : loc) (selection_type_decl : val)
  : res (val * heap) :=
  if negb (isinstance h selection_type_decl SelectionType) then
    Raise (Exception "Expected SelectionType")
  else
    inner <~ getattr h selection_type_decl "type_decl";;
    name <~ type_name h inner;;
    r <~ get_type_decl h self name;;
    let '(choice_type, h1) := r in
    components <~ getattr h1 choice_type "components";;
    match components with
    | VList cs =>
        d <~ find_component h1 cs selection_type_decl;;
        Ok (d, h1)
    | _ => Raise TypeError
    end.

(** Module.resolve_tag_implicitness *)
Definition resolve_tag_implicitness (h : heap) (self : loc)
  (tag_implicitness tagged_type_decl : val) : res val :=
  match tag_implicitness with
  | VNone =>
      if isinstance h tagged_type_decl ChoiceType then
        Ok (VInt TagImplicitness.EXPLICIT)
      else
        tag_default <~ getattr h (VRef self) "tag_default";;
        match tag_default with
        | VNone => Ok (VInt TagImplicitness.EXPLICIT)
        | _ =>
            if py_eq tag_default (VInt TagImplicitness.AUTOMATIC)
            then Ok (VInt TagImplicitness.IMPLICIT)
            else Ok tag_default
        end
  | _ => Ok tag_implicitness
  end.

(** A named component has a type: an object whose [identifier] is a
    string does not have None for [type_decl].  NamedType.__init__ and
    [crack_named_type] set the two together, from a node of the factory. *)
Definition named_typed (o : obj) : Prop :=
  match assoc "identifier" (attrs o), assoc "type_decl" (attrs o) with
  | Some (VStr _), Some VNone => False
  | _, _ => True
  end.

(** ** build_semantic_model *)

(** The inner loop: [auto_tag] on every constructed type among the
    descendants, which were listed before the first of them is tagged. *)
Fixpoint auto_tag_all (h : heap) (ds : list loc) : res heap :=
  match ds with
  | [] => Ok h
  | descendant :: rest =>
      if isinstance h (VRef descendant) ConstructedType then
        h' <~ auto_tag h descendant;;
        auto_tag_all h' rest
      else auto_tag_all h rest
  end.

Definition auto_tag_module (fuel : nat) (h : heap) (module : val) : res heap :=
  tag_default <~ getattr h module "tag_default";;
  if py_eq tag_default (VInt TagImplicitness.AUTOMATIC) then
    match module with
    | VRef m =>
        match descendants fuel h m with
        | Some ds => auto_tag_all h ds
        | None => Raise RecursionError
        end
    | _ => Raise (AttributeError "descendants")
    end
  else Ok h.

Fixpoint auto_tag_modules (fuel : nat) (h : heap) (root : list val) : res heap :=
  match root with
  | [] => Ok h
  | module :: rest =>
      h' <~ auto_tag_module fuel h module;;
      auto_tag_modules fuel h' rest
  end.

Fixpoint create_all (fuel : nat) (parse_result : list token) : M (list val) :=
  match parse_result with
  | [] => ret []
  | token :: rest =>
      (_ <- lift (_assert_annotated_token token);;
       node <- _create_sema_node fuel token;;
       nodes <- create_all fuel rest;;
       ret (node :: nodes))%M
  end.

(** [fuel] bounds how deep the recursions of the factory and of
    [descendants] may go. *)
Definition build_semantic_model (fuel : nat) (parse_result : list token)
  : M (list val) :=
  (root <- create_all fuel parse_result;;
   fun st =>
     match auto_tag_modules fuel (st_heap st) root with
     | Ok h => Ok (root, State h (unnamed_counter st))
     | Raise e => Raise e
     end)%M.

(** ** Sorting assignments in dependency order

    The sorters only ask two things of an assignment, [reference_name()] and
    [references()].  [references()] is a set of names; it is given here as
    the list in which that set is iterated, whatever that order is. *)

Class AssignmentLike (A : Type) := {
  reference_name : A -> string;
  references : A -> list string;
  references_NoDup : forall a, NoDup (references a)
}.

(** *** The assignments of the model

    [reference_name()] is defined by six classes. *)
Definition reference_name_method (h : heap) (l : loc) : option (res val) :=
  match h !! l with
  | Some o =>
      match cls o with
      | TypeAssignment | DefinedType => Some (getattr h (VRef l) "type_name")
      | SelectionType => Some (type_name h (VRef l))
      | ValueAssignment => Some (getattr h (VRef l) "value_name")
      | ReferencedValue | NameForm => Some (getattr h (VRef l) "name")
      | _ => None
      end
  | None => None
  end.

(** [d.reference_name() for d in ds if hasattr(d, 'reference_name')]; the
    names are strings. *)
Fixpoint reference_names (h : heap) (ds : list loc) : res (list string) :=
  match ds with
  | [] => Ok []
  | d :: rest =>
      match reference_name_method h d with
      | Some r =>
          name <~ r;;
          match name with
          | VStr s => names <~ reference_names h rest;; Ok (s :: names)
          | _ => Raise TypeError
          end
      | None => reference_names h rest
      end
  end.

(** Assignment.references.  The set is listed in the order in which its
    names last occur among the descendants; Python may iterate it in any
    order. *)
Definition Assignment_references (fuel : nat) (h : heap) (l : loc)
  : res (list string) :=
  match descendants fuel h l with
  | Some ds => names <~ reference_names h ds;; Ok (remove_dups names)
  | None => Raise RecursionError
  end.

(** An assignment object with what its two methods return. *)
Record assignment := MkAssignment {
  assignment_node : loc;
  assignment_name : string;
  assignment_references : list string
}.

#[global] Instance assignment_eq_dec : EqDecision assignment.
Proof. solve_decision. Defined.

#[global] Instance assignment_like : AssignmentLike assignment := {
  reference_name := assignment_name;
  references a := remove_dups (assignment_references a);
  references_NoDup a := NoDup_remove_dups (assignment_references a)
}.

Definition assignment_of (fuel : nat) (h : heap) (a : val) : res assignment :=
  match a with
  | VRef l =>
      match reference_name_method h l with
      | Some r =>
          name <~ r;;
          match name with
          | VStr s =>
              refs <~ Assignment_references fuel h l;;
              Ok (MkAssignment l s refs)
          | _ => Raise TypeError
          end
      | None => Raise (AttributeError "reference_name")
      end
  | _ => Raise (AttributeError "reference_name")
  end.

Fixpoint assignments_of (fuel : nat) (h : heap) (l : list val)
  : res (list assignment) :=
  match l with
  | [] => Ok []
  | a :: rest =>
      x <~ assignment_of fuel h a;;
      xs <~ assignments_of fuel h rest;;
      Ok (x :: xs)
  end.

(** The assignments of the first module built from [parse_result]. *)
Definition module_assignments (fuel : nat) (parse_result : list token)
  : res (list assignment) :=
  r <~ build_semantic_model fuel parse_result (State [] 0);;
  module <~ index (fst r) 0;;
  l <~ getattr (st_heap (snd r)) module "assignments";;
  match l with
  | VList l => assignments_of fuel (st_heap (snd r)) l
  | _ => Raise TypeError
  end.

(** [sorted(l, key=...)]: stable, by insertion from the right. *)
Section Sorted.
Context {A K : Type} (leb : K -> K -> bool) (key : A -> K).

Fixpoint insert_sorted (x : A) (l : list A) : list A :=
  match l with
  | [] => [x]
  | y :: l' => if leb (key x) (key y) then x :: l else y :: insert_sorted x l'
  end.

Definition sorted (l : list A) : list A := foldr insert_sorted [] l.

End Sorted.

(** The order of the keys, on the elements. *)
Definition key_le {X : Type} (key : X -> nat) (a b : X) : Prop := key a <= key b.

(** [l.index(x)] *)
Fixpoint list_index (x : string) (l : list string) : option nat :=
  match l with
  | [] => None
  | y :: l' => if bool_decide (y = x) then Some 0 else S <$> list_index x l'
  end.

(** [del d[k]] on an insertion-ordered dictionary. *)
Fixpoint assoc_del {V} (k : string) (d : list (string * V)) : list (string * V) :=
  match d with
  | [] => []
  | (k', v) :: d' => if bool_decide (k' = k) then d' else (k', v) :: assoc_del k d'
  end.

(** [l.pop()]: the last element and what is before it. *)
Fixpoint pop_last {X} (l : list X) : option (list X * X) :=
  match l with
  | [] => None
  | [x] => Some ([], x)
  | x :: l' =>
      match pop_last l' with
      | Some (r, y) => Some (x :: r, y)
      | None => None
      end
  end.

(** *** The reference graph

    [y] is in [graph[x]]; [reaches] follows one reference or more. *)
Definition edge (graph : list (string * list string)) (x y : string) : Prop :=
  exists refs, assoc x graph = Some refs /\ y ∈ refs.

Definition reaches (graph : list (string * list string)) : relation string :=
  tc (edge graph).

Definition acyclic (graph : list (string * list string)) : Prop :=
  forall x, ~ reaches graph x x.

(** A numbering of the names that decreases along every reference; there is
    none on a graph with a cycle. *)
Definition ranked (rank : string -> nat) (graph : list (string * list string))
  : bool :=
  forallb (fun entry =>
             forallb (fun y => Nat.ltb (rank y) (rank (fst entry))) (snd entry)) graph.

(** ** topological_sort *)

Section TopologicalSort.
Context {A : Type} `{AssignmentLike A}.

Definition graph_t : Type := list (string * list string).

(** [dict((a.reference_name(), a.references()) for a in assignments)] *)
Definition build_graph (assignments : list A) : graph_t :=
  foldl (fun g a => assoc_set (reference_name a) (references a) g) [] assignments.

Definition has_predecessor (graph : graph_t) (node : string) : bool :=
  existsb (fun predecessors => bool_decide (node ∈ predecessors)) (map snd graph).

(** The [while roots] loop.  Each turn pops the last root, takes it out of
    the graph, appends the successors that have no predecessor left, and
    puts the root in front of the order. *)
Fixpoint sort_loop (fuel : nat) (graph : graph_t) (roots order : list string)
  : option (graph_t * list string) :=
  match fuel with
  | O => None
  | S n =>
      match pop_last roots with
      | None => Some (graph, order)
      | Some (roots', root) =>
          let successors := default [] (assoc root graph) in
          let graph' := assoc_del root graph in
          let roots'' :=
            roots' ++ filter (fun s => has_predecessor graph' s = false) successors in
          sort_loop n graph' roots'' (root :: order)
      end
  end.

Definition edge_count (graph : graph_t) : nat :=
  length (flat_map snd graph).

(** The keys of the final [sorted]: [topological_order.index(name)]. *)
Fixpoint index_keys (order : list string) (assignments : list A)
  : res (list (nat * A)) :=
  match assignments with
  | [] => Ok []
  | a :: rest =>
      match list_index (reference_name a) order with
      | Some i => ks <~ index_keys order rest;; Ok ((i, a) :: ks)
      | None => Raise ValueError
      end
  end.

(** [topological_sort].  The loop is run with as many turns as it can
    take: every turn removes a root or an edge.  [None] would be a loop
    that has not finished by then. *)
Definition topological_sort (assignments : list A) : option (res (list A)) :=
  let graph := build_graph assignments in
  let roots := filter (fun name => has_predecessor graph name = false)
                      (map fst graph) in
  match sort_loop (S (length roots + edge_count graph)) graph roots [] with
  | None => None
  | Some ([], topological_order) =>
      Some (ks <~ index_keys topological_order assignments;;
            Ok (map snd (sorted Nat.leb fst ks)))
  | Some (graph', _) => Some (Raise (CyclicReferences graph'))
  end.

(** [a] refers to [b]: both are among the assignments, and the name of [b]
    is one of [a.references()]. *)
Definition refers_directly (assignments : list A) (a b : A) : Prop :=
  a ∈ assignments /\ b ∈ assignments /\ reference_name b ∈ references a.

(** [a] depends on [b]: it refers to [b], directly or through other
    assignments. *)
Definition depends_on (assignments : list A) : relation A :=
  tc (refers_directly assignments).

(** The graph is a dictionary, and its values are sets. *)
Definition wf_graph (g : graph_t) : Prop :=
  NoDup (map fst g) /\ forall x refs, (x, refs) ∈ g -> NoDup refs.

(** What every turn of the loop keeps, [G0] being the graph it started
    on. *)
Definition loop_inv (G0 graph : graph_t) (roots order : list string) : Prop :=
  NoDup (map fst graph) /\
  graph ⊆ G0 /\
  (forall k, k ∈ map fst G0 -> k ∈ map fst graph \/ k ∈ order) /\
  (forall k, k ∈ roots ++ order -> has_predecessor graph k = false) /\
  (forall k, k ∈ map fst graph -> has_predecessor graph k = false -> k ∈ roots) /\
  NoDup (roots ++ order) /\
  (forall a b, edge G0 a b -> b ∈ order ->
     exists i j, list_index b order = Some i /\ list_index a order = Some j /\ i < j) /\
  (forall x, reaches G0 x x -> x ∈ map fst graph).

End TopologicalSort.

(** ** dependency_sort: Tarjan's strongly connected components

    The dictionaries of the algorithm are keyed by the assignment objects
    themselves; equality on [A] is the identity of those objects. *)

Section DependencySort.
Context {A : Type} `{AssignmentLike A} `{EqDecision A}.

Definition map_set (m : A -> option nat) (k : A) (v : nat) : A -> option nat :=
  fun x => if decide (x = k) then Some v else m x.

(** [d[k]] on such a dictionary. *)
Definition map_get (m : A -> option nat) (k : A) : res nat :=
  match m k with
  | Some v => Ok v
  | None => Raise (KeyError (VStr (reference_name k)))
  end.

(** [assignments_by_name]: the last assignment of each name. *)
Definition by_name (assignments : list A) (r : string) : option A :=
  last (filter (fun a => reference_name a = r) assignments).

(** [graph[assignment]]: the assignments its references name. *)
Definition successors_of (assignments : list A) (a : A) : list A :=
  omap (by_name assignments) (references a).

(** [graph.get(node, [])]; a node that occurs twice was filed twice under
    the same key, which changes nothing. *)
Definition graph_get (assignments : list A) (node : A) : list A :=
  if decide (node ∈ assignments) then successors_of assignments node else [].

(** The state the nested function shares with its caller.  The stack has
    its top first. *)
Record tarjan := Tarjan {
  index_counter : nat;
  stack : list A;
  lowlinks : A -> option nat;
  index_of : A -> option nat;
  result : list (list A)
}.

(** The [while True] loop: pop down to [node], collecting what is popped. *)
Fixpoint pop_component (node : A) (stk : list A) : option (list A * list A) :=
  match stk with
  | [] => None
  | successor :: rest =>
      if decide (successor = node) then Some ([successor], rest)
      else match pop_component node rest with
           | Some (c, rest') => Some (successor :: c, rest')
           | None => None
           end
  end.

Definition set_lowlink (s : tarjan) (node : A) (v : nat) : tarjan :=
  Tarjan (index_counter s) (stack s) (map_set (lowlinks s) node v)
         (index_of s) (result s).

(** [lowlinks[node] = min(lowlinks[node], d[successor])] *)
Definition lower (node successor : A) (d : A -> option nat) (s : tarjan)
  : res tarjan :=
  a <~ map_get (lowlinks s) node;;
  b <~ map_get d successor;;
  Ok (set_lowlink s node (Nat.min a b)).

(** The start of [strongconnect]: [node] gets the next index and goes on
    the stack. *)
Definition push (s : tarjan) (node : A) : tarjan :=
  Tarjan (S (index_counter s)) (node :: stack s)
         (map_set (lowlinks s) node (index_counter s))
         (map_set (index_of s) node (index_counter s))
         (result s).

(** The loop over the successors of [node]; [strongconnect] is the
    function itself, called on the successors not yet visited. *)
Fixpoint visit_successors (strongconnect : A -> tarjan -> option (res tarjan))
  (node : A) (successors : list A) (s : tarjan) : option (res tarjan) :=
  match successors with
  | [] => Some (Ok s)
  | successor :: rest =>
      match lowlinks s successor with
      | None =>
          match strongconnect successor s with
          | Some (Ok s1) =>
              match lower node successor (lowlinks s1) s1 with
              | Ok s2 => visit_successors strongconnect node rest s2
              | Raise e => Some (Raise e)
              end
          | other => other
          end
      | Some _ =>
          if decide (successor ∈ stack s) then
            match lower node successor (index_of s) s with
            | Ok s2 => visit_successors strongconnect node rest s2
            | Raise e => Some (Raise e)
            end
          else visit_successors strongconnect node rest s
      end
  end.

(** The end of [strongconnect]: a root pops its component. *)
Definition close_component (node : A) (s : tarjan) : res tarjan :=
  low <~ map_get (lowlinks s) node;;
  idx <~ map_get (index_of s) node;;
  if bool_decide (low = idx) then
    match pop_component node (stack s) with
    | Some (component, rest) =>
        Ok (Tarjan (index_counter s) rest (lowlinks s) (index_of s)
                   (result s ++ [component]))
    | None => Raise IndexError
    end
  else Ok s.

Fixpoint strongconnect (fuel : nat) (assignments : list A) (node : A)
  (s : tarjan) : option (res tarjan) :=
  match fuel with
  | O => None
  | S n =>
      match visit_successors (strongconnect n assignments) node
                             (graph_get assignments node) (push s node) with
      | Some (Ok s1) => Some (close_component node s1)
      | other => other
      end
  end.

(** The driver loop over the sorted keys of the graph. *)
Fixpoint visit_roots (fuel : nat) (assignments : list A) (nodes : list A)
  (s : tarjan) : option (res tarjan) :=
  match nodes with
  | [] => Some (Ok s)
  | node :: rest =>
      match lowlinks s node with
      | None =>
          match strongconnect fuel assignments node s with
          | Some (Ok s1) => visit_roots fuel assignments rest s1
          | other => other
          end
      | Some _ => visit_roots fuel assignments rest s
      end
  end.

(** [graph.keys()]: each object once, where it first occurs. *)
Definition graph_keys (assignments : list A) : list A :=
  reverse (remove_dups (reverse assignments)).

Definition tarjan_init : tarjan :=
  Tarjan 0 [] (fun _ => None) (fun _ => None) [].

(** [dependency_sort].  A call of [strongconnect] visits a node that was
    not visited before, so the calls never nest deeper than there are
    nodes; [None] would be a call that goes deeper. *)
Definition dependency_sort (assignments : list A) : option (res (list (list A))) :=
  let nodes := sorted String.leb reference_name (graph_keys assignments) in
  match visit_roots (S (length nodes)) assignments nodes tarjan_init with
  | Some (Ok s) => Some (Ok (result s))
  | Some (Raise e) => Some (Raise e)
  | None => None
  end.

End DependencySort.

Arguments tarjan A : clear implicits.

(** *** What the algorithm keeps true *)

Section DependencySortInvariants.
Context {A : Type} `{AssignmentLike A} `{EqDecision A}.
Variable assignments : list A.

(** [a] refers to [b]: [b] is in [graph[a]]. *)
Definition refers_to (a b : A) : Prop := b ∈ graph_get assignments a.

(** Every component is behind the components its members refer to. *)
Definition closed (components : list (list A)) : Prop :=
  forall k C a b,
    components !! k = Some C -> a ∈ C -> refers_to a b ->
    exists k' C', k' <= k /\ components !! k' = Some C' /\ b ∈ C'.

(** The nodes still to be visited. *)
Definition unvisited (s : tarjan A) : nat :=
  length (filter (fun x => index_of s x = None) (graph_keys assignments)).

Definition tarjan_inv (s : tarjan A) : Prop :=
  (forall v, is_Some (lowlinks s v) <-> is_Some (index_of s v)) /\
  (forall v i, index_of s v = Some i -> i < index_counter s) /\
  (forall v, is_Some (index_of s v) <-> v ∈ stack s ++ concat (result s)) /\
  NoDup (stack s ++ concat (result s)) /\
  (forall v, v ∈ stack s ++ concat (result s) -> v ∈ assignments) /\
  (forall v l i, lowlinks s v = Some l -> index_of s v = Some i -> l <= i) /\
  closed (result s) /\
  Forall (fun C => C <> []) (result s).

(** [x] is in a component already, or on the stack with an index not below
    [bound]. *)
Definition settled (s : tarjan A) (bound : nat) (x : A) : Prop :=
  x ∈ concat (result s) \/
  (x ∈ stack s /\ exists i, index_of s x = Some i /\ bound <= i).

(** What a later state keeps of an earlier one. *)
Definition extends (s s' : tarjan A) : Prop :=
  index_counter s < index_counter s' /\
  (exists more, result s' = result s ++ more) /\
  (forall x, is_Some (index_of s x) ->
     index_of s' x = index_of s x /\ lowlinks s' x = lowlinks s x) /\
  (forall x i, index_of s x = None -> index_of s' x = Some i -> index_counter s <= i).

(** The lowlink of a node is not below the indices of the stack the node
    was pushed on. *)
Definition low_bounded (s : tarjan A) (low : nat) : Prop :=
  forall b, b <= index_counter s ->
    (forall x i, x ∈ stack s -> index_of s x = Some i -> b <= i) -> b <= low.

(** [strongconnect node], from [s] to [s']. *)
Definition strongconnect_post (s : tarjan A) (node : A) (s' : tarjan A) : Prop :=
  tarjan_inv s' /\ extends s s' /\
  index_of s' node = Some (index_counter s) /\
  exists new low,
    stack s' = new ++ stack s /\ lowlinks s' node = Some low /\
    (new = [] \/ (node ∈ new /\ low < index_counter s)) /\
    (forall w x, w ∈ new -> refers_to w x -> settled s' low x) /\
    low_bounded s low.

(** The loop over the successors of [node], [done] being those it has
    gone through. *)
Definition visit_inv (s : tarjan A) (node : A) (done : list A) (s' : tarjan A) : Prop :=
  tarjan_inv s' /\ extends s s' /\
  index_of s' node = Some (index_counter s) /\
  exists seg low,
    stack s' = seg ++ node :: stack s /\ lowlinks s' node = Some low /\
    (forall w x, w ∈ seg -> refers_to w x -> settled s' low x) /\
    (forall x, x ∈ done -> settled s' low x) /\
    low_bounded s low.

End DependencySortInvariants.

(** ** The automatic tagging pass, as a whole *)

(** [descendants] over a list of children, as its loop goes. *)
Definition descendants_of_each (fuel : nat) (h : heap) (cs : list loc)
  : option (list loc) :=
  foldr (fun child acc =>
           match descendants fuel h child, acc with
           | Some ds, Some rest => Some (child :: ds ++ rest)
           | _, _ => None
           end)
        (Some []) cs.

Definition constructed (h : heap) (d : loc) : bool :=
  isinstance h (VRef d) ConstructedType.

(** [self.components], of a constructed type. *)
Definition components_of (h : heap) (c : loc) : list val :=
  match getattr h (VRef c) "components" with
  | Ok (VList cs) => cs
  | _ => []
  end.

(** A component of [c] is a TaggedType in [h]. *)
Definition had_tagged_component (h : heap) (c : loc) : Prop :=
  already_tagged h (components_of h c) = true.

(** From [h] to [h'], each component of [c] that has a [type_decl] got a new
    TaggedType around it, numbered by the place of the component among the
    components that have a [type_decl]. *)
Definition tagged_by_ordinal (h h' : heap) (c : loc) : Prop :=
  forall i x, typed_refs h (components_of h c) !! i = Some x ->
    exists e t, getattr h (VRef x) "type_decl" = Ok e /\
                getattr h' (VRef x) "type_decl" = Ok (VRef t) /\
                length h <= t /\
                h' !! t = Some (auto_tagged i e).

(** The same, numbered by the place of the component among all the
    components. *)
Definition tagged_by_index (h h' : heap) (c : loc) : Prop :=
  forall i x, components_of h c !! i = Some (VRef x) ->
    hasattr h (VRef x) "type_decl" = true ->
    exists e t, getattr h (VRef x) "type_decl" = Ok e /\
                getattr h' (VRef x) "type_decl" = Ok (VRef t) /\
                h' !! t = Some (auto_tagged i e).

(** No reference of the store dangles. *)
Definition closed_heap (h : heap) : Prop :=
  forall l x, x ∈ children h l -> x < length h.

(** [h'] is [h] with new TaggedTypes around the [type_decl] of the objects
    of [W], and nothing else changed. *)
Definition wraps (W : list loc) (h h' : heap) : Prop :=
  length h <= length h' /\
  (forall a, a ∈ W -> typed h a) /\
  (forall a o, h !! a = Some o ->
     h' !! a = Some o \/
     (a ∈ W /\
      exists e t i,
        assoc "type_decl" (attrs o) = Some e /\
        h' !! a = Some (Obj (cls o) (assoc_set "type_decl" (VRef t) (attrs o))) /\
        length h <= t /\ h' !! t = Some (auto_tagged i e))) /\
  (forall t, length h <= t -> t < length h' ->
     exists i e a o,
       a ∈ W /\ h !! a = Some o /\ assoc "type_decl" (attrs o) = Some e /\
       h' !! t = Some (auto_tagged i e)).

(** The constructed types of a list of nodes are as their constructor
    leaves them. *)
Definition shaped (h : heap) (ds : list loc) : Prop :=
  forall c, c ∈ ds -> constructed h c = true ->
    exists cs, is_constructed_type h c cs.

(** [module.tag_default] can be read. *)
Definition has_tag_default (h : heap) (module : val) : Prop :=
  exists d, getattr h module "tag_default" = Ok d.

(** [b] is one of [a.children()]. *)
Definition child (h : heap) (a b : loc) : Prop := b ∈ children h a.

(** The typed children of the constructed types of a work list. *)
Definition work_children (h : heap) (ds : list loc) : list loc :=
  concat (map (typed_children h) (filter (fun d => constructed h d = true) ds)).

(** The descendants the pass goes through: those of the modules with
    AUTOMATIC TAGS, each with its module in front. *)
Fixpoint automatic_modules (h : heap) (root : list val) : list loc :=
  match root with
  | [] => []
  | VRef m :: rest =>
      match getattr h (VRef m) "tag_default" with
      | Ok v =>
          if py_eq v (VInt TagImplicitness.AUTOMATIC)
          then m :: automatic_modules h rest
          else automatic_modules h rest
      | Raise _ => automatic_modules h rest
      end
  | _ :: rest => automatic_modules h rest
  end.

(** ** What the factory builds *)

(** The sema nodes a value holds, as [children] finds them. *)
Definition refs (v : val) : list loc := node_refs v ++ list_node_refs v.

(** From [h] to [h'] no object went away, and each one kept its class and
    its children; a constructed type was not touched. *)
Definition stable (h h' : heap) : Prop :=
  length h <= length h' /\
  forall l o, h !! l = Some o ->
    exists o', h' !! l = Some o' /\ cls o' = cls o /\
      children_of o' = children_of o /\
      (issubclass (cls o) ConstructedType = true -> o' = o).

(** A SEQUENCE, SET or CHOICE is as ConstructedType.__init__ makes it. *)
Definition shape_ok (o : obj) : Prop :=
  issubclass (cls o) ConstructedType = true ->
  exists type_name components,
    o = ConstructedType_init (cls o) (val_of_token type_name) components.

(** The nodes [rs] are the roots of trees that share no node and lie in
    the part of the store from [lo] to [hi]. *)
Definition forest (h : heap) (lo hi : nat) (rs : list loc) : Prop :=
  exists n N, descendants_of_each n h rs = Some N /\ NoDup N /\
              forall x, x ∈ N -> lo <= x < hi.

(** What has been built since the store was [h0]: the trees under [rs]. *)
Definition owns (h0 h : heap) (rs : list loc) : Prop :=
  stable h0 h /\
  (closed_heap h0 -> closed_heap h) /\
  (forall l o, length h0 <= l -> h !! l = Some o -> shape_ok o) /\
  forest h (length h0) (length h) rs.

(** [m] builds the trees under [R a] for its result [a], all of new
    nodes. *)
Definition builds {A} (R : A -> list loc) (m : M A) : Prop :=
  forall st a st', m st = Ok (a, st') ->
    owns (st_heap st) (st_heap st') (R a).

(** A value that is a sema node. *)
Definition is_node (v : val) : Prop := exists l, v = VRef l.
(** ** Looking types up in a module *)

(** The type assignments of [assignments] have a string for a name and a
    [type_decl]. *)
Definition named_assignments (h : heap) (assignments : list val) : Prop :=
  forall a, a ∈ assignments -> isinstance h a TypeAssignment = true ->
    exists s d, getattr h a "type_name" = Ok (VStr s) /\
                getattr h a "type_decl" = Ok d.

(** No type assignment of [assignments] is named [s]. *)
Definition not_assigned (h : heap) (s : string) (assignments : list val) : Prop :=
  forall a, a ∈ assignments -> isinstance h a TypeAssignment = true ->
    getattr h a "type_name" <> Ok (VStr s).


(** ** Module.resolve_type_decl *)

(** The truth value of what an attribute holds; an object of sema.py is
    always true, no class defines [__bool__] or [__len__]. *)
Definition val_truthy (v : val) : bool :=
  match v with
  | VNone => false
  | VBool b => b
  | VInt z => negb (bool_decide (z = 0%Z))
  | VStr s => negb (bool_decide (s = ""))
  | VRef _ => true
  | VList [] => false
  | VList _ => true
  | VDict [] => false
  | VDict _ => true
  | VTok t => truthy t
  end.

(** The loop over [referenced_modules]: the first module of that name, or
    None. *)
Fixpoint find_module (h : heap) (referenced_modules : list val) (module_name : val)
  : res val :=
  match referenced_modules with
  | [] => Ok VNone
  | ref_mod :: rest =>
      name <~ getattr h ref_mod "name";;
      if py_eq name module_name then Ok ref_mod
      else find_module h rest module_name
  end.

(** [fuel] is the depth the recursion may go to. *)
Fixpoint resolve_type_decl (fuel : nat) (h : heap) (self type_decl : val)
  (referenced_modules : list val) : res (val * heap) :=
  match fuel with
  | O => Raise RecursionError
  | S n =>
      if isinstance h type_decl ReferencedType then
        module_name <~ getattr h type_decl "module_name";;
        module <~ (if negb (val_truthy module_name) then Ok self
                   else
                     name <~ getattr h self "name";;
                     if py_eq module_name name then Ok self
                     else find_module h referenced_modules module_name);;
        if negb (val_truthy module) then
          Raise (Exception "Unrecognized referenced module")
        else
          match module with
          | VRef m =>
              r <~ user_types h m;;
              name <~ type_name (snd r) type_decl;;
              match dict_get name (fst r) with
              | Some d => resolve_type_decl n (snd r) module d referenced_modules
              | None => Raise (KeyError name)
              end
          | _ => Raise (AttributeError "user_types")
          end
      else Ok (type_decl, h)
  end.

(** ** The counter of unnamed members *)

(** [m] never turns the counter of unnamed members back. *)
Definition keeps_counter {A} (m : M A) : Prop :=
  forall st a st', m st = Ok (a, st') -> unnamed_counter st <= unnamed_counter st'.

(** ** Imports *)

(** The entry of [self.imports] that an import clause gets in the store
    [h]: for key the GlobalModuleReference made of the module name of the
    clause, for value the symbols of the clause. *)
Definition import_entry (h : heap) (clause : token) (entry : val * val) : Prop :=
  exists symbols module oid items es name l oid',
    unpack3 clause = Ok (symbols, module, oid) /\
    iter_tokens symbols = Ok items /\
    tok_elements module = Ok es /\ index es 0 = Ok name /\
    entry = (VRef l, VList (map val_of_token items)) /\
    h !! l = Some (Obj GlobalModuleReference
                     [("module", val_of_token name); ("oid", oid')]).

(** The keys of a dictionary are nodes of the first [n] of the store. *)
Definition keys_below (n : nat) (d : list (val * val)) : Prop :=
  forall k v, (k, v) ∈ d -> exists l, k = VRef l /\ l < n.

(** ** What the factory leaves alone *)

(** [h'] has all the objects of [h], as they were. *)
Definition framed (h h' : heap) : Prop :=
  length h <= length h' /\ forall l, l < length h -> h' !! l = h !! l.

(** [m] changes no object that was there before it ran. *)
Definition frames {A} (m : M A) : Prop :=
  forall st a st', m st = Ok (a, st') -> framed (st_heap st) (st_heap st').

(** *** Reachability through references

    What [dependency_sort] keeps true of the assignments that reach each
    other through their references. *)

Section DependencySortReach.
Context {A : Type} `{AssignmentLike A} `{EqDecision A}.
Variable assignments : list A.

(** [a] leads to [b]: through no, one or several references. *)
Definition leads_to (a b : A) : Prop := rtc (refers_to assignments) a b.

(** Every node of the stack is reached by the nodes below it. *)
Fixpoint stack_reach (stk : list A) : Prop :=
  match stk with
  | [] => True
  | y :: rest => (forall x, x ∈ rest -> leads_to x y) /\ stack_reach rest
  end.

(** The members of a component all reach each other. *)
Definition connected (components : list (list A)) : Prop :=
  forall C a b, C ∈ components -> a ∈ C -> b ∈ C -> leads_to a b.

Definition reach_inv (s : tarjan A) : Prop :=
  stack_reach (stack s) /\ connected (result s).

(** The loop over the successors of [node]: what was pushed over [node]
    leads to it, and [node] leads to a node of the stack whose index is its
    lowlink. *)
Definition visit_reach (s : tarjan A) (node : A) (s' : tarjan A) : Prop :=
  reach_inv s' /\
  (forall seg, stack s' = seg ++ node :: stack s ->
     forall w, w ∈ seg -> leads_to w node) /\
  (forall low, lowlinks s' node = Some low ->
     exists x, x ∈ stack s' /\ index_of s' x = Some low /\ leads_to node x).

(** [strongconnect node], from [s] to [s']. *)
Definition strongconnect_reach (s : tarjan A) (node : A) (s' : tarjan A) : Prop :=
  reach_inv s' /\
  (forall new, stack s' = new ++ stack s ->
     forall w, w ∈ new -> leads_to w node) /\
  (forall low, lowlinks s' node = Some low -> low < index_counter s ->
     exists x, x ∈ stack s /\ index_of s x = Some low /\ leads_to node x).

End DependencySortReach.

(** ** Type names under automatic tagging *)

(** A component that is not itself a tagged or a selection type. *)
Definition plain_typed (h : heap) (c : loc) : Prop :=
  typed h c /\ isinstance h (VRef c) TaggedType = false /\
  isinstance h (VRef c) SelectionType = false.
(** ** Example models *)

(** A module with IMPLICIT TAGS holding [C ::= CHOICE { a INTEGER, b BOOLEAN }]
    and a value of selection type [a < C]. *)
Definition choice_module : heap :=
  [ Obj Module [("_user_types", VDict []); ("name", VStr "M");
                ("tag_default", VInt TagImplicitness.IMPLICIT);
                ("exports", VNone); ("imports", VNone);
                ("assignments", VList [VRef 1])];
    Obj TypeAssignment [("type_name", VStr "C"); ("type_decl", VRef 2)];
    ConstructedType_init ChoiceType (VStr "CHOICE") [VRef 3; VRef 5];
    Obj NamedType [("identifier", VStr "a"); ("type_decl", VRef 4)];
    Obj SimpleType [("constraint", VNone); ("type_name", VStr "INTEGER")];
    Obj NamedType [("identifier", VStr "b"); ("type_decl", VRef 6)];
    Obj SimpleType [("constraint", VNone); ("type_name", VStr "BOOLEAN")];
    Obj SelectionType [("identifier", VStr "a"); ("type_decl", VRef 8)];
    Obj DefinedType [("constraint", VNone); ("module_name", VNone);
                     ("type_name", VStr "C")];
    Obj SelectionType [("identifier", VStr "c"); ("type_decl", VRef 8)];
    Obj SelectionType [("identifier", VStr "a"); ("type_decl", VRef 11)];
    Obj DefinedType [("constraint", VNone); ("module_name", VNone);
                     ("type_name", VStr "D")] ].

(** Tokens, as the constructors take them apart. *)
Definition simple_type (name : string) : token :=
  PTok "Type" [PTok "SimpleType" [PStr name]].

Definition defined_type (name : string) : token :=
  PTok "Type" [PTok "DefinedType" [PNone; PStr name; PNone]].

Definition component (identifier : string) (type : token) : token :=
  PTok "ComponentType"
    [PTok "NamedType" [PTok "Identifier" [PStr identifier]; type]].

Definition sequence (components : list token) : token :=
  PTok "Type" [PTok "SequenceType" [PStr "SEQUENCE"; PSeq components]].

Definition type_assignment (name : string) (type : token) : token :=
  PTok "TypeAssignment" [PStr name; PStr "::="; type].

Definition module_definition (name : string) (tag_default : token)
  (assignments : list token) : token :=
  PTok "ModuleDefinition"
    [PTok "ModuleReference" [PStr name]; PNone; tag_default; PNone;
     PTok "ModuleBody" [PNone; PNone; PTok "AssignmentList" assignments]].

(** [A ::= SEQUENCE { x B }  B ::= INTEGER  C ::= SEQUENCE { y A }] *)
Definition abc_tokens : list token :=
  [ module_definition "M" PNone
      [ type_assignment "A" (sequence [component "x" (defined_type "B")]);
        type_assignment "B" (simple_type "INTEGER");
        type_assignment "C" (sequence [component "y" (defined_type "A")]) ] ].


(** What [module_assignments] makes of [abc_tokens] and of
    [cyclic_tokens]. *)
Definition abc : list assignment :=
  [ MkAssignment 4 "A" ["B"]; MkAssignment 6 "B" []; MkAssignment 11 "C" ["A"] ].

Definition ab_cyclic : list assignment :=
  [ MkAssignment 4 "A" ["B"]; MkAssignment 9 "B" ["A"] ].

(** Two assignments named T, the first referring to U, the second to
    nothing. *)
Definition repeated_name : list assignment :=
  [ MkAssignment 1 "T" ["U"]; MkAssignment 2 "U" []; MkAssignment 3 "T" [] ].

Definition abc_rank (name : string) : nat :=
  if bool_decide (name = "B") then 0
  else if bool_decide (name = "A") then 1 else 2.

(** [IMPORTS a FROM M b FROM M;] as Imports.__init__ receives it: one
    (symbols, module, oid) triple for each clause. *)
Definition two_clauses_same_module : list token :=
  [ PSeq [PSeq [PStr "a"]; PTok "ModuleReference" [PStr "M"]; PNone];
    PSeq [PSeq [PStr "b"]; PTok "ModuleReference" [PStr "M"]; PNone] ].

(** [SEQUENCE { a INTEGER, COMPONENTS OF T, b BOOLEAN }] *)
Definition components_of_heap : heap :=
  [ ConstructedType_init SequenceType (VStr "SEQUENCE") [VRef 1; VRef 2; VRef 3];
    Obj ComponentType
      (ComponentType_attrs (VStr "a") (VRef 4) VNone false VNone);
    Obj ComponentType
      (ComponentType_attrs VNone VNone VNone false (VRef 6));
    Obj ComponentType
      (ComponentType_attrs (VStr "b") (VRef 5) VNone false VNone);
    Obj SimpleType [("constraint", VNone); ("type_name", VStr "INTEGER")];
    Obj SimpleType [("constraint", VNone); ("type_name", VStr "BOOLEAN")];
    Obj DefinedType [("constraint", VNone); ("module_name", VNone);
                     ("type_name", VStr "T")] ].

(** The token of [COMPONENTS OF T]. *)
Definition components_of_token : token :=
  PTok "ComponentTypeComponentsOf"
    [PTok "Type" [PTok "DefinedType" [PNone; PStr "T"; PNone]]].


(** [M DEFINITIONS AUTOMATIC TAGS ::= BEGIN
       T ::= SEQUENCE { a INTEGER, ..., b BOOLEAN } END] *)
Definition extensible_tokens : list token :=
  [ module_definition "M" (PStr "AUTOMATIC TAGS")
      [ type_assignment "T"
          (sequence [component "a" (simple_type "INTEGER");
                     PTok "ExtensionMarker" [];
                     component "b" (simple_type "BOOLEAN")]) ] ].

(** The model the factory makes of [extensible_tokens], before the tagging
    pass.  The NamedTypes are the ones ComponentType.__init__ makes and
    drops. *)
Definition extensible_heap : heap :=
  [ Obj SimpleType [("constraint", VNone); ("type_name", VStr "INTEGER")];
    Obj NamedType [("identifier", VStr "a"); ("type_decl", VRef 0)];
    Obj ComponentType
      (ComponentType_attrs (VStr "a") (VRef 0) VNone false VNone);
    Obj ExtensionMarker [];
    Obj SimpleType [("constraint", VNone); ("type_name", VStr "BOOLEAN")];
    Obj NamedType [("identifier", VStr "b"); ("type_decl", VRef 4)];
    Obj ComponentType
      (ComponentType_attrs (VStr "b") (VRef 4) VNone false VNone);
    ConstructedType_init SequenceType (VStr "SEQUENCE") [VRef 2; VRef 3; VRef 6];
    Obj TypeAssignment [("type_name", VStr "T"); ("type_decl", VRef 7)];
    Obj Module [("_user_types", VDict []); ("name", VStr "M");
                ("tag_default", VInt TagImplicitness.AUTOMATIC);
                ("exports", VNone); ("imports", VNone);
                ("assignments", VList [VRef 8])] ].

(** A store that the factory cannot build: [A ::= SEQUENCE OF A] with the
    element type tied back to the assignment itself. *)
Definition knotted_heap : heap :=
  [ Obj TypeAssignment [("type_name", VStr "A"); ("type_decl", VRef 1)];
    Obj SequenceOfType [("kind", VStr "SEQUENCE"); ("type_name", VStr "SEQUENCE OF");
                        ("size_constraint", VNone); ("type_decl", VRef 0)] ].

(** The named values of [ENUMERATED { red, green, blue }], as
    NamedValue.__init__ leaves them. *)
Definition colours_heap : heap :=
  [ Obj NamedValue [("identifier", VStr "red"); ("value", VNone)];
    Obj NamedValue [("identifier", VStr "green"); ("value", VNone)];
    Obj NamedValue [("identifier", VStr "blue"); ("value", VNone)] ].

(** [M DEFINITIONS ::= BEGIN
       C ::= CHOICE { a INTEGER, ..., b BOOLEAN } END]
    with the selections [a < C] (at 8) and [b < C] (at 10). *)
Definition extensible_choice : heap :=
  [ Obj Module [("_user_types", VDict []); ("name", VStr "M");
                ("tag_default", VNone);
                ("exports", VNone); ("imports", VNone);
                ("assignments", VList [VRef 1])];
    Obj TypeAssignment [("type_name", VStr "C"); ("type_decl", VRef 2)];
    ConstructedType_init ChoiceType (VStr "CHOICE") [VRef 3; VRef 5; VRef 6];
    Obj NamedType [("identifier", VStr "a"); ("type_decl", VRef 4)];
    Obj SimpleType [("constraint", VNone); ("type_name", VStr "INTEGER")];
    Obj ExtensionMarker [];
    Obj NamedType [("identifier", VStr "b"); ("type_decl", VRef 7)];
    Obj SimpleType [("constraint", VNone); ("type_name", VStr "BOOLEAN")];
    Obj SelectionType [("identifier", VStr "a"); ("type_decl", VRef 9)];
    Obj DefinedType [("constraint", VNone); ("module_name", VNone);
                     ("type_name", VStr "C")];
    Obj SelectionType [("identifier", VStr "b"); ("type_decl", VRef 9)] ].

(** [M DEFINITIONS ::= BEGIN  A ::= B  B ::= A  END] *)
Definition alias_cycle : heap :=
  [ Obj Module [("_user_types", VDict []); ("name", VStr "M");
                ("tag_default", VNone);
                ("exports", VNone); ("imports", VNone);
                ("assignments", VList [VRef 1; VRef 3])];
    Obj TypeAssignment [("type_name", VStr "A"); ("type_decl", VRef 2)];
    Obj DefinedType [("constraint", VNone); ("module_name", VNone);
                     ("type_name", VStr "B")];
    Obj TypeAssignment [("type_name", VStr "B"); ("type_decl", VRef 4)];
    Obj DefinedType [("constraint", VNone); ("module_name", VNone);
                     ("type_name", VStr "A")] ].
(** * Properties *)

(** ** The store *)

Lemma assoc_set_same {V} k (v : V) d : assoc k (assoc_set k v d) = Some v.
Proof.
  induction d as [|[k' v'] d IH]; simpl.
  - by rewrite bool_decide_eq_true_2.
  - case_bool_decide; simpl.
    + by rewrite bool_decide_eq_true_2.
    + by rewrite bool_decide_eq_false_2.
Qed.

Lemma assoc_set_other {V} k k' (v : V) d :
  k <> k' -> assoc k' (assoc_set k v d) = assoc k' d.
Proof.
  intros Hne. induction d as [|[k0 v0] d IH]; simpl.
  - by rewrite bool_decide_eq_false_2.
  - case_bool_decide; simpl; subst.
    + by rewrite !bool_decide_eq_false_2.
    + case_bool_decide; done.
Qed.

(** ** Module.resolve_tag_implicitness *)

Lemma py_eq_AUTOMATIC v :
  py_eq v (VInt TagImplicitness.AUTOMATIC) = true <-> v = VInt TagImplicitness.AUTOMATIC.
Proof.
  split; [|by intros ->].
  destruct v as [| b | z | | | | |]; simpl; try done.
  - destruct b; done.
  - intros Hz. apply bool_decide_eq_true_1 in Hz. by subst.
Qed.

(** C6.  On a module that has a [tag_default]: an implicitness that is
    given is returned as it is; none given and a CHOICE tagged, the result
    is EXPLICIT whatever the module default; none given, no CHOICE and the
    default AUTOMATIC, the result is IMPLICIT; in every other case the
    result is the module default, EXPLICIT when the default is None. *)
Theorem resolve_tag_implicitness_cases (h : heap) (self : loc)
  (tag_default tag_implicitness tagged_type_decl : val) :
  getattr h (VRef self) "tag_default" = Ok tag_default ->
  (tag_implicitness <> VNone ->
   resolve_tag_implicitness h self tag_implicitness tagged_type_decl
   = Ok tag_implicitness) /\
  (isinstance h tagged_type_decl ChoiceType = true ->
   resolve_tag_implicitness h self VNone tagged_type_decl
   = Ok (VInt TagImplicitness.EXPLICIT)) /\
  (isinstance h tagged_type_decl ChoiceType = false ->
   tag_default = VInt TagImplicitness.AUTOMATIC ->
   resolve_tag_implicitness h self VNone tagged_type_decl
   = Ok (VInt TagImplicitness.IMPLICIT)) /\
  (isinstance h tagged_type_decl ChoiceType = false ->
   tag_default <> VInt TagImplicitness.AUTOMATIC ->
   resolve_tag_implicitness h self VNone tagged_type_decl
   = Ok (match tag_default with
         | VNone => VInt TagImplicitness.EXPLICIT
         | _ => tag_default
         end)).
Proof.
  intros Hd. repeat split.
  - intros Hne. by destruct tag_implicitness.
  - intros Hc. unfold resolve_tag_implicitness. by rewrite Hc.
  - intros Hc ->. unfold resolve_tag_implicitness. by rewrite Hc, Hd.
  - intros Hc Hne. unfold resolve_tag_implicitness. rewrite Hc, Hd. simpl.
    destruct (py_eq tag_default (VInt TagImplicitness.AUTOMATIC)) eqn:E.
    + by apply py_eq_AUTOMATIC in E.
    + by destruct tag_default.
Qed.

Lemma resolve_tag_implicitness_cases_witness :
  resolve_tag_implicitness choice_module 0 VNone (VRef 2)
  = Ok (VInt TagImplicitness.EXPLICIT) /\
  resolve_tag_implicitness choice_module 0 VNone (VRef 4)
  = Ok (VInt TagImplicitness.IMPLICIT).
Proof.
  split.
  - apply (resolve_tag_implicitness_cases choice_module 0
             (VInt TagImplicitness.IMPLICIT) VNone (VRef 2) eq_refl).
    reflexivity.
  - apply (resolve_tag_implicitness_cases choice_module 0
             (VInt TagImplicitness.IMPLICIT) VNone (VRef 4) eq_refl).
    + reflexivity.
    + discriminate.
Defined.

(** ** Module.resolve_selection_type *)

Lemma res_bind_Ok {A B} (m : res A) (k : A -> res B) b :
  res_bind m k = Ok b -> exists a, m = Ok a /\ k a = Ok b.
Proof. destruct m; simpl; [eauto | done]. Qed.

Lemma lookup_setattr_ne h l l' k v : l <> l' -> setattr h l k v !! l' = h !! l'.
Proof.
  intros Hne. unfold setattr. destruct (h !! l); [|done].
  by apply list_lookup_insert_ne.
Qed.

Lemma lookup_setattr_eq h l k v o :
  h !! l = Some o -> setattr h l k v !! l = Some (Obj (cls o) (assoc_set k v (attrs o))).
Proof.
  intros Ho. unfold setattr. rewrite Ho.
  apply list_lookup_insert_eq. by eapply lookup_lt_Some.
Qed.

Lemma length_setattr h l k v : length (setattr h l k v) = length h.
Proof. unfold setattr. destruct (h !! l); [apply length_insert | done]. Qed.

Lemma vars_setattr_other_name h l k v l' k' :
  k <> k' -> assoc k' (vars (setattr h l k v) l') = assoc k' (vars h l').
Proof.
  intros Hk. unfold vars. destruct (decide (l = l')) as [<-|Hl].
  - destruct (h !! l) as [o|] eqn:Ho.
    + rewrite (lookup_setattr_eq _ _ _ _ _ Ho). simpl. by apply assoc_set_other.
    + unfold setattr. rewrite Ho. by rewrite Ho.
  - by rewrite lookup_setattr_ne.
Qed.

Lemma getattr_setattr_other_name h l k v x k' :
  k <> k' -> getattr (setattr h l k v) x k' = getattr h x k'.
Proof.
  intros Hk. destruct x; simpl; try done. by rewrite vars_setattr_other_name.
Qed.

Lemma py_eq_VStr v s : py_eq v (VStr s) = true -> v = VStr s.
Proof.
  destruct v; simpl; try done. intros E. apply bool_decide_eq_true_1 in E. by subst.
Qed.

Lemma Forall_named_typed_setattr h l k v :
  k <> "identifier" -> k <> "type_decl" ->
  Forall named_typed h -> Forall named_typed (setattr h l k v).
Proof.
  intros Hi Ht Hall. unfold setattr. destruct (h !! l) as [o|] eqn:Ho; [|done].
  apply Forall_insert; [done|].
  pose proof (Forall_lookup_1 _ _ _ _ Hall Ho) as Hno.
  unfold named_typed in *. simpl. by rewrite !assoc_set_other.
Qed.

Lemma user_types_named_typed h self ut h1 :
  user_types h self = Ok (ut, h1) -> Forall named_typed h -> Forall named_typed h1.
Proof.
  unfold user_types. intros Hu Hall.
  apply res_bind_Ok in Hu as (cache & _ & Hu).
  destruct cache as [| | | | | |kvs|]; try done.
  destruct kvs; [|by inversion Hu; subst].
  apply res_bind_Ok in Hu as (asg & _ & Hu).
  destruct asg; try done.
  apply res_bind_Ok in Hu as (d & _ & Hu). inversion Hu; subst.
  by apply Forall_named_typed_setattr.
Qed.

Lemma user_types_getattr h self ut h1 x k :
  user_types h self = Ok (ut, h1) -> k <> "_user_types" ->
  getattr h1 x k = getattr h x k.
Proof.
  unfold user_types. intros Hu Hk.
  apply res_bind_Ok in Hu as (cache & _ & Hu).
  destruct cache as [| | | | | |kvs|]; try done.
  destruct kvs; [|by inversion Hu; subst].
  apply res_bind_Ok in Hu as (asg & _ & Hu).
  destruct asg; try done.
  apply res_bind_Ok in Hu as (d & _ & Hu). inversion Hu; subst.
  by apply getattr_setattr_other_name.
Qed.

(** The loop returns None only after it went through all the components
    without a match. *)
Lemma find_component_None h cs sel ident :
  Forall named_typed h ->
  getattr h sel "identifier" = Ok (VStr ident) ->
  find_component h cs sel = Ok VNone ->
  Forall (fun c => exists i, getattr h c "identifier" = Ok i /\
                             py_eq i (VStr ident) = false) cs.
Proof.
  intros Hall Hsel. induction cs as [|c cs IH]; simpl; [constructor|].
  intros Hf. apply res_bind_Ok in Hf as (i & Hi & Hf).
  rewrite Hsel in Hf. simpl in Hf.
  destruct (py_eq i (VStr ident)) eqn:E.
  - exfalso. apply py_eq_VStr in E. subst i.
    destruct c as [| | | |l| | |]; try done. simpl in Hi, Hf.
    unfold vars in *. destruct (h !! l) as [o|] eqn:Ho; [|done].
    pose proof (Forall_lookup_1 _ _ _ _ Hall Ho) as Hno. unfold named_typed in Hno.
    destruct (assoc "identifier" (attrs o)) as [i|]; [|done].
    destruct (assoc "type_decl" (attrs o)) as [d|]; [|done].
    inversion Hi; inversion Hf; subst. done.
  - constructor; eauto.
Qed.

Lemma find_component_no_match h cs sel ident :
  getattr h sel "identifier" = Ok (VStr ident) ->
  Forall (fun c => exists i, getattr h c "identifier" = Ok i /\
                             py_eq i (VStr ident) = false) cs ->
  find_component h cs sel = Ok VNone.
Proof.
  intros Hsel. induction 1 as [|c cs (i & Hi & E) _ IH]; simpl; [done|].
  by rewrite Hi, Hsel; simpl; rewrite E.
Qed.

(** C10.  On a model whose named components all have a type, and for a
    selection with a string identifier: [resolve_selection_type] returns
    None only if the type the selection names is in [user_types()] and
    none of its components has the identifier of the selection (and it
    does return None then); if the type is not in [user_types()] the call
    raises the KeyError of the lookup. *)
Theorem resolve_selection_type_None (h : heap) (self : loc)
  (selection_type_decl : val) (ident : string) :
  Forall named_typed h ->
  isinstance h selection_type_decl SelectionType = true ->
  getattr h selection_type_decl "identifier" = Ok (VStr ident) ->
  (forall h',
     resolve_selection_type h self selection_type_decl = Ok (VNone, h') <->
     exists inner name ut choice_type cs,
       getattr h selection_type_decl "type_decl" = Ok inner /\
       type_name h inner = Ok name /\
       user_types h self = Ok (ut, h') /\
       dict_get name ut = Some choice_type /\
       getattr h' choice_type "components" = Ok (VList cs) /\
       Forall (fun c => exists i, getattr h' c "identifier" = Ok i /\
                                  py_eq i (VStr ident) = false) cs) /\
  (forall inner name ut h1,
     getattr h selection_type_decl "type_decl" = Ok inner ->
     type_name h inner = Ok name ->
     user_types h self = Ok (ut, h1) ->
     dict_get name ut = None ->
     resolve_selection_type h self selection_type_decl = Raise (KeyError name)).
Proof.
  intros Hall Hsel Hid. split.
  - intros h'. unfold resolve_selection_type, get_type_decl. rewrite Hsel. simpl.
    split.
    + intros Hr.
      apply res_bind_Ok in Hr as (inner & Hinner & Hr).
      apply res_bind_Ok in Hr as (name & Hname & Hr).
      apply res_bind_Ok in Hr as ([choice_type h1] & Hget & Hr).
      apply res_bind_Ok in Hget as ([ut h2] & Hut & Hget). simpl in Hget.
      destruct (dict_get name ut) as [d|] eqn:Hd; [|done].
      inversion Hget; subst d h2; clear Hget.
      apply res_bind_Ok in Hr as (components & Hcs & Hr).
      destruct components as [| | | | |cs| |]; try done.
      apply res_bind_Ok in Hr as (d & Hfind & Hr).
      inversion Hr; subst d h'; clear Hr.
      exists inner, name, ut, choice_type, cs. repeat split; try done.
      apply (find_component_None h1 cs selection_type_decl ident); [| |done].
      * by eapply user_types_named_typed.
      * by rewrite (user_types_getattr _ _ _ _ _ _ Hut).
    + intros (inner & name & ut & choice_type & cs & Hinner & Hname & Hut & Hd & Hcs & Hno).
      rewrite Hinner. simpl. rewrite Hname. simpl. rewrite Hut. simpl.
      rewrite Hd. simpl. rewrite Hcs. simpl.
      rewrite (find_component_no_match _ _ _ ident); [done| |done].
      by rewrite (user_types_getattr _ _ _ _ _ _ Hut).
  - intros inner name ut h1 Hinner Hname Hut Hd.
    unfold resolve_selection_type, get_type_decl. rewrite Hsel. simpl.
    rewrite Hinner. simpl. rewrite Hname. simpl. rewrite Hut. simpl.
    by rewrite Hd.
Qed.

Lemma choice_module_named_typed : Forall named_typed choice_module.
Proof. repeat constructor. Qed.

Lemma resolve_selection_type_None_witness :
  (exists h', resolve_selection_type choice_module 0 (VRef 9) = Ok (VNone, h')) /\
  resolve_selection_type choice_module 0 (VRef 10) = Raise (KeyError (VStr "D")).
Proof.
  pose proof (resolve_selection_type_None choice_module 0 (VRef 9) "c"
                choice_module_named_typed eq_refl eq_refl) as [Hnone _].
  pose proof (resolve_selection_type_None choice_module 0 (VRef 10) "a"
                choice_module_named_typed eq_refl eq_refl) as [_ Hkey].
  split.
  - eexists. apply Hnone.
    exists (VRef 8), (VStr "C"), [(VStr "C", VRef 2)], (VRef 2), [VRef 3; VRef 5].
    repeat split; try reflexivity.
    repeat constructor; eexists; split; reflexivity.
  - apply (Hkey (VRef 11) (VStr "D") [(VStr "C", VRef 2)]
             (setattr choice_module 0 "_user_types" (VDict [(VStr "C", VRef 2)])));
      reflexivity.
Defined.

(** ** ConstructedType.auto_tag *)

Lemma TaggedType_init4_auto n e :
  TaggedType_init4 VNone (VStr (str_of_nat n)) VNone e = auto_tagged n e.
Proof. reflexivity. Qed.

Lemma typed_lt h c : typed h c -> c < length h.
Proof.
  unfold typed, vars. intros [e He].
  destruct (h !! c) as [o|] eqn:Ho; [|done]. by eapply lookup_lt_Some.
Qed.

Lemma hasattr_typed h c : hasattr h (VRef c) "type_decl" = true <-> typed h c.
Proof. unfold hasattr, typed. apply bool_decide_eq_true. Qed.

Lemma wrap_child_eq h n c o e :
  h !! c = Some o -> assoc "type_decl" (attrs o) = Some e ->
  wrap_child h n c
  = <[c := Obj (cls o) (assoc_set "type_decl" (VRef (length h)) (attrs o))]> h
    ++ [auto_tagged n e].
Proof.
  intros Ho He. unfold wrap_child, vars. rewrite Ho, He. simpl.
  unfold setattr. pose proof (lookup_lt_Some _ _ _ Ho) as Hlt.
  rewrite lookup_app_l, Ho by done.
  by rewrite insert_app_l.
Qed.

Lemma typed_inv h c : typed h c ->
  exists o e, h !! c = Some o /\ assoc "type_decl" (attrs o) = Some e.
Proof.
  unfold typed, vars. intros [e He].
  destruct (h !! c) as [o|] eqn:Ho; [eauto | done].
Qed.

Lemma typed_wrap_child h n c x : typed h c -> typed h x -> typed (wrap_child h n c) x.
Proof.
  intros Hc Hx. destruct (typed_inv _ _ Hc) as (o & e & Ho & He).
  rewrite (wrap_child_eq _ _ _ _ _ Ho He).
  pose proof (typed_lt _ _ Hx) as Hlt. pose proof (typed_lt _ _ Hc) as Hltc.
  unfold typed, vars. rewrite lookup_app_l by by rewrite length_insert.
  destruct (decide (c = x)) as [<-|Hne].
  - rewrite list_lookup_insert_eq by done. simpl. by rewrite assoc_set_same.
  - rewrite list_lookup_insert_ne by done. apply Hx.
Qed.

(** What the loop of [auto_tag] leaves of the store it started on: classes
    and all attributes but [type_decl] are as they were, an object that is
    not among the children is untouched, a child has a new TaggedType for
    [type_decl], and all that is new is TaggedType. *)
Lemma wrap_children_frame cs : forall h n,
  Forall (typed h) cs ->
  length (wrap_children h n cs) = length h + length cs /\
  (forall l o, h !! l = Some o ->
     exists o', wrap_children h n cs !! l = Some o' /\
       cls o' = cls o /\
       (forall k, k <> "type_decl" -> assoc k (attrs o') = assoc k (attrs o)) /\
       (l ∉ cs -> o' = o) /\
       (l ∈ cs -> exists t, length h <= t < length h + length cs /\
                            assoc "type_decl" (attrs o') = Some (VRef t))) /\
  (forall t, length h <= t < length h + length cs ->
     exists o, wrap_children h n cs !! t = Some o /\ cls o = TaggedType).
Proof.
  induction cs as [|c cs IH]; intros h n Hall; simpl.
  - split; [lia|]. split.
    + intros l o Ho. exists o. repeat split; try done. by intros ?%elem_of_nil.
    + intros t Ht. lia.
  - apply Forall_cons in Hall as [Hc Hcs].
    destruct (typed_inv _ _ Hc) as (oc & e & Hoc & He).
    pose proof (lookup_lt_Some _ _ _ Hoc) as Hltc.
    assert (Hall1 : Forall (typed (wrap_child h n c)) cs).
    { eapply Forall_impl; [exact Hcs|]. intros x. by apply typed_wrap_child. }
    destruct (IH _ (S n) Hall1) as (Hlen & Hold & Hnew).
    assert (Hlen1 : length (wrap_child h n c) = S (length h)).
    { rewrite (wrap_child_eq _ _ _ _ _ Hoc He), length_app, length_insert. simpl. lia. }
    rewrite Hlen1 in *.
    split; [lia|]. split.
    + intros l o Ho.
      pose proof (lookup_lt_Some _ _ _ Ho) as Hlt.
      destruct (decide (l = c)) as [->|Hne].
      * assert (o = oc) as -> by congruence.
        assert (H1 : wrap_child h n c !! c
                     = Some (Obj (cls oc) (assoc_set "type_decl" (VRef (length h)) (attrs oc)))).
        { rewrite (wrap_child_eq _ _ _ _ _ Hoc He), lookup_app_l by by rewrite length_insert.
          by apply list_lookup_insert_eq. }
        destruct (Hold _ _ H1) as (o' & Ho' & Hcls & Hk & Hnot & Hin).
        exists o'. split; [done|]. split; [done|]. split.
        { intros k Hk'. rewrite Hk by done. simpl. by apply assoc_set_other. }
        split.
        { intros Hn. exfalso. apply Hn. by left. }
        intros _. destruct (decide (c ∈ cs)) as [Hi|Hi].
        -- destruct (Hin Hi) as (t & Ht & Ht'). exists t. split; [lia|done].
        -- rewrite (Hnot Hi). simpl. exists (length h). split; [lia|].
           by rewrite assoc_set_same.
      * assert (H1 : wrap_child h n c !! l = Some o).
        { rewrite (wrap_child_eq _ _ _ _ _ Hoc He), lookup_app_l by by rewrite length_insert.
          by rewrite list_lookup_insert_ne. }
        destruct (Hold _ _ H1) as (o' & Ho' & Hcls & Hk & Hnot & Hin).
        exists o'. repeat split; try done.
        -- intros Hn. apply Hnot. intros Hi. apply Hn. by right.
        -- intros [?|Hi]%elem_of_cons; [done|].
           destruct (Hin Hi) as (t & Ht & Ht'). exists t. split; [lia|done].
    + intros t Ht. destruct (decide (t = length h)) as [->|Hne].
      * assert (H1 : wrap_child h n c !! length h = Some (auto_tagged n e)).
        { rewrite (wrap_child_eq _ _ _ _ _ Hoc He).
          rewrite lookup_app_r by by rewrite length_insert.
          by rewrite length_insert, Nat.sub_diag. }
        destruct (Hold _ _ H1) as (o' & Ho' & Hcls & _).
        exists o'. split; [done|]. by rewrite Hcls.
      * apply Hnew. lia.
Qed.

(** With distinct children, the child at position [i] gets the tag number
    [n + i] around the [type_decl] it had. *)
Lemma wrap_children_tags cs : forall h n,
  Forall (typed h) cs -> NoDup cs ->
  forall i c, cs !! i = Some c ->
    exists o e, h !! c = Some o /\ assoc "type_decl" (attrs o) = Some e /\
      wrap_children h n cs !! c
      = Some (Obj (cls o) (assoc_set "type_decl" (VRef (length h + i)) (attrs o))) /\
      wrap_children h n cs !! (length h + i) = Some (auto_tagged (n + i) e).
Proof.
  induction cs as [|c0 cs IH]; intros h n Hall Hnd i c Hi; [done|].
  apply Forall_cons in Hall as [Hc Hcs].
  apply NoDup_cons in Hnd as [Hnotin Hnd].
  destruct (typed_inv _ _ Hc) as (oc & e & Hoc & He).
  pose proof (lookup_lt_Some _ _ _ Hoc) as Hltc.
  assert (Hall1 : Forall (typed (wrap_child h n c0)) cs).
  { eapply Forall_impl; [exact Hcs|]. intros x. by apply typed_wrap_child. }
  assert (Hlen1 : length (wrap_child h n c0) = S (length h)).
  { rewrite (wrap_child_eq _ _ _ _ _ Hoc He), length_app, length_insert. simpl. lia. }
  simpl. destruct i as [|i]; simpl in Hi.
  - inversion Hi; subst c0. exists oc, e. split; [done|]. split; [done|].
    destruct (wrap_children_frame cs _ (S n) Hall1) as (_ & Hold & _).
    rewrite Nat.add_0_r.
    assert (H1 : wrap_child h n c !! c
                 = Some (Obj (cls oc) (assoc_set "type_decl" (VRef (length h)) (attrs oc)))).
    { rewrite (wrap_child_eq _ _ _ _ _ Hoc He), lookup_app_l by by rewrite length_insert.
      by apply list_lookup_insert_eq. }
    assert (H2 : wrap_child h n c !! length h = Some (auto_tagged n e)).
    { rewrite (wrap_child_eq _ _ _ _ _ Hoc He).
      rewrite lookup_app_r by by rewrite length_insert.
      by rewrite length_insert, Nat.sub_diag. }
    destruct (Hold _ _ H1) as (o1 & Ho1 & _ & _ & Hsame1 & _).
    destruct (Hold _ _ H2) as (o2 & Ho2 & _ & _ & Hsame2 & _).
    rewrite Ho1, Ho2, (Hsame1 Hnotin). split; [done|].
    rewrite Hsame2, Nat.add_0_r; [done|].
    intros Hin. apply (Forall_forall (typed h) cs) with (x := length h) in Hcs; [|done].
    apply typed_lt in Hcs. lia.
  - assert (Hne : c <> c0).
    { intros ->. apply Hnotin. by eapply list_elem_of_lookup_2. }
    destruct (IH _ (S n) Hall1 Hnd i c Hi) as (o & e' & Ho & He' & H1 & H2).
    assert (Ho0 : h !! c = Some o).
    { rewrite (wrap_child_eq _ _ _ _ _ Hoc He) in Ho.
      assert (c < length h).
      { eapply typed_lt, (Forall_forall (typed h) cs); [done|].
        by eapply list_elem_of_lookup_2. }
      rewrite lookup_app_l in Ho by by rewrite length_insert.
      by rewrite list_lookup_insert_ne in Ho. }
    exists o, e'. split; [done|]. split; [done|].
    rewrite Hlen1 in H1, H2.
    replace (length h + S i) with (S (length h) + i) by lia.
    replace (n + S i) with (S n + i) by lia. done.
Qed.

Lemma children_constructed h self cs :
  is_constructed_type h self cs -> children h self = flat_map node_refs cs.
Proof.
  intros (c & n & _ & Ho). unfold children. rewrite Ho.
  unfold children_of. destruct n; simpl; by rewrite app_nil_r.
Qed.

Lemma typed_children_typed h self : Forall (typed h) (typed_children h self).
Proof.
  apply Forall_forall. intros c Hc. unfold typed_children in Hc.
  apply list_elem_of_filter in Hc as [Hc _]. by apply hasattr_typed.
Qed.

Lemma constructed_not_typed h self cs : is_constructed_type h self cs -> ~ typed h self.
Proof.
  intros (c & n & _ & Ho) [e He]. unfold vars in He. by rewrite Ho in He.
Qed.

Lemma auto_tag_eq h self cs :
  is_constructed_type h self cs ->
  auto_tag h self
  = Ok (if already_tagged h cs then h
        else wrap_children h 0 (typed_children h self)).
Proof.
  intros (c & n & _ & Ho). unfold auto_tag. simpl. unfold vars. rewrite Ho. simpl.
  by destruct (already_tagged h cs).
Qed.

Lemma wrap_children_constructed h self cs n :
  is_constructed_type h self cs ->
  is_constructed_type (wrap_children h n (typed_children h self)) self cs.
Proof.
  intros Hself. pose proof Hself as (c & m & Hsub & Ho).
  destruct (wrap_children_frame _ h n (typed_children_typed h self))
    as (_ & Hold & _).
  destruct (Hold _ _ Ho) as (o' & Ho' & _ & _ & Hsame & _).
  exists c, m. split; [done|]. rewrite Ho', Hsame; [done|].
  intros Hin. apply (constructed_not_typed _ _ _ Hself).
  by eapply (Forall_forall (typed h)); [apply typed_children_typed|].
Qed.

(** After the loop every component that had a [type_decl] has a TaggedType
    there. *)
Lemma wrap_children_already_tagged h self cs :
  is_constructed_type h self cs ->
  typed_children h self <> [] ->
  already_tagged (wrap_children h 0 (typed_children h self)) cs = true.
Proof.
  intros Hself Hne.
  destruct (typed_children h self) as [|c tc] eqn:Htc; [done|].
  assert (Hc : c ∈ typed_children h self) by (rewrite Htc; left).
  pose proof (typed_children_typed h self) as Hall.
  destruct (wrap_children_frame _ h 0 Hall) as (_ & Hold & Hnew).
  rewrite <- Htc.
  set (h1 := wrap_children h 0 (typed_children h self)) in *.
  assert (Hty : typed h c) by by eapply (Forall_forall (typed h)).
  destruct (typed_inv _ _ Hty) as (o & e & Ho & He).
  destruct (Hold _ _ Ho) as (o' & Ho' & _ & _ & _ & Hin).
  destruct (Hin Hc) as (t & Ht & Hdecl).
  destruct (Hnew t Ht) as (ot & Hot & Hcls).
  unfold already_tagged. apply existsb_exists. exists (VRef t). split.
  - apply list_elem_of_In, list_elem_of_omap. exists (VRef c). split.
    + unfold typed_children in Hc. apply list_elem_of_filter in Hc as [_ Hc].
      rewrite (children_constructed _ _ _ Hself) in Hc.
      apply list_elem_of_In, in_flat_map in Hc as (v & Hv & Hcv).
      destruct v; simpl in Hcv; try done. destruct Hcv as [->|[]].
      by apply list_elem_of_In.
    + unfold vars. by rewrite Ho'.
  - simpl. rewrite Hot, Hcls. reflexivity.
Qed.

(** C5.  [auto_tag] on a constructed type returns; if a component is
    tagged already it leaves the store as it is; and a second call after
    the first changes nothing more. *)
Theorem auto_tag_idempotent (h : heap) (self : loc) (components : list val) :
  is_constructed_type h self components ->
  (already_tagged h components = true -> auto_tag h self = Ok h) /\
  (exists h1, auto_tag h self = Ok h1 /\ auto_tag h1 self = Ok h1).
Proof.
  intros Hself. rewrite (auto_tag_eq _ _ _ Hself). split.
  - by intros ->.
  - destruct (already_tagged h components) eqn:Htag.
    + exists h. split; [done|]. by rewrite (auto_tag_eq _ _ _ Hself), Htag.
    + eexists. split; [done|].
      rewrite (auto_tag_eq _ _ components) by by apply wrap_children_constructed.
      destruct (typed_children h self) as [|c tc] eqn:Htc.
      * simpl. by rewrite Htag, Htc.
      * rewrite <- Htc, wrap_children_already_tagged; [done|done|].
        by rewrite Htc.
Qed.

(** ** ComponentType.__init__ and the COMPONENTS OF form *)

Lemma bind_Ok {A B} (m : M A) (k : A -> M B) st b st' :
  bind m k st = Ok (b, st') ->
  exists a st1, m st = Ok (a, st1) /\ k a st1 = Ok (b, st').
Proof.
  unfold bind. destruct (m st) as [[a st1]|]; [eauto | done].
Qed.

Lemma new_Ok c a st v st' :
  new c a st = Ok (v, st') ->
  v = VRef (length (st_heap st)) /\ st_heap st' = st_heap st ++ [Obj c a].
Proof. unfold new. simpl. intros [= <- <-]. done. Qed.

Lemma new_lookup c a st v st' :
  new c a st = Ok (v, st') ->
  exists l, v = VRef l /\ st_heap st' !! l = Some (Obj c a).
Proof.
  intros [-> ->]%new_Ok. eexists. split; [done|].
  rewrite lookup_app_r by done. by rewrite Nat.sub_diag.
Qed.

Ltac inv_bind H :=
  let a := fresh "a" in
  let st1 := fresh "st" in
  let H1 := fresh "Hm" in
  apply bind_Ok in H as (a & st1 & H1 & H).

(** A ComponentType has all five attributes, whatever form it was built
    from; the COMPONENTS OF form leaves [type_decl] at None. *)
Lemma ComponentType_init_attrs create elements st v st' :
  ComponentType_init create elements st = Ok (v, st') ->
  exists l identifier type_decl default_value optional components_of_type,
    v = VRef l /\
    st_heap st' !! l
    = Some (Obj ComponentType
              (ComponentType_attrs identifier type_decl default_value optional
                                   components_of_type)) /\
    (forall es, elements !! 0 = Some (PTok "ComponentTypeComponentsOf" es) ->
                type_decl = VNone).
Proof.
  unfold ComponentType_init. intros Hinit.
  inv_bind Hinit. rename a into first_token.
  inv_bind Hinit. rename a into ty.
  assert (Hfirst : elements !! 0 = Some first_token).
  { unfold lift, index in Hm. by destruct (elements !! 0); inversion Hm. }
  assert (Hty : forall es, first_token = PTok "ComponentTypeComponentsOf" es ->
                           ty = "ComponentTypeComponentsOf").
  { intros es ->. by inversion Hm0. }
  repeat case_bool_decide.
  - repeat inv_bind Hinit. apply new_lookup in Hinit as (l & -> & Hl).
    do 6 eexists. split; [done|]. split; [exact Hl|].
    intros es Hes. rewrite Hfirst in Hes. inversion Hes; subst first_token.
    by rewrite (Hty _ eq_refl) in *.
  - repeat inv_bind Hinit. apply new_lookup in Hinit as (l & -> & Hl).
    do 6 eexists. split; [done|]. split; [exact Hl|].
    intros es Hes. rewrite Hfirst in Hes. inversion Hes; subst first_token.
    by rewrite (Hty _ eq_refl) in *.
  - repeat inv_bind Hinit. apply new_lookup in Hinit as (l & -> & Hl).
    do 6 eexists. split; [done|]. split; [exact Hl|].
    intros es Hes. rewrite Hfirst in Hes. inversion Hes; subst first_token.
    by rewrite (Hty _ eq_refl) in *.
  - repeat inv_bind Hinit. apply new_lookup in Hinit as (l & -> & Hl).
    do 6 eexists. split; [done|]. split; [exact Hl|]. done.
  - done.
Qed.

Lemma typed_children_constructed h self cs :
  is_constructed_type h self cs -> typed_children h self = typed_refs h cs.
Proof.
  intros Hself. unfold typed_children, typed_refs.
  by rewrite (children_constructed _ _ _ Hself).
Qed.

Lemma typed_refs_app h xs ys : typed_refs h (xs ++ ys) = typed_refs h xs ++ typed_refs h ys.
Proof. unfold typed_refs. by rewrite flat_map_app, filter_app. Qed.

(** The tag each typed child gets, by its position among the typed
    children. *)
Lemma auto_tag_numbers h self cs :
  is_constructed_type h self cs ->
  already_tagged h cs = false ->
  NoDup (typed_children h self) ->
  exists h', auto_tag h self = Ok h' /\
    forall i c, typed_children h self !! i = Some c ->
      exists e t, getattr h (VRef c) "type_decl" = Ok e /\
                  getattr h' (VRef c) "type_decl" = Ok (VRef t) /\
                  h' !! t = Some (auto_tagged i e).
Proof.
  intros Hself Htag Hnd. rewrite (auto_tag_eq _ _ _ Hself), Htag.
  eexists. split; [done|]. intros i c Hi.
  destruct (wrap_children_tags _ h 0 (typed_children_typed h self) Hnd i c Hi)
    as (o & e & Ho & He & Hc & Ht).
  exists e, (length h + i). simpl. unfold vars. rewrite Ho, Hc, He. simpl.
  by rewrite assoc_set_same.
Qed.

(** C9.  Every ComponentType has a [type_decl] attribute, None for the
    COMPONENTS OF form.  So when [auto_tag] runs on a constructed type with
    no tagged component, a COMPONENTS OF component is counted like the
    others: its None is wrapped in a TaggedType that takes the next tag
    number, and the components after it are numbered from one more. *)
Theorem components_of_is_auto_tagged :
  (forall create elements st v st',
     ComponentType_init create elements st = Ok (v, st') ->
     hasattr (st_heap st') v "type_decl" = true /\
     (forall es, elements !! 0 = Some (PTok "ComponentTypeComponentsOf" es) ->
                 getattr (st_heap st') v "type_decl" = Ok VNone)) /\
  (forall h self before c after,
     is_constructed_type h self (before ++ VRef c :: after) ->
     already_tagged h (before ++ VRef c :: after) = false ->
     NoDup (typed_children h self) ->
     getattr h (VRef c) "type_decl" = Ok VNone ->
     exists h', auto_tag h self = Ok h' /\
       let k := length (typed_refs h before) in
       (exists t, getattr h' (VRef c) "type_decl" = Ok (VRef t) /\
                  h' !! t = Some (auto_tagged k VNone)) /\
       (forall j d, typed_refs h after !! j = Some d ->
          exists e t, getattr h (VRef d) "type_decl" = Ok e /\
                      getattr h' (VRef d) "type_decl" = Ok (VRef t) /\
                      h' !! t = Some (auto_tagged (k + 1 + j) e))).
Proof.
  split.
  - intros create elements st v st' Hinit.
    apply ComponentType_init_attrs in Hinit
      as (l & i & d & dv & opt & co & -> & Hl & Hco).
    split.
    + simpl. unfold vars. rewrite Hl. reflexivity.
    + intros es Hes. simpl. unfold vars. rewrite Hl. simpl. by rewrite (Hco es Hes).
  - intros h self before c after Hself Htag Hnd Hc.
    destruct (auto_tag_numbers _ _ _ Hself Htag Hnd) as (h' & Hauto & Hnum).
    exists h'. split; [done|].
    assert (Hsplit : typed_children h self
                     = typed_refs h before ++ c :: typed_refs h after).
    { rewrite (typed_children_constructed _ _ _ Hself), typed_refs_app.
      f_equal. unfold typed_refs. simpl. rewrite filter_cons_True; [done|].
      simpl. simpl in Hc. destruct (assoc "type_decl" (vars h c)); [|done].
      apply bool_decide_eq_true. eauto. }
    simpl. split.
    + destruct (Hnum (length (typed_refs h before)) c) as (e & t & He & Ht & Hobj).
      { rewrite Hsplit. by rewrite list_lookup_middle. }
      rewrite Hc in He. inversion He; subst e. eauto.
    + intros j d Hd.
      apply (Hnum (length (typed_refs h before) + 1 + j) d).
      rewrite Hsplit, lookup_app_r by lia.
      replace (length (typed_refs h before) + 1 + j - length (typed_refs h before))
        with (S j) by lia.
      done.
Qed.

(** ** Imports.__init__ *)

(** C3.  Two import clauses that name the same module [M]: each clause gets
    a GlobalModuleReference of its own, no two of which are equal, so the
    mapping ends up with two entries for [M], one with the symbols of each
    clause, and none with the symbols of both. *)
Theorem Imports_same_module_not_merged (create : token -> M val) (st : state) :
  let h := st_heap st in
  let n := length h in
  Imports_init create two_clauses_same_module st
  = Ok (VRef (S (S n)),
        State (h ++ [Obj GlobalModuleReference [("module", VStr "M"); ("oid", VNone)];
                     Obj GlobalModuleReference [("module", VStr "M"); ("oid", VNone)];
                     Obj Imports
                       [("imports",
                         VDict [(VRef n, VList [VStr "a"]);
                                (VRef (S n), VList [VStr "b"])])]])
              (unnamed_counter st)).
Proof.
  destruct st as [h c]. simpl.
  unfold Imports_init, bind, new, alloc. simpl.
  rewrite !length_app. simpl.
  replace (length h + 1) with (S (length h)) by lia.
  unfold dict_setdefault_extend. simpl.
  rewrite bool_decide_eq_false_2 by lia. simpl.
  replace (length h + 1) with (S (length h)) by lia.
  by rewrite <- !app_assoc.
Qed.

Lemma auto_tag_idempotent_witness :
  exists h1, auto_tag components_of_heap 0 = Ok h1 /\ auto_tag h1 0 = Ok h1.
Proof.
  apply (auto_tag_idempotent components_of_heap 0 [VRef 1; VRef 2; VRef 3]).
  exists SequenceType, (PStr "SEQUENCE"). split; reflexivity.
Defined.

Lemma components_of_is_auto_tagged_witness :
  match ComponentType_init (_create_sema_node 5) [components_of_token] (State [] 0)
  with
  | Ok (v, st') => getattr (st_heap st') v "type_decl" = Ok VNone
  | Raise _ => False
  end /\
  (exists h', auto_tag components_of_heap 0 = Ok h' /\
     (exists t, getattr h' (VRef 2) "type_decl" = Ok (VRef t) /\
                h' !! t = Some (auto_tagged 1 VNone)) /\
     (exists t, getattr h' (VRef 3) "type_decl" = Ok (VRef t) /\
                h' !! t = Some (auto_tagged 2 (VRef 5)))).
Proof.
  destruct components_of_is_auto_tagged as [Hinit Htag]. split.
  - destruct (ComponentType_init (_create_sema_node 5) [components_of_token]
                (State [] 0)) as [[v st']|e] eqn:E.
    + eapply Hinit; [exact E | reflexivity].
    + vm_compute in E. discriminate E.
  - destruct (Htag components_of_heap 0 [VRef 1] 2 [VRef 3]) as (h' & Hauto & Hc & Hafter).
    + exists SequenceType, (PStr "SEQUENCE"). split; reflexivity.
    + reflexivity.
    + apply (bool_decide_unpack _). reflexivity.
    + reflexivity.
    + exists h'. split; [exact Hauto|]. split; [exact Hc|].
      destruct (Hafter 0 3 eq_refl) as (e & t & He & Ht & Hobj).
      exists t. split; [exact Ht|]. inversion He; subst e. exact Hobj.
Defined.



(** ** Dictionaries as association lists *)

Lemma assoc_Some_elem {V} k (v : V) d : assoc k d = Some v -> (k, v) ∈ d.
Proof.
  induction d as [|[k' v'] d IH]; simpl; [done|].
  case_bool_decide; [intros [= ->]; subst; left | intros ?; right; auto].
Qed.

Lemma assoc_elem_NoDup {V} k (v : V) d :
  NoDup (map fst d) -> (k, v) ∈ d -> assoc k d = Some v.
Proof.
  induction d as [|[k' v'] d IH]; simpl; [by intros _ ?%elem_of_nil|].
  intros [Hk Hnd]%NoDup_cons [Heq|Hin]%elem_of_cons.
  - inversion Heq; subst. by rewrite bool_decide_eq_true_2.
  - rewrite bool_decide_eq_false_2; [auto|].
    intros ->. apply Hk. apply list_elem_of_fmap. by exists (k, v).
Qed.

Lemma assoc_is_Some_key {V} k (d : list (string * V)) :
  is_Some (assoc k d) <-> k ∈ map fst d.
Proof.
  induction d as [|[k' v'] d IH]; simpl.
  - split; [by intros [? ?] | by intros ?%elem_of_nil].
  - case_bool_decide; subst.
    + split; [left | eauto].
    + rewrite IH. split; [by right | by intros [?|?]%elem_of_cons].
Qed.

Lemma assoc_set_keys {V} k (v : V) d :
  NoDup (map fst d) -> NoDup (map fst (assoc_set k v d)).
Proof.
  induction d as [|[k' v'] d IH]; simpl.
  - intros _. apply NoDup_singleton.
  - intros [Hk Hnd]%NoDup_cons. case_bool_decide; subst; simpl.
    + by apply NoDup_cons.
    + apply NoDup_cons. split; [|auto].
      intros Hin. apply Hk.
      apply assoc_is_Some_key in Hin as [x Hx].
      rewrite assoc_set_other in Hx by done.
      apply assoc_is_Some_key. eauto.
Qed.

Lemma assoc_set_elem {V} k (v : V) d x w :
  (x, w) ∈ assoc_set k v d -> (x, w) = (k, v) \/ (x, w) ∈ d.
Proof.
  induction d as [|[k' v'] d IH]; simpl.
  - intros ?%list_elem_of_singleton. by left.
  - case_bool_decide; subst.
    + intros [->|?]%elem_of_cons; [by left | right; by right].
    + intros [->|?]%elem_of_cons; [right; by left |].
      destruct IH as [?|?]; [done | by left | right; by right].
Qed.

Lemma assoc_del_elem {V} k (d : list (string * V)) x w :
  NoDup (map fst d) -> (x, w) ∈ assoc_del k d <-> (x, w) ∈ d /\ x <> k.
Proof.
  induction d as [|[k' v'] d IH]; simpl.
  - intros _. split; [by intros ?%elem_of_nil | by intros [?%elem_of_nil _]].
  - intros [Hk Hnd]%NoDup_cons. case_bool_decide; subst.
    + split.
      * intros Hin. split; [by right|]. intros ->. apply Hk.
        apply list_elem_of_fmap. by exists (k, w).
      * intros [[Heq|Hin]%elem_of_cons Hne]; [by inversion Heq | done].
    + rewrite elem_of_cons, IH, elem_of_cons by done. split.
      * intros [Heq|[? ?]]; [inversion Heq; subst; split; [by left | done] |].
        split; [by right | done].
      * intros [[?|?] ?]; [by left | by right].
Qed.

Lemma assoc_del_keys {V} k (d : list (string * V)) :
  NoDup (map fst d) -> NoDup (map fst (assoc_del k d)).
Proof.
  induction d as [|[k' v'] d IH]; simpl; [done|].
  intros [Hk Hnd]%NoDup_cons. case_bool_decide; [done|]. simpl.
  apply NoDup_cons. split; [|auto].
  intros Hin. apply Hk. apply list_elem_of_fmap in Hin as ([x w] & -> & Hin).
  apply assoc_del_elem in Hin as [Hin _]; [|done].
  apply list_elem_of_fmap. by exists (x, w).
Qed.

Lemma pop_last_snoc {X} (r : list X) x : pop_last (r ++ [x]) = Some (r, x).
Proof.
  induction r as [|y r IH]; simpl; [done|].
  rewrite IH. by destruct r.
Qed.

Lemma pop_last_None {X} (l : list X) : pop_last l = None <-> l = [].
Proof.
  split; [|by intros ->].
  destruct l as [|y l] using rev_ind; [done|]. by rewrite pop_last_snoc.
Qed.

Lemma pop_last_Some {X} (l r : list X) x : pop_last l = Some (r, x) <-> l = r ++ [x].
Proof.
  split; [|intros ->; apply pop_last_snoc].
  destruct l as [|y l] using rev_ind; [done|].
  rewrite pop_last_snoc. by intros [= -> ->].
Qed.

(** *** [sorted] *)

Section SortedPermutation.
Context {X K : Type} (leb : K -> K -> bool) (key : X -> K).

Lemma insert_sorted_perm x l : insert_sorted leb key x l ≡ₚ x :: l.
Proof.
  induction l as [|y l IH]; simpl; [done|].
  destruct (leb (key x) (key y)); [done|].
  rewrite IH. apply Permutation_swap.
Qed.

Lemma sorted_perm l : sorted leb key l ≡ₚ l.
Proof.
  induction l as [|x l IH]; simpl; [done|].
  unfold sorted in *. simpl. by rewrite insert_sorted_perm, IH.
Qed.

End SortedPermutation.

Section SortedProofs.
Context {X : Type} (key : X -> nat).

Lemma insert_sorted_sorted x l :
  StronglySorted (key_le key) l -> StronglySorted (key_le key) (insert_sorted Nat.leb key x l).
Proof.
  induction 1 as [|y l Hl IH Hy]; simpl.
  - repeat constructor.
  - destruct (Nat.leb (key x) (key y)) eqn:E.
    + apply Nat.leb_le in E. constructor; [by constructor|].
      constructor; [done|].
      eapply Forall_impl; [exact Hy|]. intros z Hz. unfold key_le in *. lia.
    + apply Nat.leb_gt in E. constructor; [done|].
      rewrite insert_sorted_perm. constructor; [|done]. unfold key_le. lia.
Qed.

Lemma sorted_sorted l : StronglySorted (key_le key) (sorted Nat.leb key l).
Proof.
  induction l as [|x l IH]; [constructor|].
  unfold sorted in *. simpl. by apply insert_sorted_sorted.
Qed.

Lemma StronglySorted_lookup_lt (R : relation X) l i j a b :
  StronglySorted R l -> l !! i = Some a -> l !! j = Some b -> i < j -> R a b.
Proof.
  intros Hs. revert i j. induction Hs as [|y l Hl IH Hy]; intros i j Hi Hj Hlt; [done|].
  destruct j as [|j]; [lia|]. simpl in Hj.
  destruct i as [|i]; simpl in Hi.
  - inversion Hi; subst. eapply (Forall_forall (R a)); [exact Hy|].
    by eapply list_elem_of_lookup_2.
  - apply (IH i j); [done|done|lia].
Qed.

End SortedProofs.

(** ** topological_sort *)

Lemma list_index_Some x l i : list_index x l = Some i -> l !! i = Some x.
Proof.
  revert i. induction l as [|y l IH]; intros i; simpl; [done|].
  case_bool_decide; subst.
  - by intros [= <-].
  - destruct (list_index x l) as [j|]; simpl; [|done].
    intros [= <-]. simpl. auto.
Qed.

Lemma list_index_elem x l : x ∈ l -> is_Some (list_index x l).
Proof.
  induction l as [|y l IH]; simpl; [by intros ?%elem_of_nil|].
  case_bool_decide; [eauto|].
  intros [?|Hin]%elem_of_cons; [done|].
  destruct (IH Hin) as [j ->]. simpl. eauto.
Qed.

Lemma list_index_cons_ne x y l : y <> x -> list_index x (y :: l) = S <$> list_index x l.
Proof. intros. simpl. by rewrite bool_decide_eq_false_2. Qed.

Lemma tc_last {X} (R : relation X) x z : tc R x z -> exists y, rtc R x y /\ R y z.
Proof.
  induction 1 as [x z HR | x y' z HR _ (y & Hxy & Hyz)].
  - exists x. split; [apply rtc_refl | done].
  - exists y. split; [by eapply rtc_l | done].
Qed.

Lemma cycle_predecessor {X} (R : relation X) x : tc R x x -> exists p, R p x /\ tc R p p.
Proof.
  intros (p & Hxp & Hpx)%tc_last. exists p. split; [done|].
  eapply tc_rtc_r; [by apply tc_once | done].
Qed.

(** A finite set of nodes in which every node has a predecessor holds a
    cycle. *)
Lemma all_have_predecessor_cycle (S : list string) :
  forall R : relation string,
    S <> [] -> (forall y, y ∈ S -> exists x, x ∈ S /\ R x y) -> exists x, tc R x x.
Proof.
  induction (Nat.lt_wf_0_projected (@length string) S) as [S _ IH].
  intros R Hne Hpred.
  destruct S as [|x S0]; [done|]. clear Hne.
  destruct (Hpred x) as (p & Hp & Hpx); [by left|].
  destruct (decide (p = x)) as [->|Hpne].
  { exists x. by apply tc_once. }
  set (S' := filter (fun y => y <> x) (x :: S0)).
  assert (HpS' : p ∈ S') by by apply list_elem_of_filter.
  destruct (IH S') with (R := fun a b => R a b \/ (R a x /\ R x b)) as (z & Hz).
  - unfold S'. rewrite filter_cons_False by by intros ?.
    simpl. apply Nat.lt_succ_r, length_filter.
  - intros ->. by apply elem_of_nil in HpS'.
  - intros y [Hyne Hy]%list_elem_of_filter.
    destruct (Hpred y Hy) as (q & Hq & Hqy).
    destruct (decide (q = x)) as [->|Hqne].
    + exists p. split; [done|]. right. done.
    + exists q. split; [by apply list_elem_of_filter|]. by left.
  - exists z. revert Hz. generalize z at 1 3. generalize z.
    induction 1 as [a b [Hab|[Hax Hxb]] | a b c [Hab|[Hax Hxb]] _ IHz].
    + by apply tc_once.
    + eapply tc_l; [exact Hax|]. by apply tc_once.
    + by eapply tc_l.
    + eapply tc_l; [exact Hax|]. by eapply tc_l.
Qed.

Section TopologicalSortProofs.
Context {A : Type} `{AssignmentLike A}.

Lemma build_graph_wf (assignments : list A) : wf_graph (build_graph assignments).
Proof.
  unfold build_graph.
  assert (Hgen : forall g, wf_graph g ->
    wf_graph (foldl (fun g a => assoc_set (reference_name a) (references a) g) g assignments)).
  { induction assignments as [|a l IH]; intros g Hg; simpl; [done|].
    apply IH. destruct Hg as [Hk Hv]. split.
    - by apply assoc_set_keys.
    - intros x refs [[= -> ->]|Hin]%assoc_set_elem.
      + apply references_NoDup.
      + by eapply Hv. }
  apply Hgen. split; [constructor | by intros ? ? ?%elem_of_nil].
Qed.

Lemma assoc_set_key_same {V} k (v : V) d : k ∈ map fst (assoc_set k v d).
Proof. apply assoc_is_Some_key. rewrite assoc_set_same. eauto. Qed.

Lemma assoc_set_key_mono {V} k (v : V) d k' :
  k' ∈ map fst d -> k' ∈ map fst (assoc_set k v d).
Proof.
  intros Hin. apply assoc_is_Some_key. destruct (decide (k = k')) as [->|Hne].
  - rewrite assoc_set_same. eauto.
  - rewrite assoc_set_other by done. by apply assoc_is_Some_key.
Qed.

Lemma build_graph_key (assignments : list A) a :
  a ∈ assignments -> reference_name a ∈ map fst (build_graph assignments).
Proof.
  unfold build_graph.
  assert (Hgen : forall g : graph_t,
    a ∈ assignments \/ reference_name a ∈ map fst g ->
    reference_name a ∈
      map fst (foldl (fun g a => assoc_set (reference_name a) (references a) g) g assignments)).
  { induction assignments as [|b l IH]; intros g Hg; simpl.
    - destruct Hg as [?%elem_of_nil|?]; done.
    - apply IH. destruct Hg as [[->|Hin]%elem_of_cons|Hin].
      + right. apply assoc_set_key_same.
      + by left.
      + right. by apply assoc_set_key_mono. }
  intros Hin. apply Hgen. by left.
Qed.

Lemma has_predecessor_true (g : graph_t) y :
  has_predecessor g y = true <-> exists x refs, (x, refs) ∈ g /\ y ∈ refs.
Proof.
  unfold has_predecessor. rewrite existsb_exists. split.
  - intros (refs & Hin & Hy). apply list_elem_of_In, list_elem_of_fmap in Hin
      as ([x r] & -> & Hin).
    exists x, r. split; [done|]. by apply bool_decide_eq_true_1 in Hy.
  - intros (x & refs & Hin & Hy). exists refs. split.
    + apply list_elem_of_In, list_elem_of_fmap. by exists (x, refs).
    + by apply bool_decide_eq_true_2.
Qed.

Lemma has_predecessor_false (g : graph_t) y x refs :
  has_predecessor g y = false -> (x, refs) ∈ g -> y ∉ refs.
Proof.
  intros Hf Hin Hy. assert (has_predecessor g y = true); [|congruence].
  apply has_predecessor_true. eauto.
Qed.

Lemma has_predecessor_mono (g g' : graph_t) y :
  g' ⊆ g -> has_predecessor g y = false -> has_predecessor g' y = false.
Proof.
  intros Hsub Hf. destruct (has_predecessor g' y) eqn:E; [|done].
  apply has_predecessor_true in E as (x & refs & Hin & Hy).
  by apply (has_predecessor_false _ _ _ _ Hf (Hsub _ Hin)) in Hy.
Qed.

Lemma edge_key (g : graph_t) x y : edge g x y -> x ∈ map fst g.
Proof. intros (refs & Ha & _). apply assoc_is_Some_key. eauto. Qed.

Lemma reaches_key (g : graph_t) x y : reaches g x y -> x ∈ map fst g.
Proof. destruct 1; by eapply edge_key. Qed.

Lemma key_entry (G0 graph : graph_t) a refs :
  NoDup (map fst G0) -> graph ⊆ G0 -> a ∈ map fst graph ->
  assoc a G0 = Some refs -> (a, refs) ∈ graph.
Proof.
  intros Hnd Hsub Hin Ha.
  apply list_elem_of_fmap in Hin as ([a' r'] & -> & Hin). simpl in *.
  pose proof (assoc_elem_NoDup _ _ _ Hnd (Hsub _ Hin)) as Ha'.
  rewrite Ha in Ha'. by inversion Ha'; subst.
Qed.

Lemma loop_inv_init (G0 : graph_t) :
  wf_graph G0 ->
  loop_inv G0 G0 (filter (fun name => has_predecessor G0 name = false) (map fst G0)) [].
Proof.
  intros [Hk Hv]. repeat split.
  - done.
  - done.
  - intros k Hin. by left.
  - intros k Hin. rewrite app_nil_r in Hin. by apply list_elem_of_filter in Hin as [? _].
  - intros k Hin Hf. by apply list_elem_of_filter.
  - rewrite app_nil_r. by apply NoDup_filter.
  - by intros a b _ ?%elem_of_nil.
  - intros x Hx. by eapply reaches_key.
Qed.

Lemma loop_inv_step (G0 graph : graph_t) (roots' order : list string) root :
  wf_graph G0 ->
  loop_inv G0 graph (roots' ++ [root]) order ->
  let successors := default [] (assoc root graph) in
  let graph' := assoc_del root graph in
  loop_inv G0 graph'
    (roots' ++ filter (fun s => has_predecessor graph' s = false) successors)
    (root :: order).
Proof.
  intros [HG0k HG0v] (Hk & Hsub & Hcov & Hnop & Hroots & Hnd & Hord & Hcyc) successors graph'.
  assert (Hsub' : graph' ⊆ graph).
  { intros [x r] Hin. by apply assoc_del_elem in Hin as [? _]. }
  assert (Hroot : has_predecessor graph root = false).
  { apply Hnop. apply elem_of_app. left. apply elem_of_app. right. by left. }
  assert (Hsucc : forall s, s ∈ successors -> has_predecessor graph s = true).
  { intros s Hs. unfold successors in Hs.
    destruct (assoc root graph) as [refs|] eqn:Hr; [|by apply elem_of_nil in Hs].
    apply has_predecessor_true. exists root, refs. split; [|done].
    by apply assoc_Some_elem. }
  assert (Hpre : forall a, edge G0 a root -> a ∉ map fst graph).
  { intros a (refs & Ha & Hin) Hkey.
    pose proof (key_entry _ _ _ _ HG0k Hsub Hkey Ha) as He.
    by apply (has_predecessor_false _ _ _ _ Hroot He). }
  repeat split.
  - by apply assoc_del_keys.
  - by etrans.
  - intros k Hin. destruct (decide (k = root)) as [->|Hne]; [right; by left|].
    destruct (Hcov k Hin) as [Hg|Ho]; [left | right; by right].
    apply list_elem_of_fmap in Hg as ([k' r] & -> & Hg).
    apply list_elem_of_fmap. exists (k', r). split; [done|].
    by apply assoc_del_elem.
  - intros k Hin. rewrite <- app_assoc in Hin.
    apply elem_of_app in Hin as [Hin|Hin].
    + apply (has_predecessor_mono graph); [done|]. apply Hnop.
      rewrite <- app_assoc. apply elem_of_app. by left.
    + apply elem_of_app in Hin as [Hin|Hin].
      * by apply list_elem_of_filter in Hin as [? _].
      * apply (has_predecessor_mono graph); [done|]. apply Hnop.
        rewrite <- app_assoc. apply elem_of_app. right.
        apply elem_of_cons in Hin as [->|Hin]; [by left | by right].
  - intros k Hin Hf.
    apply list_elem_of_fmap in Hin as ([k' r] & -> & Hin). simpl.
    apply assoc_del_elem in Hin as [Hin Hne]; [|done].
    assert (Hkin : k' ∈ map fst graph).
    { apply list_elem_of_fmap. by exists (k', r). }
    destruct (has_predecessor graph k') eqn:E.
    + apply has_predecessor_true in E as (x & refs & Hx & Hkx).
      apply elem_of_app. right. apply list_elem_of_filter. split; [done|].
      destruct (decide (x = root)) as [->|Hxne].
      * unfold successors. by rewrite (assoc_elem_NoDup _ _ _ Hk Hx).
      * exfalso. apply (has_predecessor_false _ _ x refs Hf); [|done].
        by apply assoc_del_elem.
    + specialize (Hroots _ Hkin E).
      apply elem_of_app in Hroots as [?|?%list_elem_of_singleton]; [|done].
      apply elem_of_app. by left.
  - assert (Hnew : NoDup (filter (fun s => has_predecessor graph' s = false) successors)).
    { apply NoDup_filter. unfold successors.
      destruct (assoc root graph) as [refs|] eqn:Hr; [|constructor].
      simpl. eapply HG0v, Hsub. by apply assoc_Some_elem. }
    assert (Hperm : (roots' ++ filter (fun s => has_predecessor graph' s = false) successors)
                      ++ root :: order
                    ≡ₚ filter (fun s => has_predecessor graph' s = false) successors
                       ++ ((roots' ++ [root]) ++ order)).
    { rewrite <- !app_assoc. simpl. apply Permutation_app_swap_app. }
    rewrite Hperm. apply NoDup_app. split; [done|]. split; [|done].
    intros s [_ Hs]%list_elem_of_filter Hin.
    specialize (Hsucc _ Hs). specialize (Hnop _ Hin). congruence.
  - intros a b Hedge Hb.
    assert (Hrootnot : root ∉ order).
    { rewrite <- app_assoc in Hnd. apply NoDup_app in Hnd as (_ & _ & Hnd).
      by apply NoDup_cons in Hnd as [? _]. }
    destruct (decide (b = root)) as [->|Hbne].
    + assert (Ha : a ∈ order).
      { destruct (Hcov a (edge_key _ _ _ Hedge)) as [Hg|?]; [|done].
        by apply Hpre in Hg. }
      assert (a <> root) by by intros ->.
      destruct (list_index_elem _ _ Ha) as [j Hj].
      exists 0, (S j). split; [simpl; by rewrite bool_decide_eq_true_2|].
      split; [|lia]. rewrite list_index_cons_ne by done. by rewrite Hj.
    + apply elem_of_cons in Hb as [?|Hb]; [done|].
      destruct (Hord a b Hedge Hb) as (i & j & Hi & Hj & Hlt).
      assert (a <> root).
      { intros ->. apply Hrootnot. by eapply list_elem_of_lookup_2, list_index_Some. }
      exists (S i), (S j). rewrite !list_index_cons_ne, Hi, Hj by done.
      repeat split; lia.
  - intros x Hx. pose proof (Hcyc x Hx) as Hin.
    destruct (decide (x = root)) as [->|Hne].
    + exfalso. apply cycle_predecessor in Hx as (p & Hp & Hpp).
      by apply (Hpre p Hp), Hcyc.
    + apply list_elem_of_fmap in Hin as ([k' r] & -> & Hin).
      apply list_elem_of_fmap. exists (k', r). split; [done|].
      by apply assoc_del_elem.
Qed.

Lemma sort_loop_inv (G0 : graph_t) fuel : forall graph roots order graph' order',
  wf_graph G0 ->
  loop_inv G0 graph roots order ->
  sort_loop fuel graph roots order = Some (graph', order') ->
  loop_inv G0 graph' [] order'.
Proof.
  induction fuel as [|n IH]; intros graph roots order graph' order' HG0 Hinv; simpl; [done|].
  destruct (pop_last roots) as [[roots' root]|] eqn:Hpop.
  - apply pop_last_Some in Hpop as ->. apply IH; [done|].
    by apply loop_inv_step.
  - apply pop_last_None in Hpop as ->. by intros [= <- <-].
Qed.

Lemma edge_count_del (graph : graph_t) root :
  edge_count (assoc_del root graph) + length (default [] (assoc root graph))
  = edge_count graph.
Proof.
  unfold edge_count. induction graph as [|[k r] g IH]; simpl; [done|].
  case_bool_decide; simpl.
  - rewrite length_app. lia.
  - rewrite !length_app. lia.
Qed.

(** The loop ends: a turn takes a root away and adds at most as many as it
    takes edges away. *)
Lemma sort_loop_terminates fuel : forall (graph : graph_t) roots order,
  length roots + edge_count graph < fuel ->
  is_Some (sort_loop fuel graph roots order).
Proof.
  induction fuel as [|n IH]; intros graph roots order Hlt; [lia|]. simpl.
  destruct (pop_last roots) as [[roots' root]|] eqn:Hpop; [|eauto].
  apply pop_last_Some in Hpop as ->. apply IH.
  pose proof (edge_count_del graph root) as Hdel.
  pose proof (length_filter (fun s => has_predecessor (assoc_del root graph) s = false)
                (default [] (assoc root graph))) as Hf.
  rewrite !length_app in *. simpl in *. lia.
Qed.

Lemma index_keys_Ok (order : list string) (assignments : list A) :
  (forall a, a ∈ assignments -> reference_name a ∈ order) ->
  exists ks, index_keys order assignments = Ok ks /\ map snd ks = assignments /\
    forall i a, (i, a) ∈ ks -> list_index (reference_name a) order = Some i.
Proof.
  induction assignments as [|a l IH]; intros Hall; simpl.
  - exists []. repeat split. by intros ? ? ?%elem_of_nil.
  - destruct (list_index_elem (reference_name a) order) as [i Hi]; [apply Hall; by left|].
    destruct IH as (ks & Hks & Hmap & Hidx); [intros; apply Hall; by right|].
    rewrite Hi, Hks. simpl. exists ((i, a) :: ks). repeat split.
    + simpl. by rewrite Hmap.
    + intros j b [[= -> ->]|Hin]%elem_of_cons; [done | by apply Hidx].
Qed.

(** Once the loop has emptied the graph, whatever a name reaches is before
    it in the order. *)
Lemma order_reaches (G0 : graph_t) (order : list string) x z :
  loop_inv G0 [] [] order ->
  reaches G0 x z -> z ∈ map fst G0 ->
  exists i j, list_index z order = Some i /\ list_index x order = Some j /\ i < j.
Proof.
  intros (_ & _ & Hcov & _ & _ & _ & Hord & _).
  assert (Hin : forall k, k ∈ map fst G0 -> k ∈ order).
  { intros k Hk. destruct (Hcov k Hk) as [?%elem_of_nil|?]; done. }
  induction 1 as [x z Hxz | x y z Hxy Hyz IH]; intros Hz.
  - apply Hord; auto.
  - destruct (IH Hz) as (i & j & Hi & Hj & Hlt).
    destruct (Hord x y Hxy) as (i' & j' & Hi' & Hj' & Hlt').
    { apply Hin. by eapply reaches_key. }
    exists i, j'. repeat split; [done|done|]. rewrite Hj in Hi'. inversion Hi'. lia.
Qed.

Lemma topological_sort_loop (assignments : list A) :
  let G0 := build_graph assignments in
  exists graph order,
    sort_loop (S (length (filter (fun name => has_predecessor G0 name = false)
                                 (map fst G0)) + edge_count G0))
              G0 (filter (fun name => has_predecessor G0 name = false) (map fst G0)) []
    = Some (graph, order) /\
    loop_inv G0 graph [] order.
Proof.
  intros G0.
  destruct (sort_loop_terminates
              (S (length (filter (fun name => has_predecessor G0 name = false)
                                 (map fst G0)) + edge_count G0))
              G0 (filter (fun name => has_predecessor G0 name = false) (map fst G0)) [])
    as [[graph order] Hloop]; [lia|].
  exists graph, order. split; [done|].
  eapply sort_loop_inv; [apply build_graph_wf | | exact Hloop].
  apply loop_inv_init, build_graph_wf.
Qed.

End TopologicalSortProofs.

Section TopologicalSortTheorems.
Context {A : Type} `{AssignmentLike A}.

(** A graph with no cycle is emptied by the loop. *)
Lemma acyclic_loop_empties (G0 graph : graph_t) (order : list string) :
  wf_graph G0 -> acyclic G0 -> loop_inv G0 graph [] order -> graph = [].
Proof.
  intros [HG0 _] Hacyc (Hk & Hsub & _ & _ & Hroots & _).
  destruct graph as [|[k0 r0] g0] eqn:Hg; [done|]. exfalso. rewrite <- Hg in *.
  destruct (all_have_predecessor_cycle (map fst graph) (edge graph)) as (x & Hx).
  - by rewrite Hg.
  - intros y Hy. destruct (has_predecessor graph y) eqn:E.
    + apply has_predecessor_true in E as (x & refs & Hin & Hyr).
      exists x. split; [apply list_elem_of_fmap; by exists (x, refs)|].
      exists refs. split; [by apply assoc_elem_NoDup | done].
    + by apply Hroots, elem_of_nil in E.
  - apply (Hacyc x). revert Hx. apply (tc_congruence id).
    intros a b (refs & Ha & Hb). exists refs. split; [|done].
    apply assoc_elem_NoDup; [done|]. apply Hsub. by apply assoc_Some_elem.
Qed.

(** A numbering that decreases along the references shows that there is no
    cycle. *)
Lemma ranked_acyclic (rank : string -> nat) (g : graph_t) :
  ranked rank g = true -> acyclic g.
Proof.
  intros Hr.
  assert (Hedge : forall x y, edge g x y -> rank y < rank x).
  { intros x y (refs & Hx & Hy). unfold ranked in Hr.
    rewrite forallb_forall in Hr.
    specialize (Hr (x, refs)). simpl in Hr. rewrite forallb_forall in Hr.
    apply Nat.ltb_lt, Hr; [|by apply list_elem_of_In].
    apply list_elem_of_In. by apply assoc_Some_elem. }
  assert (Htc : forall x y, reaches g x y -> rank y < rank x).
  { induction 1 as [x y Hxy | x y z Hxy _ IH]; [auto|].
    specialize (Hedge _ _ Hxy). lia. }
  intros x Hx. apply Htc in Hx. lia.
Qed.

(** With no name given twice, the entry filed under the name of an
    assignment holds the references of that assignment. *)
Lemma build_graph_own (assignments : list A) a :
  NoDup (map reference_name assignments) -> a ∈ assignments ->
  assoc (reference_name a) (build_graph assignments) = Some (references a).
Proof.
  unfold build_graph.
  assert (Hother : forall (l : list A) (g : graph_t) x,
    x ∉ map reference_name l ->
    assoc x (foldl (fun g a => assoc_set (reference_name a) (references a) g) g l)
    = assoc x g).
  { induction l as [|b l IH]; intros g x Hx; simpl; [done|].
    rewrite IH by (intros Hin; apply Hx; by right).
    apply assoc_set_other. intros Heq. apply Hx. simpl. rewrite <- Heq. by left. }
  assert (Hgen : forall (l : list A) (g : graph_t),
    NoDup (map reference_name l) -> a ∈ l ->
    assoc (reference_name a)
      (foldl (fun g a => assoc_set (reference_name a) (references a) g) g l)
    = Some (references a)).
  { induction l as [|b l IH]; intros g Hnd Ha; [by apply elem_of_nil in Ha|].
    simpl in *. apply NoDup_cons in Hnd as [Hb Hnd].
    apply elem_of_cons in Ha as [->|Ha]; [|by apply IH].
    rewrite Hother by done. apply assoc_set_same. }
  apply Hgen.
Qed.

(** Then what an assignment depends on is what its name reaches in the
    graph. *)
Lemma depends_on_reaches (assignments : list A) a b :
  NoDup (map reference_name assignments) ->
  depends_on assignments a b ->
  reaches (build_graph assignments) (reference_name a) (reference_name b).
Proof.
  intros Hnd. induction 1 as [a b (Ha & Hb & Hab) | a m b (Ha & Hm & Ham) _ IH].
  - apply tc_once. exists (references a). split; [by apply build_graph_own | done].
  - eapply tc_l; [|exact IH].
    exists (references a). split; [by apply build_graph_own | done].
Qed.

(** C2, amended.  When the reference graph has no cycle, [topological_sort]
    returns a permutation of the assignments; and when no two of them have
    the same reference name, every assignment that another one depends on,
    directly or through others, stands before it. *)
Theorem topological_sort_dependencies_first (assignments : list A) :
  acyclic (build_graph assignments) ->
  exists sorted_assignments,
    topological_sort assignments = Some (Ok sorted_assignments) /\
    sorted_assignments ≡ₚ assignments /\
    (NoDup (map reference_name assignments) ->
     forall i j a b,
       sorted_assignments !! i = Some a -> sorted_assignments !! j = Some b ->
       depends_on assignments a b -> j < i).
Proof.
  intros Hacyc. unfold topological_sort.
  destruct (topological_sort_loop assignments) as (graph & order & -> & Hinv).
  pose proof (build_graph_wf assignments) as Hwf.
  assert (graph = []) as -> by exact (acyclic_loop_empties _ _ _ Hwf Hacyc Hinv).
  destruct (index_keys_Ok order assignments) as (ks & -> & Hmap & Hidx).
  { intros a Ha. destruct Hinv as (_ & _ & Hcov & _).
    destruct (Hcov _ (build_graph_key _ _ Ha)) as [?%elem_of_nil|?]; done. }
  simpl. eexists. split; [done|]. split.
  { by rewrite (sorted_perm Nat.leb fst ks), Hmap. }
  intros Hnames i j a b Hi Hj Hdep.
  apply (depends_on_reaches _ _ _ Hnames) in Hdep.
  apply list_lookup_fmap_Some in Hi as ([ka a'] & -> & Hi).
  apply list_lookup_fmap_Some in Hj as ([kb b'] & -> & Hj). simpl in *.
  assert (Ha : (ka, a') ∈ ks).
  { rewrite <- (sorted_perm Nat.leb fst ks). by eapply list_elem_of_lookup_2. }
  assert (Hb : (kb, b') ∈ ks).
  { rewrite <- (sorted_perm Nat.leb fst ks). by eapply list_elem_of_lookup_2. }
  destruct (order_reaches _ order _ _ Hinv Hdep) as (x & y & Hx & Hy & Hlt).
  { apply build_graph_key. rewrite <- Hmap. apply list_elem_of_fmap. by exists (kb, b'). }
  rewrite (Hidx _ _ Hb) in Hx. rewrite (Hidx _ _ Ha) in Hy.
  inversion Hx; inversion Hy; subst x y.
  destruct (decide (j < i)) as [|Hge]; [done|]. exfalso.
  destruct (decide (i = j)) as [->|Hne].
  - rewrite Hi in Hj. inversion Hj. lia.
  - assert (Hle : key_le fst (ka, a') (kb, b')).
    { eapply StronglySorted_lookup_lt; [apply sorted_sorted | exact Hi | exact Hj | lia]. }
    unfold key_le in Hle. simpl in Hle. lia.
Qed.


End TopologicalSortTheorems.

(** C8.  For [A ::= SEQUENCE { x B }], [B ::= INTEGER] and
    [C ::= SEQUENCE { y A }], taken from the module in this order,
    [topological_sort] returns B, then A, then C. *)
Theorem topological_sort_abc :
  exists a b c,
    module_assignments 10 abc_tokens = Ok [a; b; c] /\
    map reference_name [a; b; c] = ["A"; "B"; "C"] /\
    topological_sort [a; b; c] = Some (Ok [b; a; c]).
Proof.
  exists (MkAssignment 4 "A" ["B"]), (MkAssignment 6 "B" []),
         (MkAssignment 11 "C" ["A"]).
  split; [|split]; vm_compute; reflexivity.
Qed.

Lemma abc_acyclic : acyclic (build_graph abc).
Proof. apply (ranked_acyclic abc_rank). reflexivity. Qed.

(** C2 as it is stated, with the dependencies after their dependants, does
    not hold: in the order returned for [abc], B is before A, which depends
    on it. *)
Lemma topological_sort_dependencies_later_counterexample :
  ~ (forall assignments : list assignment,
       acyclic (build_graph assignments) ->
       exists sorted_assignments,
         topological_sort assignments = Some (Ok sorted_assignments) /\
         sorted_assignments ≡ₚ assignments /\
         forall i j a b,
           sorted_assignments !! i = Some a -> sorted_assignments !! j = Some b ->
           depends_on assignments a b -> i < j).
Proof.
  intros Hclaim.
  destruct (Hclaim abc abc_acyclic) as (r & Hr & _ & Hlater).
  assert (Hsorted : topological_sort abc
                    = Some (Ok [MkAssignment 6 "B" []; MkAssignment 4 "A" ["B"];
                                MkAssignment 11 "C" ["A"]]))
    by (vm_compute; reflexivity).
  rewrite Hsorted in Hr. inversion Hr; subst r.
  assert (1 < 0); [|lia].
  apply (Hlater 1 0 (MkAssignment 4 "A" ["B"]) (MkAssignment 6 "B" []));
    [reflexivity | reflexivity |].
  apply tc_once. split; [|split].
  - by left.
  - right. by left.
  - by left.
Qed.

Lemma abc_names : NoDup (map reference_name abc).
Proof. by apply (bool_decide_unpack _). Qed.

Lemma topological_sort_dependencies_first_witness :
  exists sorted_assignments,
    topological_sort abc = Some (Ok sorted_assignments) /\
    sorted_assignments ≡ₚ abc /\
    forall i j a b,
      sorted_assignments !! i = Some a -> sorted_assignments !! j = Some b ->
      depends_on abc a b -> j < i.
Proof.
  destruct (topological_sort_dependencies_first abc)
    as (sorted_assignments & Hrun & Hperm & Hfirst).
  { apply (ranked_acyclic abc_rank). reflexivity. }
  exists sorted_assignments. split; [exact Hrun|]. split; [exact Hperm|].
  apply Hfirst. apply abc_names.
Defined.

(** The names have to differ: [T ::= ... U ...], [U], and a second [T]
    that refers to nothing are filed as a graph without a cycle, in which
    the second [T] has taken the place of the first; the first [T] comes
    out in front of the [U] it refers to. *)
Theorem topological_sort_repeated_name :
  acyclic (build_graph repeated_name) /\
  topological_sort repeated_name
  = Some (Ok [MkAssignment 1 "T" ["U"]; MkAssignment 3 "T" []; MkAssignment 2 "U" []]) /\
  depends_on repeated_name (MkAssignment 1 "T" ["U"]) (MkAssignment 2 "U" []).
Proof.
  split; [|split].
  - apply (ranked_acyclic (fun _ => 0)). reflexivity.
  - vm_compute. reflexivity.
  - apply tc_once. split; [|split].
    + by left.
    + right. by left.
    + by left.
Qed.


(** ** dependency_sort *)

Section DependencySortProofs.
Context {A : Type} `{AssignmentLike A} `{EqDecision A}.
Variable assignments : list A.

Lemma map_set_eq (m : A -> option nat) k v : map_set m k v k = Some v.
Proof. unfold map_set. by rewrite decide_True. Qed.

Lemma map_set_ne (m : A -> option nat) k v x : x <> k -> map_set m k v x = m x.
Proof. intros. unfold map_set. by rewrite decide_False. Qed.

Lemma by_name_elem r b : by_name assignments r = Some b -> b ∈ assignments.
Proof.
  unfold by_name. intros (l' & Hl)%last_Some.
  assert (Hin : b ∈ filter (fun a => reference_name a = r) assignments).
  { rewrite Hl. apply elem_of_app. right. by left. }
  by apply list_elem_of_filter in Hin as [_ ?].
Qed.

Lemma refers_to_elem a b : refers_to assignments a b -> b ∈ assignments.
Proof.
  unfold refers_to, graph_get. case_decide; [|by intros ?%elem_of_nil].
  unfold successors_of. intros (r & _ & Hr)%list_elem_of_omap.
  by eapply by_name_elem.
Qed.

Lemma graph_keys_elem a : a ∈ graph_keys assignments <-> a ∈ assignments.
Proof.
  unfold graph_keys. by rewrite elem_of_reverse, elem_of_remove_dups, elem_of_reverse.
Qed.

Lemma graph_keys_NoDup : NoDup (graph_keys assignments).
Proof. unfold graph_keys. rewrite reverse_Permutation. apply NoDup_remove_dups. Qed.

Lemma filter_length_le {X} (P Q : X -> Prop) `{!forall x, Decision (P x)}
  `{!forall x, Decision (Q x)} (l : list X) :
  (forall x, Q x -> P x) -> length (filter Q l) <= length (filter P l).
Proof.
  intros HQP. induction l as [|x l IH]; [done|].
  rewrite !filter_cons. destruct (decide (Q x)) as [Hq|Hq].
  - rewrite decide_True by auto. simpl. lia.
  - destruct (decide (P x)); simpl; lia.
Qed.

Lemma filter_length_lt {X} (P Q : X -> Prop) `{!forall x, Decision (P x)}
  `{!forall x, Decision (Q x)} (l : list X) x0 :
  (forall x, Q x -> P x) -> x0 ∈ l -> P x0 -> ~ Q x0 ->
  length (filter Q l) < length (filter P l).
Proof.
  intros HQP Hin HP HQ. induction l as [|x l IH]; [by apply elem_of_nil in Hin|].
  rewrite !filter_cons. apply elem_of_cons in Hin as [<-|Hin].
  - rewrite (decide_False (P := Q x0)), (decide_True (P := P x0)) by done. simpl.
    pose proof (filter_length_le P Q l HQP). lia.
  - specialize (IH Hin). destruct (decide (Q x)) as [Hq|Hq].
    + rewrite decide_True by auto. simpl. lia.
    + destruct (decide (P x)); simpl; lia.
Qed.

Lemma unvisited_mono (s s' : tarjan A) :
  (forall x, is_Some (index_of s x) -> is_Some (index_of s' x)) ->
  unvisited assignments s' <= unvisited assignments s.
Proof.
  intros Hmono. apply filter_length_le. intros x Hx.
  destruct (index_of s x) eqn:E; [|done].
  destruct (Hmono x) as [? ?]; [eauto | congruence].
Qed.

Lemma unvisited_visit (s s' : tarjan A) v :
  (forall x, is_Some (index_of s x) -> is_Some (index_of s' x)) ->
  v ∈ assignments -> index_of s v = None -> is_Some (index_of s' v) ->
  unvisited assignments s' < unvisited assignments s.
Proof.
  intros Hmono Hv Hnone [i Hi]. apply (filter_length_lt _ _ _ v).
  - intros x Hx. destruct (index_of s x) eqn:E; [|done].
    destruct (Hmono x) as [? ?]; [eauto | congruence].
  - by apply graph_keys_elem.
  - done.
  - congruence.
Qed.

Lemma unvisited_le_length (s : tarjan A) :
  unvisited assignments s <= length (graph_keys assignments).
Proof. apply length_filter. Qed.

Lemma pop_component_seg (v : A) seg rest :
  v ∉ seg -> pop_component v (seg ++ v :: rest) = Some (seg ++ [v], rest).
Proof.
  induction seg as [|x seg IH]; intros Hv; simpl.
  - by rewrite decide_True.
  - rewrite decide_False by (intros ->; apply Hv; by left).
    rewrite IH; [done|]. intros ?. apply Hv. by right.
Qed.

Lemma settled_bound (s : tarjan A) b b' x : b' <= b -> settled s b x -> settled s b' x.
Proof.
  intros Hle [?|(Hin & i & Hi & Hb)]; [by left|].
  right. split; [done|]. exists i. split; [done|lia].
Qed.

Lemma extends_visited (s s' : tarjan A) x :
  extends s s' -> is_Some (index_of s x) -> is_Some (index_of s' x).
Proof. intros (_ & _ & Hpres & _) Hx. destruct (Hpres x Hx) as [-> _]. done. Qed.

Lemma extends_trans (s1 s2 s3 : tarjan A) :
  extends s1 s2 -> extends s2 s3 -> extends s1 s3.
Proof.
  intros (Hc1 & (m1 & Hr1) & Hp1 & Hn1) (Hc2 & (m2 & Hr2) & Hp2 & Hn2).
  split; [lia|]. split; [exists (m1 ++ m2); by rewrite Hr2, Hr1, app_assoc|]. split.
  - intros x Hx. destruct (Hp1 x Hx) as [Hi Hl].
    destruct (Hp2 x) as [Hi' Hl']; [rewrite Hi; done|]. split; congruence.
  - intros x i Hx Hi. destruct (index_of s2 x) as [j|] eqn:E.
    + destruct (Hp2 x) as [Hi' _]; [eauto|]. rewrite Hi' in Hi.
      apply (Hn1 x); [done|congruence].
    + specialize (Hn2 x i E Hi). lia.
Qed.


Lemma push_visit_inv (s : tarjan A) v :
  tarjan_inv assignments s -> index_of s v = None -> v ∈ assignments ->
  visit_inv assignments s v [] (push s v).
Proof.
  intros (Hlow & Hlt & Hvis & Hnd & Hin & Hle & Hcl & Hne) Hv Hva.
  assert (Hvnot : v ∉ stack s ++ concat (result s)).
  { intros Hx. apply Hvis in Hx as [? ?]. congruence. }
  split; [|split; [|split]].
  - repeat split; simpl.
    + intros [l Hl]. destruct (decide (v0 = v)) as [->|Hn].
      * rewrite map_set_eq. eauto.
      * rewrite map_set_ne in * by done. apply Hlow. eauto.
    + intros [l Hl]. destruct (decide (v0 = v)) as [->|Hn].
      * rewrite map_set_eq. eauto.
      * rewrite map_set_ne in * by done. apply Hlow. eauto.
    + intros x i. destruct (decide (x = v)) as [->|Hn].
      * rewrite map_set_eq. intros [= <-]. lia.
      * rewrite map_set_ne by done. intros Hi. specialize (Hlt _ _ Hi). lia.
    + destruct (decide (v0 = v)) as [->|Hn]; [left|].
      rewrite map_set_ne by done. intros Hx. right. by apply Hvis.
    + destruct (decide (v0 = v)) as [->|Hn]; [rewrite map_set_eq; eauto|].
      rewrite map_set_ne by done. intros [?|Hx]%elem_of_cons; [done|]. by apply Hvis.
    + by apply NoDup_cons.
    + intros x [->|Hx]%elem_of_cons; [done | by apply Hin].
    + intros x l i. destruct (decide (x = v)) as [->|Hn].
      * rewrite !map_set_eq. intros [= <-] [= <-]. lia.
      * rewrite !map_set_ne by done. apply Hle.
    + done.
    + done.
  - split; [simpl; lia|]. split; [exists []; by rewrite app_nil_r|]. split; simpl.
    + intros x [i Hi].
      assert (x <> v) by (intros ->; congruence).
      by rewrite !map_set_ne.
    + intros x i Hx. destruct (decide (x = v)) as [->|Hn].
      * rewrite map_set_eq. intros [= <-]. lia.
      * rewrite map_set_ne by done. congruence.
  - simpl. apply map_set_eq.
  - exists [], (index_counter s). simpl. repeat split.
    + apply map_set_eq.
    + by intros w x ?%elem_of_nil.
    + by intros x ?%elem_of_nil.
    + intros b Hb _. done.
Qed.

Lemma tarjan_inv_set_lowlink (s : tarjan A) v m lv :
  tarjan_inv assignments s -> lowlinks s v = Some lv -> m <= lv ->
  tarjan_inv assignments (set_lowlink s v m).
Proof.
  intros (Hlow & Hlt & Hvis & Hnd & Hin & Hle & Hcl & Hne) Hv Hm.
  repeat split; simpl; try done; try apply Hvis.
  - intros [l Hl]. destruct (decide (v0 = v)) as [->|Hn]; [apply Hlow; eauto|].
    rewrite map_set_ne in Hl by done. apply Hlow. eauto.
  - intros Hx. destruct (decide (v0 = v)) as [->|Hn]; [rewrite map_set_eq; eauto|].
    rewrite map_set_ne by done. by apply Hlow.
  - intros x l i. destruct (decide (x = v)) as [->|Hn].
    + rewrite map_set_eq. intros [= <-] Hi. specialize (Hle _ _ _ Hv Hi). lia.
    + rewrite map_set_ne by done. apply Hle.
Qed.

End DependencySortProofs.

Section DependencySortLoop.
Context {A : Type} `{AssignmentLike A} `{EqDecision A}.
Variable assignments : list A.

Lemma settled_set_lowlink (s : tarjan A) v m b x :
  settled (set_lowlink s v m) b x <-> settled s b x.
Proof. done. Qed.

Lemma extends_set_lowlink (s s1 : tarjan A) v m :
  index_of s v = None -> extends s s1 -> extends s (set_lowlink s1 v m).
Proof.
  intros Hv (Hc & Hr & Hp & Hn). split; [done|]. split; [done|]. split; [|done].
  intros x Hx. destruct (Hp x Hx) as [Hi Hl]. split; [done|]. simpl.
  rewrite map_set_ne; [done|]. intros ->. destruct Hx. congruence.
Qed.

Lemma settled_extends (s1 s2 : tarjan A) new b x :
  tarjan_inv assignments s1 -> extends s1 s2 -> stack s2 = new ++ stack s1 ->
  settled s1 b x -> settled s2 b x.
Proof.
  intros Hinv (_ & (more & Hr) & Hp & _) Hst [Hx|(Hx & i & Hi & Hb)].
  - left. rewrite Hr, concat_app. apply elem_of_app. by left.
  - right. split; [rewrite Hst; apply elem_of_app; by right|].
    exists i. split; [|done]. destruct (Hp x) as [-> _]; [eauto | done].
Qed.

(** All of the stack is above the bound that the stack at the call was
    above. *)
Lemma stack_bound (s s1 : tarjan A) v seg b :
  tarjan_inv assignments s -> tarjan_inv assignments s1 -> extends s s1 ->
  stack s1 = seg ++ v :: stack s ->
  b <= index_counter s ->
  (forall x i, x ∈ stack s -> index_of s x = Some i -> b <= i) ->
  forall x i, x ∈ stack s1 -> index_of s1 x = Some i -> b <= i.
Proof.
  intros (_ & _ & Hvis & _) (_ & _ & _ & Hnd1 & _) (_ & (more & Hr) & Hp & Hn)
         Hst Hb Hold x i Hx Hi.
  destruct (index_of s x) as [j|] eqn:E.
  - destruct (Hp x) as [Hi' _]; [eauto|]. assert (j = i) as -> by congruence.
    assert (Hxs : x ∈ stack s ++ concat (result s)) by (apply Hvis; eauto).
    apply elem_of_app in Hxs as [Hxs|Hxs]; [by apply (Hold x)|].
    exfalso. apply NoDup_app in Hnd1 as (_ & Hdis & _). apply (Hdis x Hx).
    rewrite Hr, concat_app. apply elem_of_app. by left.
  - specialize (Hn x i E Hi). lia.
Qed.

(** One more successor gone through, with the lowlink lowered to [m]. *)
Lemma visit_inv_lower (s s1 : tarjan A) v done u lv m :
  index_of s v = None ->
  visit_inv assignments s v done s1 ->
  lowlinks s1 v = Some lv -> m <= lv ->
  settled s1 m u ->
  low_bounded s m ->
  visit_inv assignments s v (done ++ [u]) (set_lowlink s1 v m).
Proof.
  intros Hv (Hinv & Hext & Hidx & seg & low & Hst & Hlow & Hseg & Hdone & Hbound)
         Hlv Hm Hu Hb.
  rewrite Hlv in Hlow. inversion Hlow; subst low.
  split; [by eapply tarjan_inv_set_lowlink|].
  split; [by apply extends_set_lowlink|].
  split; [done|].
  exists seg, m. split; [done|]. split; [simpl; apply map_set_eq|].
  split; [|split; [|done]].
  - intros w x Hw Hx. apply settled_set_lowlink. eapply settled_bound; [exact Hm|].
    by eapply Hseg.
  - intros x [Hx|Hx%list_elem_of_singleton]%elem_of_app.
    + apply settled_set_lowlink. eapply settled_bound; [exact Hm|]. by apply Hdone.
    + subst x. by apply settled_set_lowlink.
Qed.

Lemma visit_successors_spec (sc : A -> tarjan A -> option (res (tarjan A)))
  (n : nat) (s : tarjan A) v :
  tarjan_inv assignments s -> index_of s v = None ->
  (forall u s1,
     tarjan_inv assignments s1 -> index_of s1 u = None -> u ∈ assignments ->
     unvisited assignments s1 < n ->
     exists s2, sc u s1 = Some (Ok s2) /\ strongconnect_post assignments s1 u s2) ->
  forall rest done s1,
    visit_inv assignments s v done s1 -> unvisited assignments s1 < n ->
    (forall u, u ∈ rest -> u ∈ assignments) ->
    exists s2, visit_successors sc v rest s1 = Some (Ok s2) /\
               visit_inv assignments s v (done ++ rest) s2.
Proof.
  intros Hinvs Hv Hsc. induction rest as [|u rest IH]; intros done s1 Hvi Hfuel Hrest.
  { exists s1. by rewrite app_nil_r. }
  simpl.
  pose proof Hvi as (Hinv1 & Hext & Hidx & seg & lv & Hst & Hlow & Hseg & Hdone & Hbound).
  pose proof Hinv1 as (Hlowidx & Hlt1 & Hvis1 & Hnd1 & Hin1 & Hle1 & Hcl1 & Hne1).
  assert (Hnext : forall s2,
            visit_inv assignments s v (done ++ [u]) s2 ->
            unvisited assignments s2 <= unvisited assignments s1 ->
            exists s3, visit_successors sc v rest s2 = Some (Ok s3) /\
                       visit_inv assignments s v (done ++ u :: rest) s3).
  { intros s2 Hvi2 Hle. destruct (IH (done ++ [u]) s2) as (s3 & Hs3 & Hvi3).
    - done.
    - lia.
    - intros u' Hu'. apply Hrest. by right.
    - exists s3. split; [done|]. by rewrite <- app_assoc in Hvi3. }
  destruct (lowlinks s1 u) as [lu0|] eqn:Hlu.
  - (* visited before *)
    assert (Hiu : is_Some (index_of s1 u)) by (apply Hlowidx; eauto).
    destruct Hiu as [iu Hiu].
    destruct (decide (u ∈ stack s1)) as [Hstk|Hstk].
    + unfold lower, map_get. rewrite Hlow, Hiu. simpl.
      apply Hnext.
      * eapply visit_inv_lower; [done | exact Hvi | done | lia | |].
        -- right. split; [done|]. exists iu. split; [done|lia].
        -- intros b Hb Hold. specialize (Hbound b Hb Hold).
           pose proof (stack_bound s s1 v seg b Hinvs Hinv1 Hext Hst Hb Hold u iu Hstk Hiu).
           lia.
      * done.
    + apply Hnext; [|done].
      split; [done|]. split; [done|]. split; [done|].
      exists seg, lv. repeat split; try done.
      intros x [Hx|Hx%list_elem_of_singleton]%elem_of_app; [by apply Hdone|].
      subst x. left. assert (Hu : u ∈ stack s1 ++ concat (result s1)) by (apply Hvis1; eauto).
      by apply elem_of_app in Hu as [?|?].
  - (* not visited: recurse *)
    assert (Hiu : index_of s1 u = None).
    { destruct (index_of s1 u) eqn:E; [|done].
      destruct (proj2 (Hlowidx u)) as [? ?]; [eauto | congruence]. }
    destruct (Hsc u s1 Hinv1 Hiu) as (s2 & -> & Hpost); [apply Hrest; by left | done |].
    destruct Hpost as (Hinv2 & Hext2 & Hidx2 & new & lu & Hst2 & Hlow2 & Hroot & Hnew & Hbound2).
    pose proof Hext2 as (Hc2 & _ & Hp2 & _).
    pose proof Hext as (Hc1 & _).
    assert (Hlv2 : lowlinks s2 v = Some lv).
    { destruct (Hp2 v) as [_ ->]; [rewrite Hidx; eauto | done]. }
    unfold lower, map_get. rewrite Hlv2, Hlow2. simpl.
    apply Hnext.
    + pose proof Hinv2 as (_ & _ & Hvis2 & _ & _ & _).
      split; [eapply tarjan_inv_set_lowlink; [done | done | lia]|].
      split; [apply extends_set_lowlink; [done|]; by eapply extends_trans|].
      split; [simpl; destruct (Hp2 v) as [-> _]; [rewrite Hidx; eauto | done]|].
      exists (new ++ seg), (Nat.min lv lu).
      split; [simpl; by rewrite Hst2, Hst, app_assoc|].
      split; [simpl; apply map_set_eq|].
      split; [|split].
      * intros w x [Hw|Hw]%elem_of_app Hx; apply settled_set_lowlink.
        -- eapply settled_bound; [|by eapply Hnew]. lia.
        -- eapply settled_bound;
             [|apply (settled_extends s1 s2 new lv x Hinv1 Hext2 Hst2); by eapply Hseg].
           lia.
      * intros x [Hx|Hx%list_elem_of_singleton]%elem_of_app; apply settled_set_lowlink.
        -- eapply settled_bound;
             [|apply (settled_extends s1 s2 new lv x Hinv1 Hext2 Hst2); by apply Hdone].
           lia.
        -- subst x. assert (Hu : u ∈ stack s2 ++ concat (result s2)) by (apply Hvis2; eauto).
           apply elem_of_app in Hu as [Hu|Hu]; [|by left].
           right. split; [done|]. exists (index_counter s1). split; [done|].
           specialize (Hle1 v lv _ Hlow Hidx). lia.
      * intros b Hb Hold. specialize (Hbound b Hb Hold).
        assert (b <= lu); [|lia].
        apply Hbound2; [lia|].
        exact (stack_bound s s1 v seg b Hinvs Hinv1 Hext Hst Hb Hold).
    + apply unvisited_mono. intros x Hx. simpl. exact (extends_visited s1 s2 x Hext2 Hx).
Qed.

End DependencySortLoop.

Section DependencySortSpec.
Context {A : Type} `{AssignmentLike A} `{EqDecision A}.
Variable assignments : list A.

Lemma elem_of_concat_lookup (l : list (list A)) x :
  x ∈ concat l <-> exists k C, l !! k = Some C /\ x ∈ C.
Proof.
  rewrite list_elem_of_In, in_concat. split.
  - intros (C & HC & Hx). apply list_elem_of_In, list_elem_of_lookup in HC as [k Hk].
    exists k, C. split; [done | by apply list_elem_of_In].
  - intros (k & C & Hk & Hx). exists C. split.
    + apply list_elem_of_In. by eapply list_elem_of_lookup_2.
    + by apply list_elem_of_In.
Qed.

Lemma close_component_spec (s s1 : tarjan A) v :
  tarjan_inv assignments s -> index_of s v = None ->
  visit_inv assignments s v (graph_get assignments v) s1 ->
  exists s2, close_component v s1 = Ok s2 /\ strongconnect_post assignments s v s2.
Proof.
  intros Hinvs Hv (Hinv1 & Hext & Hidx & seg & lv & Hst & Hlow & Hseg & Hdone & Hbound).
  pose proof Hinv1 as (Hlowidx & Hlt1 & Hvis1 & Hnd1 & Hin1 & Hle1 & Hcl1 & Hne1).
  pose proof Hinvs as (_ & Hlts & Hviss & _).
  pose proof Hext as (Hc & (more & Hr) & Hp & Hn).
  unfold close_component, map_get. rewrite Hlow, Hidx. simpl.
  case_bool_decide as Hroot.
  - (* a root: the component is popped *)
    subst lv.
    assert (Hvseg : v ∉ seg).
    { rewrite Hst in Hnd1. apply NoDup_app in Hnd1 as (Hnd1 & _ & _).
      apply NoDup_app in Hnd1 as (_ & Hdis & _). intros Hx. apply (Hdis v Hx). by left. }
    rewrite Hst, (pop_component_seg v seg (stack s) Hvseg).
    eexists. split; [done|].
    assert (Hperm : stack s ++ concat (result s1 ++ [seg ++ [v]])
                    ≡ₚ stack s1 ++ concat (result s1)).
    { rewrite Hst, concat_app. simpl. rewrite app_nil_r.
      trans ((seg ++ [v]) ++ stack s ++ concat (result s1)).
      - rewrite (app_assoc (stack s)). apply Permutation_app_comm.
      - by rewrite <- !app_assoc. }
    split; [|split; [|split]].
    + split; [done|]. split; [done|]. simpl.
      split; [intros x; rewrite Hperm; apply Hvis1|].
      split; [by rewrite Hperm|].
      split; [intros x; rewrite Hperm; apply Hin1|].
      split; [done|]. split.
      * intros k C a b Hk Ha Hab.
        destruct (decide (k < length (result s1))) as [Hk1|Hk1].
        -- rewrite lookup_app_l in Hk by done.
           destruct (Hcl1 k C a b Hk Ha Hab) as (k' & C' & Hle & Hk' & Hb).
           exists k', C'. split; [done|]. split; [|done].
           rewrite lookup_app_l; [done|]. lia.
        -- assert (k = length (result s1)) as ->.
           { apply lookup_lt_Some in Hk. rewrite length_app in Hk. simpl in Hk. lia. }
           rewrite lookup_app_r, Nat.sub_diag in Hk by done. simpl in Hk.
           inversion Hk; subst C.
           assert (Hset : settled s1 (index_counter s) b).
           { apply elem_of_app in Ha as [Ha|Ha%list_elem_of_singleton].
             - by eapply Hseg.
             - subst a. by apply Hdone. }
           destruct Hset as [Hb|(Hb & i & Hi & Hge)].
           ++ apply elem_of_concat_lookup in Hb as (k' & C' & Hk' & Hb).
              exists k', C'. pose proof (lookup_lt_Some _ _ _ Hk').
              split; [lia|]. split; [|done]. by rewrite lookup_app_l.
           ++ exists (length (result s1)), (seg ++ [v]). split; [done|].
              split; [by rewrite lookup_app_r, Nat.sub_diag|].
              rewrite Hst in Hb. apply elem_of_app in Hb as [Hb|Hb].
              { apply elem_of_app. by left. }
              apply elem_of_cons in Hb as [->|Hb].
              { apply elem_of_app. right. by left. }
              exfalso. assert (Hbs : is_Some (index_of s b)).
              { apply Hviss. apply elem_of_app. by left. }
              destruct Hbs as [j Hj]. specialize (Hlts _ _ Hj).
              destruct (Hp b) as [Hi' _]; [eauto|]. rewrite Hi' in Hi.
              assert (j = i) by congruence. lia.
      * apply Forall_app. split; [done|]. constructor; [|constructor].
        by destruct seg.
    + split; [done|]. split; [|done].
      exists (more ++ [seg ++ [v]]). simpl. by rewrite Hr, app_assoc.
    + done.
    + exists [], (index_counter s). simpl. split; [done|]. split; [done|].
      split; [by left|]. split; [|done]. by intros w x ?%elem_of_nil.
  - (* not a root: the node stays on the stack *)
    exists s1. split; [done|].
    split; [done|]. split; [done|]. split; [done|].
    exists (seg ++ [v]), lv. split; [by rewrite Hst, <- app_assoc|].
    split; [done|]. split; [|split; [|done]].
    + right. split; [apply elem_of_app; right; by left|].
      specialize (Hle1 v lv _ Hlow Hidx). lia.
    + intros w x [Hw|Hw%list_elem_of_singleton]%elem_of_app Hx.
      * by eapply Hseg.
      * subst w. by apply Hdone.
Qed.

Lemma strongconnect_spec (fuel : nat) : forall v (s : tarjan A),
  tarjan_inv assignments s -> index_of s v = None -> v ∈ assignments ->
  unvisited assignments s < fuel ->
  exists s', strongconnect fuel assignments v s = Some (Ok s') /\
             strongconnect_post assignments s v s'.
Proof.
  induction fuel as [|n IH]; intros v s Hinv Hv Hva Hfuel; [lia|]. simpl.
  destruct (visit_successors_spec assignments (strongconnect n assignments) n s v
              Hinv Hv IH (graph_get assignments v) [] (push s v))
    as (s1 & -> & Hvi).
  - by apply push_visit_inv.
  - assert (unvisited assignments (push s v) < unvisited assignments s); [|lia].
    apply (unvisited_visit assignments s (push s v) v); [|done|done|].
    + intros x [i Hi]. simpl. destruct (decide (x = v)) as [->|Hne].
      * rewrite map_set_eq. eauto.
      * rewrite map_set_ne by done. eauto.
    + simpl. rewrite map_set_eq. eauto.
  - intros u Hu. by eapply refers_to_elem.
  - destruct (close_component_spec s s1 v Hinv Hv Hvi) as (s2 & -> & Hpost). eauto.
Qed.

End DependencySortSpec.

Section DependencySortTheorem.
Context {A : Type} `{AssignmentLike A} `{EqDecision A}.
Variable assignments : list A.

Lemma tarjan_init_inv : tarjan_inv assignments (tarjan_init (A := A)).
Proof.
  repeat split; simpl; try done.
  - by intros ?%elem_of_nil.
  - constructor.
  - by intros ? ?%elem_of_nil.
Qed.

Lemma visit_roots_spec (fuel : nat) : forall nodes (s : tarjan A),
  tarjan_inv assignments s -> stack s = [] ->
  (forall v, v ∈ nodes -> v ∈ assignments) ->
  length (graph_keys assignments) < fuel ->
  exists s', visit_roots fuel assignments nodes s = Some (Ok s') /\
    tarjan_inv assignments s' /\ stack s' = [] /\
    (forall x, is_Some (index_of s x) -> is_Some (index_of s' x)) /\
    (forall v, v ∈ nodes -> is_Some (index_of s' v)).
Proof.
  induction nodes as [|v nodes IH]; intros s Hinv Hstk Hnodes Hfuel; simpl.
  { exists s. split; [done|]. split; [done|]. split; [done|]. split; [done|].
    by intros ? ?%elem_of_nil. }
  pose proof Hinv as (Hlowidx & _).
  destruct (lowlinks s v) as [l|] eqn:Hl.
  - destruct (IH s) as (s' & -> & Hinv' & Hstk' & Hmono & Hall); try done.
    { intros x Hx. apply Hnodes. by right. }
    exists s'. split; [done|]. split; [done|]. split; [done|]. split; [done|].
    intros x [->|Hx]%elem_of_cons; [|by apply Hall].
    apply Hmono, Hlowidx. eauto.
  - assert (Hv : index_of s v = None).
    { destruct (index_of s v) eqn:E; [|done].
      destruct (proj2 (Hlowidx v)) as [? ?]; [eauto | congruence]. }
    destruct (strongconnect_spec assignments fuel v s) as (s1 & -> & Hpost); try done.
    { apply Hnodes. by left. }
    { pose proof (unvisited_le_length assignments s). lia. }
    destruct Hpost as (Hinv1 & Hext & Hidx & new & low & Hst & Hlow & Hroot & _ & Hbound).
    assert (Hnew : new = []).
    { destruct Hroot as [?|[_ Hlt]]; [done|].
      assert (index_counter s <= low); [|lia].
      apply Hbound; [done|]. intros x i Hx. rewrite Hstk in Hx. by apply elem_of_nil in Hx. }
    destruct (IH s1) as (s' & -> & Hinv' & Hstk' & Hmono & Hall); try done.
    { by rewrite Hst, Hnew, Hstk. }
    { intros x Hx. apply Hnodes. by right. }
    exists s'. split; [done|]. split; [done|]. split; [done|]. split.
    + intros x Hx. apply Hmono. by eapply extends_visited.
    + intros x [->|Hx]%elem_of_cons; [|by apply Hall].
      apply Hmono. rewrite Hidx. eauto.
Qed.

Lemma component_unique (l : list (list A)) : forall k1 k2 C1 C2 b,
  NoDup (concat l) -> l !! k1 = Some C1 -> l !! k2 = Some C2 ->
  b ∈ C1 -> b ∈ C2 -> k1 = k2.
Proof.
  induction l as [|C l IH]; intros k1 k2 C1 C2 b Hnd H1 H2 Hb1 Hb2; [done|].
  simpl in Hnd. apply NoDup_app in Hnd as (_ & Hdis & Hnd).
  destruct k1 as [|k1], k2 as [|k2]; simpl in *.
  - done.
  - inversion H1; subst C1. exfalso. apply (Hdis b Hb1).
    apply elem_of_concat_lookup. eauto.
  - inversion H2; subst C2. exfalso. apply (Hdis b Hb2).
    apply elem_of_concat_lookup. eauto.
  - f_equal. by eapply IH.
Qed.


End DependencySortTheorem.
(** * The automatic tagging pass *)


(** ** SemaNode.descendants *)

Lemma descendants_S n h l :
  descendants (S n) h l = descendants_of_each n h (children h l).
Proof. reflexivity. Qed.

Lemma descendants_of_each_cons n h c cs :
  descendants_of_each n h (c :: cs)
  = match descendants n h c, descendants_of_each n h cs with
    | Some ds, Some rest => Some (c :: ds ++ rest)
    | _, _ => None
    end.
Proof. reflexivity. Qed.

Lemma descendants_of_each_inv n h cs D :
  descendants_of_each n h cs = Some D ->
  forall c, c ∈ cs ->
    exists Dc, descendants n h c = Some Dc /\ c ∈ D /\ Dc ⊆ D.
Proof.
  revert D. induction cs as [|c0 cs IH]; intros D HD c Hc; [by apply elem_of_nil in Hc|].
  rewrite descendants_of_each_cons in HD.
  destruct (descendants n h c0) as [D0|] eqn:E0; [|done].
  destruct (descendants_of_each n h cs) as [D1|] eqn:E1; [|done].
  inversion HD; subst D. apply elem_of_cons in Hc as [->|Hc].
  - exists D0. split; [done|]. split; [by left|].
    intros x Hx. right. apply elem_of_app. by left.
  - destruct (IH D1 eq_refl c Hc) as (Dc & HDc & Hin & Hsub).
    exists Dc. split; [done|]. split.
    + right. apply elem_of_app. by right.
    + intros x Hx. right. apply elem_of_app. right. by apply Hsub.
Qed.

Lemma descendants_of_each_elem n h cs D x :
  descendants_of_each n h cs = Some D -> x ∈ D ->
  exists c, c ∈ cs /\ (x = c \/ exists Dc, descendants n h c = Some Dc /\ x ∈ Dc).
Proof.
  revert D. induction cs as [|c0 cs IH]; intros D HD Hx.
  { inversion HD; subst. by apply elem_of_nil in Hx. }
  rewrite descendants_of_each_cons in HD.
  destruct (descendants n h c0) as [D0|] eqn:E0; [|done].
  destruct (descendants_of_each n h cs) as [D1|] eqn:E1; [|done].
  inversion HD; subst D.
  apply elem_of_cons in Hx as [->|Hx]; [exists c0; split; [by left | by left]|].
  apply elem_of_app in Hx as [Hx|Hx].
  - exists c0. split; [by left|]. right. eauto.
  - destruct (IH D1 eq_refl Hx) as (c & Hc & Hcase). exists c. split; [by right | done].
Qed.

(** The descendants are the children of the node and of its descendants,
    each as often as it is a child. *)
Lemma descendants_children n h : forall l D,
  descendants n h l = Some D ->
  D ≡ₚ children h l ++ concat (map (children h) D).
Proof.
  induction n as [|n IH]; intros l D HD; [done|].
  rewrite descendants_S in HD. revert D HD.
  generalize (children h l). intros cs. induction cs as [|c cs IHcs]; intros D HD.
  { by inversion HD. }
  rewrite descendants_of_each_cons in HD.
  destruct (descendants n h c) as [D0|] eqn:E0; [|done].
  destruct (descendants_of_each n h cs) as [D1|] eqn:E1; [|done].
  inversion HD; subst D. simpl. apply Permutation_skip.
  rewrite map_app, concat_app.
  pose proof (IH c D0 E0) as H0. pose proof (IHcs D1 eq_refl) as H1.
  trans ((children h c ++ concat (map (children h) D0))
         ++ (cs ++ concat (map (children h) D1))).
  { by apply Permutation_app. }
  rewrite <- !app_assoc.
  rewrite (Permutation_app_swap_app cs). apply Permutation_app_head.
  apply Permutation_app_swap_app.
Qed.

Lemma descendants_more_fuel n h : forall l D,
  descendants n h l = Some D -> descendants (S n) h l = Some D.
Proof.
  induction n as [|n IH]; intros l D HD; [done|].
  rewrite descendants_S in *. revert D HD.
  generalize (children h l). intros cs. induction cs as [|c cs IHcs]; intros D HD; [done|].
  rewrite descendants_of_each_cons in *.
  destruct (descendants n h c) as [D0|] eqn:E0; [|done].
  destruct (descendants_of_each n h cs) as [D1|] eqn:E1; [|done].
  by rewrite (IH c D0 E0), (IHcs D1 eq_refl).
Qed.

Lemma descendants_fuel_le n m h l D :
  n <= m -> descendants n h l = Some D -> descendants m h l = Some D.
Proof.
  induction 1 as [|m _ IH]; [done|]. intros HD. by apply descendants_more_fuel, IH.
Qed.

(** [descendants] only looks at the node and at its descendants. *)
Lemma descendants_agree n h h' : forall l D,
  descendants n h l = Some D ->
  (forall x, x = l \/ x ∈ D -> h' !! x = h !! x) ->
  descendants n h' l = Some D.
Proof.
  induction n as [|n IH]; intros l D HD Hagree; [done|].
  rewrite descendants_S in *.
  assert (Hch : children h' l = children h l).
  { unfold children. rewrite Hagree; [done | by left]. }
  rewrite Hch.
  assert (Hsub : forall x, x ∈ D -> h' !! x = h !! x) by (intros; apply Hagree; by right).
  clear Hagree Hch. revert D HD Hsub.
  generalize (children h l). intros cs. induction cs as [|c cs IHcs]; intros D HD Hsub; [done|].
  rewrite descendants_of_each_cons in *.
  destruct (descendants n h c) as [D0|] eqn:E0; [|done].
  destruct (descendants_of_each n h cs) as [D1|] eqn:E1; [|done].
  inversion HD; subst D.
  rewrite (IH c D0 E0), (IHcs D1 eq_refl); [done| |].
  - intros x Hx. apply Hsub. right. apply elem_of_app. by right.
  - intros x [->|Hx]; apply Hsub; [by left|]. right. apply elem_of_app. by left.
Qed.


(** ** What the tagging pass changes *)

Lemma children_of_attr c (a : list (string * val)) k e x :
  assoc k a = Some e -> x ∈ node_refs e ++ list_node_refs e ->
  x ∈ children_of (Obj c a).
Proof.
  intros Hk Hx. apply assoc_Some_elem in Hk.
  assert (He : e ∈ map snd a) by (apply list_elem_of_fmap; by exists (k, e)).
  unfold children_of. simpl. apply elem_of_app in Hx as [Hx|Hx]; apply elem_of_app.
  - left. apply list_elem_of_In, in_flat_map. exists e.
    split; by apply list_elem_of_In.
  - right. apply list_elem_of_In, in_flat_map. exists e.
    split; by apply list_elem_of_In.
Qed.

Lemma children_of_assoc_set c (a : list (string * val)) k t x :
  x ∈ children_of (Obj c (assoc_set k (VRef t) a)) ->
  x = t \/ x ∈ children_of (Obj c a).
Proof.
  unfold children_of. simpl.
  assert (Hmem : forall y, y ∈ map snd (assoc_set k (VRef t) a) ->
                           y = VRef t \/ y ∈ map snd a).
  { intros y ([k' v] & -> & Hin)%list_elem_of_fmap. simpl.
    apply assoc_set_elem in Hin as [[= _ ->]|Hin]; [by left|].
    right. apply list_elem_of_fmap. by exists (k', v). }
  intros [Hx|Hx]%elem_of_app.
  - apply list_elem_of_In, in_flat_map in Hx as (y & Hy & Hx).
    apply list_elem_of_In, Hmem in Hy as [->|Hy].
    + left. simpl in Hx. by destruct Hx.
    + right. apply elem_of_app. left. apply list_elem_of_In, in_flat_map.
      exists y. split; [by apply list_elem_of_In | done].
  - apply list_elem_of_In, in_flat_map in Hx as (y & Hy & Hx).
    apply list_elem_of_In, Hmem in Hy as [->|Hy]; [done|].
    right. apply elem_of_app. right. apply list_elem_of_In, in_flat_map.
    exists y. split; [by apply list_elem_of_In | done].
Qed.

Lemma children_of_auto_tagged i e :
  children_of (auto_tagged i e) = node_refs e ++ list_node_refs e.
Proof. unfold children_of. simpl. by rewrite !app_nil_r. Qed.

Lemma filter_ext_elem {X} (P Q : X -> Prop) `{!forall x, Decision (P x)}
  `{!forall x, Decision (Q x)} (l : list X) :
  (forall x, x ∈ l -> P x <-> Q x) -> filter P l = filter Q l.
Proof.
  induction l as [|x l IH]; intros Hext; [done|].
  rewrite !filter_cons. rewrite IH by (intros; apply Hext; by right).
  destruct (decide (P x)) as [HP|HP].
  - rewrite decide_True; [done|]. apply Hext; [by left | done].
  - rewrite decide_False; [done|]. intros HQ. apply HP, Hext; [by left | done].
Qed.

Section Wraps.
Variables (W : list loc) (h h' : heap).
Hypothesis Hw : wraps W h h'.

Lemma wraps_untouched a o : h !! a = Some o -> a ∉ W -> h' !! a = Some o.
Proof using Hw.
  destruct Hw as (_ & _ & Hold & _). intros Ho Ha.
  destruct (Hold a o Ho) as [?|[? _]]; done.
Qed.

Lemma wraps_object a o :
  h !! a = Some o ->
  exists o', h' !! a = Some o' /\ cls o' = cls o /\
    (forall k, k <> "type_decl" -> assoc k (attrs o') = assoc k (attrs o)) /\
    (is_Some (assoc "type_decl" (attrs o')) <-> is_Some (assoc "type_decl" (attrs o))).
Proof using Hw.
  destruct Hw as (_ & _ & Hold & _). intros Ho.
  destruct (Hold a o Ho) as [Hsame|(_ & e & t & i & He & Ho' & _)].
  - exists o. by repeat split.
  - eexists. split; [exact Ho'|]. simpl. split; [done|]. split.
    + intros k Hk. by apply assoc_set_other.
    + rewrite assoc_set_same, He. split; eauto.
Qed.

Lemma wraps_new t :
  length h <= t -> t < length h' -> exists i e, h' !! t = Some (auto_tagged i e).
Proof using Hw.
  destruct Hw as (_ & _ & _ & Hnew). intros H1 H2.
  destruct (Hnew t H1 H2) as (i & e & _ & _ & _ & _ & _ & Ht). eauto.
Qed.

Lemma wraps_constructed x : constructed h' x = constructed h x.
Proof using Hw.
  unfold constructed, isinstance. destruct (h !! x) as [o|] eqn:Ho.
  - destruct (wraps_object x o Ho) as (o' & -> & -> & _). done.
  - apply lookup_ge_None in Ho. destruct (h' !! x) as [o'|] eqn:Ho'; [|done].
    pose proof (lookup_lt_Some _ _ _ Ho') as Hlt.
    destruct (wraps_new x Ho Hlt) as (i & e & Hx).
    rewrite Hx in Ho'. by inversion Ho'.
Qed.

Lemma wraps_length_lt a : a < length h -> a < length h'.
Proof using Hw. destruct Hw as (? & _). lia. Qed.

Hypothesis Hclosed : closed_heap h.

(** The children of an old object are its old children and, if it was
    wrapped, the wrapper, whose children were children of the object. *)
Lemma wraps_children a x :
  a < length h -> x ∈ children h' a ->
  x ∈ children h a \/
  (length h <= x /\ forall y, y ∈ children h' x -> y ∈ children h a).
Proof using Hw.
  intros Ha Hx. destruct (lookup_lt_is_Some_2 h a Ha) as [o Ho].
  destruct Hw as (_ & _ & Hold & _).
  unfold children in *. rewrite Ho.
  destruct (Hold a o Ho) as [Hsame|(_ & e & t & i & He & Ho' & Ht & Hobj)].
  - left. by rewrite Hsame in Hx.
  - rewrite Ho' in Hx. apply children_of_assoc_set in Hx as [->|Hx].
    + right. split; [done|]. intros y. rewrite Hobj, children_of_auto_tagged.
      destruct o as [c a0]. simpl in *. intros Hy. by eapply children_of_attr.
    + left. by destruct o.
Qed.

Lemma wraps_children_new t y :
  length h <= t -> y ∈ children h' t -> exists a, a < length h /\ y ∈ children h a.
Proof using Hw.
  intros Ht Hy. destruct Hw as (_ & _ & _ & Hnew).
  assert (Hlt : t < length h').
  { unfold children in Hy. destruct (h' !! t) eqn:E; [by eapply lookup_lt_Some|].
    by apply elem_of_nil in Hy. }
  destruct (Hnew t Ht Hlt) as (i & e & a & o & _ & Ho & He & Hobj).
  exists a. split; [by eapply lookup_lt_Some|].
  unfold children in *. rewrite Hobj, children_of_auto_tagged in Hy. rewrite Ho.
  destruct o as [c a0]. simpl in *. by eapply children_of_attr.
Qed.

Lemma wraps_closed : closed_heap h'.
Proof using Hw Hclosed.
  intros l x Hx. destruct (decide (l < length h)) as [Hl|Hl].
  - destruct (wraps_children l x Hl Hx) as [Hold|[Hge _]].
    + apply wraps_length_lt. by eapply Hclosed.
    + destruct Hw as (_ & _ & Hold & _). destruct (lookup_lt_is_Some_2 h l Hl) as [o Ho].
      unfold children in Hx.
      destruct (Hold l o Ho) as [Hsame|(_ & e & t & i & He & Ho' & Ht & Hobj)].
      * rewrite Hsame in Hx. assert (x < length h); [|lia].
        apply (Hclosed l). unfold children. by rewrite Ho.
      * rewrite Ho' in Hx. apply children_of_assoc_set in Hx as [->|Hx].
        -- by eapply lookup_lt_Some.
        -- assert (x < length h); [|lia].
           apply (Hclosed l). unfold children. rewrite Ho. by destruct o.
  - destruct (wraps_children_new l x) as (a & Ha & Hxa); [lia | done |].
    apply wraps_length_lt. by eapply Hclosed.
Qed.

(** The typed children of an object that was not touched are the same. *)
Lemma wraps_typed_children c :
  h' !! c = h !! c -> typed_children h' c = typed_children h c.
Proof using Hw Hclosed.
  intros Hc. unfold typed_children.
  assert (Hch : children h' c = children h c) by (unfold children; by rewrite Hc).
  rewrite Hch. apply filter_ext_elem. intros x Hx.
  pose proof (Hclosed c x Hx) as Hlt.
  destruct (lookup_lt_is_Some_2 h x Hlt) as [o Ho].
  destruct (wraps_object x o Ho) as (o' & Ho' & _ & _ & Hiff).
  rewrite !hasattr_typed. unfold typed, vars. by rewrite Ho, Ho'.
Qed.

End Wraps.

(** ** Composing the changes *)

Lemma wraps_refl W h : (forall a, a ∈ W -> typed h a) -> wraps W h h.
Proof.
  intros HW. split; [done|]. split; [done|]. split; [by left|].
  intros t ? ?. lia.
Qed.

Lemma wraps_wrap_children h cs :
  Forall (typed h) cs -> NoDup cs -> wraps cs h (wrap_children h 0 cs).
Proof.
  intros Hall Hnd.
  destruct (wrap_children_frame cs h 0 Hall) as (Hlen & Hold & Hnew).
  split; [lia|]. split; [by apply Forall_forall|]. split.
  - intros a o Ho. destruct (decide (a ∈ cs)) as [Hin|Hin].
    + right. split; [done|]. apply list_elem_of_lookup_1 in Hin as [i Hi].
      destruct (wrap_children_tags cs h 0 Hall Hnd i a Hi)
        as (o1 & e & Ho1 & He & Ha & Ht).
      rewrite Ho in Ho1. inversion Ho1; subst o1.
      exists e, (length h + i), i. split; [done|]. split; [done|].
      split; [lia | done].
    + left. destruct (Hold a o Ho) as (o' & Ho' & _ & _ & Hsame & _).
      by rewrite Ho', Hsame.
  - intros t Ht1 Ht2. rewrite Hlen in Ht2.
    destruct (lookup_lt_is_Some_2 cs (t - length h)) as [c Hc]; [lia|].
    destruct (wrap_children_tags cs h 0 Hall Hnd _ c Hc)
      as (o & e & Ho & He & _ & Ht).
    replace (length h + (t - length h)) with t in Ht by lia.
    exists (t - length h), e, c, o.
    split; [by eapply list_elem_of_lookup_2|]. done.
Qed.

Lemma wraps_agree W h h' x :
  wraps W h h' -> x < length h -> x ∉ W -> h' !! x = h !! x.
Proof.
  intros Hw Hx Hnot. destruct (lookup_lt_is_Some_2 h x Hx) as [o Ho].
  rewrite Ho. by eapply wraps_untouched.
Qed.

Lemma wraps_trans W1 W2 h h1 h2 :
  wraps W1 h h1 -> wraps W2 h1 h2 ->
  (forall a, a ∈ W2 -> a ∉ W1) -> (forall a, a ∈ W2 -> a < length h) ->
  wraps (W1 ++ W2) h h2.
Proof.
  intros Hw1 Hw2 Hdisj Hlt.
  pose proof Hw1 as (Hlen1 & Hty1 & Hold1 & Hnew1).
  pose proof Hw2 as (Hlen2 & Hty2 & Hold2 & Hnew2).
  assert (Hnew_not : forall t, length h <= t -> t ∉ W2).
  { intros t Ht Hin. apply Hlt in Hin. lia. }
  split; [lia|]. split; [|split].
  - intros a [Ha|Ha]%elem_of_app; [by apply Hty1|].
    pose proof (Hty2 a Ha) as Hta. unfold typed, vars in *.
    by rewrite (wraps_agree W1 h h1 a Hw1 (Hlt a Ha) (Hdisj a Ha)) in Hta.
  - intros a o Ho.
    destruct (Hold1 a o Ho) as [Hsame|(Ha & e & t & i & He & Ho1 & Ht & Hobj)].
    + destruct (Hold2 a o Hsame) as [?|(Ha & e & t & i & He & Ho2 & Ht & Hobj)];
        [by left|].
      right. split; [apply elem_of_app; by right|].
      exists e, t, i. split; [done|]. split; [done|]. split; [lia | done].
    + right. split; [apply elem_of_app; by left|].
      exists e, t, i. split; [done|]. split; [|split; [done|]].
      * eapply wraps_untouched; [done.. |]. intros Hin. by apply (Hdisj a).
      * eapply wraps_untouched; [done.. |]. by apply Hnew_not.
  - intros t Ht1 Ht2. destruct (decide (t < length h1)) as [Hlt1|Hge1].
    + destruct (Hnew1 t Ht1 Hlt1) as (i & e & a & o & Ha & Ho & He & Hobj).
      exists i, e, a, o. split; [apply elem_of_app; by left|].
      split; [done|]. split; [done|].
      eapply wraps_untouched; [done.. |]. by apply Hnew_not.
    + destruct (Hnew2 t ltac:(lia) Ht2) as (i & e & a & o & Ha & Ho & He & Hobj).
      exists i, e, a, o. split; [apply elem_of_app; by right|].
      split; [|done].
      by rewrite <- (wraps_agree W1 h h1 a Hw1 (Hlt a Ha) (Hdisj a Ha)).
Qed.

(** ** A constructed type whose components were not touched *)

Lemma omap_ext_elem {X Y} (f g : X -> option Y) (l : list X) :
  (forall x, x ∈ l -> f x = g x) -> omap f l = omap g l.
Proof.
  induction l as [|x l IH]; intros Hext; [done|].
  change (omap f (x :: l)) with (match f x with Some y => y :: omap f l | None => omap f l end).
  change (omap g (x :: l)) with (match g x with Some y => y :: omap g l | None => omap g l end).
  rewrite (Hext x) by left. rewrite IH; [done|]. intros; apply Hext; by right.
Qed.

Lemma existsb_ext_elem {X} (f g : X -> bool) (l : list X) :
  (forall x, x ∈ l -> f x = g x) -> existsb f l = existsb g l.
Proof.
  induction l as [|x l IH]; intros Hext; [done|]. simpl.
  rewrite (Hext x) by left. rewrite IH; [done|]. intros; apply Hext; by right.
Qed.

Lemma components_of_constructed h c cs :
  is_constructed_type h c cs -> components_of h c = cs.
Proof.
  intros (k & n & _ & Ho). unfold components_of. simpl. unfold vars.
  by rewrite Ho.
Qed.

Lemma is_constructed_type_constructed h c cs :
  is_constructed_type h c cs -> constructed h c = true.
Proof.
  intros (k & n & Hk & Ho). unfold constructed. simpl. by rewrite Ho.
Qed.

Lemma elem_of_node_refs (cs : list val) x :
  x ∈ flat_map node_refs cs <-> VRef x ∈ cs.
Proof.
  rewrite list_elem_of_In, in_flat_map. split.
  - intros (v & Hv & Hx). destruct v; simpl in Hx; try done.
    destruct Hx as [->|[]]. by apply list_elem_of_In.
  - intros Hx. exists (VRef x). split; [by apply list_elem_of_In | by left].
Qed.

Section Untouched.
Variables (W : list loc) (h h1 : heap) (c : loc) (cs : list val).
Hypothesis Hw : wraps W h h1.
Hypothesis Hclosed : closed_heap h.
Hypothesis Hc : is_constructed_type h c cs.
Hypothesis Hdisj : forall x, x ∈ typed_children h c -> x ∉ W.

Lemma untouched_lt : c < length h.
Proof using Hc. destruct Hc as (k & n & _ & Ho). by eapply lookup_lt_Some. Qed.

Lemma untouched_notin : c ∉ W.
Proof using Hw Hc.
  intros Hin. destruct Hw as (_ & Hty & _).
  by apply (constructed_not_typed _ _ _ Hc), Hty.
Qed.

Lemma untouched_lookup : h1 !! c = h !! c.
Proof using Hw Hc.
  eapply wraps_agree; [done | apply untouched_lt | apply untouched_notin].
Qed.

Lemma untouched_constructed : is_constructed_type h1 c cs.
Proof using Hw Hc.
  destruct Hc as (k & n & Hk & Ho). exists k, n. split; [done|].
  by rewrite untouched_lookup.
Qed.

Lemma untouched_component x : VRef x ∈ cs -> vars h1 x = vars h x \/ (~ typed h x /\ ~ typed h1 x).
Proof using Hw Hclosed Hc Hdisj.
  intros Hx.
  assert (Hch : x ∈ children h c).
  { rewrite (children_constructed _ _ _ Hc). by apply elem_of_node_refs. }
  pose proof (Hclosed c x Hch) as Hlt.
  destruct (decide (typed h x)) as [Hty|Hty].
  - left. unfold vars. rewrite (wraps_agree W h h1 x Hw Hlt); [done|].
    apply Hdisj. unfold typed_children. apply list_elem_of_filter.
    split; [by apply hasattr_typed | done].
  - right. split; [done|].
    destruct (lookup_lt_is_Some_2 h x Hlt) as [o Ho].
    destruct (wraps_object W h h1 Hw x o Ho) as (o' & Ho' & _ & _ & Hiff).
    unfold typed, vars in *. rewrite Ho in Hty. rewrite Ho'. by rewrite Hiff.
Qed.

Lemma untouched_component_types : component_types h1 cs = component_types h cs.
Proof using Hw Hclosed Hc Hdisj.
  unfold component_types. apply omap_ext_elem. intros v Hv.
  destruct v as [| | | | x | | |]; try done.
  destruct (untouched_component x Hv) as [->|[H0 H1]]; [done|].
  unfold typed in *.
  destruct (assoc "type_decl" (vars h x)); [by destruct H0|].
  destruct (assoc "type_decl" (vars h1 x)); [by destruct H1|]. done.
Qed.

Lemma untouched_already_tagged : already_tagged h1 cs = already_tagged h cs.
Proof using Hw Hclosed Hc Hdisj.
  unfold already_tagged. rewrite untouched_component_types.
  apply existsb_ext_elem. intros v Hv.
  destruct v as [| | | | y | | |]; try done.
  apply list_elem_of_omap in Hv as (u & Hu & Hy).
  destruct u as [| | | | x | | |]; try done.
  assert (Hch : x ∈ children h c).
  { rewrite (children_constructed _ _ _ Hc). by apply elem_of_node_refs. }
  pose proof (Hclosed c x Hch) as Hlt.
  assert (Hylt : y < length h).
  { apply (Hclosed x). unfold children, vars in *.
    destruct (h !! x) as [[k a]|]; [|done]. simpl in *.
    eapply children_of_attr; [exact Hy|]. simpl. by left. }
  destruct (lookup_lt_is_Some_2 h y Hylt) as [o Ho].
  destruct (wraps_object W h h1 Hw y o Ho) as (o' & Ho' & Hcls & _).
  simpl. by rewrite Ho, Ho', Hcls.
Qed.

Lemma untouched_typed_refs : typed_refs h1 cs = typed_refs h cs.
Proof using Hw Hclosed Hc Hdisj.
  rewrite <- (typed_children_constructed h1 c cs untouched_constructed).
  rewrite <- (typed_children_constructed h c cs Hc).
  apply (wraps_typed_children W h h1 Hw Hclosed). apply untouched_lookup.
Qed.

Lemma untouched_had_tagged_component :
  had_tagged_component h1 c -> had_tagged_component h c.
Proof using Hw Hclosed Hc Hdisj.
  unfold had_tagged_component.
  rewrite (components_of_constructed _ _ _ Hc).
  rewrite (components_of_constructed _ _ _ untouched_constructed).
  by rewrite untouched_already_tagged.
Qed.

Lemma untouched_tagged_by_ordinal h' :
  tagged_by_ordinal h1 h' c -> tagged_by_ordinal h h' c.
Proof using Hw Hclosed Hc Hdisj.
  unfold tagged_by_ordinal.
  rewrite (components_of_constructed _ _ _ Hc).
  rewrite (components_of_constructed _ _ _ untouched_constructed).
  rewrite untouched_typed_refs. intros Htag i x Hi.
  destruct (Htag i x Hi) as (e & t & He & He' & Ht & Hobj).
  exists e, t. split; [|split; [done|split; [|done]]].
  - assert (Hx : x ∈ typed_children h c).
    { rewrite (typed_children_constructed _ _ _ Hc). by eapply list_elem_of_lookup_2. }
    assert (Hlt : x < length h).
    { eapply typed_lt, (Forall_forall (typed h)); [apply typed_children_typed | done]. }
    simpl in *. unfold vars in *.
    by rewrite <- (wraps_agree W h h1 x Hw Hlt (Hdisj x Hx)).
  - destruct Hw as (? & _). lia.
Qed.

End Untouched.

(** What one [auto_tag] did stays when other objects are wrapped. *)
Lemma tagged_by_ordinal_wraps W h h1 h2 c :
  tagged_by_ordinal h h1 c -> wraps W h1 h2 ->
  (forall x, x ∈ typed_refs h (components_of h c) -> x ∉ W) ->
  (forall a, a ∈ W -> a < length h) ->
  tagged_by_ordinal h h2 c.
Proof.
  intros Htag Hw Hdisj Hlt i x Hi.
  destruct (Htag i x Hi) as (e & t & He & He1 & Ht & Hobj).
  exists e, t. split; [done|]. split; [|split; [done|]].
  - assert (Hx1 : x < length h1).
    { simpl in He1. unfold vars in He1.
      destruct (h1 !! x) eqn:E; [by eapply lookup_lt_Some | done]. }
    simpl in *. unfold vars in *.
    rewrite (wraps_agree W h1 h2 x Hw Hx1); [done|].
    apply Hdisj. by eapply list_elem_of_lookup_2.
  - eapply wraps_untouched; [done.. |]. intros Hin. apply Hlt in Hin. lia.
Qed.

(** ** The pass over a list of descendants *)

Lemma work_children_cons h d ds :
  work_children h (d :: ds)
  = if constructed h d then typed_children h d ++ work_children h ds
    else work_children h ds.
Proof.
  unfold work_children. rewrite filter_cons.
  destruct (constructed h d); [by rewrite decide_True | by rewrite decide_False].
Qed.

Lemma elem_of_work_children h ds x :
  x ∈ work_children h ds <->
  exists c, c ∈ ds /\ constructed h c = true /\ x ∈ typed_children h c.
Proof.
  induction ds as [|d ds IH].
  - split; [by intros ?%elem_of_nil | by intros (c & ?%elem_of_nil & _)].
  - rewrite work_children_cons. destruct (constructed h d) eqn:Hd.
    + rewrite elem_of_app, IH. split.
      * intros [Hx|(c & Hc & Hcon & Hx)].
        -- exists d. split; [left | done].
        -- exists c. split; [by right | done].
      * intros (c & [->|Hc]%elem_of_cons & Hcon & Hx); [by left|].
        right. by exists c.
    + rewrite IH. split.
      * intros (c & Hc & Hcon & Hx). exists c. split; [by right | done].
      * intros (c & [->|Hc]%elem_of_cons & Hcon & Hx); [congruence|].
        by exists c.
Qed.

Lemma work_children_typed h ds : forall a, a ∈ work_children h ds -> typed h a.
Proof.
  intros a (c & _ & _ & Ha)%elem_of_work_children.
  by eapply (Forall_forall (typed h)); [apply typed_children_typed|].
Qed.

Lemma shaped_cons h d ds : shaped h (d :: ds) -> shaped h ds.
Proof. intros Hs c Hc. apply Hs. by right. Qed.

Lemma shaped_notin W h h1 c :
  wraps W h h1 -> constructed h c = true ->
  (exists cs, is_constructed_type h c cs) -> h1 !! c = h !! c.
Proof.
  intros Hw Hcon [cs Hc]. by eapply untouched_lookup.
Qed.

Lemma shaped_wraps W h h1 ds :
  wraps W h h1 -> shaped h ds -> shaped h1 ds.
Proof.
  intros Hw Hs c Hc Hcon. rewrite (wraps_constructed W h h1 Hw) in Hcon.
  destruct (Hs c Hc Hcon) as [cs Hcs]. exists cs.
  by eapply untouched_constructed.
Qed.

Lemma work_children_wraps W h h1 ds :
  wraps W h h1 -> closed_heap h -> shaped h ds ->
  work_children h1 ds = work_children h ds.
Proof.
  intros Hw Hclosed. induction ds as [|d ds IH]; intros Hs; [done|].
  rewrite !work_children_cons, (wraps_constructed W h h1 Hw).
  rewrite IH by by eapply shaped_cons.
  destruct (constructed h d) eqn:Hd; [|done].
  destruct (Hs d ltac:(left) Hd) as [cs Hcs].
  rewrite (wraps_typed_children W h h1 Hw Hclosed); [done|].
  by eapply untouched_lookup.
Qed.

Lemma auto_tag_wraps h d cs :
  is_constructed_type h d cs -> NoDup (typed_children h d) ->
  exists h1, auto_tag h d = Ok h1 /\
    wraps (typed_children h d) h h1 /\
    (had_tagged_component h d \/ tagged_by_ordinal h h1 d).
Proof.
  intros Hd Hnd. rewrite (auto_tag_eq _ _ _ Hd).
  pose proof (typed_children_typed h d) as Hall.
  destruct (already_tagged h cs) eqn:Htag.
  - exists h. split; [done|]. split.
    + apply wraps_refl. by apply Forall_forall.
    + left. unfold had_tagged_component.
      by rewrite (components_of_constructed _ _ _ Hd).
  - eexists. split; [done|]. split; [by apply wraps_wrap_children|].
    right. intros i x Hi.
    rewrite (components_of_constructed _ _ _ Hd) in Hi.
    rewrite <- (typed_children_constructed _ _ _ Hd) in Hi.
    destruct (wrap_children_tags _ h 0 Hall Hnd i x Hi)
      as (o & e & Ho & He & Hx & Ht).
    exists e, (length h + i). simpl. unfold vars. rewrite Ho, Hx, He. simpl.
    rewrite assoc_set_same. split; [done|]. split; [done|]. split; [lia | done].
Qed.

Lemma auto_tag_all_cons h d ds :
  auto_tag_all h (d :: ds)
  = if constructed h d then (h1 <~ auto_tag h d;; auto_tag_all h1 ds)
    else auto_tag_all h ds.
Proof. reflexivity. Qed.

Lemma auto_tag_all_spec ds : forall h,
  closed_heap h -> shaped h ds -> NoDup (work_children h ds) ->
  exists h', auto_tag_all h ds = Ok h' /\ closed_heap h' /\
    wraps (work_children h ds) h h' /\
    forall c, c ∈ ds -> constructed h c = true ->
      had_tagged_component h c \/ tagged_by_ordinal h h' c.
Proof.
  induction ds as [|d ds IH]; intros h Hclosed Hs Hnd.
  { exists h. split; [done|]. split; [done|]. split.
    - apply wraps_refl. by intros a ?%elem_of_nil.
    - by intros c ?%elem_of_nil. }
  rewrite auto_tag_all_cons. rewrite work_children_cons in *.
  destruct (constructed h d) eqn:Hd.
  - destruct (Hs d ltac:(left) Hd) as [cs Hcs].
    apply NoDup_app in Hnd as (Hnd1 & Hdisj & Hnd2).
    destruct (auto_tag_wraps h d cs Hcs Hnd1) as (h1 & -> & Hw1 & Hres1). simpl.
    pose proof (wraps_closed _ _ _ Hw1 Hclosed) as Hclosed1.
    pose proof (shaped_cons _ _ _ Hs) as Hs'.
    pose proof (work_children_wraps _ _ _ ds Hw1 Hclosed Hs') as Hwork.
    destruct (IH h1 Hclosed1) as (h' & Hrun & Hclosed' & Hw2 & Hres2).
    { by eapply shaped_wraps. }
    { by rewrite Hwork. }
    rewrite Hwork in Hw2.
    assert (Hdisj' : forall a, a ∈ work_children h ds -> a ∉ typed_children h d).
    { intros a Ha Ha'. by apply (Hdisj a). }
    assert (Hlt : forall a, a ∈ work_children h ds -> a < length h).
    { intros a Ha. by eapply typed_lt, work_children_typed. }
    exists h'. split; [done|]. split; [done|]. split.
    { by eapply wraps_trans. }
    intros c [->|Hc]%elem_of_cons Hcon.
    + destruct Hres1 as [?|Htag]; [by left|]. right.
      eapply tagged_by_ordinal_wraps; [done.. | | done].
      intros x Hx Hin. apply (Hdisj x); [|done].
      by rewrite (typed_children_constructed _ _ _ Hcs),
              <- (components_of_constructed _ _ _ Hcs).
    + destruct (Hs' c Hc Hcon) as [cs' Hcs'].
      assert (Hun : forall x, x ∈ typed_children h c -> x ∉ typed_children h d).
      { intros x Hx. apply Hdisj'. apply elem_of_work_children. by exists c. }
      destruct (Hres2 c Hc) as [Htag|Htag].
      { by rewrite (wraps_constructed _ _ _ Hw1). }
      * left. by eapply untouched_had_tagged_component.
      * right. by eapply untouched_tagged_by_ordinal.
  - destruct (IH h Hclosed (shaped_cons _ _ _ Hs) Hnd)
      as (h' & Hrun & Hclosed' & Hw & Hres).
    exists h'. split; [done|]. split; [done|]. split; [done|].
    intros c [->|Hc]%elem_of_cons Hcon; [congruence|]. by apply Hres.
Qed.

Lemma auto_tag_all_app ds1 : forall h ds2,
  auto_tag_all h (ds1 ++ ds2)
  = (h1 <~ auto_tag_all h ds1;; auto_tag_all h1 ds2).
Proof.
  induction ds1 as [|d ds1 IH]; intros h ds2; [done|].
  rewrite <- app_comm_cons, !auto_tag_all_cons.
  destruct (constructed h d); [|apply IH].
  destruct (auto_tag h d) as [h1|e]; simpl; [apply IH | done].
Qed.

(** ** The pass over the modules *)

Lemma elem_of_concat_map {X Y} (f : X -> list Y) (l : list X) y :
  y ∈ concat (map f l) <-> exists x, x ∈ l /\ y ∈ f x.
Proof.
  rewrite list_elem_of_In, in_concat. split.
  - intros (ys & (x & <- & Hx)%in_map_iff & Hy). exists x.
    split; by apply list_elem_of_In.
  - intros (x & Hx & Hy). exists (f x). split.
    + apply in_map. by apply list_elem_of_In.
    + by apply list_elem_of_In.
Qed.

Lemma descendants_of_each_children n h cs : forall N,
  descendants_of_each n h cs = Some N ->
  N ≡ₚ cs ++ concat (map (children h) N).
Proof.
  induction cs as [|c cs IH]; intros N HN.
  { by inversion HN. }
  rewrite descendants_of_each_cons in HN.
  destruct (descendants n h c) as [D0|] eqn:E0; [|done].
  destruct (descendants_of_each n h cs) as [D1|] eqn:E1; [|done].
  inversion HN; subst N. simpl. apply Permutation_skip.
  rewrite map_app, concat_app.
  pose proof (descendants_children n h c D0 E0) as H0.
  pose proof (IH D1 eq_refl) as H1.
  trans ((children h c ++ concat (map (children h) D0))
         ++ (cs ++ concat (map (children h) D1))).
  { by apply Permutation_app. }
  rewrite <- !app_assoc.
  rewrite (Permutation_app_swap_app cs). apply Permutation_app_head.
  apply Permutation_app_swap_app.
Qed.

Lemma descendants_of_each_agree n h h' cs : forall N,
  descendants_of_each n h cs = Some N ->
  (forall x, x ∈ N -> h' !! x = h !! x) ->
  descendants_of_each n h' cs = Some N.
Proof.
  induction cs as [|c cs IH]; intros N HN Hsub; [done|].
  rewrite descendants_of_each_cons in *.
  destruct (descendants n h c) as [D0|] eqn:E0; [|done].
  destruct (descendants_of_each n h cs) as [D1|] eqn:E1; [|done].
  inversion HN; subst N.
  rewrite (descendants_agree n h h' c D0 E0), (IH D1 eq_refl); [done| |].
  - intros x Hx. apply Hsub. right. apply elem_of_app. by right.
  - intros x [->|Hx]; apply Hsub; [by left|]. right. apply elem_of_app. by left.
Qed.

Lemma descendants_of_each_closed n h cs N c x :
  descendants_of_each n h cs = Some N -> c ∈ N -> x ∈ children h c -> x ∈ N.
Proof.
  intros HN Hc Hx. rewrite (descendants_of_each_children n h cs N HN) at 1.
  apply elem_of_app. right. apply elem_of_concat_map. by exists c.
Qed.

Lemma descendants_closed n h l D c x :
  descendants n h l = Some D -> c ∈ D -> x ∈ children h c -> x ∈ D.
Proof.
  intros HD Hc Hx. rewrite (descendants_children n h l D HD) at 1.
  apply elem_of_app. right. apply elem_of_concat_map. by exists c.
Qed.

Lemma descendants_of_each_lt n h cs N :
  closed_heap h -> (forall c, c ∈ cs -> c < length h) ->
  descendants_of_each n h cs = Some N -> forall x, x ∈ N -> x < length h.
Proof.
  intros Hclosed Hcs HN x Hx.
  rewrite (descendants_of_each_children n h cs N HN) in Hx.
  apply elem_of_app in Hx as [Hx|Hx]; [by apply Hcs|].
  apply elem_of_concat_map in Hx as (c & _ & Hx). by eapply Hclosed.
Qed.

Lemma work_children_sublist h ds :
  work_children h ds `sublist_of` concat (map (children h) ds).
Proof.
  induction ds as [|d ds IH]; [done|]. rewrite work_children_cons. simpl.
  destruct (constructed h d).
  - apply sublist_app; [apply sublist_filter | done].
  - by apply sublist_inserts_l.
Qed.

Lemma work_children_NoDup h ds cs :
  ds ≡ₚ cs ++ concat (map (children h) ds) -> NoDup ds ->
  NoDup (work_children h ds).
Proof.
  intros Hperm Hnd. rewrite Hperm in Hnd. apply NoDup_app in Hnd as (_ & _ & Hnd).
  eapply sublist_NoDup; [done | apply work_children_sublist].
Qed.

Lemma work_children_subseteq h ds cs x :
  ds ≡ₚ cs ++ concat (map (children h) ds) ->
  x ∈ work_children h ds -> x ∈ ds.
Proof.
  intros Hperm (c & Hc & _ & Hx)%elem_of_work_children.
  rewrite Hperm. apply elem_of_app. right. apply elem_of_concat_map.
  exists c. split; [done|]. unfold typed_children in Hx.
  by apply list_elem_of_filter in Hx as [_ Hx].
Qed.

Lemma getattr_lt h x k d : getattr h (VRef x) k = Ok d -> x < length h.
Proof.
  simpl. unfold vars. destruct (h !! x) eqn:E; [|done].
  intros _. by eapply lookup_lt_Some.
Qed.

Lemma getattr_wraps W h h1 x k :
  wraps W h h1 -> k <> "type_decl" -> x < length h ->
  getattr h1 (VRef x) k = getattr h (VRef x) k.
Proof.
  intros Hw Hk Hx. destruct (lookup_lt_is_Some_2 h x Hx) as [o Ho].
  destruct (wraps_object W h h1 Hw x o Ho) as (o' & Ho' & _ & Hattr & _).
  simpl. unfold vars. by rewrite Ho, Ho', Hattr.
Qed.

Lemma has_tag_default_inv h v :
  has_tag_default h v ->
  exists m d, v = VRef m /\ getattr h (VRef m) "tag_default" = Ok d /\ m < length h.
Proof.
  intros [d Hd]. destruct v as [| | | | m | | |]; try done.
  exists m, d. split; [done|]. split; [done|]. by eapply getattr_lt.
Qed.

Lemma automatic_modules_cons h m d rest :
  getattr h (VRef m) "tag_default" = Ok d ->
  automatic_modules h (VRef m :: rest)
  = if py_eq d (VInt TagImplicitness.AUTOMATIC)
    then m :: automatic_modules h rest else automatic_modules h rest.
Proof. intros Hd. cbn [automatic_modules]. by rewrite Hd. Qed.

Lemma auto_tag_module_ref fuel h m d :
  getattr h (VRef m) "tag_default" = Ok d ->
  auto_tag_module fuel h (VRef m)
  = if py_eq d (VInt TagImplicitness.AUTOMATIC)
    then match descendants fuel h m with
         | Some ds => auto_tag_all h ds
         | None => Raise RecursionError
         end
    else Ok h.
Proof. intros Hd. unfold auto_tag_module. by rewrite Hd. Qed.

Lemma automatic_modules_elem h root m :
  Forall (has_tag_default h) root ->
  m ∈ automatic_modules h root <->
  VRef m ∈ root /\ getattr h (VRef m) "tag_default"
                   = Ok (VInt TagImplicitness.AUTOMATIC).
Proof.
  induction 1 as [|v root Hv Hroot IH].
  { split; [by intros ?%elem_of_nil | by intros [?%elem_of_nil _]]. }
  destruct (has_tag_default_inv _ _ Hv) as (m0 & d & -> & Hd & _).
  rewrite (automatic_modules_cons _ _ _ _ Hd).
  destruct (py_eq d (VInt TagImplicitness.AUTOMATIC)) eqn:Hauto.
  - apply py_eq_AUTOMATIC in Hauto. subst d.
    rewrite !elem_of_cons, IH. split.
    + intros [->|[? ?]]; [by split; [left|] | by split; [right|]].
    + intros [[[= ->]|?] ?]; [by left | by right].
  - rewrite IH, elem_of_cons. split; [by intros [? ?]; split; [right|]|].
    intros [[[= ->]|?] Hm]; [|done].
    rewrite Hm in Hd. inversion Hd; subst d. by vm_compute in Hauto.
Qed.

Lemma automatic_modules_lt h root m :
  Forall (has_tag_default h) root -> m ∈ automatic_modules h root -> m < length h.
Proof.
  intros Hroot [_ Hm]%automatic_modules_elem; [|done]. by eapply getattr_lt.
Qed.

Lemma automatic_modules_wraps W h h1 root :
  wraps W h h1 -> Forall (has_tag_default h) root ->
  automatic_modules h1 root = automatic_modules h root /\
  Forall (has_tag_default h1) root.
Proof.
  intros Hw. induction 1 as [|v root Hv Hroot [IH1 IH2]]; [done|].
  destruct (has_tag_default_inv _ _ Hv) as (m & d & -> & Hd & Hlt).
  assert (Hd1 : getattr h1 (VRef m) "tag_default" = Ok d).
  { by rewrite (getattr_wraps W h h1 m) by done. }
  split.
  - by rewrite (automatic_modules_cons _ _ _ _ Hd),
            (automatic_modules_cons _ _ _ _ Hd1), IH1.
  - apply Forall_cons. split; [by exists d | done].
Qed.

Lemma module_not_constructed h m d cs :
  getattr h (VRef m) "tag_default" = Ok d -> ~ is_constructed_type h m cs.
Proof.
  intros Hd (k & n & _ & Ho). simpl in Hd. unfold vars in Hd.
  by rewrite Ho in Hd.
Qed.

Lemma shaped_subseteq h ds ds' :
  (forall x, x ∈ ds' -> x ∈ ds) -> shaped h ds -> shaped h ds'.
Proof. intros Hsub Hs c Hc. apply Hs. by apply Hsub. Qed.

(** The pass is [auto_tag] on the descendants of the modules with
    AUTOMATIC TAGS, one after the other: listing the descendants of a
    module after the modules before it are done gives what it gave at
    the start. *)
Lemma auto_tag_modules_eq fuel : forall root h N,
  closed_heap h -> Forall (has_tag_default h) root ->
  descendants_of_each fuel h (automatic_modules h root) = Some N ->
  NoDup N -> shaped h N ->
  auto_tag_modules fuel h root = auto_tag_all h N.
Proof.
  induction root as [|module root IH]; intros h N Hclosed Hroot HN Hnd Hs.
  { by inversion HN. }
  apply Forall_cons in Hroot as [Hmod Hroot].
  destruct (has_tag_default_inv _ _ Hmod) as (m & d & -> & Hd & Hlt).
  cbn [auto_tag_modules].
  rewrite (auto_tag_module_ref _ _ _ _ Hd).
  rewrite (automatic_modules_cons _ _ _ _ Hd) in HN.
  destruct (py_eq d (VInt TagImplicitness.AUTOMATIC)) eqn:Hauto; [|by apply IH].
  rewrite descendants_of_each_cons in HN.
  destruct (descendants fuel h m) as [D|] eqn:ED; [|done].
  destruct (descendants_of_each fuel h (automatic_modules h root)) as [R|] eqn:ER;
    [|done].
  inversion HN; subst N. clear HN.
  rewrite auto_tag_all_cons.
  destruct (constructed h m) eqn:Hm.
  { destruct (Hs m ltac:(left) Hm) as [cs Hcs].
    by destruct (module_not_constructed _ _ _ _ Hd Hcs). }
  rewrite auto_tag_all_app.
  apply NoDup_cons in Hnd as [Hm_notin Hnd].
  apply NoDup_app in Hnd as (HndD & Hdisj & HndR).
  pose proof (descendants_children _ _ _ _ ED) as HpermD.
  destruct (auto_tag_all_spec D h Hclosed) as (h1 & Hrun & Hclosed1 & Hw & _).
  { eapply shaped_subseteq; [|exact Hs]. intros x Hx. right.
    apply elem_of_app. by left. }
  { by eapply work_children_NoDup. }
  rewrite Hrun. simpl.
  destruct (automatic_modules_wraps _ _ _ _ Hw Hroot) as [Ham Hroot1].
  assert (HsR : shaped h R).
  { eapply shaped_subseteq; [|exact Hs]. intros x Hx. right.
    apply elem_of_app. by right. }
  apply IH; [done | done | | done | by eapply shaped_wraps].
  rewrite Ham. eapply descendants_of_each_agree; [exact ER|].
  intros x Hx. eapply wraps_agree; [exact Hw | |].
  - eapply descendants_of_each_lt; [done | | exact ER | done].
    intros c Hc. by eapply automatic_modules_lt.
  - intros Hin. eapply work_children_subseteq in Hin; [|done].
    by apply (Hdisj x).
Qed.

(** ** The descendants after the pass *)

Lemma descendants_reach n h : forall l D x,
  descendants n h l = Some D -> x ∈ D -> tc (child h) l x.
Proof.
  induction n as [|n IH]; intros l D x HD Hx; [done|].
  rewrite descendants_S in HD.
  destruct (descendants_of_each_elem n h _ D x HD Hx)
    as (c & Hc & [->|(Dc & HDc & Hxc)]).
  - by apply tc_once.
  - eapply tc_l; [exact Hc|]. by eapply IH.
Qed.

Lemma reach_descendants n h l D x :
  descendants n h l = Some D -> tc (child h) l x -> x ∈ D.
Proof.
  intros HD Htc.
  assert (Hfirst : forall y, y ∈ children h l -> y ∈ D).
  { intros y Hy. rewrite (descendants_children n h l D HD) at 1.
    apply elem_of_app. by left. }
  assert (Hnext : forall c y, c ∈ D -> y ∈ children h c -> y ∈ D).
  { intros c y. by eapply descendants_closed. }
  clear HD. revert Hfirst.
  induction Htc as [a b Hab | a b c Hab Hbc IHtc]; intros Hfirst.
  - by apply Hfirst.
  - apply IHtc. intros y Hy. eapply Hnext; [|exact Hy]. by apply Hfirst.
Qed.

Lemma descendants_of_each_is_Some n h cs :
  (forall c, c ∈ cs -> is_Some (descendants n h c)) ->
  is_Some (descendants_of_each n h cs).
Proof.
  induction cs as [|c cs IH]; intros Hall; [by eexists|].
  rewrite descendants_of_each_cons.
  destruct (Hall c ltac:(left)) as [D0 ->].
  destruct IH as [D1 ->]; [|by eexists]. intros; apply Hall; by right.
Qed.

Section After.
Variables (W : list loc) (h h' : heap).
Hypothesis Hw : wraps W h h'.
Hypothesis Hclosed : closed_heap h.

Lemma wraps_reach a z :
  tc (child h') a z -> z < length h ->
  (a < length h -> tc (child h) a z) /\
  (length h <= a ->
   forall b, (forall w, w ∈ children h' a -> w ∈ children h b) ->
             tc (child h) b z).
Proof using Hw Hclosed.
  induction 1 as [x z Hxz | x y z Hxy Hyz IH]; intros Hz.
  - split.
    + intros Hx. destruct (wraps_children W h h' Hw x z Hx Hxz) as [?|[? _]];
        [by apply tc_once | lia].
    + intros Hx b Hb. apply tc_once. by apply Hb.
  - destruct (IH Hz) as [IH1 IH2]. split.
    + intros Hx. destruct (wraps_children W h h' Hw x y Hx Hxy) as [Hold|[Hnew Hsub]].
      * eapply tc_l; [exact Hold|]. apply IH1. by eapply Hclosed.
      * by apply IH2.
    + intros Hx b Hb. eapply tc_l; [apply Hb, Hxy|]. apply IH1.
      eapply Hclosed. apply Hb, Hxy.
Qed.

(** A descendant after the pass that was in the store before it was a
    descendant then. *)
Lemma wraps_descendants_before n n' l D D' c :
  descendants n h l = Some D -> descendants n' h' l = Some D' ->
  l < length h -> c ∈ D' -> c < length h -> c ∈ D.
Proof using Hw Hclosed.
  intros HD HD' Hl Hc Hlt. eapply reach_descendants; [exact HD|].
  destruct (wraps_reach l c (descendants_reach _ _ _ _ _ HD' Hc) Hlt) as [Hold _].
  by apply Hold.
Qed.

(** The wrappers make the model at most twice as deep. *)
Lemma wraps_descendants n : forall l D,
  descendants n h l = Some D -> l < length h ->
  is_Some (descendants (2 * n) h' l).
Proof using Hw Hclosed.
  induction n as [|n IH]; intros l D HD Hl; [done|].
  replace (2 * S n) with (S (S (2 * n))) by lia.
  rewrite descendants_S in HD. rewrite descendants_S.
  apply descendants_of_each_is_Some. intros x Hx.
  assert (Hold : forall y, y ∈ children h l -> is_Some (descendants (2 * n) h' y)).
  { intros y Hy.
    destruct (descendants_of_each_inv n h _ D HD y Hy) as (Dy & HDy & _).
    eapply IH; [exact HDy|]. by eapply Hclosed. }
  destruct (wraps_children W h h' Hw l x Hl Hx) as [Hx'|[Hnew Hsub]].
  - destruct (Hold x Hx') as [D' HD']. exists D'. by apply descendants_more_fuel.
  - rewrite descendants_S. apply descendants_of_each_is_Some.
    intros y Hy. by apply Hold, Hsub.
Qed.

End After.

(** ** build_semantic_model and AUTOMATIC TAGS *)

Lemma closed_heap_check h :
  Forall (fun o => Forall (fun x => x < length h) (children_of o)) h ->
  closed_heap h.
Proof.
  intros Hall l x Hx. unfold children in Hx.
  destruct (h !! l) as [o|] eqn:Ho; [|by apply elem_of_nil in Hx].
  apply list_elem_of_lookup_2 in Ho.
  rewrite Forall_forall in Hall. specialize (Hall o Ho).
  rewrite Forall_forall in Hall. by apply Hall.
Qed.

Lemma shaped_check h ds :
  Forall (fun c => constructed h c = true -> exists cs, is_constructed_type h c cs) ds ->
  shaped h ds.
Proof. intros Hall c Hc. rewrite Forall_forall in Hall. by apply Hall. Qed.

(** C1, amended.  Take the store as the factory leaves it: no reference
    dangles, every node of the root has a [tag_default], [descendants]
    returns on each module with AUTOMATIC TAGS, no node is met twice on the
    way through those modules, and the constructed types met are as their
    constructor leaves them.  Then [build_semantic_model] returns, and on
    each module with AUTOMATIC TAGS [descendants] returns again, and each
    ConstructedType among the descendants either had a TaggedType for the
    [type_decl] of a component before the pass, or each of its components
    that has a [type_decl] now has there a new TaggedType around the old
    [type_decl], with [class_name] and [implicitness] None and for
    [class_number] the string of the place of the component among the
    components that have a [type_decl], from zero: an extension marker
    is not counted. *)
Theorem build_semantic_model_auto_tags (fuel : nat) (parse_result : list token)
  (st st1 : state) (root : list val) (N : list loc) :
  create_all fuel parse_result st = Ok (root, st1) ->
  closed_heap (st_heap st1) ->
  Forall (has_tag_default (st_heap st1)) root ->
  descendants_of_each fuel (st_heap st1) (automatic_modules (st_heap st1) root)
  = Some N ->
  NoDup N ->
  shaped (st_heap st1) N ->
  exists h',
    build_semantic_model fuel parse_result st
    = Ok (root, State h' (unnamed_counter st1)) /\
    forall m, m ∈ automatic_modules h' root ->
      is_Some (descendants (2 * fuel) h' m) /\
      forall n D c,
        descendants n h' m = Some D -> c ∈ D -> constructed h' c = true ->
        had_tagged_component (st_heap st1) c \/
        tagged_by_ordinal (st_heap st1) h' c.
Proof.
  intros Hcreate Hclosed Hroot HN Hnd Hs.
  set (h := st_heap st1) in *.
  pose proof (descendants_of_each_children _ _ _ _ HN) as Hperm.
  destruct (auto_tag_all_spec N h Hclosed Hs) as (h' & Hrun & _ & Hw & Hres).
  { by eapply work_children_NoDup. }
  exists h'. split.
  { unfold build_semantic_model, bind. rewrite Hcreate. fold h.
    by rewrite (auto_tag_modules_eq fuel root h N), Hrun. }
  destruct (automatic_modules_wraps _ _ _ _ Hw Hroot) as [-> _].
  intros m Hm.
  destruct (descendants_of_each_inv _ _ _ _ HN m Hm) as (D0 & HD0 & HmN & Hsub).
  pose proof (automatic_modules_lt _ _ _ Hroot Hm) as Hlt.
  split; [by eapply wraps_descendants|].
  intros n D c HD Hc Hcon. apply Hres.
  - apply Hsub. rewrite (wraps_constructed _ _ _ Hw) in Hcon.
    eapply (wraps_descendants_before _ h h'); [done.. |].
    unfold constructed in Hcon. simpl in Hcon.
    destruct (h !! c) eqn:E; [by eapply lookup_lt_Some | done].
  - by rewrite <- (wraps_constructed _ _ _ Hw).
Qed.

(** The extensible SEQUENCE of the examples. *)

Lemma extensible_created :
  create_all 10 extensible_tokens (State [] 0)
  = Ok ([VRef 9], State extensible_heap 0).
Proof. vm_compute. reflexivity. Qed.

Lemma extensible_closed : closed_heap extensible_heap.
Proof. apply closed_heap_check. repeat constructor. Qed.

Lemma extensible_has_tag_default :
  Forall (has_tag_default extensible_heap) [VRef 9].
Proof. repeat constructor. by eexists. Qed.

Lemma extensible_descendants :
  descendants_of_each 10 extensible_heap
    (automatic_modules extensible_heap [VRef 9])
  = Some [9; 8; 7; 2; 0; 3; 6; 4].
Proof. vm_compute. reflexivity. Qed.

Lemma extensible_shaped : shaped extensible_heap [9; 8; 7; 2; 0; 3; 6; 4].
Proof.
  apply shaped_check.
  repeat constructor; try (intros Hcon; by vm_compute in Hcon).
  intros _. exists [VRef 2; VRef 3; VRef 6], SequenceType, (PStr "SEQUENCE"). done.
Qed.

Lemma extensible_NoDup : NoDup [9; 8; 7; 2; 0; 3; 6; 4].
Proof. by apply (bool_decide_unpack _). Qed.

(** C1 as it is stated, with the index among all the components for the
    tag number, does not hold: in [SEQUENCE { a INTEGER, ..., b BOOLEAN }]
    the component [b] is at index 2 and gets the tag 1. *)
Lemma build_semantic_model_tag_by_index_counterexample :
  ~ (forall (fuel : nat) (parse_result : list token) (st st1 : state)
            (root : list val) (N : list loc),
       create_all fuel parse_result st = Ok (root, st1) ->
       closed_heap (st_heap st1) ->
       Forall (has_tag_default (st_heap st1)) root ->
       descendants_of_each fuel (st_heap st1)
         (automatic_modules (st_heap st1) root) = Some N ->
       NoDup N ->
       shaped (st_heap st1) N ->
       exists h',
         build_semantic_model fuel parse_result st
         = Ok (root, State h' (unnamed_counter st1)) /\
         forall m, m ∈ automatic_modules h' root ->
           forall n D c,
             descendants n h' m = Some D -> c ∈ D -> constructed h' c = true ->
             had_tagged_component (st_heap st1) c \/
             tagged_by_index (st_heap st1) h' c).
Proof.
  intros Hclaim.
  destruct (Hclaim 10 extensible_tokens (State [] 0) (State extensible_heap 0)
              [VRef 9] _ extensible_created extensible_closed
              extensible_has_tag_default extensible_descendants
              extensible_NoDup extensible_shaped) as (h' & Hrun & Htag).
  assert (Hbuilt : exists h1,
             build_semantic_model 10 extensible_tokens (State [] 0)
             = Ok ([VRef 9], State h1 0) /\
             9 ∈ automatic_modules h1 [VRef 9] /\
             (exists D, descendants 10 h1 9 = Some D /\ 7 ∈ D) /\
             constructed h1 7 = true /\
             getattr h1 (VRef 6) "type_decl" = Ok (VRef 11) /\
             h1 !! 11 = Some (auto_tagged 1 (VRef 4))).
  { eexists. split; [vm_compute; reflexivity|].
    split; [vm_compute; by left|]. split; [|by vm_compute].
    eexists. split; [vm_compute; reflexivity|].
    by apply (bool_decide_unpack _). }
  destruct Hbuilt as (h1 & Hrun1 & Hm & (D & HD & Hc) & Hcon & Hb & Ht).
  rewrite Hrun1 in Hrun. inversion Hrun; subst h'.
  destruct (Htag 9 Hm 10 D 7 HD Hc Hcon) as [Hhad|Hidx].
  - by vm_compute in Hhad.
  - destruct (Hidx 2 6 eq_refl eq_refl) as (e & t & He & Ht' & Hobj).
    vm_compute in He. inversion He; subst e.
    rewrite Hb in Ht'. inversion Ht'; subst t.
    rewrite Ht in Hobj. by vm_compute in Hobj.
Qed.

Lemma build_semantic_model_auto_tags_witness :
  exists h',
    build_semantic_model 10 extensible_tokens (State [] 0)
    = Ok ([VRef 9], State h' 0) /\
    forall m, m ∈ automatic_modules h' [VRef 9] ->
      is_Some (descendants 20 h' m) /\
      forall n D c,
        descendants n h' m = Some D -> c ∈ D -> constructed h' c = true ->
        had_tagged_component extensible_heap c \/
        tagged_by_ordinal extensible_heap h' c.
Proof.
  apply (build_semantic_model_auto_tags 10 extensible_tokens (State [] 0)
           (State extensible_heap 0) [VRef 9] [9; 8; 7; 2; 0; 3; 6; 4]).
  - vm_compute. reflexivity.
  - apply closed_heap_check. repeat constructor.
  - repeat constructor. by eexists.
  - vm_compute. reflexivity.
  - by apply (bool_decide_unpack _).
  - apply shaped_check.
    repeat constructor; try (intros Hcon; by vm_compute in Hcon).
    intros _. exists [VRef 2; VRef 3; VRef 6], SequenceType, (PStr "SEQUENCE"). done.
Defined.
(** * The model the factory builds *)

Lemma doe_fuel_le n m h cs N :
  n <= m -> descendants_of_each n h cs = Some N ->
  descendants_of_each m h cs = Some N.
Proof.
  intros Hle. revert N. induction cs as [|c cs IH]; intros N HN; [done|].
  rewrite descendants_of_each_cons in *.
  destruct (descendants n h c) as [D0|] eqn:E0; [|done].
  destruct (descendants_of_each n h cs) as [D1|] eqn:E1; [|done].
  by rewrite (descendants_fuel_le n m h c D0 Hle E0), (IH D1 eq_refl).
Qed.

Lemma doe_app n h cs1 cs2 :
  descendants_of_each n h (cs1 ++ cs2)
  = match descendants_of_each n h cs1, descendants_of_each n h cs2 with
    | Some N1, Some N2 => Some (N1 ++ N2)
    | _, _ => None
    end.
Proof.
  induction cs1 as [|c cs1 IH].
  { simpl. by destruct (descendants_of_each n h cs2). }
  rewrite <- app_comm_cons, !descendants_of_each_cons, IH.
  destruct (descendants n h c) as [D0|]; [|done].
  destruct (descendants_of_each n h cs1) as [N1|]; [|done].
  destruct (descendants_of_each n h cs2) as [N2|]; [|done].
  simpl. by rewrite app_assoc.
Qed.

(** [descendants] only looks at the children of the node and of its
    descendants. *)
Lemma descendants_children_agree n h h' : forall l D,
  descendants n h l = Some D ->
  (forall x, x = l \/ x ∈ D -> children h' x = children h x) ->
  descendants n h' l = Some D.
Proof.
  induction n as [|n IH]; intros l D HD Hagree; [done|].
  rewrite descendants_S in *.
  rewrite (Hagree l) by by left.
  assert (Hsub : forall x, x ∈ D -> children h' x = children h x)
    by (intros; apply Hagree; by right).
  clear Hagree. revert D HD Hsub.
  generalize (children h l). intros cs.
  induction cs as [|c cs IHcs]; intros D HD Hsub; [done|].
  rewrite descendants_of_each_cons in *.
  destruct (descendants n h c) as [D0|] eqn:E0; [|done].
  destruct (descendants_of_each n h cs) as [D1|] eqn:E1; [|done].
  inversion HD; subst D.
  rewrite (IH c D0 E0), (IHcs D1 eq_refl); [done| |].
  - intros x Hx. apply Hsub. right. apply elem_of_app. by right.
  - intros x [->|Hx]; apply Hsub; [by left|]. right. apply elem_of_app. by left.
Qed.

Lemma doe_children_agree n h h' cs : forall N,
  descendants_of_each n h cs = Some N ->
  (forall x, x ∈ N -> children h' x = children h x) ->
  descendants_of_each n h' cs = Some N.
Proof.
  induction cs as [|c cs IH]; intros N HN Hsub; [done|].
  rewrite descendants_of_each_cons in *.
  destruct (descendants n h c) as [D0|] eqn:E0; [|done].
  destruct (descendants_of_each n h cs) as [D1|] eqn:E1; [|done].
  inversion HN; subst N.
  rewrite (descendants_children_agree n h h' c D0 E0), (IH D1 eq_refl); [done| |].
  - intros x Hx. apply Hsub. right. apply elem_of_app. by right.
  - intros x [->|Hx]; apply Hsub; [by left|]. right. apply elem_of_app. by left.
Qed.

Lemma doe_submseteq n h F' F :
  F' ⊆+ F -> forall N, descendants_of_each n h F = Some N ->
  exists N', descendants_of_each n h F' = Some N' /\ N' ⊆+ N.
Proof.
  induction 1 as [|x l1 l2 _ IH|x y l|x l1 l2 _ IH|l1 l2 l3 _ IH1 _ IH2]; intros N HN.
  - by exists N.
  - rewrite descendants_of_each_cons in *.
    destruct (descendants n h x) as [D0|] eqn:E0; [|done].
    destruct (descendants_of_each n h l2) as [N2|] eqn:E2; [|done].
    inversion HN; subst N. destruct (IH N2 eq_refl) as (N1 & -> & Hsub).
    eexists. split; [done|]. apply submseteq_skip. by apply submseteq_skips_l.
  - rewrite !descendants_of_each_cons in *.
    destruct (descendants n h x) as [Dx|] eqn:Ex; [|done].
    destruct (descendants n h y) as [Dy|] eqn:Ey; [|done].
    destruct (descendants_of_each n h l) as [Nl|] eqn:El; [|done].
    inversion HN; subst N. eexists. split; [done|].
    apply Permutation_submseteq.
    change (y :: Dy ++ x :: Dx ++ Nl) with ((y :: Dy) ++ (x :: Dx) ++ Nl).
    change (x :: Dx ++ y :: Dy ++ Nl) with ((x :: Dx) ++ (y :: Dy) ++ Nl).
    apply Permutation_app_swap_app.
  - rewrite descendants_of_each_cons in HN.
    destruct (descendants n h x) as [D0|] eqn:E0; [|done].
    destruct (descendants_of_each n h l2) as [N2|] eqn:E2; [|done].
    inversion HN; subst N. destruct (IH N2 eq_refl) as (N1 & -> & Hsub).
    eexists. split; [done|]. apply submseteq_cons. by apply submseteq_inserts_l.
  - destruct (IH2 N HN) as (N2 & HN2 & Hsub2).
    destruct (IH1 N2 HN2) as (N1 & HN1 & Hsub1).
    exists N1. split; [done|]. by etrans.
Qed.

Lemma submseteq_NoDup' {X} (l k : list X) : l ⊆+ k -> NoDup k -> NoDup l.
Proof.
  intros [k' Hk]%submseteq_Permutation Hnd. rewrite Hk in Hnd.
  by apply NoDup_app in Hnd as (? & _).
Qed.

(** *** Forests *)

Lemma forest_nil h lo hi : forest h lo hi [].
Proof.
  exists 0, []. split; [done|]. split; [constructor|]. by intros x ?%elem_of_nil.
Qed.

Lemma forest_submseteq h lo hi F F' : F' ⊆+ F -> forest h lo hi F -> forest h lo hi F'.
Proof.
  intros Hsub (n & N & HN & Hnd & Hreg).
  destruct (doe_submseteq n h F' F Hsub N HN) as (N' & HN' & HsubN).
  exists n, N'. split; [done|]. split; [by eapply submseteq_NoDup'|].
  intros x Hx. apply Hreg. by eapply elem_of_submseteq.
Qed.

Lemma forest_mono h lo hi lo' hi' F :
  lo' <= lo -> hi <= hi' -> forest h lo hi F -> forest h lo' hi' F.
Proof.
  intros ? ? (n & N & HN & Hnd & Hreg). exists n, N. split; [done|]. split; [done|].
  intros x Hx. specialize (Hreg x Hx). lia.
Qed.

Lemma forest_app h lo mid hi F G :
  forest h lo mid F -> forest h mid hi G -> lo <= mid -> mid <= hi ->
  forest h lo hi (G ++ F).
Proof.
  intros (n1 & N1 & HN1 & Hnd1 & Hreg1) (n2 & N2 & HN2 & Hnd2 & Hreg2) ? ?.
  exists (n1 `max` n2), (N2 ++ N1). split; [|split].
  - rewrite doe_app.
    rewrite (doe_fuel_le n2 _ h G N2) by (done || lia).
    by rewrite (doe_fuel_le n1 _ h F N1) by (done || lia).
  - apply NoDup_app. split; [done|]. split; [|done].
    intros x Hx2 Hx1. specialize (Hreg1 x Hx1). specialize (Hreg2 x Hx2). lia.
  - intros x [Hx|Hx]%elem_of_app.
    + specialize (Hreg2 x Hx). lia.
    + specialize (Hreg1 x Hx). lia.
Qed.

Lemma stable_refl h : stable h h.
Proof. split; [done|]. intros l o Ho. exists o. done. Qed.

Lemma stable_trans h1 h2 h3 : stable h1 h2 -> stable h2 h3 -> stable h1 h3.
Proof.
  intros [Hlen1 H1] [Hlen2 H2]. split; [lia|]. intros l o Ho.
  destruct (H1 l o Ho) as (o1 & Ho1 & Hcls1 & Hch1 & Hcon1).
  destruct (H2 l o1 Ho1) as (o2 & Ho2 & Hcls2 & Hch2 & Hcon2).
  exists o2. split; [done|]. split; [congruence|]. split; [congruence|].
  intros Hc. rewrite Hcon2 by by rewrite Hcls1. by apply Hcon1.
Qed.

Lemma stable_children h h' l : stable h h' -> l < length h -> children h' l = children h l.
Proof.
  intros [_ Hst] Hl. destruct (lookup_lt_is_Some_2 h l Hl) as [o Ho].
  destruct (Hst l o Ho) as (o' & Ho' & _ & Hch & _).
  unfold children. by rewrite Ho, Ho'.
Qed.

Lemma forest_stable h h' lo hi F :
  stable h h' -> hi <= length h -> forest h lo hi F -> forest h' lo hi F.
Proof.
  intros Hst Hhi (n & N & HN & Hnd & Hreg). exists n, N.
  split; [|done]. eapply doe_children_agree; [exact HN|].
  intros x Hx. apply stable_children; [done|]. specialize (Hreg x Hx). lia.
Qed.

Lemma forest_children h lo hi l : forest h lo hi [l] -> forest h lo hi (children h l).
Proof.
  intros (n & N & HN & Hnd & Hreg).
  rewrite descendants_of_each_cons in HN.
  destruct (descendants n h l) as [D|] eqn:ED; [|done].
  simpl in HN. inversion HN; subst N. rewrite app_nil_r in *.
  destruct n as [|n]; [done|]. rewrite descendants_S in ED.
  exists n, D. split; [done|]. apply NoDup_cons in Hnd as [_ Hnd]. split; [done|].
  intros x Hx. apply Hreg. by right.
Qed.

Lemma forest_node h lo hi l :
  forest h lo hi (children h l) -> lo <= l -> hi <= l -> forest h lo (S l) [l].
Proof.
  intros (n & N & HN & Hnd & Hreg) Hlo Hl.
  exists (S n), (l :: N). split; [|split].
  - rewrite descendants_of_each_cons, descendants_S, HN. simpl. by rewrite app_nil_r.
  - apply NoDup_cons. split; [|done]. intros Hin. specialize (Hreg l Hin). lia.
  - intros x [->|Hx]%elem_of_cons; [lia|]. specialize (Hreg x Hx). lia.
Qed.

(** *** What has been built *)

Lemma node_refs_submseteq v : node_refs v ⊆+ refs v.
Proof. unfold refs. by apply submseteq_inserts_r. Qed.

Lemma refs_val_of_token t : refs (val_of_token t) = [].
Proof. by destruct t. Qed.

Lemma flat_map_node_refs_submseteq vs : flat_map node_refs vs ⊆+ flat_map refs vs.
Proof.
  induction vs as [|v vs IH]; [done|]. simpl.
  apply submseteq_app; [apply node_refs_submseteq | done].
Qed.

Lemma children_of_refs c a : children_of (Obj c a) ≡ₚ flat_map refs (map snd a).
Proof.
  unfold children_of. simpl. generalize (map snd a). intros vs.
  induction vs as [|v vs IH]; [done|]. simpl. unfold refs at 1.
  rewrite <- IH, <- !app_assoc. apply Permutation_app_head.
  apply Permutation_app_swap_app.
Qed.

Lemma owns_refl h : owns h h [].
Proof.
  split; [apply stable_refl|]. split; [done|]. split; [|apply forest_nil].
  intros l o Hl Ho. apply lookup_lt_Some in Ho. lia.
Qed.

Lemma owns_length h0 h F : owns h0 h F -> length h0 <= length h.
Proof. by intros ([? _] & _). Qed.

Lemma owns_step h0 h h' F G : owns h0 h F -> owns h h' G -> owns h0 h' (G ++ F).
Proof.
  intros (Hst1 & Hcl1 & Hsh1 & Hf1) (Hst2 & Hcl2 & Hsh2 & Hf2).
  pose proof Hst1 as [Hlen1 _]. pose proof Hst2 as [Hlen2 Hold2].
  split; [by eapply stable_trans|]. split; [by auto|]. split.
  - intros l o' Hl Ho'. destruct (decide (l < length h)) as [Hlt|Hge].
    + destruct (lookup_lt_is_Some_2 h l Hlt) as [o Ho].
      destruct (Hold2 l o Ho) as (o'' & Ho'' & Hcls & _ & Hcon).
      rewrite Ho' in Ho''. inversion Ho''; subst o''.
      intros Hc. rewrite Hcls in Hc. rewrite (Hcon Hc). by eapply Hsh1.
    + eapply Hsh2; [|exact Ho']. lia.
  - eapply forest_app; [|exact Hf2|done..].
    by eapply forest_stable.
Qed.

Lemma owns_submseteq h0 h F F' : F' ⊆+ F -> owns h0 h F -> owns h0 h F'.
Proof.
  intros Hsub (Hst & Hcl & Hsh & Hf). split; [done|]. split; [done|].
  split; [done|]. by eapply forest_submseteq.
Qed.

Lemma stable_alloc h o : stable h (h ++ [o]).
Proof.
  split; [rewrite length_app; lia|]. intros l o' Ho'. exists o'.
  split; [|done]. rewrite lookup_app_l; [done|]. by eapply lookup_lt_Some.
Qed.

Lemma forest_elem h lo hi F x : forest h lo hi F -> x ∈ F -> lo <= x < hi.
Proof.
  intros (n & N & HN & _ & Hreg) Hx. apply Hreg.
  rewrite (descendants_of_each_children n h F N HN). apply elem_of_app. by left.
Qed.

Lemma owns_new h0 h F c a :
  owns h0 h F -> flat_map refs (map snd a) ⊆+ F -> shape_ok (Obj c a) ->
  owns h0 (h ++ [Obj c a]) [length h].
Proof.
  intros (Hst & Hcl & Hsh & Hf) Hsub Hshape.
  pose proof Hst as [Hlen _].
  assert (Hch : children (h ++ [Obj c a]) (length h) = children_of (Obj c a)).
  { unfold children. by rewrite lookup_app_r, Nat.sub_diag by done. }
  assert (Hf' : forest h (length h0) (length h) (children_of (Obj c a))).
  { eapply forest_submseteq; [|exact Hf]. etrans; [|exact Hsub].
    apply Permutation_submseteq, children_of_refs. }
  split; [|split; [|split]].
  - eapply stable_trans; [exact Hst | apply stable_alloc].
  - intros Hc0 l x Hx. specialize (Hcl Hc0). rewrite length_app. simpl.
    destruct (decide (l < length h)) as [Hlt|Hge].
    + rewrite (stable_children h _ l (stable_alloc h _) Hlt) in Hx.
      specialize (Hcl l x Hx). lia.
    + destruct (decide (l = length h)) as [->|Hne].
      * rewrite Hch in Hx. pose proof (forest_elem _ _ _ _ x Hf' Hx). lia.
      * unfold children in Hx. rewrite lookup_ge_None_2 in Hx.
        -- by apply elem_of_nil in Hx.
        -- rewrite length_app. simpl. lia.
  - intros l o Hl Ho. destruct (decide (l < length h)) as [Hlt|Hge].
    + rewrite lookup_app_l in Ho by done. by eapply Hsh.
    + rewrite lookup_app_r in Ho by lia.
      destruct (l - length h) as [|k] eqn:E; simpl in Ho; [|done].
      by inversion Ho; subst o.
  - rewrite length_app. simpl. rewrite Nat.add_1_r.
    apply (forest_node _ _ (length h)); [|done|done]. rewrite Hch.
    eapply forest_stable; [apply stable_alloc | done | done].
Qed.

Lemma shape_ok_other c a : issubclass c ConstructedType = false -> shape_ok (Obj c a).
Proof. intros Hc Hcon. simpl in Hcon. congruence. Qed.

Lemma shape_ok_constructed c t cs : shape_ok (ConstructedType_init c (val_of_token t) cs).
Proof. intros _. by exists t, cs. Qed.

(** The trees under a node are still there when the node is dropped. *)
Lemma owns_children h0 h l F :
  owns h0 h (l :: F) -> owns h0 h (children h l ++ F).
Proof.
  intros (Hst & Hcl & Hsh & Hf). split; [done|]. split; [done|]. split; [done|].
  destruct Hf as (n & N & HN & Hnd & Hreg).
  rewrite descendants_of_each_cons in HN.
  destruct (descendants n h l) as [D|] eqn:ED; [|done].
  destruct (descendants_of_each n h F) as [NF|] eqn:EF; [|done].
  inversion HN; subst N. destruct n as [|n]; [done|].
  rewrite descendants_S in ED. apply (doe_fuel_le n (S n)) in ED; [|lia].
  exists (S n), (D ++ NF). split; [by rewrite doe_app, ED, EF|].
  apply NoDup_cons in Hnd as [_ Hnd]. split; [done|].
  intros x Hx. apply Hreg. by right.
Qed.

(** *** The steps of a constructor *)

Lemma lift_Ok {A} (r : res A) st a st' :
  lift r st = Ok (a, st') -> r = Ok a /\ st' = st.
Proof. unfold lift. destruct r; [|done]. by intros [= -> ->]. Qed.

Lemma ret_Ok {A} (a : A) st b st' : ret a st = Ok (b, st') -> b = a /\ st' = st.
Proof. by intros [= -> ->]. Qed.

Lemma attr_Ok v k st a st' :
  attr v k st = Ok (a, st') -> getattr (st_heap st) v k = Ok a /\ st' = st.
Proof. unfold attr. by intros ?%lift_Ok. Qed.

Lemma _get_next_unnamed_Ok st a st' :
  _get_next_unnamed st = Ok (a, st') -> st_heap st' = st_heap st.
Proof. unfold _get_next_unnamed. by intros [= _ <-]. Qed.

Lemma builds_new c a st v st' F h0 :
  new c a st = Ok (v, st') ->
  owns h0 (st_heap st) F -> flat_map refs (map snd a) ⊆+ F ->
  issubclass c ConstructedType = false ->
  owns h0 (st_heap st') (refs v).
Proof.
  intros [-> ->]%new_Ok Hown Hsub Hc.
  eapply owns_new; [done.. | by apply shape_ok_other].
Qed.

(** *** The constructors *)

Ltac exec_pure H :=
  let a := fresh "a" in
  let st1 := fresh "st" in
  let Hm := fresh "Hm" in
  apply bind_Ok in H as (a & st1 & Hm & H);
  first [ apply lift_Ok in Hm as [Hm ->]
        | apply ret_Ok in Hm as [-> ->]
        | apply attr_Ok in Hm as [Hm ->] ].

Ltac exec_build H Hown lem :=
  let a := fresh "v" in
  let st1 := fresh "st" in
  let Hm := fresh "Hm" in
  let Hown' := fresh "Hown" in
  apply bind_Ok in H as (a & st1 & Hm & H);
  apply lem in Hm;
  pose proof (owns_step _ _ _ _ _ Hown Hm) as Hown';
  clear Hown Hm; rename Hown' into Hown.

Ltac exec_new H Hown :=
  eapply builds_new;
  [ exact H | exact Hown
  | simpl; rewrite ?refs_val_of_token, ?app_nil_r; simpl; solve_submseteq
  | reflexivity ].

Ltac bad H := solve [ inversion H | cbv [raise] in H; discriminate ].

Section ConstructorsBuild.
Variable create : token -> M val.
Hypothesis Hcreate : forall t, builds refs (create t).

Lemma _maybe_create_sema_node_builds t :
  builds refs (_maybe_create_sema_node create t).
Proof using Hcreate.
  intros st v st' H. destruct t; try (apply ret_Ok in H as [-> ->]; simpl; apply owns_refl).
  by apply Hcreate in H.
Qed.

Lemma create_each_builds tokens :
  builds (flat_map node_refs) (create_each create tokens).
Proof using Hcreate.
  induction tokens as [|t tokens IH]; intros st vs st' H.
  { apply ret_Ok in H as [-> ->]. apply owns_refl. }
  pose proof (owns_refl (st_heap st)) as Hown. cbn [create_each] in H.
  exec_build H Hown (Hcreate t). exec_build H Hown IH.
  apply ret_Ok in H as [-> ->]. eapply owns_submseteq; [|exact Hown].
  simpl. unfold refs. solve_submseteq.
Qed.

Ltac run H Hown :=
  repeat first
    [ match type of H with
      | bind (lift _) _ _ = Ok _ => exec_pure H
      | bind (ret _) _ _ = Ok _ => exec_pure H
      | bind (attr _ _) _ _ = Ok _ => exec_pure H
      | bind (create ?t) _ _ = Ok _ => exec_build H Hown (Hcreate t)
      | bind (_maybe_create_sema_node _ ?t) _ _ = Ok _ =>
          exec_build H Hown (_maybe_create_sema_node_builds t)
      | bind (create_each _ ?ts) _ _ = Ok _ =>
          exec_build H Hown (create_each_builds ts)
      | (if ?b then _ else _) _ = Ok _ => destruct b eqn:?
      | (if ?b then _ else _) = Ok _ => destruct b eqn:?
      | Raise _ = Ok _ => discriminate H
      | raise _ _ = Ok _ => bad H
      | new _ _ _ = Ok _ => exec_new H Hown
      end ].

Ltac start H Hown :=
  let st := fresh "st" in
  let v := fresh "v" in
  let st' := fresh "st'" in
  intros st v st' H; pose proof (owns_refl (st_heap st)) as Hown.

Lemma leaf_init_builds c name elements :
  issubclass c ConstructedType = false ->
  builds refs (leaf_init c name elements).
Proof.
  intros Hc st v st' H. pose proof (owns_refl (st_heap st)) as Hown.
  unfold leaf_init in H. exec_pure H.
  eapply builds_new; [exact H | exact Hown | | exact Hc].
  simpl. by rewrite refs_val_of_token.
Qed.

Lemma NameAndNumberForm_init_builds elements :
  builds refs (NameAndNumberForm_init create elements).
Proof using Hcreate.
  intros st v st' H. pose proof (owns_refl (st_heap st)) as Hown.
  unfold NameAndNumberForm_init in H.
  exec_pure H. exec_build H Hown (Hcreate a). exec_pure H.
  exec_build H Hown (Hcreate a0). exec_new H Hown.
Qed.

Lemma TypeAssignment_init_builds elements :
  builds refs (TypeAssignment_init create elements).
Proof using Hcreate.
  intros st v st' H. pose proof (owns_refl (st_heap st)) as Hown.
  unfold TypeAssignment_init in H.
  repeat (destruct elements as [|? elements]; try bad H).
  exec_build H Hown (Hcreate t1). exec_new H Hown.
Qed.

Lemma GlobalModuleReference_init_builds module oid :
  builds refs (GlobalModuleReference_init create module oid).
Proof using Hcreate.
  start H Hown. unfold GlobalModuleReference_init in H. run H Hown.
Qed.

Lemma Imports_clauses_builds elements : forall imports,
  builds (fun _ => []) (Imports_clauses create elements imports).
Proof using Hcreate.
  induction elements as [|clause rest IH]; intros imports; start H Hown.
  { by apply ret_Ok in H as [-> ->]. }
  cbn [Imports_clauses] in H. run H Hown.
  exec_build H Hown (GlobalModuleReference_init_builds (snd (fst a)) (snd a)).
  run H Hown. apply IH in H.
  pose proof (owns_step _ _ _ _ _ Hown H) as Hown'.
  eapply owns_submseteq; [|exact Hown']. apply submseteq_nil_l.
Qed.

Lemma Imports_init_builds elements : builds refs (Imports_init create elements).
Proof using Hcreate.
  start H Hown. unfold Imports_init in H.
  exec_build H Hown (Imports_clauses_builds elements []). run H Hown.
Qed.

Lemma flat_map_node_refs_val_of_token ts :
  flat_map node_refs (map val_of_token ts) = [].
Proof. induction ts as [|t ts IH]; [done|]. simpl. rewrite IH. by destruct t. Qed.

Lemma Exports_init_builds elements : builds refs (Exports_init elements).
Proof.
  start H Hown. unfold Exports_init in H.
  eapply builds_new; [exact H | exact Hown | | done].
  simpl. unfold refs. simpl. by rewrite flat_map_node_refs_val_of_token.
Qed.

Lemma Module_init_builds elements : builds refs (Module_init create elements).
Proof using Hcreate.
  start H Hown. unfold Module_init in H.
  repeat (destruct elements as [|? elements]; try bad H).
  run H Hown.
  destruct a2 as [|? a2]; try bad H.
  repeat (destruct a2 as [|? a2]; try bad H).
  run H Hown.
Qed.

Lemma ValueAssignment_init_builds elements :
  builds refs (ValueAssignment_init create elements).
Proof using Hcreate.
  start H Hown. unfold ValueAssignment_init in H.
  repeat (destruct elements as [|? elements]; try bad H).
  run H Hown.
Qed.

Lemma alloc_builds (o : obj) st v st' F h0 :
  (let '(l, h) := alloc (st_heap st) o in
   Ok (VRef l, State h (unnamed_counter st))) = Ok (v, st') ->
  owns h0 (st_heap st) F -> flat_map refs (map snd (attrs o)) ⊆+ F ->
  shape_ok o ->
  owns h0 (st_heap st') (refs v).
Proof.
  simpl. intros [= <- <-] Hown Hsub Hshape. destruct o as [c a]. simpl.
  by eapply owns_new.
Qed.

Lemma ConstructedType_new_builds c elements :
  builds refs (ConstructedType_new create c elements).
Proof using Hcreate.
  start H Hown. unfold ConstructedType_new in H.
  repeat (destruct elements as [|? elements]; try bad H).
  run H Hown.
  eapply alloc_builds; [exact H | exact Hown | | apply shape_ok_constructed].
  simpl. rewrite refs_val_of_token. unfold refs. simpl. solve_submseteq.
Qed.

Lemma CollectionType_init_builds c kind elements :
  issubclass c ConstructedType = false ->
  builds refs (CollectionType_init create c kind elements).
Proof using Hcreate.
  intros Hc. start H Hown. unfold CollectionType_init in H. run H Hown.
  eapply builds_new; [exact H | exact Hown | | exact Hc].
  simpl. unfold refs. simpl. solve_submseteq.
Qed.

Lemma TaggedType_tag_refs es : forall cn cnum a b,
  TaggedType_tag es cn cnum = Ok (a, b) ->
  refs cn = [] -> refs cnum = [] -> refs a = [] /\ refs b = [].
Proof.
  induction es as [|e es IH]; intros cn cnum a b H Hcn Hcnum.
  { by inversion H; subst. }
  cbn [TaggedType_tag] in H.
  destruct (tok_ty e) as [ty|]; [|done]. simpl in H.
  destruct (tok_elements e) as [els|]; [|done]. simpl in H.
  destruct (bool_decide (ty = "TagClassNumber")).
  { destruct (index els 0) as [x|]; [|done]. simpl in H.
    eapply IH; [exact H | done | apply refs_val_of_token]. }
  destruct (bool_decide (ty = "TagClass")); [|done].
  destruct (index els 0) as [x|]; [|done]. simpl in H.
  eapply IH; [exact H | apply refs_val_of_token | done].
Qed.

Lemma TaggedType_init4_refs cn cnum impl td :
  flat_map refs (map snd (attrs (TaggedType_init4 cn cnum impl td)))
  ⊆+ refs cn ++ refs cnum ++ refs td.
Proof.
  unfold TaggedType_init4.
  destruct (py_eq impl (VStr "IMPLICIT")); [simpl; solve_submseteq|].
  destruct (py_eq impl (VStr "EXPLICIT")); [simpl; solve_submseteq|].
  destruct impl; simpl; solve_submseteq.
Qed.

Lemma TaggedType_init_builds elements :
  builds refs (TaggedType_init create elements).
Proof using Hcreate.
  start H Hown. unfold TaggedType_init in H.
  repeat (destruct elements as [|? elements]; try bad H).
  - run H Hown.
    destruct a0 as [cn cnum].
    apply TaggedType_tag_refs in Hm0 as [Hr1 Hr2]; [|done..]. simpl in H.
    eapply alloc_builds; [exact H | exact Hown | | by apply shape_ok_other].
    etrans; [apply TaggedType_init4_refs|]. rewrite Hr1, Hr2. solve_submseteq.
  - eapply alloc_builds; [exact H | exact Hown | | by apply shape_ok_other].
    etrans; [apply TaggedType_init4_refs|]. by rewrite !refs_val_of_token.
Qed.

Lemma SimpleType_init_builds elements :
  builds refs (SimpleType_init create elements).
Proof using Hcreate.
  start H Hown. unfold SimpleType_init in H. run H Hown.
  destruct elements as [|? elements]; [run H Hown|].
  destruct elements as [|? elements]; run H Hown.
Qed.

Lemma DefinedType_init_builds elements :
  builds refs (DefinedType_init create elements).
Proof using Hcreate.
  intros st0 v st' H. pose proof (owns_refl (st_heap st0)) as Hown.
  unfold DefinedType_init in H.
  repeat (destruct elements as [|? elements]; try bad H).
  apply bind_Ok in H as (module_name & st1 & Hm & H).
  assert (Hmod : refs module_name = [] /\ st1 = st0).
  { destruct (truthy t).
    - run Hm Hown. apply ret_Ok in Hm as [-> ->]. by rewrite refs_val_of_token.
    - by apply ret_Ok in Hm as [-> ->]. }
  destruct Hmod as [Hmod ->]. clear Hm.
  apply bind_Ok in H as (constraint & st1 & Hm & H).
  destruct (truthy t1).
  - apply Hcreate in Hm. pose proof (owns_step _ _ _ _ _ Hown Hm) as Hown'.
    eapply builds_new; [exact H | exact Hown' | | done].
    simpl. rewrite Hmod, refs_val_of_token. solve_submseteq.
  - apply ret_Ok in Hm as [-> ->].
    eapply builds_new; [exact H | exact Hown | | done].
    simpl. by rewrite Hmod, refs_val_of_token.
Qed.

Lemma SelectionType_init_builds elements :
  builds refs (SelectionType_init create elements).
Proof using Hcreate.
  start H Hown. unfold SelectionType_init in H. run H Hown.
Qed.

Lemma ReferencedValue_init_builds elements :
  builds refs (ReferencedValue_init elements).
Proof.
  start H Hown. unfold ReferencedValue_init in H.
  destruct elements as [|? elements]; [run H Hown|].
  destruct elements as [|? elements]; run H Hown.
Qed.

Lemma SingleValueConstraint_init_builds elements :
  builds refs (SingleValueConstraint_init create elements).
Proof using Hcreate.
  start H Hown. unfold SingleValueConstraint_init in H. run H Hown.
Qed.

Lemma ValueRangeConstraint_init_builds elements :
  builds refs (ValueRangeConstraint_init create elements).
Proof using Hcreate.
  start H Hown. unfold ValueRangeConstraint_init in H. run H Hown.
Qed.

Lemma SizeConstraint_init_builds elements :
  builds refs (SizeConstraint_init create elements).
Proof using Hcreate.
  start H Hown. unfold SizeConstraint_init in H. run H Hown.
Qed.

Lemma NamedType_init_builds elements :
  builds refs (NamedType_init create elements).
Proof using Hcreate.
  start H Hown. unfold NamedType_init in H. run H Hown.
  apply bind_Ok in H as (identifier & st1 & Hm1 & H).
  apply _get_next_unnamed_Ok in Hm1.
  assert (Hown1 : owns (st_heap st) (st_heap st1) []) by by rewrite Hm1.
  run H Hown1.
Qed.

(** The NamedType a ComponentType is cracked from has only these two
    attributes. *)
Lemma NamedType_init_attrs elements st v st' :
  NamedType_init create elements st = Ok (v, st') ->
  exists l identifier type_decl,
    v = VRef l /\
    st_heap st' !! l
    = Some (Obj NamedType [("identifier", identifier); ("type_decl", type_decl)]).
Proof.
  intros H. unfold NamedType_init in H.
  repeat first
    [ match type of H with
      | bind (lift _) _ _ = Ok _ => exec_pure H
      | bind _ _ _ = Ok _ => inv_bind H
      | (if ?b then _ else _) _ = Ok _ => destruct b eqn:?
      | raise _ _ = Ok _ => bad H
      end ];
    apply new_lookup in H as (l & -> & Hl); eauto.
Qed.

Lemma crack_named_type_builds token :
  builds (fun named => refs (fst named) ++ refs (snd named))
         (crack_named_type create token).
Proof using Hcreate.
  start H Hown. unfold crack_named_type in H.
  apply bind_Ok in H as (named_type & st1 & Hm & H).
  destruct (NamedType_init_attrs _ _ _ _ Hm) as (l & identifier & type_decl & -> & Hl).
  apply NamedType_init_builds in Hm.
  run H Hown. apply ret_Ok in H as [-> ->]. simpl.
  simpl in Hm0, Hm1. unfold vars in Hm0, Hm1. rewrite Hl in Hm0, Hm1.
  simpl in Hm0, Hm1. inversion Hm0; inversion Hm1; subst.
  apply owns_children in Hm. eapply owns_submseteq; [|exact Hm].
  unfold children. rewrite Hl. rewrite app_nil_r.
  etrans; [|apply Permutation_submseteq; symmetry; apply children_of_refs].
  simpl. by rewrite app_nil_r.
Qed.

Lemma ComponentType_init_builds elements :
  builds refs (ComponentType_init create elements).
Proof using Hcreate.
  start H Hown. unfold ComponentType_init, ComponentType_attrs in H. run H Hown.
  - exec_build H Hown (crack_named_type_builds a1). run H Hown.
  - exec_build H Hown (crack_named_type_builds a3). run H Hown.
  - exec_build H Hown (crack_named_type_builds a3). run H Hown.
Qed.

Lemma children_of_assoc_set_leaf c (a : list (string * val)) k v0 v :
  assoc k a = Some v0 -> refs v0 = [] -> refs v = [] ->
  children_of (Obj c (assoc_set k v a)) = children_of (Obj c a).
Proof.
  unfold refs. intros Hk [H0 H0']%app_eq_nil [H1 H1']%app_eq_nil.
  unfold children_of. simpl.
  assert (Hn : flat_map node_refs (map snd (assoc_set k v a))
               = flat_map node_refs (map snd a)
               /\ flat_map list_node_refs (map snd (assoc_set k v a))
                 = flat_map list_node_refs (map snd a)); [|by destruct Hn as [-> ->]].
  induction a as [|[k' v'] a IH]; [done|]. simpl in *.
  destruct (bool_decide (k' = k)) eqn:E.
  - inversion Hk; subst v'. simpl. by rewrite H0, H0', H1, H1'.
  - simpl. destruct (IH Hk) as [-> ->]. done.
Qed.

Lemma stable_setattr_leaf h l k v o v0 :
  h !! l = Some o -> assoc k (attrs o) = Some v0 -> refs v0 = [] -> refs v = [] ->
  issubclass (cls o) ConstructedType = false ->
  stable h (setattr h l k v).
Proof.
  intros Ho Hk H0 H1 Hc. split; [by rewrite length_setattr|].
  intros l' o' Ho'. destruct (decide (l' = l)) as [->|Hne].
  - rewrite Ho in Ho'. inversion Ho'; subst o'.
    rewrite (lookup_setattr_eq _ _ _ _ _ Ho). eexists. split; [done|].
    split; [done|]. split; [|simpl; congruence].
    destruct o as [c a]. by eapply children_of_assoc_set_leaf.
  - rewrite lookup_setattr_ne by done. exists o'. done.
Qed.

Lemma number_named_values_stable named_values : forall h previous h',
  number_named_values h previous named_values = Ok h' ->
  stable h h' /\ length h' = length h.
Proof.
  induction named_values as [|n rest IH]; intros h previous h' H.
  { inversion H; subst. split; [apply stable_refl | done]. }
  cbn [number_named_values] in H. apply res_bind_Ok in H as (h1 & Hstep & H).
  assert (Hst1 : stable h h1 /\ length h1 = length h).
  { destruct (isinstance h n NamedValue) eqn:Hinst;
      [|inversion Hstep; subst; split; [apply stable_refl | done]].
    apply res_bind_Ok in Hstep as (value & Hval & Hstep).
    destruct value; try (inversion Hstep; subst; split; [apply stable_refl | done]).
    destruct n as [| | | | l | | |];
      try (inversion Hstep; subst; split; [apply stable_refl | done]).
    simpl in Hinst, Hval. unfold vars in Hval.
    destruct (h !! l) as [o|] eqn:Ho; [|done].
    destruct (assoc "value" (attrs o)) as [v0|] eqn:Hv0; [|done].
    inversion Hval; subst v0.
    assert (Hc : issubclass (cls o) ConstructedType = false)
      by (destruct (cls o); done).
    destruct previous as [p|].
    - apply res_bind_Ok in Hstep as (pv & _ & Hstep).
      apply res_bind_Ok in Hstep as (z & _ & Hstep). inversion Hstep; subst h1.
      split; [by eapply stable_setattr_leaf | by rewrite length_setattr].
    - inversion Hstep; subst h1.
      split; [by eapply stable_setattr_leaf | by rewrite length_setattr]. }
  destruct Hst1 as [Hst1 Hlen1]. destruct (IH _ _ _ H) as [Hst2 Hlen2].
  split; [by eapply stable_trans | congruence].
Qed.

Lemma stable_owns h h' : stable h h' -> length h' = length h -> owns h h' [].
Proof.
  intros Hst Hlen. split; [done|]. split; [|split; [|apply forest_nil]].
  - intros Hc l x Hx. rewrite Hlen.
    destruct (decide (l < length h)) as [Hlt|Hge].
    + rewrite (stable_children _ _ _ Hst Hlt) in Hx. by eapply Hc.
    + unfold children in Hx. rewrite lookup_ge_None_2 in Hx by lia.
      by apply elem_of_nil in Hx.
  - intros l o Hl Ho. apply lookup_lt_Some in Ho. lia.
Qed.

Lemma ValueListType_init_builds elements :
  builds refs (ValueListType_init create elements).
Proof using Hcreate.
  start H Hown. unfold ValueListType_init in H. run H Hown.
  apply bind_Ok in H as ([] & st2 & Hm2 & H).
  destruct (number_named_values (st_heap st0) None v0) as [h2|] eqn:Hnum; [|done].
  inversion Hm2; subst st2. clear Hm2. simpl in H.
  apply number_named_values_stable in Hnum as [Hst Hlen].
  pose proof (owns_step _ _ _ _ _ Hown (stable_owns _ _ Hst Hlen)) as Hown'.
  simpl in Hown'. clear Hown.
  apply bind_Ok in H as (constraint & st3 & Hm3 & H).
  assert (Hown3 : owns (st_heap st) (st_heap st3)
                    (refs constraint ++ flat_map node_refs v0)).
  { destruct elements as [|? [|? [|e2 ?]]];
      try (apply ret_Ok in Hm3 as [-> ->]; simpl; by rewrite app_nil_r in Hown').
    apply _maybe_create_sema_node_builds in Hm3.
    pose proof (owns_step _ _ _ _ _ Hown' Hm3) as Hown3. simpl in Hown3.
    by rewrite app_nil_r in Hown3. }
  eapply builds_new; [exact H | exact Hown3 | | done].
  simpl. rewrite refs_val_of_token. unfold refs. simpl. solve_submseteq.
Qed.

Lemma BitStringType_init_builds elements :
  builds refs (BitStringType_init create elements).
Proof using Hcreate.
  start H Hown. unfold BitStringType_init in H. run H Hown.
Qed.

Lemma NamedValue_init_builds elements : builds refs (NamedValue_init elements).
Proof.
  start H Hown. unfold NamedValue_init in H.
  repeat (destruct elements as [|? elements]; try bad H); run H Hown.
Qed.

Lemma ObjectIdentifierValue_init_builds elements :
  builds refs (ObjectIdentifierValue_init create elements).
Proof using Hcreate.
  start H Hown. unfold ObjectIdentifierValue_init in H. run H Hown.
Qed.

Lemma dispatch_builds ty elements : builds refs (dispatch create ty elements).
Proof using Hcreate.
  unfold dispatch.
  repeat (case_bool_decide;
          [ first [ apply Module_init_builds | apply Exports_init_builds
                  | apply Imports_init_builds | apply TypeAssignment_init_builds
                  | apply ValueAssignment_init_builds
                  | apply ComponentType_init_builds | apply NamedType_init_builds
                  | apply ValueListType_init_builds | apply BitStringType_init_builds
                  | apply NamedValue_init_builds | apply SimpleType_init_builds
                  | apply DefinedType_init_builds | apply SelectionType_init_builds
                  | apply ReferencedValue_init_builds | apply TaggedType_init_builds
                  | apply ConstructedType_new_builds
                  | by apply CollectionType_init_builds
                  | apply SingleValueConstraint_init_builds
                  | apply SizeConstraint_init_builds
                  | apply ValueRangeConstraint_init_builds
                  | apply ObjectIdentifierValue_init_builds
                  | by apply leaf_init_builds
                  | apply NameAndNumberForm_init_builds
                  | idtac ] |]).
  - intros st v st' Hrun. pose proof (owns_refl (st_heap st)) as Hown.
    run Hrun Hown. by apply Hcreate in Hrun.
  - intros st v st' Hrun. pose proof (owns_refl (st_heap st)) as Hown.
    run Hrun Hown.
  - intros st v st' Hrun. bad Hrun.
Qed.

End ConstructorsBuild.

(** *** The factory *)

Lemma _create_sema_node_builds fuel : forall token,
  builds refs (_create_sema_node fuel token).
Proof.
  induction fuel as [|fuel IH]; intros token st v st' H; [bad H|].
  cbn [_create_sema_node] in H. destruct token; try bad H.
  by eapply dispatch_builds.
Qed.

Lemma create_all_builds fuel parse_result :
  builds (flat_map node_refs) (create_all fuel parse_result).
Proof.
  induction parse_result as [|t rest IH]; intros st vs st' H.
  { apply ret_Ok in H as [-> ->]. apply owns_refl. }
  pose proof (owns_refl (st_heap st)) as Hown. cbn [create_all] in H.
  exec_pure H. exec_build H Hown (_create_sema_node_builds fuel t).
  exec_build H Hown IH.
  apply ret_Ok in H as [-> ->]. eapply owns_submseteq; [|exact Hown].
  simpl. unfold refs. solve_submseteq.
Qed.

(** Every constructor ends by putting its object in the store. *)

Ltac to_new H :=
  repeat first
    [ match type of H with
      | bind _ _ _ = Ok _ =>
          let Hm := fresh "Hm" in apply bind_Ok in H as (? & ? & Hm & H)
      | (if ?b then _ else _) _ = Ok _ => destruct b
      | (if ?b then _ else _) = Ok _ => destruct b
      | Raise _ = Ok _ => discriminate H
      | raise _ _ = Ok _ => bad H
      | new _ _ _ = Ok _ => apply new_Ok in H as [-> _]; by eexists
      | context [match ?l with [] => _ | _ :: _ => _ end] => destruct l
      end ].

Lemma alloc_is_node (o : obj) st v st' :
  (let '(l, h) := alloc (st_heap st) o in
   Ok (VRef l, State h (unnamed_counter st))) = Ok (v, st') ->
  is_node v.
Proof. simpl. intros [= <- _]. by eexists. Qed.

Lemma dispatch_is_node create ty elements st v st' :
  (forall t st v st', create t st = Ok (v, st') -> is_node v) ->
  dispatch create ty elements st = Ok (v, st') -> is_node v.
Proof.
  intros Hcreate H. unfold dispatch in H.
  repeat (case_bool_decide;
          [ cbv beta delta [Module_init Exports_init Imports_init
                            TypeAssignment_init ValueAssignment_init
                            ComponentType_init NamedType_init ValueListType_init
                            BitStringType_init NamedValue_init SimpleType_init
                            DefinedType_init SelectionType_init
                            ReferencedValue_init TaggedType_init
                            ConstructedType_new CollectionType_init
                            SingleValueConstraint_init SizeConstraint_init
                            ValueRangeConstraint_init ObjectIdentifierValue_init
                            leaf_init NameAndNumberForm_init] in H;
            to_new H; try (by eapply alloc_is_node); try (by eapply Hcreate) |]).
  bad H.
Qed.

Lemma _create_sema_node_is_node fuel : forall token st v st',
  _create_sema_node fuel token st = Ok (v, st') -> is_node v.
Proof.
  induction fuel as [|fuel IH]; intros token st v st' H; [bad H|].
  cbn [_create_sema_node] in H. destruct token; try bad H.
  by eapply dispatch_is_node.
Qed.

(** *** What the factory returns *)

Lemma forest_single h lo hi l :
  forest h lo hi [l] ->
  exists n D, descendants n h l = Some D /\ NoDup (l :: D) /\
              forall x, x ∈ l :: D -> lo <= x < hi.
Proof.
  intros (n & N & HN & Hnd & Hreg). rewrite descendants_of_each_cons in HN.
  destruct (descendants n h l) as [D|] eqn:ED; [|done].
  simpl in HN. inversion HN; subst N. rewrite app_nil_r in *. by exists n, D.
Qed.

(** The node [_create_sema_node] returns is the root of a tree of nodes
    that were all made by the call: [descendants] returns on it, with no
    node twice; what was in the store before has its class and its
    children as before, and no reference dangles if none did. *)
Theorem _create_sema_node_tree (fuel : nat) (token : token) (st st' : state)
  (v : val) :
  _create_sema_node fuel token st = Ok (v, st') ->
  exists l n D,
    v = VRef l /\
    descendants n (st_heap st') l = Some D /\
    NoDup (l :: D) /\
    (forall x, x ∈ l :: D -> length (st_heap st) <= x < length (st_heap st')) /\
    stable (st_heap st) (st_heap st') /\
    (closed_heap (st_heap st) -> closed_heap (st_heap st')).
Proof.
  intros H. destruct (_create_sema_node_is_node _ _ _ _ _ H) as [l ->].
  apply _create_sema_node_builds in H as (Hst & Hcl & _ & Hf).
  change (refs (VRef l)) with [l] in Hf.
  destruct (forest_single _ _ _ _ Hf) as (n & D & HD & Hnd & Hreg).
  by exists l, n, D.
Qed.

Lemma _create_sema_node_tree_witness :
  exists l n D,
    descendants n extensible_heap l = Some D /\ NoDup (l :: D) /\
    (forall x, x ∈ l :: D -> 0 <= x < 10) /\
    closed_heap extensible_heap.
Proof.
  destruct (_create_sema_node_tree 10 (hd PNone extensible_tokens) (State [] 0)
              (State extensible_heap 0) (VRef 9))
    as (l & n & D & _ & HD & Hnd & Hreg & _ & Hcl).
  { vm_compute. reflexivity. }
  exists l, n, D. split; [done|]. split; [done|]. split; [done|].
  apply Hcl. by intros l' x ?%elem_of_nil.
Defined.
(** ** build_semantic_model, from the tokens to the tags *)

Lemma automatic_modules_sublist h root :
  automatic_modules h root `sublist_of` flat_map node_refs root.
Proof.
  induction root as [|v root IH]; [done|].
  destruct v as [| | | | m | | |]; cbn [automatic_modules flat_map node_refs app];
    try done.
  destruct (getattr h (VRef m) "tag_default") as [d|];
    [|by apply sublist_cons].
  destruct (py_eq d (VInt TagImplicitness.AUTOMATIC));
    [by apply sublist_skip | by apply sublist_cons].
Qed.

Lemma automatic_modules_elem_lt h root m :
  m ∈ automatic_modules h root -> m < length h.
Proof.
  induction root as [|v root IH]; [by intros ?%elem_of_nil|].
  destruct v as [| | | | m0 | | |]; cbn [automatic_modules]; try done.
  destruct (getattr h (VRef m0) "tag_default") as [d|] eqn:Hd; [|done].
  destruct (py_eq d (VInt TagImplicitness.AUTOMATIC)); [|done].
  intros [->|Hm]%elem_of_cons; [by eapply getattr_lt | by apply IH].
Qed.

Lemma getattr_tag_default_wraps W h h1 v :
  wraps W h h1 ->
  match getattr h v "tag_default", getattr h1 v "tag_default" with
  | Ok d, Ok d1 => d = d1
  | Raise _, Raise _ => True
  | _, _ => False
  end.
Proof.
  intros Hw. destruct v as [| | | | m | | |]; try done.
  destruct (decide (m < length h)) as [Hlt|Hge].
  - rewrite (getattr_wraps W h h1 m "tag_default" Hw) by done.
    by destruct (getattr h (VRef m) "tag_default").
  - simpl. unfold vars. rewrite (lookup_ge_None_2 h m) by lia. simpl.
    destruct (h1 !! m) as [o|] eqn:Ho; [|done].
    destruct (wraps_new W h h1 Hw m) as (i & e & Hm); [lia | by eapply lookup_lt_Some|].
    rewrite Ho in Hm. by inversion Hm.
Qed.

Lemma automatic_modules_wraps_any W h h1 root :
  wraps W h h1 -> automatic_modules h1 root = automatic_modules h root.
Proof.
  intros Hw. induction root as [|v root IH]; [done|].
  destruct v as [| | | | m | | |]; cbn [automatic_modules]; try done.
  pose proof (getattr_tag_default_wraps W h h1 (VRef m) Hw) as Hd.
  destruct (getattr h (VRef m) "tag_default") as [d|],
           (getattr h1 (VRef m) "tag_default") as [d1|]; try done.
  subst d1. by rewrite IH.
Qed.

Lemma has_tag_default_wraps_inv W h h1 v :
  wraps W h h1 -> has_tag_default h1 v -> has_tag_default h v.
Proof.
  intros Hw [d1 Hd1]. pose proof (getattr_tag_default_wraps W h h1 v Hw) as Hd.
  rewrite Hd1 in Hd. destruct (getattr h v "tag_default") as [d|] eqn:E; [|done].
  by exists d.
Qed.

Lemma descendants_det n n' h l D D' :
  descendants n h l = Some D -> descendants n' h l = Some D' -> D = D'.
Proof.
  intros HD HD'.
  apply (descendants_fuel_le n (n `max` n')) in HD; [|lia].
  apply (descendants_fuel_le n' (n `max` n')) in HD'; [|lia]. congruence.
Qed.

Lemma shaped_of_shape_ok h lo N :
  (forall l o, lo <= l -> h !! l = Some o -> shape_ok o) ->
  (forall x, x ∈ N -> lo <= x) -> shaped h N.
Proof.
  intros Hsh Hreg c Hc Hcon. unfold constructed in Hcon. simpl in Hcon.
  destruct (h !! c) as [o|] eqn:Ho; [|done].
  destruct (Hsh c o (Hreg c Hc) Ho Hcon) as (t & cs & Heq).
  exists cs, (cls o), t. split; [done|]. by rewrite Ho, Heq.
Qed.

(** When the pass returns, every node of the root had a [tag_default],
    and [descendants] returned on each module with AUTOMATIC TAGS with the
    fuel it was given. *)
Lemma auto_tag_modules_Ok_inv fuel : forall root h h' n N,
  closed_heap h ->
  descendants_of_each n h (automatic_modules h root) = Some N ->
  NoDup N -> shaped h N ->
  auto_tag_modules fuel h root = Ok h' ->
  Forall (has_tag_default h) root /\
  descendants_of_each fuel h (automatic_modules h root) = Some N.
Proof.
  induction root as [|module root IH]; intros h h' n N Hclosed HN Hnd Hs Hrun.
  { split; [constructor|]. by inversion HN. }
  cbn [auto_tag_modules] in Hrun. apply res_bind_Ok in Hrun as (h1 & Hmod & Hrun).
  assert (Hd : has_tag_default h module).
  { unfold auto_tag_module in Hmod. apply res_bind_Ok in Hmod as (d & Hd & _).
    by exists d. }
  destruct (has_tag_default_inv _ _ Hd) as (m & d & -> & Hgd & Hlt).
  rewrite (auto_tag_module_ref _ _ _ _ Hgd) in Hmod.
  rewrite (automatic_modules_cons _ _ _ _ Hgd) in *.
  destruct (py_eq d (VInt TagImplicitness.AUTOMATIC)) eqn:Hauto.
  2:{ inversion Hmod; subst h1.
      destruct (IH h h' n N Hclosed HN Hnd Hs Hrun) as [Hall HN'].
      split; [by apply Forall_cons | done]. }
  destruct (descendants fuel h m) as [D'|] eqn:ED'; [|done].
  rewrite descendants_of_each_cons in HN.
  destruct (descendants n h m) as [D|] eqn:ED; [|done].
  destruct (descendants_of_each n h (automatic_modules h root)) as [R|] eqn:ER;
    [|done].
  inversion HN; subst N. clear HN.
  assert (D' = D) as -> by by eapply descendants_det.
  apply NoDup_cons in Hnd as [Hm_notin Hnd].
  apply NoDup_app in Hnd as (HndD & Hdisj & HndR).
  pose proof (descendants_children _ _ _ _ ED) as HpermD.
  destruct (auto_tag_all_spec D h Hclosed) as (h1' & Hrun1 & Hclosed1 & Hw & _).
  { eapply shaped_subseteq; [|exact Hs]. intros x Hx. right.
    apply elem_of_app. by left. }
  { by eapply work_children_NoDup. }
  rewrite Hrun1 in Hmod. inversion Hmod; subst h1'. clear Hmod.
  assert (HsR : shaped h R).
  { eapply shaped_subseteq; [|exact Hs]. intros x Hx. right.
    apply elem_of_app. by right. }
  assert (Hagree : forall x, x ∈ R -> h1 !! x = h !! x).
  { intros x Hx. eapply wraps_agree; [exact Hw | |].
    - eapply descendants_of_each_lt; [done | | exact ER | done].
      intros c Hc. by eapply automatic_modules_elem_lt.
    - intros Hin. eapply work_children_subseteq in Hin; [|done].
      by apply (Hdisj x). }
  pose proof (automatic_modules_wraps_any _ _ _ root Hw) as Ham.
  destruct (IH h1 h' n R Hclosed1) as [Hall HR]; [| done | | done |].
  { rewrite Ham. by eapply descendants_of_each_agree. }
  { by eapply shaped_wraps. }
  split.
  - apply Forall_cons. split; [done|].
    eapply Forall_impl; [exact Hall|]. intros v. by eapply has_tag_default_wraps_inv.
  - rewrite descendants_of_each_cons, ED'.
    rewrite Ham in HR.
    rewrite (descendants_of_each_agree fuel h1 h _ R HR); [done|].
    intros x Hx. symmetry. by apply Hagree.
Qed.

(** The pass on a store that is a tree under the modules with AUTOMATIC
    TAGS. *)
Lemma auto_tag_modules_tags fuel root h N :
  closed_heap h -> Forall (has_tag_default h) root ->
  descendants_of_each fuel h (automatic_modules h root) = Some N ->
  NoDup N -> shaped h N ->
  exists h',
    auto_tag_modules fuel h root = Ok h' /\ closed_heap h' /\
    forall m, m ∈ automatic_modules h' root ->
      is_Some (descendants (2 * fuel) h' m) /\
      forall n D c,
        descendants n h' m = Some D -> c ∈ D -> constructed h' c = true ->
        had_tagged_component h c \/ tagged_by_ordinal h h' c.
Proof.
  intros Hclosed Hroot HN Hnd Hs.
  pose proof (descendants_of_each_children _ _ _ _ HN) as Hperm.
  destruct (auto_tag_all_spec N h Hclosed Hs) as (h' & Hrun & Hclosed' & Hw & Hres).
  { by eapply work_children_NoDup. }
  exists h'. split; [by rewrite (auto_tag_modules_eq fuel root h N)|].
  split; [done|].
  rewrite (automatic_modules_wraps_any _ _ _ root Hw).
  intros m Hm.
  destruct (descendants_of_each_inv _ _ _ _ HN m Hm) as (D0 & HD0 & HmN & Hsub).
  pose proof (automatic_modules_elem_lt _ _ _ Hm) as Hlt.
  split; [by eapply wraps_descendants|].
  intros n D c HD Hc Hcon. apply Hres.
  - apply Hsub. rewrite (wraps_constructed _ _ _ Hw) in Hcon.
    eapply (wraps_descendants_before _ h h'); [done.. |].
    unfold constructed in Hcon. simpl in Hcon.
    destruct (h !! c) eqn:E; [by eapply lookup_lt_Some | done].
  - by rewrite <- (wraps_constructed _ _ _ Hw).
Qed.

(** Whatever the tokens, when [build_semantic_model] returns on a store
    without dangling references, the model is as follows.  In each module
    with AUTOMATIC TAGS, [descendants] returns, and each ConstructedType
    among the descendants either had a TaggedType for the [type_decl] of a
    component when the factory was done, or each of its components with a
    [type_decl] has a new TaggedType around it, numbered from zero in the
    order of the components that have a [type_decl]. *)
Theorem build_semantic_model_tags (fuel : nat) (parse_result : list token)
  (st st' : state) (root : list val) :
  closed_heap (st_heap st) ->
  build_semantic_model fuel parse_result st = Ok (root, st') ->
  exists st1,
    create_all fuel parse_result st = Ok (root, st1) /\
    closed_heap (st_heap st') /\
    forall m, m ∈ automatic_modules (st_heap st') root ->
      is_Some (descendants (2 * fuel) (st_heap st') m) /\
      forall n D c,
        descendants n (st_heap st') m = Some D -> c ∈ D ->
        constructed (st_heap st') c = true ->
        had_tagged_component (st_heap st1) c \/
        tagged_by_ordinal (st_heap st1) (st_heap st') c.
Proof.
  intros Hclosed Hbuild. unfold build_semantic_model, bind in Hbuild.
  destruct (create_all fuel parse_result st) as [[root0 st1]|] eqn:Hcreate; [|done].
  destruct (auto_tag_modules fuel (st_heap st1) root0) as [h'|] eqn:Hrun; [|done].
  inversion Hbuild; subst root0 st'. clear Hbuild. simpl.
  exists st1. split; [done|].
  apply create_all_builds in Hcreate as (Hst & Hcl & Hsh & Hf).
  specialize (Hcl Hclosed).
  assert (Hf' : forest (st_heap st1) (length (st_heap st)) (length (st_heap st1))
                  (automatic_modules (st_heap st1) root)).
  { eapply forest_submseteq; [|exact Hf].
    apply sublist_submseteq, automatic_modules_sublist. }
  destruct Hf' as (n & N & HN & Hnd & Hreg).
  assert (Hs : shaped (st_heap st1) N).
  { eapply shaped_of_shape_ok; [exact Hsh|]. intros x Hx. by apply Hreg. }
  destruct (auto_tag_modules_Ok_inv fuel root _ _ n N Hcl HN Hnd Hs Hrun)
    as [Hroot HN'].
  destruct (auto_tag_modules_tags fuel root _ N Hcl Hroot HN' Hnd Hs)
    as (h'' & Hrun' & Hclosed' & Htags).
  rewrite Hrun in Hrun'. inversion Hrun'; subst h''. done.
Qed.

Lemma build_semantic_model_tags_witness :
  exists st' st1,
    build_semantic_model 10 extensible_tokens (State [] 0) = Ok ([VRef 9], st') /\
    create_all 10 extensible_tokens (State [] 0) = Ok ([VRef 9], st1) /\
    closed_heap (st_heap st') /\
    forall m, m ∈ automatic_modules (st_heap st') [VRef 9] ->
      is_Some (descendants 20 (st_heap st') m) /\
      forall n D c,
        descendants n (st_heap st') m = Some D -> c ∈ D ->
        constructed (st_heap st') c = true ->
        had_tagged_component (st_heap st1) c \/
        tagged_by_ordinal (st_heap st1) (st_heap st') c.
Proof.
  destruct (build_semantic_model 10 extensible_tokens (State [] 0))
    as [[root st']|] eqn:Hrun; [|by vm_compute in Hrun].
  assert (root = [VRef 9]) as -> by (vm_compute in Hrun; by inversion Hrun).
  destruct (build_semantic_model_tags 10 extensible_tokens (State [] 0) st' [VRef 9])
    as (st1 & Hcreate & Htags); [by intros l x ?%elem_of_nil | exact Hrun |].
  by exists st', st1.
Defined.
(** ** SemaNode.descendants, as a whole *)

Lemma descendants_elem_fuel n h : forall l D x,
  descendants n h l = Some D -> x ∈ D ->
  exists m D', m < n /\ descendants m h x = Some D'.
Proof.
  induction n as [|n IH]; intros l D x HD Hx; [done|].
  rewrite descendants_S in HD.
  destruct (descendants_of_each_elem n h _ D x HD Hx)
    as (c & Hc & [->|(Dc & HDc & Hxc)]).
  - destruct (descendants_of_each_inv n h _ D HD c Hc) as (Dc & HDc & _).
    exists n, Dc. split; [lia | done].
  - destruct (IH c Dc x HDc Hxc) as (m & D' & Hm & HD').
    exists m, D'. split; [lia | done].
Qed.

Lemma descendants_cycle h x : tc (child h) x x -> forall n, descendants n h x = None.
Proof.
  intros Hcycle n. induction (lt_wf n) as [n _ IH].
  destruct (descendants n h x) as [D|] eqn:HD; [|done].
  pose proof (reach_descendants n h x D x HD Hcycle) as Hx.
  destruct (descendants_elem_fuel n h x D x HD Hx) as (m & D' & Hm & HD').
  by rewrite (IH m Hm) in HD'.
Qed.

(** When [descendants] returns, it returns the nodes that can be reached
    from the node through [children], and it returns the same with any
    deeper recursion limit. *)
Theorem descendants_reachable (n : nat) (h : heap) (l : loc) (D : list loc) :
  descendants n h l = Some D ->
  (forall x, x ∈ D <-> tc (child h) l x) /\
  (forall m, n <= m -> descendants m h l = Some D).
Proof.
  intros HD. split.
  - intros x. split; [by eapply descendants_reach | by eapply reach_descendants].
  - intros m Hm. by eapply descendants_fuel_le.
Qed.

Lemma descendants_reachable_witness :
  (forall x, x ∈ [8; 7; 2; 0; 3; 6; 4] <-> tc (child extensible_heap) 9 x) /\
  (forall m, 10 <= m ->
     descendants m extensible_heap 9 = Some [8; 7; 2; 0; 3; 6; 4]).
Proof.
  apply (descendants_reachable 10 extensible_heap 9). vm_compute. reflexivity.
Defined.

(** On a store where a node is reached that is among its own descendants,
    [descendants] does not return, whatever the recursion limit. *)
Theorem descendants_cyclic (h : heap) (l x : loc) :
  l = x \/ tc (child h) l x -> tc (child h) x x ->
  forall n, descendants n h l = None.
Proof.
  intros [->|Hlx] Hcycle n; [by apply descendants_cycle|].
  destruct (descendants n h l) as [D|] eqn:HD; [|done].
  pose proof (reach_descendants n h l D x HD Hlx) as Hx.
  destruct (descendants_elem_fuel n h l D x HD Hx) as (m & D' & _ & HD').
  by rewrite (descendants_cycle h x Hcycle m) in HD'.
Qed.

Lemma descendants_cyclic_witness : descendants 100 knotted_heap 0 = None.
Proof.
  apply (descendants_cyclic knotted_heap 0 0); [by left|].
  eapply tc_l; [|apply tc_once]; unfold child; vm_compute; by left.
Defined.
(** ** Module.user_types and Module.get_type_decl *)

Lemma assoc_set_idemp {V} k (v : V) a : assoc_set k v (assoc_set k v a) = assoc_set k v a.
Proof.
  induction a as [|[k' v'] a IH]; simpl.
  - by rewrite bool_decide_true.
  - destruct (bool_decide (k' = k)) eqn:E; simpl.
    + by rewrite bool_decide_true.
    + by rewrite E, IH.
Qed.

Lemma setattr_idemp h l k v : setattr (setattr h l k v) l k v = setattr h l k v.
Proof.
  destruct (h !! l) as [o|] eqn:Ho.
  - unfold setattr at 1. rewrite (lookup_setattr_eq _ _ _ _ _ Ho).
    unfold setattr. rewrite Ho. simpl. rewrite assoc_set_idemp.
    by rewrite list_insert_insert_eq.
  - unfold setattr. rewrite Ho. by rewrite Ho.
Qed.

Lemma isinstance_setattr h l k v x c :
  isinstance (setattr h l k v) x c = isinstance h x c.
Proof.
  destruct x as [| | | | l' | | |]; try done. simpl.
  destruct (decide (l = l')) as [<-|Hne].
  - destruct (h !! l) as [o|] eqn:Ho.
    + by rewrite (lookup_setattr_eq _ _ _ _ _ Ho).
    + unfold setattr. rewrite Ho. by rewrite Ho.
  - by rewrite lookup_setattr_ne.
Qed.

Lemma index_type_assignments_setattr h l k v asg : forall ut,
  k <> "type_decl" -> k <> "type_name" ->
  index_type_assignments (setattr h l k v) asg ut = index_type_assignments h asg ut.
Proof.
  induction asg as [|a asg IH]; intros ut Hd Hn; [done|]. simpl.
  rewrite isinstance_setattr, !getattr_setattr_other_name by done.
  destruct (isinstance h a TypeAssignment); [|by apply IH].
  destruct (getattr h a "type_decl"); [|done]. simpl.
  destruct (getattr h a "type_name"); [|done]. simpl. by apply IH.
Qed.

Lemma getattr_setattr_same h l k v o :
  h !! l = Some o -> getattr (setattr h l k v) (VRef l) k = Ok v.
Proof.
  intros Ho. simpl. unfold vars. rewrite (lookup_setattr_eq _ _ _ _ _ Ho). simpl.
  by rewrite assoc_set_same.
Qed.

(** [user_types] is memoised: a second call returns the dictionary of
    the first and leaves the store as the first left it. *)
Theorem user_types_memoised (h h1 : heap) (self : loc) (d : list (val * val)) :
  user_types h self = Ok (d, h1) -> user_types h1 self = Ok (d, h1).
Proof.
  unfold user_types. intros Hu.
  apply res_bind_Ok in Hu as (cache & Hcache & Hu).
  destruct cache as [| | | | | |kvs|]; try done.
  destruct kvs as [|kv kvs].
  2:{ inversion Hu; subst. by rewrite Hcache. }
  apply res_bind_Ok in Hu as (asg & Hasg & Hu).
  destruct asg as [| | | | |l| |]; try done.
  apply res_bind_Ok in Hu as (d' & Hd & Hu). inversion Hu; subst d' h1. clear Hu.
  assert (Ho : exists o, h !! self = Some o).
  { simpl in Hcache. unfold vars in Hcache. destruct (h !! self); [eauto | done]. }
  destruct Ho as [o Ho].
  rewrite (getattr_setattr_same _ _ _ _ _ Ho). cbn [res_bind].
  destruct d as [|kv d]; [|done].
  rewrite getattr_setattr_other_name, Hasg by done. cbn [res_bind].
  rewrite index_type_assignments_setattr, Hd by done. cbn [res_bind].
  by rewrite setattr_idemp.
Qed.

Lemma user_types_memoised_witness :
  exists d h1, user_types choice_module 0 = Ok (d, h1) /\
               user_types h1 0 = Ok (d, h1).
Proof.
  destruct (user_types choice_module 0) as [[d h1]|] eqn:E; [|by vm_compute in E].
  exists d, h1. split; [done|]. by apply (user_types_memoised choice_module).
Defined.

(** *** Looking a type up *)

Lemma dict_get_set_same s v d : dict_get (VStr s) (dict_set (VStr s) v d) = Some v.
Proof.
  induction d as [|[k' v'] d IH]; simpl.
  - by rewrite bool_decide_true.
  - destruct (py_eq k' (VStr s)) eqn:E; simpl; by rewrite E.
Qed.

Lemma dict_get_set_other s s' v d :
  s <> s' -> dict_get (VStr s) (dict_set (VStr s') v d) = dict_get (VStr s) d.
Proof.
  intros Hne. induction d as [|[k' v'] d IH]; simpl.
  - by rewrite bool_decide_false by congruence.
  - destruct (py_eq k' (VStr s')) eqn:E; simpl.
    + apply py_eq_VStr in E. subst k'. simpl.
      by rewrite bool_decide_false by congruence.
    + by rewrite IH.
Qed.

Lemma index_type_assignments_other h s asg : forall ut,
  named_assignments h asg -> not_assigned h s asg ->
  exists d, index_type_assignments h asg ut = Ok d /\
            dict_get (VStr s) d = dict_get (VStr s) ut.
Proof.
  induction asg as [|a asg IH]; intros ut Hnamed Hnot; [by exists ut|]. simpl.
  assert (Hnamed' : named_assignments h asg) by (intros b Hb; apply Hnamed; by right).
  assert (Hnot' : not_assigned h s asg) by (intros b Hb; apply Hnot; by right).
  destruct (isinstance h a TypeAssignment) eqn:Hinst; [|by apply IH].
  destruct (Hnamed a ltac:(left) Hinst) as (s' & d' & Hn & Hd).
  rewrite Hd, Hn. simpl.
  destruct (IH (dict_set (VStr s') d' ut) Hnamed' Hnot') as (d & -> & Hget).
  exists d. split; [done|]. rewrite Hget. apply dict_get_set_other.
  intros ->. by apply (Hnot a ltac:(left) Hinst).
Qed.

Lemma index_type_assignments_app h asg1 asg2 ut :
  index_type_assignments h (asg1 ++ asg2) ut
  = (ut' <~ index_type_assignments h asg1 ut;; index_type_assignments h asg2 ut').
Proof.
  revert ut. induction asg1 as [|a asg1 IH]; intros ut; [done|]. simpl.
  destruct (isinstance h a TypeAssignment); [|by apply IH].
  destruct (getattr h a "type_decl"); [|done]. simpl.
  destruct (getattr h a "type_name"); [|done]. simpl. by apply IH.
Qed.

Lemma index_type_assignments_total h asg : forall ut,
  named_assignments h asg -> exists d, index_type_assignments h asg ut = Ok d.
Proof.
  induction asg as [|a asg IH]; intros ut Hnamed; [by exists ut|]. simpl.
  assert (Hnamed' : named_assignments h asg) by (intros b Hb; apply Hnamed; by right).
  destruct (isinstance h a TypeAssignment) eqn:Hinst; [|by apply IH].
  destruct (Hnamed a ltac:(left) Hinst) as (s' & d' & Hn & Hd).
  rewrite Hd, Hn. simpl. by apply IH.
Qed.

(** On a module whose cache is empty: [get_type_decl] returns the
    [type_decl] of the last type assignment of that name, and raises
    KeyError when no type assignment has the name. *)
Theorem get_type_decl_last_wins (h : heap) (self : loc) (assignments : list val)
  (s : string) :
  getattr h (VRef self) "_user_types" = Ok (VDict []) ->
  getattr h (VRef self) "assignments" = Ok (VList assignments) ->
  named_assignments h assignments ->
  (forall before a after type_decl,
     assignments = before ++ a :: after ->
     isinstance h a TypeAssignment = true ->
     getattr h a "type_name" = Ok (VStr s) ->
     getattr h a "type_decl" = Ok type_decl ->
     not_assigned h s after ->
     exists h1, get_type_decl h self (VStr s) = Ok (type_decl, h1)) /\
  (not_assigned h s assignments ->
   get_type_decl h self (VStr s) = Raise (KeyError (VStr s))).
Proof.
  intros Hcache Hasg Hnamed. split.
  - intros before a after td -> Hinst Hn Hd Hnot.
    unfold get_type_decl, user_types. rewrite Hcache. cbn [res_bind].
    rewrite Hasg. cbn [res_bind].
    rewrite index_type_assignments_app.
    destruct (index_type_assignments_total h before []) as [ut' ->].
    { intros b Hb. apply Hnamed. apply elem_of_app. by left. }
    cbn [res_bind index_type_assignments]. rewrite Hinst, Hd, Hn. cbn [res_bind].
    destruct (index_type_assignments_other h s after (dict_set (VStr s) td ut'))
      as (d & -> & Hget); [|done|].
    { intros b Hb. apply Hnamed. apply elem_of_app. right. by right. }
    cbn [res_bind fst snd]. rewrite Hget, dict_get_set_same. by eexists.
  - intros Hnot. unfold get_type_decl, user_types. rewrite Hcache. cbn [res_bind].
    rewrite Hasg. cbn [res_bind].
    destruct (index_type_assignments_other h s assignments [] Hnamed Hnot)
      as (d & -> & Hget).
    cbn [res_bind fst snd]. by rewrite Hget.
Qed.

Lemma get_type_decl_last_wins_witness :
  (exists h1, get_type_decl choice_module 0 (VStr "C") = Ok (VRef 2, h1)) /\
  get_type_decl choice_module 0 (VStr "D") = Raise (KeyError (VStr "D")).
Proof.
  assert (Hnamed : named_assignments choice_module [VRef 1]).
  { intros a ->%list_elem_of_singleton _. by exists "C", (VRef 2). }
  split.
  - destruct (get_type_decl_last_wins choice_module 0 [VRef 1] "C"
                eq_refl eq_refl Hnamed) as [Hlast _].
    apply (Hlast [] (VRef 1) [] (VRef 2)); try reflexivity.
    by intros a ?%elem_of_nil.
  - destruct (get_type_decl_last_wins choice_module 0 [VRef 1] "D"
                eq_refl eq_refl Hnamed) as [_ Hmissing].
    apply Hmissing. intros a ->%list_elem_of_singleton _. by vm_compute.
Defined.

(** ** Module.resolve_type_decl *)

Lemma user_types_isinstance h self ut h1 x c :
  user_types h self = Ok (ut, h1) -> isinstance h1 x c = isinstance h x c.
Proof.
  unfold user_types. intros Hu.
  apply res_bind_Ok in Hu as (cache & _ & Hu).
  destruct cache as [| | | | | |kvs|]; try done.
  destruct kvs; [|by inversion Hu; subst].
  apply res_bind_Ok in Hu as (asg & _ & Hu).
  destruct asg; try done.
  apply res_bind_Ok in Hu as (d & _ & Hu). inversion Hu; subst.
  by apply isinstance_setattr.
Qed.

(** What [resolve_type_decl] returns, when it returns: a type that is not
    a reference to another, which a second resolution gives back as it is;
    and the store differs from the one it started on in nothing but the
    caches of the modules. *)
Theorem resolve_type_decl_builtin (fuel : nat) (h h1 : heap)
  (self type_decl r : val) (referenced_modules : list val) :
  resolve_type_decl fuel h self type_decl referenced_modules = Ok (r, h1) ->
  isinstance h1 r ReferencedType = false /\
  (forall n self' modules,
     resolve_type_decl (S n) h1 self' r modules = Ok (r, h1)) /\
  (forall x k c, k <> "_user_types" ->
     getattr h1 x k = getattr h x k /\ isinstance h1 x c = isinstance h x c).
Proof.
  revert h self type_decl.
  induction fuel as [|fuel IH]; intros h self type_decl H; [done|].
  cbn [resolve_type_decl] in H.
  destruct (isinstance h type_decl ReferencedType) eqn:Hinst.
  2:{ inversion H; subst r h1. split; [done|]. split; [|done].
      intros n self' modules. cbn [resolve_type_decl]. by rewrite Hinst. }
  apply res_bind_Ok in H as (module_name & _ & H).
  apply res_bind_Ok in H as (module & _ & H).
  destruct (negb (val_truthy module)); [done|].
  destruct module as [| | | | m | | |]; try done.
  apply res_bind_Ok in H as ([types h0] & Hu & H).
  apply res_bind_Ok in H as (name & _ & H). cbn [fst snd] in H.
  destruct (dict_get name types) as [d|]; [|done].
  destruct (IH _ _ _ H) as (Hr & Hagain & Hframe).
  split; [done|]. split; [done|]. intros x k c Hk.
  destruct (Hframe x k c Hk) as [-> ->].
  split; [by eapply user_types_getattr | by eapply user_types_isinstance].
Qed.

(** A SelectionType as its constructor leaves it has no [module_name]:
    [resolve_type_decl] raises AttributeError on it. *)
Theorem resolve_type_decl_SelectionType (create : token -> M val)
  (elements : list token) (st st' : state) (v : val) :
  SelectionType_init create elements st = Ok (v, st') ->
  forall n self modules,
    resolve_type_decl (S n) (st_heap st') self v modules
    = Raise (AttributeError "module_name").
Proof.
  intros H n self modules. unfold SelectionType_init in H.
  repeat first [exec_pure H | inv_bind H].
  apply new_lookup in H as (l & -> & Hl).
  cbn [resolve_type_decl]. simpl. unfold vars. by rewrite Hl.
Qed.

Lemma resolve_type_decl_builtin_witness :
  exists h1,
    resolve_type_decl 5 choice_module (VRef 0) (VRef 8) [] = Ok (VRef 2, h1) /\
    isinstance h1 (VRef 2) ReferencedType = false /\
    resolve_type_decl 1 h1 (VRef 0) (VRef 2) [] = Ok (VRef 2, h1).
Proof.
  destruct (resolve_type_decl 5 choice_module (VRef 0) (VRef 8) [])
    as [[r h1]|] eqn:E; [|by vm_compute in E].
  assert (r = VRef 2) as -> by (vm_compute in E; by inversion E).
  destruct (resolve_type_decl_builtin 5 choice_module h1 (VRef 0) (VRef 8)
              (VRef 2) [] E) as (Hr & Hagain & _).
  exists h1. split; [done|]. split; [done|]. apply Hagain.
Defined.

Lemma resolve_type_decl_SelectionType_witness :
  exists v st',
    SelectionType_init (_create_sema_node 5)
      [PTok "Identifier" [PStr "a"]; defined_type "C"] (State [] 0)
    = Ok (v, st') /\
    resolve_type_decl 1 (st_heap st') VNone v []
    = Raise (AttributeError "module_name").
Proof.
  destruct (SelectionType_init (_create_sema_node 5)
              [PTok "Identifier" [PStr "a"]; defined_type "C"] (State [] 0))
    as [[v st']|] eqn:E; [|by vm_compute in E].
  exists v, st'. split; [done|].
  by apply (resolve_type_decl_SelectionType _ _ _ _ _ E).
Defined.

(** ** Module.resolve_tag_implicitness *)

(** When the tag has no implicitness written and the module's default is
    one of the three of TagImplicitness, the result is IMPLICIT or
    EXPLICIT: never AUTOMATIC, never None. *)
Theorem resolve_tag_implicitness_range (h : heap) (self : loc)
  (tagged_type_decl : val) (z : Z) :
  getattr h (VRef self) "tag_default" = Ok (VInt z) ->
  (z = TagImplicitness.IMPLICIT \/ z = TagImplicitness.EXPLICIT \/
   z = TagImplicitness.AUTOMATIC) ->
  resolve_tag_implicitness h self VNone tagged_type_decl
  = Ok (VInt TagImplicitness.IMPLICIT) \/
  resolve_tag_implicitness h self VNone tagged_type_decl
  = Ok (VInt TagImplicitness.EXPLICIT).
Proof.
  intros Hd Hz. unfold resolve_tag_implicitness.
  destruct (isinstance h tagged_type_decl ChoiceType); [by right|].
  rewrite Hd. cbn [res_bind].
  destruct Hz as [-> | [-> | ->]]; [by left | by right | by left].
Qed.

Lemma resolve_tag_implicitness_range_witness :
  resolve_tag_implicitness extensible_heap 9 VNone (VRef 0)
  = Ok (VInt TagImplicitness.IMPLICIT) \/
  resolve_tag_implicitness extensible_heap 9 VNone (VRef 0)
  = Ok (VInt TagImplicitness.EXPLICIT).
Proof.
  apply (resolve_tag_implicitness_range extensible_heap 9 (VRef 0)
           TagImplicitness.AUTOMATIC); [reflexivity | by right; right].
Defined.
(** ** The factory changes no object that it did not make *)

Lemma framed_refl h : framed h h.
Proof. by split. Qed.

Lemma framed_trans h1 h2 h3 : framed h1 h2 -> framed h2 h3 -> framed h1 h3.
Proof.
  intros [Hl1 Hf1] [Hl2 Hf2]. split; [lia|].
  intros l Hl. rewrite Hf2 by lia. by apply Hf1.
Qed.

Lemma framed_alloc h o : framed h (h ++ [o]).
Proof.
  split; [rewrite length_app; lia|]. intros l Hl. by apply lookup_app_l.
Qed.

Lemma frames_bind {A B} (m : M A) (k : A -> M B) :
  frames m -> (forall a, frames (k a)) -> frames (bind m k).
Proof.
  intros Hm Hk st b st' H. apply bind_Ok in H as (a & st1 & H1 & H2).
  eapply framed_trans; [by eapply Hm | by eapply Hk].
Qed.

Lemma frames_lift {A} (r : res A) : frames (lift r).
Proof. intros st a st' [_ ->]%lift_Ok. apply framed_refl. Qed.

Lemma frames_ret {A} (a : A) : frames (ret a).
Proof. intros st b st' [_ ->]%ret_Ok. apply framed_refl. Qed.

Lemma frames_raise {A} e : frames (@raise A e).
Proof. intros st a st' H. bad H. Qed.

Lemma frames_new c a : frames (new c a).
Proof.
  intros st v st' H. unfold new in H. simpl in H. inversion H; subst. simpl.
  apply framed_alloc.
Qed.

Lemma frames_attr v k : frames (attr v k).
Proof. intros st a st' [_ ->]%attr_Ok. apply framed_refl. Qed.

Lemma frames__get_next_unnamed : frames _get_next_unnamed.
Proof.
  intros st a st' H. unfold _get_next_unnamed in H. inversion H; subst. simpl.
  apply framed_refl.
Qed.

Ltac frames_tac :=
  repeat match goal with
    | |- frames (bind _ _) => apply frames_bind; [|intros ?]
    | |- frames (lift _) => apply frames_lift
    | |- frames (ret _) => apply frames_ret
    | |- frames (raise _) => apply frames_raise
    | |- frames (new _ _) => apply frames_new
    | |- frames (attr _ _) => apply frames_attr
    | |- frames _get_next_unnamed => apply frames__get_next_unnamed
    | |- frames (if ?b then _ else _) => destruct b
    | |- frames (match ?l with [] => _ | _ :: _ => _ end) => destruct l
    | |- frames (fun st => let '(l, h) := alloc _ _ in _) =>
        let H := fresh "H" in
        intros ? ? ? H; simpl in H; inversion H; subst; simpl; apply framed_alloc
    end.

(** The numbering loop changes named values of its list only. *)
Lemma number_named_values_framed named_values : forall h previous h',
  number_named_values h previous named_values = Ok h' ->
  length h' = length h /\
  forall l, VRef l ∉ named_values -> h' !! l = h !! l.
Proof.
  induction named_values as [|n rest IH]; intros h previous h' H.
  { by inversion H; subst. }
  cbn [number_named_values] in H. apply res_bind_Ok in H as (h1 & Hstep & H).
  assert (Hst1 : length h1 = length h /\ forall l, VRef l <> n -> h1 !! l = h !! l).
  { destruct (isinstance h n NamedValue); [|by inversion Hstep; subst].
    apply res_bind_Ok in Hstep as (value & _ & Hstep).
    destruct value; try (by inversion Hstep; subst).
    destruct n as [| | | | l0 | | |]; try (by inversion Hstep; subst).
    destruct previous as [p|].
    - apply res_bind_Ok in Hstep as (pv & _ & Hstep).
      apply res_bind_Ok in Hstep as (z & _ & Hstep). inversion Hstep; subst h1.
      split; [by rewrite length_setattr|]. intros l Hne.
      apply lookup_setattr_ne. congruence.
    - inversion Hstep; subst h1.
      split; [by rewrite length_setattr|]. intros l Hne.
      apply lookup_setattr_ne. congruence. }
  destruct Hst1 as [Hlen1 Hfr1]. destruct (IH _ _ _ H) as [Hlen2 Hfr2].
  split; [congruence|]. intros l Hl.
  rewrite Hfr2 by (intros Hin; apply Hl; by right).
  apply Hfr1. intros Heq. apply Hl. rewrite Heq. by left.
Qed.

Section FramesFactory.
Variable create : token -> M val.
Hypothesis Hframes : forall t, frames (create t).
Hypothesis Hbuilds : forall t, builds refs (create t).

Lemma frames__maybe_create_sema_node t : frames (_maybe_create_sema_node create t).
Proof using Hframes. destruct t; simpl; try apply frames_ret. apply Hframes. Qed.

Lemma frames_create_each tokens : frames (create_each create tokens).
Proof using Hframes.
  induction tokens as [|t tokens IH]; cbn [create_each]; frames_tac; done.
Qed.

Lemma frames_GlobalModuleReference_init module oid :
  frames (GlobalModuleReference_init create module oid).
Proof using Hframes.
  unfold GlobalModuleReference_init. frames_tac. apply frames__maybe_create_sema_node.
Qed.

Lemma frames_Imports_clauses elements : forall imports,
  frames (Imports_clauses create elements imports).
Proof using Hframes.
  induction elements as [|clause rest IH]; intros imports; cbn [Imports_clauses];
    frames_tac; [apply frames_GlobalModuleReference_init | apply IH].
Qed.

Lemma frames_NamedType_init elements : frames (NamedType_init create elements).
Proof using Hframes. unfold NamedType_init. frames_tac; apply Hframes. Qed.

Lemma frames_crack_named_type token : frames (crack_named_type create token).
Proof using Hframes. unfold crack_named_type. frames_tac. apply frames_NamedType_init. Qed.

(** The named values that ValueListType.__init__ numbers are the ones it
    has just made. *)
Lemma frames_ValueListType_init elements : frames (ValueListType_init create elements).
Proof using Hframes Hbuilds.
  intros st v st' H. unfold ValueListType_init in H.
  exec_pure H. exec_pure H. exec_pure H.
  apply bind_Ok in H as (named_values & st1 & Hce & H).
  pose proof (frames_create_each _ _ _ _ Hce) as Hfr1.
  apply (create_each_builds create Hbuilds) in Hce.
  destruct Hce as (_ & _ & _ & Hforest).
  apply bind_Ok in H as ([] & st2 & Hm2 & H).
  destruct (number_named_values (st_heap st1) None named_values) as [h2|] eqn:Hnum;
    [|done].
  inversion Hm2; subst st2. clear Hm2.
  apply number_named_values_framed in Hnum as [Hlen2 Hfr2].
  assert (Hfr12 : framed (st_heap st) h2).
  { destruct Hfr1 as [Hl1 Hf1]. split; [lia|]. intros l Hl.
    rewrite Hfr2; [by apply Hf1|]. intros Hin.
    assert (Hl' : l ∈ flat_map node_refs named_values).
    { apply list_elem_of_In, in_flat_map. exists (VRef l).
      split; [by apply list_elem_of_In | by left]. }
    pose proof (forest_elem _ _ _ _ _ Hforest Hl'). lia. }
  apply bind_Ok in H as (constraint & st3 & Hm3 & H).
  assert (Hfr3 : framed h2 (st_heap st3)).
  { destruct elements as [|? [|? [|e2 ?]]];
      try (apply ret_Ok in Hm3 as [-> ->]; apply framed_refl).
    by apply frames__maybe_create_sema_node in Hm3. }
  apply frames_new in H.
  eapply framed_trans; [exact Hfr12|]. eapply framed_trans; [exact Hfr3 | exact H].
Qed.

Lemma frames_dispatch ty elements : frames (dispatch create ty elements).
Proof using Hframes Hbuilds.
  unfold dispatch.
  repeat (case_bool_decide;
          [ cbv beta delta [Module_init Exports_init Imports_init
                            TypeAssignment_init ValueAssignment_init
                            ComponentType_init
                            BitStringType_init NamedValue_init SimpleType_init
                            DefinedType_init SelectionType_init
                            ReferencedValue_init TaggedType_init
                            ConstructedType_new CollectionType_init
                            SingleValueConstraint_init SizeConstraint_init
                            ValueRangeConstraint_init ObjectIdentifierValue_init
                            leaf_init NameAndNumberForm_init];
            frames_tac;
            first [ apply Hframes | apply frames__maybe_create_sema_node
                  | apply frames_create_each | apply frames_Imports_clauses
                  | apply frames_NamedType_init | apply frames_crack_named_type
                  | apply frames_ValueListType_init | idtac ] |]).
  all: frames_tac.
  intros st0 v0 st1 Hrun.
  destruct (isinstance (st_heap st0) a0 ValueRangeConstraint
            || isinstance (st_heap st0) a0 SingleValueConstraint); [|done].
  by apply frames_new in Hrun.
Qed.

End FramesFactory.

Lemma frames__create_sema_node fuel : forall token,
  frames (_create_sema_node fuel token).
Proof.
  induction fuel as [|fuel IH]; intros token; cbn [_create_sema_node]; [frames_tac|].
  destruct token; frames_tac. apply frames_dispatch; [exact IH|].
  intros t. apply _create_sema_node_builds.
Qed.
(** ** The numbering of ValueListType.__init__ *)

Lemma Pos_to_uint_nonnil p : Pos.to_uint p <> Decimal.Nil.
Proof.
  intros Hnil. pose proof (DecimalPos.Unsigned.of_to p) as Hp.
  rewrite Hnil in Hp. discriminate Hp.
Qed.

(** [int(str(z))] is [z]. *)
Lemma int_of_val_str_of_Z z : int_of_val (VStr (str_of_Z z)) = Ok z.
Proof.
  unfold int_of_val, str_of_Z. rewrite NilZero.isi.
  - by rewrite DecimalZ.of_to.
  - destruct z as [|p|p]; simpl; try done.
    intros [= Hp]. by apply Pos_to_uint_nonnil in Hp.
  - destruct z as [|p|p]; simpl; try done.
    intros [= Hp]. by apply Pos_to_uint_nonnil in Hp.
Qed.

Lemma number_named_values_unnumbered ls : forall h previous base,
  NoDup ls ->
  (forall l, l ∈ ls ->
     exists i, h !! l = Some (Obj NamedValue [("identifier", i); ("value", VNone)])) ->
  match previous with
  | None => base = 0%Z
  | Some p =>
      exists p', p = VRef p' /\ (p' ∉ ls) /\
                 getattr h p "value" = Ok (VStr (str_of_Z (base - 1)))
  end ->
  exists h',
    number_named_values h previous (map VRef ls) = Ok h' /\
    (forall x, x ∉ ls -> h' !! x = h !! x) /\
    forall k l, ls !! k = Some l ->
      getattr h' (VRef l) "value" = Ok (VStr (str_of_Z (base + Z.of_nat k))) /\
      getattr h' (VRef l) "identifier" = getattr h (VRef l) "identifier".
Proof.
  induction ls as [|l ls IH]; intros h previous base Hnd Hshape Hprev.
  { exists h. split; [done|]. split; [done|]. by intros k l ?. }
  apply NoDup_cons in Hnd as [Hl Hnd].
  destruct (Hshape l ltac:(left)) as [i Ho].
  set (h1 := setattr h l "value" (VStr (str_of_Z base))).
  assert (Hstep :
    (if isinstance h (VRef l) NamedValue then
       value <~ getattr h (VRef l) "value";;
       match value, VRef l with
       | VNone, VRef l0 =>
           match previous with
           | None => Ok (setattr h l0 "value" (VStr (str_of_nat 0)))
           | Some p =>
               pv <~ getattr h p "value";;
               z <~ int_of_val pv;;
               Ok (setattr h l0 "value" (VStr (str_of_Z (z + 1))))
           end
       | _, _ => Ok h
       end
     else Ok h) = Ok h1).
  { simpl. unfold vars. rewrite Ho. simpl.
    destruct previous as [p|].
    - destruct Hprev as (p' & -> & _ & Hpv). rewrite Hpv. cbn [res_bind].
      rewrite int_of_val_str_of_Z. cbn [res_bind]. unfold h1.
      by replace (base - 1 + 1)%Z with base by lia.
    - subst base. reflexivity. }
  assert (Hl1 : h1 !! l
                = Some (Obj NamedValue [("identifier", i); ("value", VStr (str_of_Z base))])).
  { unfold h1. by rewrite (lookup_setattr_eq _ _ _ _ _ Ho). }
  destruct (IH h1 (Some (VRef l)) (base + 1)%Z Hnd) as (h' & Hrun & Hframe & Hvals).
  { intros x Hx. destruct (Hshape x ltac:(by right)) as [ix Hox].
    exists ix. unfold h1. rewrite lookup_setattr_ne; [done|]. by intros ->. }
  { exists l. split; [done|]. split; [done|].
    simpl. unfold vars. rewrite Hl1. simpl.
    by replace (base + 1 - 1)%Z with base by lia. }
  exists h'. split; [|split].
  - cbn [map number_named_values]. rewrite Hstep. cbn [res_bind]. exact Hrun.
  - intros x Hx. rewrite Hframe by (intros Hin; apply Hx; by right).
    unfold h1. rewrite lookup_setattr_ne; [done|]. intros ->. apply Hx. by left.
  - intros k x Hk. destruct k as [|k]; simpl in Hk.
    + inversion Hk; subst x. simpl. unfold vars.
      rewrite (Hframe l Hl), Hl1, Ho. simpl.
      by rewrite Z.add_0_r.
    + destruct (Hvals k x Hk) as [Hv Hi]. split.
      * rewrite Hv. by replace (base + 1 + Z.of_nat k)%Z
                         with (base + Z.of_nat (S k))%Z by lia.
      * rewrite Hi. unfold h1. apply getattr_setattr_other_name. done.
Qed.

(** The named values of an enumeration that were written without a
    number, as NamedValue.__init__ leaves them, are numbered by their
    place in the list, from zero; nothing else changes. *)
Theorem number_named_values_counts (h : heap) (ls : list loc) :
  NoDup ls ->
  (forall l, l ∈ ls ->
     exists i, h !! l = Some (Obj NamedValue [("identifier", i); ("value", VNone)])) ->
  exists h',
    number_named_values h None (map VRef ls) = Ok h' /\
    (forall x, x ∉ ls -> h' !! x = h !! x) /\
    forall k l, ls !! k = Some l ->
      getattr h' (VRef l) "value" = Ok (VStr (str_of_Z (Z.of_nat k))) /\
      getattr h' (VRef l) "identifier" = getattr h (VRef l) "identifier".
Proof.
  intros Hnd Hshape.
  destruct (number_named_values_unnumbered ls h None 0%Z Hnd Hshape eq_refl)
    as (h' & Hrun & Hframe & Hvals).
  exists h'. split; [done|]. split; [done|]. intros k l Hk.
  destruct (Hvals k l Hk) as [Hv Hi]. by rewrite Z.add_0_l in Hv.
Qed.

Lemma number_named_values_counts_witness :
  exists h',
    number_named_values colours_heap None [VRef 0; VRef 1; VRef 2] = Ok h' /\
    getattr h' (VRef 0) "value" = Ok (VStr "0") /\
    getattr h' (VRef 1) "value" = Ok (VStr "1") /\
    getattr h' (VRef 2) "value" = Ok (VStr "2").
Proof.
  destruct (number_named_values_counts colours_heap [0; 1; 2])
    as (h' & Hrun & _ & Hvals).
  { by apply (bool_decide_unpack _). }
  { intros l Hl. repeat (apply elem_of_cons in Hl as [->|Hl]; [by eexists|]).
    by apply elem_of_nil in Hl. }
  exists h'. split; [exact Hrun|].
  split; [apply (Hvals 0 0 eq_refl)|].
  split; [apply (Hvals 1 1 eq_refl) | apply (Hvals 2 2 eq_refl)].
Defined.

(** ** _get_next_unnamed *)

Lemma keeps_bind {A B} (m : M A) (k : A -> M B) :
  keeps_counter m -> (forall a, keeps_counter (k a)) -> keeps_counter (bind m k).
Proof.
  intros Hm Hk st b st' H. apply bind_Ok in H as (a & st1 & H1 & H2).
  apply Hm in H1. apply Hk in H2. lia.
Qed.

Lemma keeps_lift {A} (r : res A) : keeps_counter (lift r).
Proof. intros st a st' [_ ->]%lift_Ok. done. Qed.

Lemma keeps_ret {A} (a : A) : keeps_counter (ret a).
Proof. intros st b st' [_ ->]%ret_Ok. done. Qed.

Lemma keeps_raise {A} e : keeps_counter (@raise A e).
Proof. intros st a st' H. bad H. Qed.

Lemma keeps_new c a : keeps_counter (new c a).
Proof. intros st v st' H. unfold new in H. simpl in H. by inversion H. Qed.

Lemma keeps_attr v k : keeps_counter (attr v k).
Proof. intros st a st' [_ ->]%attr_Ok. done. Qed.

Lemma keeps__get_next_unnamed : keeps_counter _get_next_unnamed.
Proof.
  intros st a st' H. unfold _get_next_unnamed in H. inversion H; subst. simpl. lia.
Qed.

Lemma keeps_alloc (o : state -> obj) :
  keeps_counter (fun st => let '(l, h) := alloc (st_heap st) (o st) in
                           Ok (VRef l, State h (unnamed_counter st))).
Proof. intros st v st' H. simpl in H. by inversion H. Qed.

Ltac keeps :=
  repeat match goal with
    | |- keeps_counter (bind _ _) => apply keeps_bind; [|intros ?]
    | |- keeps_counter (lift _) => apply keeps_lift
    | |- keeps_counter (ret _) => apply keeps_ret
    | |- keeps_counter (raise _) => apply keeps_raise
    | |- keeps_counter (new _ _) => apply keeps_new
    | |- keeps_counter (attr _ _) => apply keeps_attr
    | |- keeps_counter _get_next_unnamed => apply keeps__get_next_unnamed
    | |- keeps_counter (if ?b then _ else _) => destruct b
    | |- keeps_counter (match ?l with [] => _ | _ :: _ => _ end) => destruct l
    | |- keeps_counter (fun st => let '(l, h) := alloc _ _ in _) =>
        let H := fresh "H" in intros ? ? ? H; simpl in H; by inversion H
    end.

Section KeepsCounter.
Variable create : token -> M val.
Hypothesis Hcreate : forall t, keeps_counter (create t).

Lemma keeps__maybe_create_sema_node t : keeps_counter (_maybe_create_sema_node create t).
Proof using Hcreate. destruct t; simpl; try apply keeps_ret. apply Hcreate. Qed.

Lemma keeps_create_each tokens : keeps_counter (create_each create tokens).
Proof using Hcreate.
  induction tokens as [|t tokens IH]; cbn [create_each]; keeps; done.
Qed.

Lemma keeps_GlobalModuleReference_init module oid :
  keeps_counter (GlobalModuleReference_init create module oid).
Proof using Hcreate.
  unfold GlobalModuleReference_init. keeps. apply keeps__maybe_create_sema_node.
Qed.

Lemma keeps_Imports_clauses elements : forall imports,
  keeps_counter (Imports_clauses create elements imports).
Proof using Hcreate.
  induction elements as [|clause rest IH]; intros imports; cbn [Imports_clauses];
    keeps; [apply keeps_GlobalModuleReference_init | apply IH].
Qed.

Lemma keeps_NamedType_init elements : keeps_counter (NamedType_init create elements).
Proof using Hcreate. unfold NamedType_init. keeps; apply Hcreate. Qed.

Lemma keeps_crack_named_type token : keeps_counter (crack_named_type create token).
Proof using Hcreate. unfold crack_named_type. keeps. apply keeps_NamedType_init. Qed.

Lemma keeps_number_named_values (named_values : list val) :
  keeps_counter (fun st =>
                   match number_named_values (st_heap st) None named_values with
                   | Ok h => Ok (tt, State h (unnamed_counter st))
                   | Raise e => Raise e
                   end).
Proof.
  intros st a st' H.
  destruct (number_named_values (st_heap st) None named_values); [|done].
  by inversion H.
Qed.

Lemma keeps_dispatch ty elements : keeps_counter (dispatch create ty elements).
Proof using Hcreate.
  unfold dispatch.
  repeat (case_bool_decide;
          [ cbv beta delta [Module_init Exports_init Imports_init
                            TypeAssignment_init ValueAssignment_init
                            ComponentType_init ValueListType_init
                            BitStringType_init NamedValue_init SimpleType_init
                            DefinedType_init SelectionType_init
                            ReferencedValue_init TaggedType_init
                            ConstructedType_new CollectionType_init
                            SingleValueConstraint_init SizeConstraint_init
                            ValueRangeConstraint_init ObjectIdentifierValue_init
                            leaf_init NameAndNumberForm_init];
            keeps;
            first [ apply Hcreate | apply keeps__maybe_create_sema_node
                  | apply keeps_create_each | apply keeps_Imports_clauses
                  | apply keeps_NamedType_init | apply keeps_crack_named_type
                  | apply keeps_number_named_values | idtac ] |]).
  all: keeps.
  intros st0 v0 st1 Hrun.
  destruct (isinstance (st_heap st0) a0 ValueRangeConstraint
            || isinstance (st_heap st0) a0 SingleValueConstraint); [|done].
  by apply keeps_new in Hrun.
Qed.

End KeepsCounter.

Lemma keeps__create_sema_node fuel : forall token,
  keeps_counter (_create_sema_node fuel token).
Proof.
  induction fuel as [|fuel IH]; intros token; cbn [_create_sema_node]; [keeps|].
  destruct token; keeps. by apply keeps_dispatch.
Qed.

Lemma str_of_nat_inj n m : str_of_nat n = str_of_nat m -> n = m.
Proof.
  unfold str_of_nat. intros H.
  assert (Hnil : forall k, Nat.to_uint k <> Decimal.Nil).
  { intros k Hk. pose proof (DecimalNat.Unsigned.of_to k) as Hof.
    rewrite Hk in Hof. simpl in Hof. subst k. discriminate Hk. }
  assert (Hu : Nat.to_uint n = Nat.to_uint m).
  { pose proof (NilZero.usu _ (Hnil n)) as Hn.
    pose proof (NilZero.usu _ (Hnil m)) as Hm. congruence. }
  rewrite <- (DecimalNat.Unsigned.of_to n), <- (DecimalNat.Unsigned.of_to m).
  by rewrite Hu.
Qed.

(** The names of unnamed members are never given twice: the factory
    never turns the counter back, and two calls of [_get_next_unnamed]
    with the counter not turned back in between give different names. *)
Theorem _get_next_unnamed_fresh :
  (forall fuel token st v st',
     _create_sema_node fuel token st = Ok (v, st') ->
     unnamed_counter st <= unnamed_counter st') /\
  (forall st st1 st2 st3 a b,
     _get_next_unnamed st = Ok (a, st1) ->
     unnamed_counter st1 <= unnamed_counter st2 ->
     _get_next_unnamed st2 = Ok (b, st3) ->
     a <> b).
Proof.
  split.
  - intros fuel token st v st' H. by eapply keeps__create_sema_node.
  - intros st st1 st2 st3 a b Ha Hle Hb.
    unfold _get_next_unnamed in *. inversion Ha; subst. inversion Hb; subst.
    simpl in Hle. intros Heq. simpl in Heq. inversion Heq as [Hs].
    apply str_of_nat_inj in Hs. lia.
Qed.

(** ** Imports.__init__ *)

Lemma dict_get_fresh n l d : keys_below n d -> n <= l -> dict_get (VRef l) d = None.
Proof.
  intros Hkeys Hl. induction d as [|[k v] d IH]; [done|]. simpl.
  destruct (Hkeys k v ltac:(left)) as (l' & -> & Hl'). simpl.
  rewrite bool_decide_false by lia. apply IH.
  intros k' v' Hin. apply (Hkeys k' v'). by right.
Qed.

Lemma dict_set_fresh n l v d :
  keys_below n d -> n <= l -> dict_set (VRef l) v d = d ++ [(VRef l, v)].
Proof.
  intros Hkeys Hl. induction d as [|[k v'] d IH]; [done|]. simpl.
  destruct (Hkeys k v' ltac:(left)) as (l' & -> & Hl'). simpl.
  rewrite bool_decide_false by lia. rewrite IH; [done|].
  intros k' v'' Hin. apply (Hkeys k' v''). by right.
Qed.

Section ImportsEntries.
Variable create : token -> M val.
Hypothesis Hframes : forall t, frames (create t).

Lemma GlobalModuleReference_init_fresh module oid st v st' :
  GlobalModuleReference_init create module oid st = Ok (v, st') ->
  framed (st_heap st) (st_heap st') /\
  exists es name l oid',
    tok_elements module = Ok es /\ index es 0 = Ok name /\
    v = VRef l /\ length (st_heap st) <= l < length (st_heap st') /\
    st_heap st' !! l = Some (Obj GlobalModuleReference
                               [("module", val_of_token name); ("oid", oid')]).
Proof using Hframes.
  intros H. split; [by eapply frames_GlobalModuleReference_init|].
  unfold GlobalModuleReference_init in H.
  exec_pure H. exec_pure H. apply bind_Ok in H as (oid' & st1 & Hcr & H).
  apply (frames__maybe_create_sema_node create Hframes) in Hcr as [Hlen _].
  apply new_Ok in H as [-> ->]. exists a, a0, (length (st_heap st1)), oid'.
  split; [done|]. split; [done|]. split; [done|]. simpl.
  split; [rewrite length_app; simpl; lia|].
  by rewrite lookup_app_r, Nat.sub_diag.
Qed.

Lemma Imports_clauses_entries elements : forall imports st d st',
  keys_below (length (st_heap st)) imports ->
  Imports_clauses create elements imports st = Ok (d, st') ->
  framed (st_heap st) (st_heap st') /\
  exists new, d = imports ++ new /\
    Forall2 (import_entry (st_heap st')) elements new /\
    keys_below (length (st_heap st')) d /\
    (forall k, k ∈ map fst new ->
       exists l, k = VRef l /\ length (st_heap st) <= l) /\
    NoDup (map fst new).
Proof using Hframes.
  induction elements as [|clause rest IH]; intros imports st d st' Hkeys H.
  { apply ret_Ok in H as [-> ->]. split; [apply framed_refl|].
    exists []. rewrite app_nil_r. split; [done|]. split; [constructor|].
    split; [done|]. split; [by intros k ?%elem_of_nil | constructor]. }
  cbn [Imports_clauses] in H. exec_pure H.
  apply bind_Ok in H as (module & st1 & Hmod & H).
  apply GlobalModuleReference_init_fresh in Hmod
    as (Hfr1 & es & name & l & oid' & Hes & Hname & -> & Hl & Hobj).
  exec_pure H. destruct a as [[symbols module] oid]. cbn [fst snd] in *.
  assert (Hext : dict_setdefault_extend (VRef l) (map val_of_token a0) imports
                 = imports ++ [(VRef l, VList (map val_of_token a0))]).
  { unfold dict_setdefault_extend.
    rewrite (dict_get_fresh _ _ _ Hkeys) by lia.
    apply (dict_set_fresh _ _ _ _ Hkeys). lia. }
  rewrite Hext in H.
  assert (Hkeys1 : keys_below (length (st_heap st1))
                      (imports ++ [(VRef l, VList (map val_of_token a0))])).
  { intros k v [Hin|Hin]%elem_of_app.
    - destruct (Hkeys k v Hin) as (l' & -> & Hl'). exists l'. split; [done | lia].
    - apply list_elem_of_singleton in Hin. inversion Hin; subst.
      exists l. split; [done | lia]. }
  destruct (IH _ _ _ _ Hkeys1 H) as (Hfr2 & new & -> & Hnew & Hkeys' & Hlow & Hnd).
  split; [by eapply framed_trans|].
  exists ((VRef l, VList (map val_of_token a0)) :: new).
  split; [by rewrite <- app_assoc|]. split; [|split; [done|split]].
  - constructor; [|done]. exists symbols, module, oid, a0, es, name, l, oid'.
    repeat (split; [done|]). destruct Hfr2 as [_ Hsame]. rewrite Hsame by lia. done.
  - intros k [->|Hk]%elem_of_cons; [exists l; split; [done | lia]|].
    destruct (Hlow k Hk) as (l' & -> & Hl'). exists l'. split; [done|].
    destruct Hfr1 as [Hlen1 _]. lia.
  - simpl. apply NoDup_cons. split; [|done].
    intros Hin. destruct (Hlow _ Hin) as (l' & [= <-] & Hl'). lia.
Qed.

End ImportsEntries.

(** Imports.__init__ never merges clauses: the mapping has one entry for
    each clause, in the order of the clauses; the key of an entry is a
    GlobalModuleReference that the call made of the module name of that
    clause, no two entries have the same key, and the value is the symbols
    of that clause and no others. *)
Theorem Imports_init_entries (fuel : nat) (elements : list token)
  (st st' : state) (v : val) :
  Imports_init (_create_sema_node fuel) elements st = Ok (v, st') ->
  exists l imports,
    v = VRef l /\
    st_heap st' !! l = Some (Obj Imports [("imports", VDict imports)]) /\
    Forall2 (import_entry (st_heap st')) elements imports /\
    NoDup (map fst imports) /\
    (forall k, k ∈ map fst imports ->
       exists l', k = VRef l' /\ length (st_heap st) <= l') /\
    length imports = length elements.
Proof.
  intros H. unfold Imports_init in H.
  apply bind_Ok in H as (imports & st1 & Hm & H).
  apply (Imports_clauses_entries _ (frames__create_sema_node fuel)) in Hm
    as (_ & new & -> & Hnew & _ & Hlow & Hnd);
    [|by intros k v0 ?%elem_of_nil].
  pose proof H as Hfr. apply frames_new in Hfr. destruct Hfr as [_ Hsame].
  apply new_lookup in H as (l & -> & Hl). exists l, new.
  split; [done|]. split; [done|]. split; [|split; [done|split; [done|]]].
  - eapply Forall2_impl; [exact Hnew|]. intros clause entry
      (symbols & module & oid & items & es & name & k & oid' & ? & ? & ? & ? & ? & Hk).
    exists symbols, module, oid, items, es, name, k, oid'.
    repeat (split; [done|]). rewrite Hsame; [done|]. by eapply lookup_lt_Some.
  - symmetry. by eapply Forall2_length.
Qed.

Lemma Imports_init_entries_witness :
  exists l imports st',
    Imports_init (_create_sema_node 5) two_clauses_same_module (State [] 0)
    = Ok (VRef l, st') /\
    st_heap st' !! l = Some (Obj Imports [("imports", VDict imports)]) /\
    NoDup (map fst imports) /\
    length imports = 2.
Proof.
  destruct (Imports_init (_create_sema_node 5) two_clauses_same_module (State [] 0))
    as [[v st']|] eqn:E; [|by vm_compute in E].
  destruct (Imports_init_entries 5 _ _ _ _ E)
    as (l & imports & -> & Hl & _ & Hnd & _ & Hlen).
  by exists l, imports, st'.
Defined.

(** ** What auto_tag leaves alone *)

(** [auto_tag] on a constructed type adds one TaggedType for each
    component with a [type_decl], or none when a component is tagged
    already: all that is new is TaggedType, the [type_decl] of each such
    component is one of the new objects, and with the components
    distinct the one at place [i] gets the new object at place [i], which
    is the TaggedType numbered [i] around the [type_decl] the component
    had.  It removes no object, changes no class and no attribute other
    than [type_decl], and touches no object but those components. *)
Theorem auto_tag_frame (h : heap) (self : loc) (components : list val) :
  is_constructed_type h self components ->
  exists h',
    auto_tag h self = Ok h' /\
    length h' = length h + (if already_tagged h components then 0
                            else length (typed_children h self)) /\
    (forall l o, h !! l = Some o ->
       exists o', h' !! l = Some o' /\ cls o' = cls o /\
         (forall k, k <> "type_decl" -> assoc k (attrs o') = assoc k (attrs o)) /\
         (l ∉ typed_children h self -> o' = o)) /\
    (forall t, length h <= t < length h' ->
       exists o, h' !! t = Some o /\ cls o = TaggedType) /\
    (already_tagged h components = false ->
     (forall c, c ∈ typed_children h self ->
        exists t, length h <= t < length h' /\
                  getattr h' (VRef c) "type_decl" = Ok (VRef t)) /\
     (NoDup (typed_children h self) ->
      forall i c, typed_children h self !! i = Some c ->
        exists e, getattr h (VRef c) "type_decl" = Ok e /\
                  getattr h' (VRef c) "type_decl" = Ok (VRef (length h + i)) /\
                  h' !! (length h + i) = Some (auto_tagged i e))).
Proof.
  intros Hself. rewrite (auto_tag_eq _ _ _ Hself).
  destruct (already_tagged h components).
  - exists h. split; [done|]. split; [lia|]. split; [|split; [|done]].
    + intros l o Ho. by exists o.
    + intros t Ht. lia.
  - eexists. split; [done|].
    pose proof (typed_children_typed h self) as Hall.
    destruct (wrap_children_frame _ h 0 Hall) as (Hlen & Hold & Hnew).
    split; [done|]. rewrite Hlen. split; [|split; [done|]].
    + intros l o Ho.
      destruct (Hold l o Ho) as (o' & Ho' & Hcls & Hattrs & Hsame & _).
      by exists o'.
    + intros _. split.
      * intros c Hc. rewrite Forall_forall in Hall.
        destruct (typed_inv _ _ (Hall c Hc)) as (o & e & Ho & He).
        destruct (Hold c o Ho) as (o' & Ho' & _ & _ & _ & Hin).
        destruct (Hin Hc) as (t & Ht & Htd). exists t. split; [done|].
        simpl. unfold vars. by rewrite Ho', Htd.
      * intros Hnd i c Hi.
        destruct (wrap_children_tags _ h 0 Hall Hnd i c Hi)
          as (o & e & Ho & He & Hc' & Ht).
        exists e. split; [|split; [|done]].
        -- simpl. unfold vars. by rewrite Ho, He.
        -- simpl. unfold vars. rewrite Hc'. simpl. by rewrite assoc_set_same.
Qed.

Lemma auto_tag_frame_witness :
  exists h',
    auto_tag components_of_heap 0 = Ok h' /\
    length h' = 7 + 3 /\
    (forall t, 7 <= t < 7 + 3 -> exists o, h' !! t = Some o /\ cls o = TaggedType).
Proof.
  destruct (auto_tag_frame components_of_heap 0 [VRef 1; VRef 2; VRef 3])
    as (h' & Hrun & Hlen & _ & Hnew & _).
  { exists SequenceType, (PStr "SEQUENCE"). split; reflexivity. }
  exists h'. split; [done|]. split; [exact Hlen|].
  intros t Ht. apply Hnew. rewrite Hlen. exact Ht.
Defined.
(** ** dependency_sort: the components are the strongly connected ones *)

Section DependencySortReachProofs.
Context {A : Type} `{AssignmentLike A} `{EqDecision A}.
Variable assignments : list A.

#[local] Instance leads_to_refl : Reflexive (leads_to assignments).
Proof. intros x. apply rtc_refl. Qed.

#[local] Instance leads_to_trans : Transitive (leads_to assignments).
Proof. intros x y z Hxy Hyz. unfold leads_to in *. by etrans. Qed.

Lemma stack_reach_app_r (l1 l2 : list A) :
  stack_reach assignments (l1 ++ l2) -> stack_reach assignments l2.
Proof. induction l1 as [|y l1 IH]; simpl; [done|]. intros [_ ?]. auto. Qed.

Lemma stack_reach_app_elem (l1 l2 : list A) x y :
  stack_reach assignments (l1 ++ l2) -> y ∈ l1 -> x ∈ l2 ->
  leads_to assignments x y.
Proof.
  induction l1 as [|z l1 IH]; simpl; intros Hs Hy Hx.
  - by apply elem_of_nil in Hy.
  - destruct Hs as [Hz Hr]. apply elem_of_cons in Hy as [->|Hy]; [|by apply IH].
    apply Hz, elem_of_app. by right.
Qed.

Lemma app_self_nil {X} (seg l : list X) : l = seg ++ l -> seg = [].
Proof.
  intros Hl. apply (f_equal length) in Hl. rewrite length_app in Hl.
  destruct seg; [done | simpl in Hl; lia].
Qed.

Lemma push_visit_reach (s : tarjan A) v :
  reach_inv assignments s ->
  (forall x, x ∈ stack s -> leads_to assignments x v) ->
  visit_reach assignments s v (push s v).
Proof.
  intros [Hsr Hcon] Hpre. split; [|split].
  - split; simpl; [by split | done].
  - simpl. intros seg Hseg w Hw.
    assert (seg = []) as ->.
    { apply (app_self_nil seg (v :: stack s)). by rewrite <- Hseg at 1. }
    by apply elem_of_nil in Hw.
  - simpl. intros low. rewrite map_set_eq. intros [= <-].
    exists v. split; [by left|]. split; [apply map_set_eq | done].
Qed.

Lemma visit_successors_cons (sc : A -> tarjan A -> option (res (tarjan A)))
  v u rest (s1 : tarjan A) :
  visit_successors sc v (u :: rest) s1 =
  match visit_successors sc v [u] s1 with
  | Some (Ok s2) => visit_successors sc v rest s2
  | other => other
  end.
Proof.
  simpl. destruct (lowlinks s1 u).
  - destruct (decide (u ∈ stack s1)); [|done]. by destruct (lower _ _ _ _).
  - destruct (sc u s1) as [[s2|e]|]; [|done|done]. by destruct (lower _ _ _ _).
Qed.

(** The nodes of the stack of the loop all reach [v]. *)
Lemma visit_reach_stack (s s1 : tarjan A) v seg :
  (forall x, x ∈ stack s -> leads_to assignments x v) ->
  visit_reach assignments s v s1 ->
  stack s1 = seg ++ v :: stack s ->
  forall x, x ∈ stack s1 -> leads_to assignments x v.
Proof.
  intros Hpre (_ & Hseg & _) Hst x Hx. rewrite Hst in Hx.
  apply elem_of_app in Hx as [Hx|Hx]; [by eapply Hseg|].
  apply elem_of_cons in Hx as [->|Hx]; [done | by apply Hpre].
Qed.

Section Loop.
Variable sc : A -> tarjan A -> option (res (tarjan A)).
Variable n : nat.
Variable s : tarjan A.
Variable v : A.
Hypothesis Hinvs : tarjan_inv assignments s.
Hypothesis Hv : index_of s v = None.
Hypothesis Hpre : forall x, x ∈ stack s -> leads_to assignments x v.
Hypothesis Hsc : forall u s1,
  tarjan_inv assignments s1 -> index_of s1 u = None -> u ∈ assignments ->
  unvisited assignments s1 < n ->
  exists s2, sc u s1 = Some (Ok s2) /\ strongconnect_post assignments s1 u s2.
Hypothesis Hsc_reach : forall u s1 s2,
  tarjan_inv assignments s1 -> index_of s1 u = None -> u ∈ assignments ->
  unvisited assignments s1 < n ->
  reach_inv assignments s1 ->
  (forall x, x ∈ stack s1 -> leads_to assignments x u) ->
  sc u s1 = Some (Ok s2) -> strongconnect_reach assignments s1 u s2.

Lemma visit_successor_reach done u (s1 s2 : tarjan A) :
  visit_inv assignments s v done s1 -> unvisited assignments s1 < n ->
  refers_to assignments v u ->
  visit_reach assignments s v s1 ->
  visit_successors sc v [u] s1 = Some (Ok s2) ->
  visit_reach assignments s v s2 /\
  unvisited assignments s2 <= unvisited assignments s1.
Proof.
  intros Hvi Hfuel Hvu Hvr Hrun.
  pose proof Hvi as (Hinv1 & Hext & Hidx & seg & lv & Hst & Hlow & _).
  pose proof Hinv1 as (Hlowidx & Hlt1 & Hvis1 & Hnd1 & Hin1 & Hle1 & Hcl1 & Hne1).
  pose proof (visit_reach_stack s s1 v seg Hpre Hvr Hst) as Hall1.
  pose proof Hvr as ((Hsr1 & Hcon1) & Hseg1 & Hwit1).
  simpl in Hrun. destruct (lowlinks s1 u) as [lu0|] eqn:Hlu.
  - assert (Hiu : is_Some (index_of s1 u)) by (apply Hlowidx; eauto).
    destruct Hiu as [iu Hiu].
    destruct (decide (u ∈ stack s1)) as [Hstk|Hstk].
    + unfold lower, map_get in Hrun. rewrite Hlow, Hiu in Hrun. simpl in Hrun.
      inversion Hrun; subst s2. split; [|done].
      split; [done|]. split; [done|]. simpl.
      intros low. rewrite map_set_eq. intros [= <-].
      destruct (decide (lv <= iu)) as [Hle|Hle].
      * rewrite Nat.min_l by done. by apply Hwit1.
      * rewrite Nat.min_r by lia. exists u. split; [done|]. split; [done|].
        by apply rtc_once.
    + inversion Hrun; subst s2. done.
  - assert (Hiu : index_of s1 u = None).
    { destruct (index_of s1 u) eqn:E; [|done].
      destruct (proj2 (Hlowidx u)) as [? ?]; [eauto | congruence]. }
    assert (Hua : u ∈ assignments) by (by eapply refers_to_elem).
    destruct (Hsc u s1 Hinv1 Hiu Hua Hfuel) as (s2' & Hs2' & Hpost).
    rewrite Hs2' in Hrun.
    assert (Hreach : strongconnect_reach assignments s1 u s2').
    { apply Hsc_reach; try done.
      intros x Hx. eapply rtc_r; [by apply Hall1 | done]. }
    destruct Hpost as (Hinv2 & Hext2 & Hidx2 & new & lu & Hst2 & Hlow2 & Hroot & _).
    destruct Hreach as (Hri2 & Hnew2 & Hwit2).
    pose proof Hext2 as (Hc2 & _ & Hp2 & _).
    pose proof Hext as (Hc1 & _).
    assert (Hlv2 : lowlinks s2' v = Some lv).
    { destruct (Hp2 v) as [_ ->]; [rewrite Hidx; eauto | done]. }
    unfold lower, map_get in Hrun. rewrite Hlv2, Hlow2 in Hrun. simpl in Hrun.
    inversion Hrun; subst s2. split.
    + split; [done|]. split; simpl.
      * intros seg' Hseg' w Hw.
        assert (seg' = new ++ seg) as ->.
        { apply (app_inv_tail (v :: stack s)).
          by rewrite <- Hseg', Hst2, Hst, app_assoc. }
        apply elem_of_app in Hw as [Hw|Hw]; [|by eapply Hseg1].
        destruct Hroot as [->|[_ Hlt]]; [by apply elem_of_nil in Hw|].
        destruct (Hwit2 lu Hlow2 Hlt) as (x & Hx & _ & Hux).
        etrans; [by eapply Hnew2|]. etrans; [exact Hux|]. by apply Hall1.
      * intros low. rewrite map_set_eq. intros [= <-].
        destruct (decide (lv <= lu)) as [Hle|Hle].
        -- rewrite Nat.min_l by done.
           destruct (Hwit1 lv Hlow) as (x & Hx & Hix & Hvx).
           exists x. split; [rewrite Hst2; apply elem_of_app; by right|].
           split; [|done]. destruct (Hp2 x) as [-> _]; [eauto | done].
        -- rewrite Nat.min_r by lia.
           specialize (Hle1 v lv _ Hlow Hidx).
           destruct (Hwit2 lu Hlow2 ltac:(lia)) as (x & Hx & Hix & Hux).
           exists x. split; [rewrite Hst2; apply elem_of_app; by right|].
           split; [destruct (Hp2 x) as [-> _]; [eauto | done]|].
           eapply rtc_l; [exact Hvu | exact Hux].
    + apply unvisited_mono. intros x Hx. simpl. exact (extends_visited s1 s2' x Hext2 Hx).
Qed.

Lemma visit_successors_reach : forall rest done (s1 s2 : tarjan A),
  visit_inv assignments s v done s1 -> unvisited assignments s1 < n ->
  (forall u, u ∈ rest -> refers_to assignments v u) ->
  visit_reach assignments s v s1 ->
  visit_successors sc v rest s1 = Some (Ok s2) ->
  visit_reach assignments s v s2.
Proof.
  induction rest as [|u rest IH]; intros done s1 s2 Hvi Hfuel Hrest Hvr Hrun.
  { simpl in Hrun. by inversion Hrun; subst s2. }
  rewrite visit_successors_cons in Hrun.
  assert (Hvu : refers_to assignments v u) by (apply Hrest; by left).
  destruct (visit_successors_spec assignments sc n s v Hinvs Hv Hsc [u] done s1 Hvi Hfuel)
    as (s3 & Hs3 & Hvi3).
  { intros u' ->%list_elem_of_singleton. by eapply refers_to_elem. }
  rewrite Hs3 in Hrun.
  destruct (visit_successor_reach done u s1 s3 Hvi Hfuel Hvu Hvr Hs3) as [Hvr3 Hle].
  apply (IH (done ++ [u]) s3 s2); try done.
  - lia.
  - intros u' Hu'. apply Hrest. by right.
Qed.

End Loop.

Lemma close_component_reach (s s1 s2 : tarjan A) v :
  tarjan_inv assignments s -> index_of s v = None ->
  visit_inv assignments s v (graph_get assignments v) s1 ->
  visit_reach assignments s v s1 ->
  close_component v s1 = Ok s2 ->
  strongconnect_reach assignments s v s2.
Proof.
  intros Hinvs Hv (Hinv1 & Hext & Hidx & seg & lv & Hst & Hlow & _)
         ((Hsr1 & Hcon1) & Hseg1 & Hwit1) Hrun.
  pose proof Hinv1 as (Hlowidx & Hlt1 & Hvis1 & Hnd1 & Hin1 & Hle1 & Hcl1 & Hne1).
  pose proof Hinvs as (_ & Hlts & Hviss & _).
  pose proof Hext as (Hc & _ & Hp & Hn).
  unfold close_component, map_get in Hrun. rewrite Hlow, Hidx in Hrun.
  simpl in Hrun. case_bool_decide as Hroot.
  - subst lv.
    assert (Hvseg : v ∉ seg).
    { rewrite Hst in Hnd1. apply NoDup_app in Hnd1 as (Hnd1 & _ & _).
      apply NoDup_app in Hnd1 as (_ & Hdis & _). intros Hx. apply (Hdis v Hx). by left. }
    rewrite Hst, (pop_component_seg v seg (stack s) Hvseg) in Hrun.
    inversion Hrun; subst s2. rewrite Hst in Hsr1.
    split; [split|split]; simpl.
    + apply (stack_reach_app_r (seg ++ [v])). by rewrite <- app_assoc.
    + intros C a b [HC|HC%list_elem_of_singleton]%elem_of_app Ha Hb;
        [by eapply Hcon1|]. subst C.
      trans v.
      * apply elem_of_app in Ha as [Ha|Ha%list_elem_of_singleton];
          [by eapply Hseg1 | by subst a].
      * apply elem_of_app in Hb as [Hb|Hb%list_elem_of_singleton]; [|by subst b].
        apply (stack_reach_app_elem seg (v :: stack s)); [done | done | by left].
    + intros new Hnew w Hw. apply app_self_nil in Hnew. subst new.
      by apply elem_of_nil in Hw.
    + intros low Hl Hlt. rewrite Hlow in Hl. inversion Hl. lia.
  - inversion Hrun; subst s2. split; [done|]. split.
    + intros new Hnew w Hw.
      assert (new = seg ++ [v]) as ->.
      { apply (app_inv_tail (stack s)). by rewrite <- Hnew, Hst, <- app_assoc. }
      apply elem_of_app in Hw as [Hw|Hw%list_elem_of_singleton];
        [by eapply Hseg1 | by subst w].
    + intros low Hl Hlt. destruct (Hwit1 low Hl) as (x & Hx & Hix & Hvx).
      exists x. rewrite Hst in Hx.
      assert (Hxs : x ∈ stack s).
      { apply elem_of_app in Hx as [Hx|Hx].
        - exfalso. destruct (index_of s x) as [j|] eqn:E.
          + assert (Hxx : x ∈ stack s ++ concat (result s)) by (apply Hviss; eauto).
            rewrite Hst in Hnd1.
            destruct Hext as (_ & (more & Hr) & _).
            rewrite Hr, concat_app in Hnd1.
            apply NoDup_app in Hnd1 as (Hnd1 & Hdis1 & _).
            apply NoDup_app in Hnd1 as (_ & Hdis & _).
            apply elem_of_app in Hxx as [Hxx|Hxx].
            * apply (Hdis x Hx). by right.
            * apply (Hdis1 x); [apply elem_of_app; by left|].
              apply elem_of_app. by left.
          + specialize (Hn x low E Hix). lia.
        - apply elem_of_cons in Hx as [->|Hx]; [|done].
          rewrite Hidx in Hix. inversion Hix. lia. }
      split; [done|]. split; [|done].
      destruct (Hp x) as [Hi' _]; [apply Hviss, elem_of_app; by left|].
      by rewrite <- Hi'.
Qed.

Lemma strongconnect_reach_spec (fuel : nat) : forall v (s s' : tarjan A),
  tarjan_inv assignments s -> index_of s v = None -> v ∈ assignments ->
  unvisited assignments s < fuel ->
  reach_inv assignments s ->
  (forall x, x ∈ stack s -> leads_to assignments x v) ->
  strongconnect fuel assignments v s = Some (Ok s') ->
  strongconnect_reach assignments s v s'.
Proof.
  induction fuel as [|n IH]; intros v s s' Hinv Hv Hva Hfuel Hri Hpre Hrun; [lia|].
  simpl in Hrun.
  assert (Hfuel1 : unvisited assignments (push s v) < n).
  { assert (unvisited assignments (push s v) < unvisited assignments s); [|lia].
    apply (unvisited_visit assignments s (push s v) v); [|done|done|].
    + intros x [i Hi]. simpl. destruct (decide (x = v)) as [->|Hne].
      * rewrite map_set_eq. eauto.
      * rewrite map_set_ne by done. eauto.
    + simpl. rewrite map_set_eq. eauto. }
  destruct (visit_successors_spec assignments (strongconnect n assignments) n s v
              Hinv Hv (strongconnect_spec assignments n)
              (graph_get assignments v) [] (push s v))
    as (s1 & Hs1 & Hvi).
  - by apply push_visit_inv.
  - done.
  - intros u Hu. by eapply refers_to_elem.
  - rewrite Hs1 in Hrun. inversion Hrun as [Hclose].
    apply (close_component_reach s s1 s' v Hinv Hv Hvi); [|done].
    apply (visit_successors_reach (strongconnect n assignments) n s v Hinv Hv Hpre
             (strongconnect_spec assignments n) (IH)
             (graph_get assignments v) [] (push s v) s1); try done.
    + by apply push_visit_inv.
    + by apply push_visit_reach.
Qed.

Lemma visit_roots_reach (fuel : nat) : forall nodes (s s' : tarjan A),
  tarjan_inv assignments s -> stack s = [] ->
  (forall v, v ∈ nodes -> v ∈ assignments) ->
  length (graph_keys assignments) < fuel ->
  reach_inv assignments s ->
  visit_roots fuel assignments nodes s = Some (Ok s') ->
  reach_inv assignments s'.
Proof.
  induction nodes as [|v nodes IH]; intros s s' Hinv Hstk Hnodes Hfuel Hri Hrun;
    simpl in Hrun.
  { by inversion Hrun; subst s'. }
  pose proof Hinv as (Hlowidx & _).
  destruct (lowlinks s v) as [l|] eqn:Hl.
  - apply (IH s s'); try done. intros x Hx. apply Hnodes. by right.
  - assert (Hv : index_of s v = None).
    { destruct (index_of s v) eqn:E; [|done].
      destruct (proj2 (Hlowidx v)) as [? ?]; [eauto | congruence]. }
    assert (Hva : v ∈ assignments) by (apply Hnodes; by left).
    assert (Hun : unvisited assignments s < fuel).
    { pose proof (unvisited_le_length assignments s). lia. }
    destruct (strongconnect_spec assignments fuel v s Hinv Hv Hva Hun)
      as (s1 & Hs1 & Hpost).
    rewrite Hs1 in Hrun.
    assert (Hri1 : reach_inv assignments s1).
    { apply (strongconnect_reach_spec fuel v s s1); try done.
      intros x Hx. rewrite Hstk in Hx. by apply elem_of_nil in Hx. }
    destruct Hpost as (Hinv1 & Hext & Hidx & new & low & Hst & Hlow & Hroot & _ & Hbound).
    assert (Hnew : new = []).
    { destruct Hroot as [?|[_ Hlt]]; [done|].
      assert (index_counter s <= low); [|lia].
      apply Hbound; [done|]. intros x i Hx. rewrite Hstk in Hx. by apply elem_of_nil in Hx. }
    apply (IH s1 s'); try done.
    + by rewrite Hst, Hnew, Hstk.
    + intros x Hx. apply Hnodes. by right.
Qed.

Lemma closed_leads_to (l : list (list A)) a b :
  closed assignments l -> NoDup (concat l) ->
  leads_to assignments a b ->
  forall k k' C C', l !! k = Some C -> l !! k' = Some C' ->
    a ∈ C -> b ∈ C' -> k' <= k.
Proof.
  intros Hcl Hnd Hab. induction Hab as [a | a m b Ham _ IH]; intros k k' C C' Hk Hk' Ha Hb.
  - by rewrite (component_unique l k k' C C' a Hnd Hk Hk' Ha Hb).
  - destruct (Hcl k C a m Hk Ha Ham) as (k2 & C2 & Hle & Hk2 & Hm2).
    specialize (IH k2 k' C2 C' Hk2 Hk' Hm2 Hb). lia.
Qed.

(** The tuples [dependency_sort] returns are the strongly connected
    components of the references: two assignments are in the same tuple
    exactly when each of them leads to the other through references. *)
Theorem dependency_sort_components (components : list (list A)) :
  dependency_sort assignments = Some (Ok components) ->
  forall k k' C C' a b,
    components !! k = Some C -> components !! k' = Some C' ->
    a ∈ C -> b ∈ C' ->
    (k = k' <-> leads_to assignments a b /\ leads_to assignments b a).
Proof.
  unfold dependency_sort.
  set (nodes := sorted String.leb reference_name (graph_keys assignments)).
  assert (Hperm : nodes ≡ₚ graph_keys assignments) by apply sorted_perm.
  assert (Hnodes : forall v, v ∈ nodes -> v ∈ assignments).
  { intros v Hv. rewrite Hperm in Hv. by apply graph_keys_elem. }
  assert (Hfuel : length (graph_keys assignments) < S (length nodes)).
  { rewrite Hperm. lia. }
  destruct (visit_roots_spec assignments (S (length nodes)) nodes tarjan_init
              (tarjan_init_inv assignments) eq_refl Hnodes Hfuel)
    as (s & Hs & Hinv & Hstk & _ & Hall).
  rewrite Hs. intros [= <-].
  assert (Hri : reach_inv assignments s).
  { apply (visit_roots_reach (S (length nodes)) nodes tarjan_init s); try done.
    - apply tarjan_init_inv.
    - split; simpl; [done|]. by intros C a b ?%elem_of_nil. }
  destruct Hri as [_ Hcon].
  destruct Hinv as (_ & _ & _ & Hnd & _ & _ & Hcl & _).
  rewrite Hstk in Hnd. simpl in Hnd.
  intros k k' C C' a b Hk Hk' Ha Hb. split.
  - intros <-. rewrite Hk in Hk'. inversion Hk'; subst C'.
    assert (HC : C ∈ result s) by (by eapply list_elem_of_lookup_2).
    split; by eapply Hcon.
  - intros [Hab Hba].
    pose proof (closed_leads_to (result s) a b Hcl Hnd Hab k k' C C' Hk Hk' Ha Hb).
    pose proof (closed_leads_to (result s) b a Hcl Hnd Hba k' k C' C Hk' Hk Hb Ha).
    lia.
Qed.

End DependencySortReachProofs.

Lemma dependency_sort_components_witness :
  dependency_sort ab_cyclic
  = Some (Ok [[MkAssignment 9 "B" ["A"]; MkAssignment 4 "A" ["B"]]]) /\
  (0 = 0 <->
   leads_to ab_cyclic (MkAssignment 9 "B" ["A"]) (MkAssignment 4 "A" ["B"]) /\
   leads_to ab_cyclic (MkAssignment 4 "A" ["B"]) (MkAssignment 9 "B" ["A"])).
Proof.
  assert (Hrun : dependency_sort ab_cyclic
                 = Some (Ok [[MkAssignment 9 "B" ["A"]; MkAssignment 4 "A" ["B"]]]))
    by (by vm_compute).
  split; [exact Hrun|].
  apply (dependency_sort_components ab_cyclic
           [[MkAssignment 9 "B" ["A"]; MkAssignment 4 "A" ["B"]]] Hrun 0 0
           [MkAssignment 9 "B" ["A"]; MkAssignment 4 "A" ["B"]]
           [MkAssignment 9 "B" ["A"]; MkAssignment 4 "A" ["B"]]).
  - reflexivity.
  - reflexivity.
  - by left.
  - right. by left.
Defined.
(** ** resolve_selection_type: the alternative that is found *)

Lemma find_component_first h before c after sel ident :
  getattr h sel "identifier" = Ok (VStr ident) ->
  Forall (fun b => exists i, getattr h b "identifier" = Ok i /\
                             py_eq i (VStr ident) = false) before ->
  find_component h (before ++ c :: after) sel
  = (i <~ getattr h c "identifier";;
     if py_eq i (VStr ident) then getattr h c "type_decl"
     else find_component h after sel).
Proof.
  intros Hsel. induction 1 as [|b before (i & Hi & E) _ IH].
  - simpl. destruct (getattr h c "identifier"); [|done]. simpl. by rewrite Hsel.
  - cbn [app find_component]. rewrite Hi, Hsel. cbn [res_bind]. by rewrite E.
Qed.

(** [resolve_selection_type] goes through the components of the type the
    selection names in their order: it returns the type of the first one
    that has the identifier of the selection, whatever comes after it, and
    it raises an AttributeError when it meets an extension marker before
    it has found one. *)
Theorem resolve_selection_type_first_match (h : heap) (self : loc)
  (selection_type_decl : val) (ident : string) (inner name : val)
  (ut : list (val * val)) (h' : heap) (choice_type : val)
  (before : list val) (c : val) (after : list val) :
  isinstance h selection_type_decl SelectionType = true ->
  getattr h selection_type_decl "identifier" = Ok (VStr ident) ->
  getattr h selection_type_decl "type_decl" = Ok inner ->
  type_name h inner = Ok name ->
  user_types h self = Ok (ut, h') ->
  dict_get name ut = Some choice_type ->
  getattr h' choice_type "components" = Ok (VList (before ++ c :: after)) ->
  Forall (fun b => exists i, getattr h' b "identifier" = Ok i /\
                             py_eq i (VStr ident) = false) before ->
  (forall d,
     getattr h' c "identifier" = Ok (VStr ident) ->
     getattr h' c "type_decl" = Ok d ->
     resolve_selection_type h self selection_type_decl = Ok (d, h')) /\
  (forall l,
     c = VRef l -> h' !! l = Some (Obj ExtensionMarker []) ->
     resolve_selection_type h self selection_type_decl
     = Raise (AttributeError "identifier")).
Proof.
  intros Hsel Hid Hinner Hname Hut Hd Hcs Hbefore.
  assert (Hid' : getattr h' selection_type_decl "identifier" = Ok (VStr ident)).
  { by rewrite (user_types_getattr _ _ _ _ _ _ Hut). }
  assert (Hrun : resolve_selection_type h self selection_type_decl
                 = (d <~ find_component h' (before ++ c :: after) selection_type_decl;;
                    Ok (d, h'))).
  { unfold resolve_selection_type, get_type_decl. rewrite Hsel. cbn [negb].
    rewrite Hinner. cbn [res_bind]. rewrite Hname. cbn [res_bind].
    rewrite Hut. cbn [res_bind fst snd]. rewrite Hd. cbn [res_bind].
    by rewrite Hcs. }
  rewrite Hrun, (find_component_first h' before c after _ ident Hid' Hbefore).
  split.
  - intros d Hi Hdecl. rewrite Hi. cbn [res_bind].
    assert (py_eq (VStr ident) (VStr ident) = true) as ->
      by (simpl; by apply bool_decide_eq_true).
    by rewrite Hdecl.
  - intros l -> Hl. unfold getattr, vars. by rewrite Hl.
Qed.

Lemma resolve_selection_type_first_match_witness :
  (exists h', resolve_selection_type extensible_choice 0 (VRef 8) = Ok (VRef 4, h')) /\
  resolve_selection_type extensible_choice 0 (VRef 10)
  = Raise (AttributeError "identifier").
Proof.
  split.
  - eexists.
    apply (resolve_selection_type_first_match extensible_choice 0 (VRef 8) "a"
             (VRef 9) (VStr "C") [(VStr "C", VRef 2)]
             (setattr extensible_choice 0 "_user_types" (VDict [(VStr "C", VRef 2)]))
             (VRef 2) [] (VRef 3) [VRef 5; VRef 6]); try reflexivity.
    constructor.
  - apply (resolve_selection_type_first_match extensible_choice 0 (VRef 10) "b"
             (VRef 9) (VStr "C") [(VStr "C", VRef 2)]
             (setattr extensible_choice 0 "_user_types" (VDict [(VStr "C", VRef 2)]))
             (VRef 2) [VRef 3] (VRef 5) [VRef 6]) with (l := 5); try reflexivity.
    repeat constructor. eexists. split; reflexivity.
Defined.
(** ** resolve_type_decl: names that go round in a circle *)

Lemma user_types_again (h h1 : heap) (self : loc) (d : list (val * val)) :
  user_types h self = Ok (d, h1) -> user_types h1 self = Ok (d, h1).
Proof.
  unfold user_types. intros Hu.
  apply res_bind_Ok in Hu as (cache & Hcache & Hu).
  destruct cache as [| | | | | |kvs|]; try done.
  destruct kvs as [|kv kvs].
  2:{ inversion Hu; subst. by rewrite Hcache. }
  apply res_bind_Ok in Hu as (asg & Hasg & Hu).
  destruct asg as [| | | | |l| |]; try done.
  apply res_bind_Ok in Hu as (d' & Hd & Hu). inversion Hu; subst d' h1. clear Hu.
  assert (Ho : exists o, h !! self = Some o).
  { simpl in Hcache. unfold vars in Hcache. destruct (h !! self); [eauto | done]. }
  destruct Ho as [o Ho].
  rewrite (getattr_setattr_same _ _ _ _ _ Ho). cbn [res_bind].
  destruct d as [|kv d]; [|done].
  rewrite getattr_setattr_other_name, Hasg by done. cbn [res_bind].
  rewrite index_type_assignments_setattr, Hd by done. cbn [res_bind].
  by rewrite setattr_idemp.
Qed.

(** One step of [resolve_type_decl] on a reference without a module
    name, to a name the module has. *)
Lemma resolve_type_decl_step n h self ut h1 d name d' modules :
  isinstance h d ReferencedType = true ->
  getattr h d "module_name" = Ok VNone ->
  user_types h self = Ok (ut, h1) ->
  type_name h1 d = Ok name ->
  dict_get name ut = Some d' ->
  resolve_type_decl (S n) h (VRef self) d modules
  = resolve_type_decl n h1 (VRef self) d' modules.
Proof.
  intros Hinst Hmod Hut Hname Hd. cbn [resolve_type_decl].
  rewrite Hinst, Hmod. cbn [res_bind val_truthy negb].
  rewrite Hut. cbn [res_bind fst snd]. rewrite Hname. cbn [res_bind].
  by rewrite Hd.
Qed.

(** Type names that are defined as each other, as in [A ::= B  B ::= A],
    are never resolved: [resolve_type_decl] follows them until the
    recursion is cut off, however deep it may go. *)
Theorem resolve_type_decl_circular (h h1 : heap) (self : loc)
  (ut : list (val * val)) (circular : val -> Prop) (modules : list val) :
  user_types h self = Ok (ut, h1) ->
  (forall d, circular d ->
     isinstance h1 d ReferencedType = true /\
     getattr h1 d "module_name" = Ok VNone /\
     exists name d',
       type_name h1 d = Ok name /\ dict_get name ut = Some d' /\ circular d') ->
  forall fuel d, circular d ->
    resolve_type_decl fuel h (VRef self) d modules = Raise RecursionError.
Proof.
  intros Hut Hcirc.
  assert (Hut1 : user_types h1 self = Ok (ut, h1)) by (by eapply user_types_again).
  assert (Hloop : forall fuel d, circular d ->
            resolve_type_decl fuel h1 (VRef self) d modules = Raise RecursionError).
  { induction fuel as [|n IH]; intros d Hd; [done|].
    destruct (Hcirc d Hd) as (Hinst & Hmod & name & d' & Hname & Hget & Hd').
    rewrite (resolve_type_decl_step n h1 self ut h1 d name d'); auto. }
  intros [|n] d Hd; [done|].
  destruct (Hcirc d Hd) as (Hinst & Hmod & name & d' & Hname & Hget & Hd').
  rewrite (resolve_type_decl_step n h self ut h1 d name d'); auto.
  - by rewrite <- (user_types_isinstance _ _ _ _ _ _ Hut).
  - by rewrite <- (user_types_getattr _ _ _ _ _ _ Hut).
Qed.

Lemma resolve_type_decl_circular_witness :
  resolve_type_decl 1000 alias_cycle (VRef 0) (VRef 2) [] = Raise RecursionError.
Proof.
  apply (resolve_type_decl_circular alias_cycle
           (setattr alias_cycle 0 "_user_types"
              (VDict [(VStr "A", VRef 2); (VStr "B", VRef 4)]))
           0 [(VStr "A", VRef 2); (VStr "B", VRef 4)]
           (fun d => d = VRef 2 \/ d = VRef 4) []).
  - reflexivity.
  - intros d [->| ->].
    + split; [reflexivity|]. split; [reflexivity|].
      exists (VStr "B"), (VRef 4). split; [reflexivity|]. split; [reflexivity|].
      by right.
    + split; [reflexivity|]. split; [reflexivity|].
      exists (VStr "A"), (VRef 2). split; [reflexivity|]. split; [reflexivity|].
      by left.
  - by left.
Defined.
(** ** Type names under automatic tagging *)

Lemma type_name_of_mono n : forall m h x name,
  type_name_of n h x = Ok name -> n <= m -> type_name_of m h x = Ok name.
Proof.
  induction n as [|n IH]; intros m h x name Hn Hle; [done|].
  destruct m as [|m]; [lia|]. cbn [type_name_of] in *.
  destruct (isinstance h x TaggedType || isinstance h x SelectionType); [|done].
  destruct (getattr h x "type_decl") as [inner|]; [|done]. cbn [res_bind] in *.
  apply IH; [done | lia].
Qed.

Section WrapChild.
Variables (h : heap) (k : nat) (c : loc) (oc : obj) (e : val).
Hypothesis Hoc : h !! c = Some oc.
Hypothesis He : assoc "type_decl" (attrs oc) = Some e.

Lemma wrap_child_lookup_ne l : l <> c -> l < length h ->
  wrap_child h k c !! l = h !! l.
Proof using Hoc He.
  intros Hne Hlt. rewrite (wrap_child_eq _ _ _ _ _ Hoc He).
  rewrite lookup_app_l by by rewrite length_insert.
  by apply list_lookup_insert_ne.
Qed.

Lemma wrap_child_lookup_eq :
  wrap_child h k c !! c
  = Some (Obj (cls oc) (assoc_set "type_decl" (VRef (length h)) (attrs oc))).
Proof using Hoc He.
  pose proof (lookup_lt_Some _ _ _ Hoc) as Hlt.
  rewrite (wrap_child_eq _ _ _ _ _ Hoc He).
  rewrite lookup_app_l by by rewrite length_insert.
  by apply list_lookup_insert_eq.
Qed.

Lemma wrap_child_lookup_new : wrap_child h k c !! length h = Some (auto_tagged k e).
Proof using Hoc He.
  rewrite (wrap_child_eq _ _ _ _ _ Hoc He).
  rewrite lookup_app_r by by rewrite length_insert.
  by rewrite length_insert, Nat.sub_diag.
Qed.

Lemma wrap_child_length : length (wrap_child h k c) = S (length h).
Proof using Hoc He.
  rewrite (wrap_child_eq _ _ _ _ _ Hoc He), length_app, length_insert. simpl. lia.
Qed.

Lemma isinstance_wrap_child l C : l < length h ->
  isinstance (wrap_child h k c) (VRef l) C = isinstance h (VRef l) C.
Proof using Hoc He.
  intros Hlt. simpl. destruct (decide (l = c)) as [->|Hne].
  - by rewrite wrap_child_lookup_eq, Hoc.
  - by rewrite wrap_child_lookup_ne.
Qed.

Lemma getattr_wrap_child l a : (l <> c \/ a <> "type_decl") -> l < length h ->
  getattr (wrap_child h k c) (VRef l) a = getattr h (VRef l) a.
Proof using Hoc He.
  intros Hor Hlt. simpl. unfold vars. destruct (decide (l = c)) as [->|Hne].
  - destruct Hor as [?|Ha]; [done|].
    rewrite wrap_child_lookup_eq, Hoc. simpl. by rewrite assoc_set_other.
  - by rewrite wrap_child_lookup_ne.
Qed.

Hypothesis Htag : issubclass (cls oc) TaggedType = false.
Hypothesis Hsel : issubclass (cls oc) SelectionType = false.

(** What had a type name has it still. *)
Lemma type_name_of_wrap_child n : forall x name,
  type_name_of n h x = Ok name -> type_name_of n (wrap_child h k c) x = Ok name.
Proof using Hoc He Htag Hsel.
  induction n as [|n IH]; intros x name Hn; [done|].
  cbn [type_name_of] in *.
  destruct x as [| | | |l| | |]; try done.
  assert (Hlt : l < length h).
  { destruct (h !! l) as [o|] eqn:Ho; [by eapply lookup_lt_Some|].
    simpl in Hn. unfold vars in Hn. by rewrite Ho in Hn. }
  rewrite !isinstance_wrap_child by done.
  destruct (decide (l = c)) as [->|Hne].
  - assert (isinstance h (VRef c) TaggedType || isinstance h (VRef c) SelectionType
            = false) as Hno by (simpl; by rewrite Hoc, Htag, Hsel).
    rewrite Hno in *. rewrite getattr_wrap_child; [done | by right | done].
  - destruct (isinstance h (VRef l) TaggedType || isinstance h (VRef l) SelectionType).
    + rewrite getattr_wrap_child; [|by left|done].
      destruct (getattr h (VRef l) "type_decl") as [inner|]; [|done].
      cbn [res_bind] in *. by apply IH.
    + rewrite getattr_wrap_child; [done | by left | done].
Qed.

(** The type name behind the [type_decl] of a node is still behind it,
    one step further when the node is the one that was tagged. *)
Lemma member_type_name_wrap_child n x e0 name :
  getattr h x "type_decl" = Ok e0 -> type_name_of n h e0 = Ok name ->
  exists e', getattr (wrap_child h k c) x "type_decl" = Ok e' /\
             type_name_of (S n) (wrap_child h k c) e' = Ok name.
Proof using Hoc He Htag Hsel.
  intros Hx Hn. destruct x as [| | | |l| | |]; try done.
  assert (Hlt : l < length h).
  { destruct (h !! l) as [o|] eqn:Ho; [by eapply lookup_lt_Some|].
    simpl in Hx. unfold vars in Hx. by rewrite Ho in Hx. }
  destruct (decide (l = c)) as [->|Hne].
  - assert (e0 = e) as ->.
    { simpl in Hx. unfold vars in Hx. rewrite Hoc, He in Hx. by inversion Hx. }
    exists (VRef (length h)). split.
    + simpl. unfold vars. rewrite wrap_child_lookup_eq. simpl.
      by rewrite assoc_set_same.
    + cbn [type_name_of]. simpl. unfold vars. rewrite wrap_child_lookup_new. simpl.
      by apply type_name_of_wrap_child.
  - exists e0. split.
    + rewrite getattr_wrap_child; [done | by left | done].
    + apply (type_name_of_mono n); [|lia]. by apply type_name_of_wrap_child.
Qed.

End WrapChild.

Lemma plain_typed_inv h c : plain_typed h c ->
  exists oc e, h !! c = Some oc /\ assoc "type_decl" (attrs oc) = Some e /\
    issubclass (cls oc) TaggedType = false /\
    issubclass (cls oc) SelectionType = false.
Proof.
  intros (Ht & Htag & Hsel). destruct (typed_inv _ _ Ht) as (oc & e & Hoc & He).
  exists oc, e. simpl in Htag, Hsel. by rewrite Hoc in Htag, Hsel.
Qed.

Lemma plain_typed_wrap_child h k c x :
  plain_typed h c -> plain_typed h x -> plain_typed (wrap_child h k c) x.
Proof.
  intros Hc (Ht & Htag & Hsel).
  destruct (plain_typed_inv _ _ Hc) as (oc & e & Hoc & He & _).
  pose proof (typed_lt _ _ Ht) as Hlt.
  split; [apply typed_wrap_child; [apply Hc | done]|].
  by rewrite !(isinstance_wrap_child h k c oc e Hoc He).
Qed.

Lemma wrap_children_type_names cs : forall h k,
  Forall (plain_typed h) cs ->
  length (wrap_children h k cs) = length h + length cs /\
  (forall n x name,
     type_name_of n h x = Ok name ->
     type_name_of n (wrap_children h k cs) x = Ok name) /\
  (forall n x e0 name,
     getattr h x "type_decl" = Ok e0 -> type_name_of n h e0 = Ok name ->
     exists e', getattr (wrap_children h k cs) x "type_decl" = Ok e' /\
                type_name_of (n + length cs) (wrap_children h k cs) e' = Ok name).
Proof.
  induction cs as [|c cs IH]; intros h k Hall; simpl.
  { split; [lia|]. split; [done|]. intros n x e0 name Hx Hn. exists e0.
    by rewrite Nat.add_0_r. }
  apply Forall_cons in Hall as [Hc Hcs].
  destruct (plain_typed_inv _ _ Hc) as (oc & e & Hoc & He & Htag & Hsel).
  destruct (IH (wrap_child h k c) (S k)) as (Hlen & Hold & Hmem).
  { eapply Forall_impl; [exact Hcs|]. intros x. by apply plain_typed_wrap_child. }
  rewrite (wrap_child_length h k c oc e Hoc He) in Hlen.
  split; [lia|]. split.
  - intros n x name Hn. apply Hold.
    by apply (type_name_of_wrap_child h k c oc e Hoc He Htag Hsel).
  - intros n x e0 name Hx Hn.
    destruct (member_type_name_wrap_child h k c oc e Hoc He Htag Hsel n x e0 name Hx Hn)
      as (e1 & Hx1 & Hn1).
    destruct (Hmem (S n) x e1 name Hx1 Hn1) as (e' & Hx' & Hn').
    exists e'. split; [done|]. by replace (n + S (length cs)) with (S n + length cs) by lia.
Qed.

(** Automatic tagging changes no type name: what had a type name has it
    still, and the type behind the [type_decl] of a node, which may be
    tagged now, has the name it had. *)
Theorem auto_tag_type_names (h : heap) (self : loc) (components : list val) :
  is_constructed_type h self components ->
  (forall c, c ∈ typed_children h self ->
     isinstance h (VRef c) TaggedType = false /\
     isinstance h (VRef c) SelectionType = false) ->
  exists h',
    auto_tag h self = Ok h' /\
    (forall x name, type_name h x = Ok name -> type_name h' x = Ok name) /\
    (forall x e name,
       getattr h x "type_decl" = Ok e -> type_name h e = Ok name ->
       exists e', getattr h' x "type_decl" = Ok e' /\ type_name h' e' = Ok name).
Proof.
  intros Hself Hplain. rewrite (auto_tag_eq _ _ _ Hself).
  destruct (already_tagged h components).
  { exists h. split; [done|]. split; [done|]. intros x e name Hx Hn. by exists e. }
  eexists. split; [done|].
  destruct (wrap_children_type_names (typed_children h self) h 0) as (Hlen & Hold & Hmem).
  { apply Forall_forall. intros c Hc. split; [|by apply Hplain].
    pose proof (typed_children_typed h self) as Hall.
    rewrite Forall_forall in Hall. by apply Hall. }
  unfold type_name. rewrite Hlen. split.
  - intros x name Hn. apply (type_name_of_mono (S (length h))); [|lia]. by apply Hold.
  - intros x e name Hx Hn. destruct (Hmem _ x e name Hx Hn) as (e' & Hx' & Hn').
    by exists e'.
Qed.

Lemma auto_tag_type_names_witness :
  exists h' e',
    auto_tag components_of_heap 0 = Ok h' /\
    getattr h' (VRef 1) "type_decl" = Ok e' /\
    type_name h' e' = Ok (VStr "INTEGER").
Proof.
  destruct (auto_tag_type_names components_of_heap 0 [VRef 1; VRef 2; VRef 3])
    as (h' & Hrun & _ & Hmem).
  { exists SequenceType, (PStr "SEQUENCE"). split; reflexivity. }
  { intros c Hc.
    assert (Heq : typed_children components_of_heap 0 = [1; 2; 3]) by reflexivity.
    rewrite Heq in Hc.
    repeat (apply elem_of_cons in Hc as [->|Hc]; [by split|]).
    by apply elem_of_nil in Hc. }
  destruct (Hmem (VRef 1) (VRef 4) (VStr "INTEGER") eq_refl eq_refl) as (e' & Hx & Hn).
  by exists h', e'.
Defined.
(** ** What the factory leaves of the store *)

(** [_create_sema_node] only adds objects: every object that was in the
    store before the call is there afterwards, at the same place and with
    the same class and attributes, although ValueListType.__init__ does
    write to named values, which are those it has made itself. *)
Theorem _create_sema_node_frame (fuel : nat) (token : token) (st st' : state)
  (v : val) :
  _create_sema_node fuel token st = Ok (v, st') ->
  length (st_heap st) <= length (st_heap st') /\
  forall l o, st_heap st !! l = Some o -> st_heap st' !! l = Some o.
Proof.
  intros H. apply frames__create_sema_node in H as [Hlen Hsame].
  split; [done|]. intros l o Ho. rewrite Hsame; [done|]. by eapply lookup_lt_Some.
Qed.

Lemma _create_sema_node_frame_witness :
  exists v st',
    _create_sema_node 10 (type_assignment "T" (simple_type "INTEGER"))
      (State colours_heap 0) = Ok (v, st') /\
    3 <= length (st_heap st') /\
    st_heap st' !! 0 = colours_heap !! 0.
Proof.
  destruct (_create_sema_node 10 (type_assignment "T" (simple_type "INTEGER"))
              (State colours_heap 0)) as [[v st']|] eqn:E; [|by vm_compute in E].
  destruct (_create_sema_node_frame 10 _ _ _ _ E) as [Hlen Hsame].
  exists v, st'. split; [done|]. split; [exact Hlen|].
  by apply Hsame.
Defined.
